(** * Volume raycasting renderer: a shallow embedding of [render/renderer.cpp]

    The renderer computes on C++ [float] values.  They are modelled as the
    IEEE-754 binary32 instance of the Standard Library's [SpecFloat]
    (precision 24, maximal exponent 128, round to nearest even), so that
    infinities, NaN, signed zeros and rounding behave as on the machine.
    Every operation of the source rounds on its own: products and sums are
    not fused, and intermediate results are not kept in a wider format.
    The collaborators that are outside the renderer (volume, gradient
    volume, camera) are records of their query functions. *)

From Stdlib Require Import ZArith List Bool Lia.
From Stdlib Require Import Floats.SpecFloat.
Import ListNotations.
Local Open Scope Z_scope.

(** ** binary32 arithmetic *)

Module F32.

Definition prec : Z := 24.
Definition emax : Z := 128.

Definition float : Type := spec_float.

Definition add : float -> float -> float := SFadd prec emax.
Definition sub : float -> float -> float := SFsub prec emax.
Definition mul : float -> float -> float := SFmul prec emax.
Definition div : float -> float -> float := SFdiv prec emax.
Definition sqrt : float -> float := SFsqrt prec emax.
Definition neg : float -> float := SFopp.
Definition abs : float -> float := SFabs.

(** C++ comparison operators: every comparison with a NaN is false. *)
Definition ltb : float -> float -> bool := SFltb.
Definition leb : float -> float -> bool := SFleb.
Definition eqb : float -> float -> bool := SFeqb.
Definition gtb (a b : float) : bool := SFltb b a.
Definition geb (a b : float) : bool := SFleb b a.

Definition isnan (x : float) : bool :=
  match x with S754_nan => true | _ => false end.

Definition is_finite (x : float) : bool :=
  match x with S754_zero _ | S754_finite _ _ _ => true | _ => false end.

(** A value of the binary32 format. *)
Definition valid (x : float) : bool := valid_binary prec emax x.

(** Conversion of an integer constant, and the literals of the source. *)
Definition of_Z (n : Z) : float := binary_normalize prec emax n 0 false.

Definition zero : float := S754_zero false.
Definition one : float := S754_finite false 8388608 (-23).
Definition two : float := S754_finite false 8388608 (-22).
Definition three : float := S754_finite false 12582912 (-22).
Definition c256 : float := S754_finite false 8388608 (-15).
(** [0.8f] and [0.01f]: the binary32 values nearest to the decimals. *)
Definition c0_8 : float := S754_finite false 13421773 (-24).
Definition c0_01 : float := S754_finite false 10737418 (-30).
Definition infinity : float := S754_infinity false.
Definition nan : float := S754_nan.

(** [std::max(a, b)] is [(a < b) ? b : a]; [std::min(a, b)] is
    [(b < a) ? b : a]. *)
Definition std_max (a b : float) : float := if ltb a b then b else a.
Definition std_min (a b : float) : float := if ltb b a then b else a.

(** Truncation toward zero of a finite value. *)
Definition trunc (x : float) : option Z :=
  match x with
  | S754_zero _ => Some 0
  | S754_finite s m e =>
      let a := match e with
               | Zneg p => Z.shiftr (Zpos m) (Zpos p)
               | _ => Z.shiftl (Zpos m) e
               end in
      Some (if s then - a else a)
  | _ => None
  end.

End F32.

Declare Scope f32_scope.
Delimit Scope f32_scope with f32.
Bind Scope f32_scope with F32.float.
Infix "+" := F32.add : f32_scope.
Infix "-" := F32.sub : f32_scope.
Infix "*" := F32.mul : f32_scope.
Infix "/" := F32.div : f32_scope.
Infix "<?" := F32.ltb : f32_scope.
Infix "<=?" := F32.leb : f32_scope.
Infix ">?" := F32.gtb (at level 70) : f32_scope.
Infix ">=?" := F32.geb (at level 70) : f32_scope.

Abbreviation float := F32.float.

(** ** What the C++ implementation leaves to the platform

    [std::pow] comes from the C library, and the conversion
    [static_cast<size_t>(float)] is defined by the language only when the
    truncated value fits the unsigned 64-bit type; what it yields otherwise
    (negative values below -1, values of 2^64 and more, infinities, NaN) is
    whatever the target's conversion sequence produces. *)

Class Platform : Type := {
  std_pow : float -> float -> float;
  cast_out_of_range : float -> Z
}.

Definition size_t_max : Z := 2 ^ 64 - 1.

Definition size_t_of_float `{Platform} (x : float) : Z :=
  match F32.trunc x with
  | Some n =>
      if (0 <=? n) && (n <=? size_t_max) then n
      else cast_out_of_range x mod 2 ^ 64
  | None => cast_out_of_range x mod 2 ^ 64
  end.

(** ** GLM vectors and functions *)

Record vec3 : Type := Vec3 { x3 : float; y3 : float; z3 : float }.
Record vec4 : Type := Vec4 { x4 : float; y4 : float; z4 : float; w4 : float }.

Module glm.
Local Open Scope f32_scope.

Definition splat3 (s : float) : vec3 := Vec3 s s s.
Definition splat4 (s : float) : vec4 := Vec4 s s s s.
Definition vec3_of_vec4 (v : vec4) : vec3 := Vec3 (x4 v) (y4 v) (z4 v).
Definition vec4_of (v : vec3) (w : float) : vec4 := Vec4 (x3 v) (y3 v) (z3 v) w.

Definition add3 (a b : vec3) : vec3 :=
  Vec3 (x3 a + x3 b) (y3 a + y3 b) (z3 a + z3 b).
Definition sub3 (a b : vec3) : vec3 :=
  Vec3 (x3 a - x3 b) (y3 a - y3 b) (z3 a - z3 b).
(** [s * v] and [v * s] *)
Definition smul3 (s : float) (v : vec3) : vec3 :=
  Vec3 (s * x3 v) (s * y3 v) (s * z3 v).
Definition muls3 (v : vec3) (s : float) : vec3 :=
  Vec3 (x3 v * s) (y3 v * s) (z3 v * s).
(** [s / v] *)
Definition sdiv3 (s : float) (v : vec3) : vec3 :=
  Vec3 (s / x3 v) (s / y3 v) (s / z3 v).

Definition add4 (a b : vec4) : vec4 :=
  Vec4 (x4 a + x4 b) (y4 a + y4 b) (z4 a + z4 b) (w4 a + w4 b).
Definition smul4 (s : float) (v : vec4) : vec4 :=
  Vec4 (s * x4 v) (s * y4 v) (s * z4 v) (s * w4 v).
Definition muls4 (v : vec4) (s : float) : vec4 :=
  Vec4 (x4 v * s) (y4 v * s) (z4 v * s) (w4 v * s).
Definition sdivr3 (v : vec3) (s : float) : vec3 :=
  Vec3 (x3 v / s) (y3 v / s) (z3 v / s).

Definition dot (a b : vec3) : float :=
  x3 a * x3 b + y3 a * y3 b + z3 a * z3 b.

Definition inversesqrt (x : float) : float := F32.one / F32.sqrt x.

Definition normalize (v : vec3) : vec3 := muls3 v (inversesqrt (dot v v)).

(** [reflect(I, N) = I - N * dot(N, I) * 2] *)
Definition reflect (I N : vec3) : vec3 :=
  sub3 I (muls3 (muls3 N (dot N I)) F32.two).

Definition clamp (x lo hi : float) : float :=
  F32.std_min (F32.std_max x lo) hi.

Definition smoothstep (edge0 edge1 x : float) : float :=
  let tmp := clamp ((x - edge0) / (edge1 - edge0)) F32.zero F32.one in
  tmp * tmp * (F32.three - F32.two * tmp).

(** [mix(x, y, a) = x * (1 - a) + y * a] *)
Definition mix3 (x y : vec3) (a : float) : vec3 :=
  add3 (muls3 x (F32.one - a)) (muls3 y a).
Definition mix4 (x y : vec4) (a : float) : vec4 :=
  add4 (muls4 x (F32.one - a)) (muls4 y a).

Definition any_isnan3 (v : vec3) : bool :=
  F32.isnan (x3 v) || F32.isnan (y3 v) || F32.isnan (z3 v).

Definition lessThan3 (a b : vec3) : bool * bool * bool :=
  (x3 a <? x3 b, y3 a <? y3 b, z3 a <? z3 b).
End glm.

(** ** Data model *)

Record Ray : Type := mkRay {
  origin : vec3;
  direction : vec3;
  tmin : float;
  tmax : float
}.

Record Bounds : Type := mkBounds { lower : vec3; upper : vec3 }.

(** [bounds.lowerUpper[i]] with a [bool] index: [false] is 0, [true] is 1. *)
Definition lowerUpper (b : Bounds) (i : bool) : vec3 :=
  if i then upper b else lower b.

Record GradientVoxel : Type := mkGradientVoxel { dir : vec3; magnitude : float }.

Inductive RenderMode : Type :=
  | RenderSlicer | RenderMIP | RenderIso | RenderComposite
  | RenderTF2D | RenderMIDA | RenderCombined.

Record RenderConfig : Type := mkRenderConfig {
  renderMode : RenderMode;
  renderResolution : Z * Z;
  volumeShading : bool;
  smoothstep : bool;
  isoValue : float;
  gamma : float;
  ka : float;
  kd : float;
  ks : float;
  alpha : float;
  gl : float;
  gh : float;
  (** [std::array<glm::vec4, 256>] *)
  tfColorMap : list vec4;
  tfColorMapIndexStart : float;
  tfColorMapIndexRange : float;
  TF2DIntensity : float;
  TF2DRadius : float;
  TF2DColor : vec4
}.

(** The array type fixes the number of entries of the lookup table. *)
Definition tfColorMap_size : Z := 256.
Definition wf_config (c : RenderConfig) : Prop :=
  Z.of_nat (length (tfColorMap c)) = tfColorMap_size.

Record Volume : Type := mkVolume {
  getSampleInterpolate : vec3 -> float;
  maximum : float
}.

Record GradientVolume : Type := mkGradientVolume {
  getGradientInterpolate : vec3 -> GradientVoxel;
  minMagnitude : float;
  maxMagnitude : float
}.

Record RayTraceCamera : Type := mkCamera { position : vec3 }.

Record Renderer : Type := mkRenderer {
  m_pVolume : Volume;
  m_pGradientVolume : GradientVolume;
  m_pCamera : RayTraceCamera;
  m_config : RenderConfig
}.

(** ** Loops

    The sampling loops count with a [float], so nothing in the source bounds
    the number of iterations ([t += sampleStep] stops changing [t] once [t]
    is large).  A loop is run with fuel: [None] means the fuel ran out. *)

Inductive step_result (S : Type) : Type :=
  | Continue (s : S)
  | Break (s : S).
Arguments Continue {S} s.
Arguments Break {S} s.

Fixpoint run_loop {S : Type} (guard : S -> bool) (body : S -> step_result S)
    (fuel : nat) (s : S) : option S :=
  if guard s then
    match fuel with
    | O => None
    | Datatypes.S fuel' =>
        match body s with
        | Continue s' => run_loop guard body fuel' s'
        | Break s' => Some s'
        end
    end
  else Some s.

(** One execution of the loop body from a state that passes the guard. *)
Definition loop_step {S : Type} (guard : S -> bool) (body : S -> step_result S)
    (s s' : S) : Prop :=
  guard s = true /\ (body s = Continue s' \/ body s = Break s').

(** The states in which a loop started from [s0] evaluates its guard: [s0],
    and every state an iteration ends in without leaving the loop. *)
Inductive loop_reaches {S : Type} (guard : S -> bool)
    (body : S -> step_result S) (s0 : S) : S -> Prop :=
  | reaches_start : loop_reaches guard body s0 s0
  | reaches_next : forall s s',
      loop_reaches guard body s0 s ->
      guard s = true ->
      body s = Continue s' ->
      loop_reaches guard body s0 s'.

(** ** The renderer's member functions *)

Section RendererMethods.
Context `{Platform}.
Variable self : Renderer.
Local Open Scope f32_scope.

Local Abbreviation config := (m_config self).
Local Abbreviation volume := (m_pVolume self).
Local Abbreviation gradientVolume := (m_pGradientVolume self).
Local Abbreviation camera := (m_pCamera self).

(** *** [getTFValue] *)

Definition getTFValue_range01 (val : float) : float :=
  (val - tfColorMapIndexStart config) / tfColorMapIndexRange config.

(** The index [i] of [getTFValue]. *)
Definition getTFValue_index (val : float) : Z :=
  Z.min (size_t_of_float (getTFValue_range01 val * F32.c256))
        (tfColorMap_size - 1).

Definition getTFValue (val : float) : vec4 :=
  nth (Z.to_nat (getTFValue_index val)) (tfColorMap config)
      (glm.splat4 F32.zero).

(** *** [getTF2DOpacity] *)

(** The two lines from the base corners to the apex: slopes [m1], [m2] and
    intercepts [q1], [q2]. *)
Definition tf2d_m1 : float :=
  let apexIntensity := TF2DIntensity config in
  let apexGradientMagnitude := minMagnitude gradientVolume in
  let baseIntensity1 := apexIntensity - TF2DRadius config in
  let baseGradientMagnitude := maxMagnitude gradientVolume in
  (apexGradientMagnitude - baseGradientMagnitude)
  / (apexIntensity - baseIntensity1).

Definition tf2d_q1 : float :=
  minMagnitude gradientVolume - tf2d_m1 * TF2DIntensity config.

Definition tf2d_m2 : float :=
  let apexIntensity := TF2DIntensity config in
  let apexGradientMagnitude := minMagnitude gradientVolume in
  let baseIntensity2 := apexIntensity + TF2DRadius config in
  let baseGradientMagnitude := maxMagnitude gradientVolume in
  (apexGradientMagnitude - baseGradientMagnitude)
  / (apexIntensity - baseIntensity2).

Definition tf2d_q2 : float :=
  minMagnitude gradientVolume - tf2d_m2 * TF2DIntensity config.

(** The test "the point is inside the triangle". *)
Definition tf2d_inside (intensity gradientMagnitude : float) : bool :=
  let apexIntensity := TF2DIntensity config in
  let baseIntensity1 := apexIntensity - TF2DRadius config in
  let baseIntensity2 := apexIntensity + TF2DRadius config in
  let baseGradientMagnitude := maxMagnitude gradientVolume in
  (gradientMagnitude >? tf2d_m1 * intensity + tf2d_q1)
  && (gradientMagnitude >? tf2d_m2 * intensity + tf2d_q2)
  && (gradientMagnitude <? baseGradientMagnitude)
  && (intensity >? baseIntensity1)
  && (intensity <? baseIntensity2).

Definition tf2d_distancefromApex (intensity gradientMagnitude : float)
    : float :=
  let apexIntensity := TF2DIntensity config in
  let projection :=
    if intensity <? apexIntensity
    then (gradientMagnitude - tf2d_q1) / tf2d_m1
    else (gradientMagnitude - tf2d_q2) / tf2d_m2 in
  F32.abs (projection - apexIntensity).

Definition getTF2DOpacity (intensity gradientMagnitude : float) : float :=
  let apexIntensity := TF2DIntensity config in
  if tf2d_inside intensity gradientMagnitude then
    let distancefromApex :=
      tf2d_distancefromApex intensity gradientMagnitude in
    F32.one - F32.abs (intensity - apexIntensity) / distancefromApex
  else F32.zero.

(** *** [instersectRayVolumeBounds]

    The ray is passed by reference; the function returns its result
    together with the ray as it leaves it. *)

Definition instersectRayVolumeBounds (ray : Ray) (bounds : Bounds)
    : bool * Ray :=
  let invDir := glm.sdiv3 F32.one (direction ray) in
  let '(sign0, sign1, sign2) := glm.lessThan3 invDir (glm.splat3 F32.zero) in
  let tmin0 := (x3 (lowerUpper bounds sign0) - x3 (origin ray)) * x3 invDir in
  let tmax0 := (x3 (lowerUpper bounds (negb sign0)) - x3 (origin ray)) * x3 invDir in
  let tymin := (y3 (lowerUpper bounds sign1) - y3 (origin ray)) * y3 invDir in
  let tymax := (y3 (lowerUpper bounds (negb sign1)) - y3 (origin ray)) * y3 invDir in
  if (tmin0 >? tymax) || (tymin >? tmax0) then (false, ray)
  else
    let tmin1 := F32.std_max tmin0 tymin in
    let tmax1 := F32.std_min tmax0 tymax in
    let tzmin := (z3 (lowerUpper bounds sign2) - z3 (origin ray)) * z3 invDir in
    let tzmax := (z3 (lowerUpper bounds (negb sign2)) - z3 (origin ray)) * z3 invDir in
    if (tmin1 >? tzmax) || (tzmin >? tmax1) then (false, ray)
    else
      (true, mkRay (origin ray) (direction ray)
                   (F32.std_max tmin1 tzmin) (F32.std_min tmax1 tzmax)).

(** *** [bisectionAccuracy] *)

Definition maxIterations : nat := 30.
Definition precision : float := F32.c0_01.

Definition bisection_midpoint (a b : float) : float := (a + b) / F32.two.

Definition bisection_sample (ray : Ray) (c : float) : float :=
  getSampleInterpolate volume
    (glm.add3 (origin ray) (glm.smul3 c (direction ray))).

(** The test that leaves the loop. *)
Definition bisection_done (ray : Ray) (isoValue a b : float) : bool :=
  let c := bisection_midpoint a b in
  let fc := bisection_sample ray c in
  (F32.abs (fc - isoValue) <? precision) || (F32.abs (b - a) <? precision).

(** Narrowing of the interval [(a, b)]. *)
Definition bisection_narrow (ray : Ray) (isoValue : float)
    (ab : float * float) : float * float :=
  let '(a, b) := ab in
  let c := bisection_midpoint a b in
  let fc := bisection_sample ray c in
  if fc <? isoValue then (c, b) else (a, c).

(** The [for] loop with [remaining = maxIterations - iteration] iterations
    left; [c] is the midpoint computed last. *)
Fixpoint bisection_loop (ray : Ray) (isoValue : float) (remaining : nat)
    (ab : float * float) (c : float) : float :=
  match remaining with
  | O => c
  | Datatypes.S remaining' =>
      let c := bisection_midpoint (fst ab) (snd ab) in
      if bisection_done ray isoValue (fst ab) (snd ab) then c
      else bisection_loop ray isoValue remaining'
             (bisection_narrow ray isoValue ab) c
  end.

(** The interval at the start of iteration [k] (counted from 0) when no
    earlier iteration left the loop. *)
Definition bisection_interval (ray : Ray) (isoValue t0 t1 : float) (k : nat)
    : float * float :=
  Nat.iter k (bisection_narrow ray isoValue) (t0, t1).

(** [c] is declared without an initial value; the loop body runs at least
    once and assigns it, so the value given here is never returned. *)
Definition bisectionAccuracy (ray : Ray) (t0 t1 isoValue : float) : float :=
  bisection_loop ray isoValue maxIterations (t0, t1) F32.nan.

(** *** [computePhongShading] *)

Definition computePhongShading (color : vec3) (gradient : GradientVoxel)
    (L V : vec3) (ka kd ks alpha : float) : vec3 :=
  let ambient := glm.smul3 ka color in
  let cos_theta := glm.dot (glm.normalize (dir gradient)) L in
  let diffuse0 := glm.muls3 (glm.smul3 kd color) (F32.abs cos_theta) in
  let diffuse :=
    if glm.any_isnan3 diffuse0 then glm.splat3 F32.zero else diffuse0 in
  let cos_phi :=
    glm.dot (glm.normalize (glm.reflect L (dir gradient))) V in
  let specular :=
    glm.muls3 (glm.smul3 ks (glm.splat3 F32.one))
              (std_pow (F32.abs cos_phi) alpha) in
  glm.add3 (glm.add3 ambient diffuse) specular.

(** The view and light vectors of a sample at [pos]:
    [V = normalize(camera position - pos)],
    [L = normalize(pos - ray.origin)]. *)
Definition viewVector (pos : vec3) : vec3 :=
  glm.normalize (glm.sub3 (position camera) pos).
Definition lightVector (ray : Ray) (pos : vec3) : vec3 :=
  glm.normalize (glm.sub3 pos (origin ray)).

(** The shading of a sample at [pos]: the call
    [computePhongShading(color, gradient, L, V, ka, kd, ks, alpha)].  The
    function called is a parameter of [shadeAt] and of the two sample
    colours below, so that a statement can speak about the arguments that a
    tracer passes to it; the tracers call [computePhongShading]. *)
Definition Shading : Type :=
  vec3 -> GradientVoxel -> vec3 -> vec3 -> float -> float -> float -> float
  -> vec3.

Definition shadeAt (shade : Shading) (ray : Ray) (pos : vec3) (color : vec3)
    : vec3 :=
  let gradient := getGradientInterpolate gradientVolume pos in
  let V := viewVector pos in
  let L := lightVector ray pos in
  shade color gradient L V
    (ka config) (kd config) (ks config) (alpha config).

Definition phongAt (ray : Ray) (pos : vec3) (color : vec3) : vec3 :=
  shadeAt computePhongShading ray pos color.

(** *** [traceRayComposite] *)

Record CompositeState : Type := mkCompositeState {
  cs_t : float;
  cs_samplePos : vec3;
  cs_accumulatedOpacity : float;
  cs_accumulatedColor : vec4
}.

Definition composite_init (ray : Ray) : CompositeState :=
  mkCompositeState (tmin ray)
    (glm.add3 (origin ray) (glm.smul3 (tmin ray) (direction ray)))
    F32.zero (glm.splat4 F32.zero).

Definition composite_guard (ray : Ray) (st : CompositeState) : bool :=
  cs_t st <=? tmax ray.

(** The colour of a sample of the Composite tracer: the transfer-function
    colour, replaced by its Phong-shaded variant when shading is on. *)
Definition composite_sampleColor_with (shade : Shading) (ray : Ray)
    (t : float) (tfColor : vec3) : vec3 :=
  if volumeShading config then
    let precisePos :=
      glm.add3 (origin ray) (glm.smul3 t (direction ray)) in
    shadeAt shade ray precisePos tfColor
  else tfColor.

Definition composite_sampleColor (ray : Ray) (t : float) (tfColor : vec3)
    : vec3 :=
  composite_sampleColor_with computePhongShading ray t tfColor.

Definition composite_body (ray : Ray) (sampleStep : float)
    (st : CompositeState) : step_result CompositeState :=
  let increment := glm.smul3 sampleStep (direction ray) in
  let val := getSampleInterpolate volume (cs_samplePos st) in
  let tfValue := getTFValue val in
  let tfOpacity := w4 tfValue in
  let tfColor :=
    composite_sampleColor ray (cs_t st) (glm.vec3_of_vec4 tfValue) in
  let accumulatedColor :=
    glm.add4 (cs_accumulatedColor st)
      (glm.smul4 ((F32.one - cs_accumulatedOpacity st) * tfOpacity)
                 (glm.vec4_of tfColor F32.one)) in
  let accumulatedOpacity :=
    cs_accumulatedOpacity st
    + (F32.one - cs_accumulatedOpacity st) * tfOpacity in
  if accumulatedOpacity >=? F32.one then
    Break (mkCompositeState (cs_t st) (cs_samplePos st)
             accumulatedOpacity accumulatedColor)
  else
    Continue (mkCompositeState (cs_t st + sampleStep)
                (glm.add3 (cs_samplePos st) increment)
                accumulatedOpacity accumulatedColor).

Definition traceRayComposite (fuel : nat) (ray : Ray) (sampleStep : float)
    : option vec4 :=
  option_map cs_accumulatedColor
    (run_loop (composite_guard ray) (composite_body ray sampleStep) fuel
              (composite_init ray)).

(** *** [traceRayMIDA] and [traceRayCombined] *)

(** The colour of a sample of the MIDA and Combined tracers (the block
    "Volume shading + smoothstep", the same text in both functions). *)
Definition shadedSampleColor_with (shade : Shading) (ray : Ray)
    (samplePos : vec3) (tfColor : vec3) : vec3 :=
  if volumeShading config then
    let gradient := getGradientInterpolate gradientVolume samplePos in
    let phongShading := shadeAt shade ray samplePos tfColor in
    if smoothstep config then
      let gradientMagnitude := magnitude gradient in
      let weight :=
        glm.smoothstep (gl config * maxMagnitude gradientVolume)
                       (gh config * maxMagnitude gradientVolume)
                       gradientMagnitude in
      glm.mix3 tfColor phongShading weight
    else phongShading
  else tfColor.

Definition shadedSampleColor (ray : Ray) (samplePos : vec3) (tfColor : vec3)
    : vec3 :=
  shadedSampleColor_with computePhongShading ray samplePos tfColor.

Record MidaState : Type := mkMidaState {
  ms_t : float;
  ms_samplePos : vec3;
  ms_maxVal : float;
  ms_accumulatedOpacity : float;
  ms_accumulatedColor : vec4
}.

Definition mida_init (ray : Ray) : MidaState :=
  mkMidaState (tmin ray)
    (glm.add3 (origin ray) (glm.smul3 (tmin ray) (direction ray)))
    F32.zero F32.zero (glm.splat4 F32.zero).

Definition mida_guard (ray : Ray) (st : MidaState) : bool :=
  ms_t st <=? tmax ray.

(** [delta] of a sample [val] against the running maximum. *)
Definition mida_delta (val maxVal : float) : float :=
  let normalizedVal := val / maximum volume in
  let normalizedMaxVal := maxVal / maximum volume in
  if val >? maxVal then normalizedVal - normalizedMaxVal else F32.zero.

Definition mida_body (ray : Ray) (sampleStep : float) (st : MidaState)
    : step_result MidaState :=
  let increment := glm.smul3 sampleStep (direction ray) in
  let val := getSampleInterpolate volume (ms_samplePos st) in
  let tfValue := getTFValue val in
  let tfColor := glm.vec3_of_vec4 tfValue in
  let tfOpacity := w4 tfValue in
  let finalColor := shadedSampleColor ray (ms_samplePos st) tfColor in
  let delta := mida_delta val (ms_maxVal st) in
  let beta := F32.one - delta in
  let accumulatedColor :=
    glm.add4 (glm.smul4 beta (ms_accumulatedColor st))
      (glm.smul4 ((F32.one - beta * ms_accumulatedOpacity st) * tfOpacity)
                 (glm.vec4_of finalColor F32.one)) in
  let accumulatedOpacity :=
    beta * ms_accumulatedOpacity st
    + (F32.one - beta * ms_accumulatedOpacity st) * tfOpacity in
  Continue (mkMidaState (ms_t st + sampleStep)
              (glm.add3 (ms_samplePos st) increment)
              (F32.std_max val (ms_maxVal st))
              accumulatedOpacity accumulatedColor).

Definition traceRayMIDA (fuel : nat) (ray : Ray) (sampleStep : float)
    : option vec4 :=
  option_map ms_accumulatedColor
    (run_loop (mida_guard ray) (mida_body ray sampleStep) fuel
              (mida_init ray)).

Definition combined_body (ray : Ray) (sampleStep : float) (st : MidaState)
    : step_result MidaState :=
  let gamma := gamma config in
  let increment := glm.smul3 sampleStep (direction ray) in
  let val := getSampleInterpolate volume (ms_samplePos st) in
  let tfValue := getTFValue val in
  let tfColor := glm.vec3_of_vec4 tfValue in
  let tfOpacity := w4 tfValue in
  let finalColor := shadedSampleColor ray (ms_samplePos st) tfColor in
  let delta := mida_delta val (ms_maxVal st) in
  let beta :=
    if gamma <=? F32.zero then F32.one - delta * (F32.one + gamma)
    else F32.one - delta in
  let accumulatedColor :=
    glm.add4 (glm.smul4 beta (ms_accumulatedColor st))
      (glm.smul4 ((F32.one - beta * ms_accumulatedOpacity st) * tfOpacity)
                 (glm.vec4_of finalColor F32.one)) in
  let accumulatedOpacity :=
    beta * ms_accumulatedOpacity st
    + (F32.one - beta * ms_accumulatedOpacity st) * tfOpacity in
  Continue (mkMidaState (ms_t st + sampleStep)
              (glm.add3 (ms_samplePos st) increment)
              (F32.std_max val (ms_maxVal st))
              accumulatedOpacity accumulatedColor).

Definition combined_result (st : MidaState) : vec4 :=
  let gamma := gamma config in
  if gamma <=? F32.zero then ms_accumulatedColor st
  else
    glm.mix4 (ms_accumulatedColor st)
      (glm.vec4_of
         (glm.sdivr3 (glm.splat3 (ms_maxVal st)) (maximum volume)) F32.one)
      gamma.

Definition traceRayCombined (fuel : nat) (ray : Ray) (sampleStep : float)
    : option vec4 :=
  option_map combined_result
    (run_loop (mida_guard ray) (combined_body ray sampleStep) fuel
              (mida_init ray)).

(** *** [traceRayISO] *)

Definition isoColor : vec3 := Vec3 F32.c0_8 F32.c0_8 F32.zero.

Record IsoState : Type := mkIsoState {
  is_t : float;
  is_samplePos : vec3;
  is_res : float
}.

Definition iso_init (ray : Ray) : IsoState :=
  mkIsoState (tmin ray)
    (glm.add3 (origin ray) (glm.smul3 (tmin ray) (direction ray)))
    F32.zero.

Definition iso_guard (ray : Ray) (st : IsoState) : bool :=
  is_t st <=? tmax ray.

(** Loop body when volume shading is disabled. *)
Definition iso_body (ray : Ray) (sampleStep : float) (st : IsoState)
    : step_result IsoState :=
  let increment := glm.smul3 sampleStep (direction ray) in
  let val := getSampleInterpolate volume (is_samplePos st) in
  if val >? isoValue config then
    Break (mkIsoState (is_t st) (is_samplePos st) F32.one)
  else
    Continue (mkIsoState (is_t st + sampleStep)
                (glm.add3 (is_samplePos st) increment) (is_res st)).

Record IsoShadedState : Type := mkIsoShadedState {
  iss_t : float;
  iss_samplePos : vec3;
  iss_returned : option vec4
}.

(** Loop body when volume shading is enabled; [iss_returned] holds the value
    of the [return] inside the loop. *)
Definition iso_shaded_body (ray : Ray) (sampleStep : float)
    (st : IsoShadedState) : step_result IsoShadedState :=
  let increment := glm.smul3 sampleStep (direction ray) in
  let val1 := getSampleInterpolate volume (iss_samplePos st) in
  let val2 :=
    getSampleInterpolate volume (glm.add3 (iss_samplePos st) increment) in
  if (val1 >? isoValue config) || (val2 >? isoValue config) then
    let preciseT :=
      bisectionAccuracy ray (iss_t st) (iss_t st + sampleStep)
                        (isoValue config) in
    let precisePos :=
      glm.add3 (origin ray) (glm.smul3 preciseT (direction ray)) in
    let phongShading := phongAt ray precisePos isoColor in
    Break (mkIsoShadedState (iss_t st) (iss_samplePos st)
             (Some (glm.vec4_of phongShading F32.one)))
  else
    Continue (mkIsoShadedState (iss_t st + sampleStep)
                (glm.add3 (iss_samplePos st) increment) None).

Definition traceRayISO (fuel : nat) (ray : Ray) (sampleStep : float)
    : option vec4 :=
  if negb (volumeShading config) then
    option_map
      (fun st => glm.vec4_of (glm.muls3 isoColor (is_res st)) F32.one)
      (run_loop (iso_guard ray) (iso_body ray sampleStep) fuel
                (iso_init ray))
  else
    option_map
      (fun st =>
         match iss_returned st with
         | Some c => c
         | None => glm.vec4_of (glm.splat3 F32.zero) F32.one
         end)
      (run_loop (fun st => iss_t st <=? tmax ray)
                (iso_shaded_body ray sampleStep) fuel
                (mkIsoShadedState (tmin ray)
                   (glm.add3 (origin ray)
                      (glm.smul3 (tmin ray) (direction ray)))
                   None)).
End RendererMethods.

(** ** The sample points of a ray

    Every tracer starts at [origin + tmin * direction] with [t = tmin] and
    adds [sampleStep] to [t] and [sampleStep * direction] to the position
    after each iteration. *)

Definition sample_advance (ray : Ray) (sampleStep : float)
    (tp : float * vec3) : float * vec3 :=
  ((fst tp + sampleStep)%f32,
   glm.add3 (snd tp) (glm.smul3 sampleStep (direction ray))).

Definition sample_start (ray : Ray) : float * vec3 :=
  (tmin ray, glm.add3 (origin ray) (glm.smul3 (tmin ray) (direction ray))).

(** The parameter and the position of sample number [k]. *)
Definition sample_point (ray : Ray) (sampleStep : float) (k : nat)
    : float * vec3 :=
  Nat.iter k (sample_advance ray sampleStep) (sample_start ray).

(** Sample [k] is one the loop gets to: it and all samples before it have
    [t <= tmax]. *)
Definition sample_in_range (ray : Ray) (sampleStep : float) (k : nat) : Prop :=
  forall j, (j <= k)%nat ->
    (fst (sample_point ray sampleStep j) <=? tmax ray)%f32 = true.

(** ** Reading binary32 arithmetic on the integers

    Every finite binary32 number is a multiple of [2^-149]; sums,
    differences and products of two of them are multiples of [2^-298].
    The results of the operations are therefore described on integers that
    count units of [2^-299] (the last bit is for quotients, see
    [div_repr]).  The definitions below are the rounding that [SpecFloat]
    performs, restated on these integers; the lemmas that relate the two are
    in the second part of the file. *)

(** The exponent of the format for a number with [e] digits before the
    binary point: [fexp] of [SpecFloat] at precision 24 and [emax] 128. *)
Definition fexp32 (e : Z) : Z := Z.max (e - 24) (-149).

(** Round to nearest, ties to even, of [N / 2^n]. *)
Definition rne (N n : Z) : Z :=
  let q := N / 2 ^ n in
  if Z.odd (N / 2 ^ (n - 1)) then
    if negb (N mod 2 ^ (n - 1) =? 0) then q + 1
    else if Z.even q then q else q + 1
  else q.

(** The spacing, as an exponent of two, of the binary32 numbers around the
    value [N] (in units of [2^-299]): 24 significant digits, and [2^-149]
    at the least. *)
Definition grid (N : Z) : Z := Z.max (Zdigits2 N - 24) 150.

(** The value [N] rounded to binary32. *)
Definition round_value (N : Z) : Z := rne N (grid N) * 2 ^ grid N.

(** [Y] lies on its own grid: it is the value of a binary32 number. *)
Definition representable (Y : Z) : Prop := Y mod 2 ^ grid Y = 0.

(** The value of [1.0f]. *)
Definition unit_value : Z := 2 ^ 299.

(** The second half of [binary_round_aux]: the rounded mantissa [q] at
    exponent [e] is brought to canonical form and checked for overflow. *)
Definition round_finish (s : bool) (q e : Z) : float :=
  let '(mrs, e') := shr_fexp 24 128 q e loc_Exact in
  match shr_m mrs with
  | Z0 => S754_zero s
  | Zpos m =>
      if e' <=? 128 - 24 then S754_finite s m e' else S754_infinity s
  | Zneg _ => S754_nan
  end.

(** The value of a finite number, in units of [2^-299]. *)
Definition value_of (x : float) : Z :=
  match x with
  | S754_finite s m e =>
      (if s then -1 else 1) * (Zpos m * 2 ^ (e + 299))
  | _ => 0
  end.

(** A number of the format that is zero or positive and finite. *)
Definition nonneg_finite (x : float) : bool :=
  F32.valid x &&
  match x with
  | S754_zero _ | S754_finite false _ _ => true
  | _ => false
  end.

(** A vector whose components are finite numbers. *)
Definition finite3 (v : vec3) : bool :=
  F32.is_finite (x3 v) && F32.is_finite (y3 v) && F32.is_finite (z3 v).

(** A number of the format that lies in [0, 1]. *)
Definition in_unit_interval (x : float) : bool :=
  F32.valid x && (F32.zero <=? x)%f32 && (x <=? F32.one)%f32.

(** What the MIDA loop keeps true: the accumulated opacity is in [0, 1] and
    the running maximum is between 0 and the volume maximum. *)
Definition mida_invariant (self : Renderer) (st : MidaState) : Prop :=
  in_unit_interval (ms_accumulatedOpacity st) = true /\
  nonneg_finite (ms_maxVal st) = true /\
  (ms_maxVal st <=? maximum (m_pVolume self))%f32 = true.

(** A location as two more bits of mantissa. *)
Definition loc_code (l : location) : Z :=
  match l with
  | loc_Exact => 0
  | loc_Inexact Lt => 1
  | loc_Inexact Eq => 2
  | loc_Inexact Gt => 3
  end.

(** The integer that rounds like the quotient [A / B] of two values: twice
    the floor of [A * 2^298 / B], plus one when the division leaves a
    remainder. *)
Definition div_repr (A B : Z) : Z :=
  2 * (A * 2 ^ 298 / B) + (if (A * 2 ^ 298) mod B =? 0 then 0 else 1).

(** ** Integers, vectors of pixels and the frame buffer

    [int] is the 32-bit signed type; an overflow of its arithmetic is
    undefined behaviour and is modelled by [None].  The conversion of an
    [int] to [size_t] and the arithmetic of [size_t] are modulo [2^64]. *)

Definition int_min : Z := - 2 ^ 31.
Definition int_max : Z := 2 ^ 31 - 1.
Definition in_int (n : Z) : bool := (int_min <=? n) && (n <=? int_max).

Definition int_add (a b : Z) : option Z :=
  if in_int (a + b) then Some (a + b) else None.
Definition int_sub (a b : Z) : option Z :=
  if in_int (a - b) then Some (a - b) else None.
Definition int_mul (a b : Z) : option Z :=
  if in_int (a * b) then Some (a * b) else None.

Definition size_t_of_int (n : Z) : Z := n mod 2 ^ 64.
Definition size_t_mul (a b : Z) : Z := (a * b) mod 2 ^ 64.

(** [v.resize(n, x)]: the first [n] elements are kept, and copies of [x]
    are appended when [v] has fewer than [n]. *)
Definition vector_resize {A : Type} (v : list A) (n : Z) (x : A) : list A :=
  firstn (Z.to_nat n) v ++ repeat x (Z.to_nat n - length v).

Fixpoint list_set {A : Type} (l : list A) (i : nat) (x : A) : list A :=
  match l, i with
  | [], _ => []
  | _ :: l', O => x :: l'
  | y :: l', S i' => y :: list_set l' i' x
  end.

(** [v[i] = x] for a [size_t] index: an index that is not below the size is
    undefined behaviour. *)
Definition vector_set {A : Type} (v : list A) (i : Z) (x : A)
    : option (list A) :=
  if i <? Z.of_nat (length v) then Some (list_set v (Z.to_nat i) x)
  else None.

(** A loop over a list whose body can fail. *)
Fixpoint for_each {A S : Type} (l : list A) (body : A -> S -> option S)
    (s : S) : option S :=
  match l with
  | [] => Some s
  | a :: l' =>
      match body a s with
      | Some s' => for_each l' body s'
      | None => None
      end
  end.

(** The values of [for (int i = 0; i < n; i++)]. *)
Definition int_range (n : Z) : list Z := map Z.of_nat (seq 0 (Z.to_nat n)).

Record vec2 : Type := Vec2 { x2 : float; y2 : float }.

(** [-v] *)
Definition neg3 (v : vec3) : vec3 :=
  Vec3 (F32.neg (x3 v)) (F32.neg (y3 v)) (F32.neg (z3 v)).

(** [glm::vec3(v)] of a [glm::ivec3]. *)
Definition vec3_of_ivec3 (v : Z * Z * Z) : vec3 :=
  let '(a, b, c) := v in Vec3 (F32.of_Z a) (F32.of_Z b) (F32.of_Z c).

(** The queries of the camera and of the volume that only [render] uses:
    [m_pCamera->forward()], [m_pCamera->generateRay(pixel)] and
    [m_pVolume->dims()]. *)
Record Scene : Type := mkScene {
  forward : vec3;
  generateRay : vec2 -> Ray;
  dims : Z * Z * Z
}.

(** The renderer object: the members modelled so far and the frame
    buffer. *)
Record RendererObject : Type := mkRendererObject {
  members : Renderer;
  m_frameBuffer : list vec4
}.

Definition resizeImage (this : RendererObject) (resolution : Z * Z)
    : RendererObject :=
  mkRendererObject (members this)
    (vector_resize (m_frameBuffer this)
       (size_t_mul (size_t_of_int (fst resolution))
                   (size_t_of_int (snd resolution)))
       (glm.splat4 F32.zero)).

(** The constructor. *)
Definition Renderer_new (pVolume : Volume) (pGradientVolume : GradientVolume)
    (pCamera : RayTraceCamera) (initialConfig : RenderConfig)
    : RendererObject :=
  resizeImage
    (mkRendererObject
       (mkRenderer pVolume pGradientVolume pCamera initialConfig) [])
    (renderResolution initialConfig).

(** [a != b] on [glm::ivec2]. *)
Definition ivec2_neq (a b : Z * Z) : bool :=
  negb (fst a =? fst b) || negb (snd a =? snd b).

Definition setConfig (this : RendererObject) (config : RenderConfig)
    : RendererObject :=
  let this1 :=
    if ivec2_neq (renderResolution config)
                 (renderResolution (m_config (members this)))
    then resizeImage this (renderResolution config)
    else this in
  mkRendererObject
    (mkRenderer (m_pVolume (members this1))
                (m_pGradientVolume (members this1))
                (m_pCamera (members this1)) config)
    (m_frameBuffer this1).

Definition resetImage (this : RendererObject) : RendererObject :=
  mkRendererObject (members this)
    (map (fun _ => glm.splat4 F32.zero) (m_frameBuffer this)).

Definition frameBuffer (this : RendererObject) : list vec4 :=
  m_frameBuffer this.

Definition fillColor (this : RendererObject) (x y : Z) (color : vec4)
    : option RendererObject :=
  match int_mul (fst (renderResolution (m_config (members this)))) y with
  | None => None
  | Some p =>
      match int_add p x with
      | None => None
      | Some i =>
          option_map (mkRendererObject (members this))
            (vector_set (m_frameBuffer this) (size_t_of_int i) color)
      end
  end.

(** A resolution with non-negative components, and a frame buffer that
    holds one colour for each of its pixels. *)
Definition resolution_ok (resolution : Z * Z) : Prop :=
  0 <= fst resolution <= int_max /\ 0 <= snd resolution <= int_max.

Definition frame_buffer_ok (this : RendererObject) : Prop :=
  Z.of_nat (length (m_frameBuffer this))
  = fst (renderResolution (m_config (members this)))
    * snd (renderResolution (m_config (members this))).

(** The colour the frame buffer holds for pixel [(x, y)]. *)
Definition pixel (this : RendererObject) (x y : Z) : vec4 :=
  nth (Z.to_nat (fst (renderResolution (m_config (members this))) * y + x))
      (m_frameBuffer this) (glm.splat4 F32.zero).

(** ** The remaining tracers and [render] *)

Section MoreRendererMethods.
Context `{Platform}.
Variable self : Renderer.
Local Open Scope f32_scope.

Local Abbreviation config := (m_config self).
Local Abbreviation volume := (m_pVolume self).
Local Abbreviation gradientVolume := (m_pGradientVolume self).

(** *** [traceRaySlice] *)

Definition traceRaySlice (ray : Ray) (volumeCenter planeNormal : vec3)
    : vec4 :=
  let t :=
    glm.dot (glm.sub3 volumeCenter (origin ray)) planeNormal
    / glm.dot (direction ray) planeNormal in
  let samplePos := glm.add3 (origin ray) (glm.muls3 (direction ray) t) in
  let val := getSampleInterpolate volume samplePos in
  glm.vec4_of (glm.splat3 (F32.std_max (val / maximum volume) F32.zero))
              F32.one.

(** *** [traceRayMIP] *)

Record MipState : Type := mkMipState {
  mip_t : float;
  mip_samplePos : vec3;
  mip_maxVal : float
}.

Definition mip_init (ray : Ray) : MipState :=
  mkMipState (tmin ray)
    (glm.add3 (origin ray) (glm.smul3 (tmin ray) (direction ray)))
    F32.zero.

Definition mip_guard (ray : Ray) (st : MipState) : bool :=
  mip_t st <=? tmax ray.

Definition mip_body (ray : Ray) (sampleStep : float) (st : MipState)
    : step_result MipState :=
  let increment := glm.smul3 sampleStep (direction ray) in
  let val := getSampleInterpolate volume (mip_samplePos st) in
  Continue (mkMipState (mip_t st + sampleStep)
              (glm.add3 (mip_samplePos st) increment)
              (F32.std_max val (mip_maxVal st))).

(** The state at the end of an iteration. *)
Definition mip_step (ray : Ray) (sampleStep : float) (st : MipState)
    : MipState :=
  match mip_body ray sampleStep st with
  | Continue st' | Break st' => st'
  end.

(** The value returned for a final [maxVal]. *)
Definition mip_result (maxVal : float) : vec4 :=
  glm.vec4_of (glm.sdivr3 (glm.splat3 maxVal) (maximum volume)) F32.one.

Definition traceRayMIP (fuel : nat) (ray : Ray) (sampleStep : float)
    : option vec4 :=
  option_map (fun st => mip_result (mip_maxVal st))
    (run_loop (mip_guard ray) (mip_body ray sampleStep) fuel (mip_init ray)).

(** *** [traceRayTF2D] *)

Record TF2DState : Type := mkTF2DState {
  tf_t : float;
  tf_samplePos : vec3;
  tf_accumulatedOpacity : float
}.

Definition tf2d_init (ray : Ray) : TF2DState :=
  mkTF2DState (tmin ray)
    (glm.add3 (origin ray) (glm.smul3 (tmin ray) (direction ray)))
    F32.zero.

Definition tf2d_guard (ray : Ray) (st : TF2DState) : bool :=
  tf_t st <=? tmax ray.

(** The opacity of the sample at [pos]. *)
Definition tf2d_sampleOpacity (pos : vec3) : float :=
  let val := getSampleInterpolate volume pos in
  let gradient := getGradientInterpolate gradientVolume pos in
  let magnitude := magnitude gradient in
  getTF2DOpacity self val magnitude.

Definition tf2d_body (ray : Ray) (sampleStep : float) (st : TF2DState)
    : step_result TF2DState :=
  let increment := glm.smul3 sampleStep (direction ray) in
  let tfOpacity := tf2d_sampleOpacity (tf_samplePos st) in
  let accumulatedOpacity :=
    tf_accumulatedOpacity st
    + (F32.one - tf_accumulatedOpacity st) * tfOpacity
      * w4 (TF2DColor config) in
  if accumulatedOpacity >=? F32.one then
    Break (mkTF2DState (tf_t st) (tf_samplePos st) F32.one)
  else
    Continue (mkTF2DState (tf_t st + sampleStep)
                (glm.add3 (tf_samplePos st) increment)
                accumulatedOpacity).

Definition traceRayTF2D (fuel : nat) (ray : Ray) (sampleStep : float)
    : option vec4 :=
  option_map
    (fun st => glm.muls4 (TF2DColor config) (tf_accumulatedOpacity st))
    (run_loop (tf2d_guard ray) (tf2d_body ray sampleStep) fuel
              (tf2d_init ray)).

(** *** The dispatch on the render mode in [render] *)

Definition traceRay (fuel : nat) (ray : Ray) (sampleStep : float)
    (volumeCenter planeNormal : vec3) : option vec4 :=
  match renderMode config with
  | RenderSlicer => Some (traceRaySlice ray volumeCenter planeNormal)
  | RenderMIP => traceRayMIP fuel ray sampleStep
  | RenderComposite => traceRayComposite self fuel ray sampleStep
  | RenderIso => traceRayISO self fuel ray sampleStep
  | RenderTF2D => traceRayTF2D fuel ray sampleStep
  | RenderMIDA => traceRayMIDA self fuel ray sampleStep
  | RenderCombined => traceRayCombined self fuel ray sampleStep
  end.
End MoreRendererMethods.

(** The scalar of sample number [k] of a ray, and the scalars of its first
    [n] samples. *)
Definition ray_sample (self : Renderer) (ray : Ray) (sampleStep : float)
    (k : nat) : float :=
  getSampleInterpolate (m_pVolume self) (snd (sample_point ray sampleStep k)).

Definition ray_samples (self : Renderer) (ray : Ray) (sampleStep : float)
    (n : nat) : list float :=
  map (ray_sample self ray sampleStep) (seq 0 n).

(** The loop of [n] iterations: samples [0 .. n-1] pass the guard
    [t <= tmax], sample [n] does not. *)
Definition samples_end_at (ray : Ray) (sampleStep : float) (n : nat) : Prop :=
  (forall j, (j < n)%nat ->
     (fst (sample_point ray sampleStep j) <=? tmax ray)%f32 = true) /\
  (fst (sample_point ray sampleStep n) <=? tmax ray)%f32 = false.

(** The state of the shaded loop of [traceRayISO] at the end of an
    iteration that stays in the loop. *)
Definition iso_shaded_advance (ray : Ray) (sampleStep : float)
    (st : IsoShadedState) : IsoShadedState :=
  mkIsoShadedState (iss_t st + sampleStep)%f32
    (glm.add3 (iss_samplePos st) (glm.smul3 sampleStep (direction ray)))
    None.

(** The distances along the ray to the two planes of the slab of one axis,
    as [instersectRayVolumeBounds] computes them from the bounds [lo] and
    [hi], the origin [o] and the direction [d] on that axis. *)
Definition slab_near (lo hi o d : float) : float :=
  let invDir := (F32.one / d)%f32 in
  (((if (invDir <? F32.zero)%f32 then hi else lo) - o) * invDir)%f32.

Definition slab_far (lo hi o d : float) : float :=
  let invDir := (F32.one / d)%f32 in
  (((if (invDir <? F32.zero)%f32 then lo else hi) - o) * invDir)%f32.

(** The state of the loop of [traceRayMIDA] at the end of an iteration. *)
Definition mida_step `{Platform} (self : Renderer) (ray : Ray)
    (sampleStep : float) (st : MidaState) : MidaState :=
  match mida_body self ray sampleStep st with
  | Continue st' | Break st' => st'
  end.

(** A number of the format that is [+0] or positive and finite. *)
Definition zero_or_positive (x : float) : bool :=
  nonneg_finite x &&
  match x with
  | S754_zero true => false
  | _ => true
  end.

(** A colour whose four channels are in [0, 1]. *)
Definition colour_in_unit_interval (c : vec4) : bool :=
  in_unit_interval (x4 c) && in_unit_interval (y4 c)
  && in_unit_interval (z4 c) && in_unit_interval (w4 c).

(** An opacity-weighted colour: the alpha channel is the accumulated
    opacity [a], a number in [0, 1], and each colour channel is [+0] or
    positive and at most [a]. *)
Definition weighted_channel (a c : float) : Prop :=
  zero_or_positive c = true /\ (c <=? a)%f32 = true.

Definition opacity_weighted (a : float) (c : vec4) : Prop :=
  in_unit_interval a = true /\ w4 c = a /\
  weighted_channel a (x4 c) /\ weighted_channel a (y4 c) /\
  weighted_channel a (z4 c).

(** The running maximum of [traceRayMIP] over a list of scalars, from the
    value [m]. *)
Definition running_max (m : float) (vals : list float) : float :=
  fold_left (fun m v => F32.std_max v m) vals m.

(** *** [render]

    The loops are those of the build without parallelism: [x] outside, [y]
    inside.  A ray that runs out of fuel, or undefined behaviour, makes the
    result [None]. *)

Section Render.
Context `{Platform}.
Variable scene : Scene.
Local Open Scope f32_scope.

Definition render_sampleStep : float := F32.one.

Definition render_planeNormal : vec3 :=
  neg3 (glm.normalize (forward scene)).

Definition render_volumeCenter : vec3 :=
  glm.sdivr3 (vec3_of_ivec3 (dims scene)) F32.two.

(** [Bounds { glm::vec3(0.0f), glm::vec3(dims - glm::ivec3(1)) }] *)
Definition render_bounds : option Bounds :=
  let '(dx, dy, dz) := dims scene in
  match int_sub dx 1, int_sub dy 1, int_sub dz 1 with
  | Some a, Some b, Some c =>
      Some (mkBounds (glm.splat3 F32.zero) (vec3_of_ivec3 (a, b, c)))
  | _, _, _ => None
  end.

(** The ray of pixel [(x, y)]. *)
Definition render_ray (resolution : Z * Z) (x y : Z) : Ray :=
  let pixelPos :=
    Vec2 (F32.of_Z x / F32.of_Z (fst resolution))
         (F32.of_Z y / F32.of_Z (snd resolution)) in
  generateRay scene
    (Vec2 (x2 pixelPos * F32.two - F32.one)
          (y2 pixelPos * F32.two - F32.one)).

(** The body of the inner loop. *)
Definition render_pixel (fuel : nat) (bounds : Bounds) (x y : Z)
    (this : RendererObject) : option RendererObject :=
  let self := members this in
  let ray := render_ray (renderResolution (m_config self)) x y in
  let '(hit, ray) := instersectRayVolumeBounds ray bounds in
  if negb hit then Some this
  else
    match traceRay self fuel ray render_sampleStep
                   render_volumeCenter render_planeNormal with
    | None => None
    | Some color => fillColor this x y color
    end.

Definition render (fuel : nat) (this : RendererObject)
    : option RendererObject :=
  let this := resetImage this in
  match render_bounds with
  | None => None
  | Some bounds =>
      let resolution := renderResolution (m_config (members this)) in
      for_each (int_range (fst resolution))
        (fun x =>
           for_each (int_range (snd resolution))
             (fun y => render_pixel fuel bounds x y))
        this
  end.

(** What [render] computes for pixel [(x, y)]: [Some None] when its ray
    misses the bounds, [Some (Some c)] when the ray hits and its tracer
    returns [c], and [None] when the tracer runs out of fuel. *)
Definition render_colour (fuel : nat) (self : Renderer) (bounds : Bounds)
    (x y : Z) : option (option vec4) :=
  let ray := render_ray (renderResolution (m_config self)) x y in
  let '(hit, ray) := instersectRayVolumeBounds ray bounds in
  if negb hit then Some None
  else
    option_map Some
      (traceRay self fuel ray render_sampleStep
                render_volumeCenter render_planeNormal).
End Render.

(** Two values that are opposite, up to the sign of a zero. *)
Definition is_zero (x : float) : bool :=
  match x with S754_zero _ => true | _ => false end.

Definition opposite (x y : float) : Prop :=
  y = F32.neg x \/ (is_zero x = true /\ is_zero y = true).

Definition opposite3 (u v : vec3) : Prop :=
  opposite (x3 u) (x3 v) /\ opposite (y3 u) (y3 v) /\ opposite (z3 u) (z3 v).



(** ** Concrete platforms, scenes and rays used in examples *)

Module Examples.
Local Open Scope f32_scope.

(** The x86-64 instruction [cvttss2si] with a 64-bit destination: the
    truncated value when it fits a signed 64-bit integer (as a bit
    pattern), and the pattern [2^63] otherwise. *)
Definition cvttss2si64 (x : float) : Z :=
  match F32.trunc x with
  | Some n =>
      if ((- 2 ^ 63 <=? n) && (n <? 2 ^ 63))%Z then (n mod 2 ^ 64)%Z
      else (2 ^ 63)%Z
  | None => (2 ^ 63)%Z
  end.

Definition two_63 : float := S754_finite false 8388608 40.

(** The conversion sequence GCC emits on x86-64 for a [float] to
    [size_t] cast: values that compare below [2^63] (and NaN) go through
    [cvttss2si] directly; the others are converted after subtracting
    [2^63], and bit 63 of the result is flipped. *)
Definition x86_64_cast (x : float) : Z :=
  if x >=? two_63
  then Z.lxor (cvttss2si64 (x - two_63)) (2 ^ 63)
  else cvttss2si64 x.

(** [x] to a non-negative integral power [n], by repeated multiplication. *)
Fixpoint pow_nat (x : float) (n : nat) : float :=
  match n with
  | O => F32.one
  | S n' => x * pow_nat x n'
  end.

(** A stand-in for [std::pow] on the examples' platform: exact on the
    integral exponents below [2^24] up to the rounding of the repeated
    products, NaN elsewhere. *)
Definition pow_model (x y : float) : float :=
  match F32.trunc y with
  | Some n =>
      if ((0 <=? n) && (n <? 2 ^ 24))%Z && SFeqb y (F32.of_Z n)
      then pow_nat x (Z.to_nat n)
      else F32.nan
  | None => F32.nan
  end.

Definition x86_64 : Platform :=
  {| std_pow := pow_model; cast_out_of_range := x86_64_cast |}.

Definition v3 (a b c : Z) : vec3 :=
  Vec3 (F32.of_Z a) (F32.of_Z b) (F32.of_Z c).
Definition v4 (a b c d : Z) : vec4 :=
  Vec4 (F32.of_Z a) (F32.of_Z b) (F32.of_Z c) (F32.of_Z d).
Definition half : float := S754_finite false 8388608 (-24).

Definition unit_box : Bounds := mkBounds (v3 0 0 0) (v3 1 1 1).

(** A ray along the z axis that lies in the face [x = 0] of the box. *)
Definition ray_in_face : Ray :=
  mkRay (Vec3 F32.zero half (F32.of_Z (-1))) (v3 0 0 1) F32.zero F32.zero.

(** A ray along the z axis that passes beside the box. *)
Definition ray_beside : Ray :=
  mkRay (v3 5 5 (-1)) (v3 0 0 1) (F32.of_Z 7) (F32.of_Z 9).

(** A ray along the x axis from the origin, sampled for [t] in [0, 3]. *)
Definition ray_x : Ray :=
  mkRay (v3 0 0 0) (v3 1 0 0) F32.zero (F32.of_Z 3).

(** A volume whose scalar is the x coordinate of the position, with
    maximum [max]. *)
Definition ramp_volume (max : Z) : Volume :=
  mkVolume (fun p => x3 p) (F32.of_Z max).

(** A volume whose scalar is 0 where [x < 1/2] and 1 elsewhere, with
    maximum 100. *)
Definition step_volume : Volume :=
  mkVolume (fun p => if x3 p <? half then F32.of_Z 0 else F32.of_Z 1)
           (F32.of_Z 100).

(** A volume that is [c] everywhere. *)
Definition flat_volume (c max : Z) : Volume :=
  mkVolume (fun _ => F32.of_Z c) (F32.of_Z max).

Definition gradients (lo hi : Z) : GradientVolume :=
  mkGradientVolume
    (fun _ => mkGradientVoxel (v3 1 0 0) (F32.of_Z lo))
    (F32.of_Z lo) (F32.of_Z hi).

Definition camera0 : RayTraceCamera := mkCamera (v3 0 0 0).

(** Configuration with volume shading disabled, isovalue 95, the given
    lookup table over the domain [start, start + range], and the 2D
    transfer function with apex intensity 100 and radius 10. *)
Definition config_with (table : list vec4) (start range : Z) (g : float)
    : RenderConfig :=
  mkRenderConfig RenderComposite (8, 8)%Z false false
    (F32.of_Z 95) g
    (F32.of_Z 0) (F32.of_Z 1) (F32.of_Z 0) (F32.of_Z 1)
    (F32.of_Z 0) (F32.of_Z 1)
    table (F32.of_Z start) (F32.of_Z range)
    (F32.of_Z 100) (F32.of_Z 10) (v4 1 1 1 1).

(** A table whose 256 entries are all opaque white. *)
Definition white_table : list vec4 := repeat (v4 1 1 1 1) 256.

(** A table that is opaque white in its first entry, transparent black in
    the second, and transparent black above. *)
Definition step_table : list vec4 :=
  v4 1 1 1 1 :: repeat (v4 0 0 0 0) 255.

Definition renderer_of (v : Volume) (c : RenderConfig) : Renderer :=
  mkRenderer v (gradients 0 50) camera0 c.

(** A ray along the z axis through the middle of the unit box. *)
Definition ray_through : Ray :=
  mkRay (Vec3 half half (F32.of_Z (-1))) (v3 0 0 1) F32.zero F32.zero.

(** A ray along the x axis from the origin, sampled for [t] in [94, 99]. *)
Definition ray_far : Ray :=
  mkRay (v3 0 0 0) (v3 1 0 0) (F32.of_Z 94) (F32.of_Z 99).

(** A volume whose scalar is 5 where [x < 1/2], a NaN where
    [1/2 <= x < 3/2] and 1 elsewhere, with maximum 100. *)
Definition spike_volume : Volume :=
  mkVolume
    (fun p =>
       if x3 p <? half then F32.of_Z 5
       else if x3 p <? F32.of_Z 1 + half then F32.nan
       else F32.of_Z 1)
    (F32.of_Z 100).

(** A gradient field of constant magnitude [m], with magnitudes from [lo]
    to [hi]. *)
Definition gradients_of (m lo hi : Z) : GradientVolume :=
  mkGradientVolume
    (fun _ => mkGradientVoxel (v3 1 0 0) (F32.of_Z m))
    (F32.of_Z lo) (F32.of_Z hi).

Definition zero_gradient : GradientVoxel :=
  mkGradientVoxel (v3 0 0 0) F32.zero.

(** The configuration [config_with] in the render mode [mode], for an image
    of [w] by [h] pixels, with volume shading as given. *)
Definition config_for (mode : RenderMode) (w h : Z) (shading : bool)
    (table : list vec4) (g : float) : RenderConfig :=
  mkRenderConfig mode (w, h) shading false
    (F32.of_Z 95) g
    (F32.of_Z 0) (F32.of_Z 1) (F32.of_Z 0) (F32.of_Z 1)
    (F32.of_Z 0) (F32.of_Z 1)
    table (F32.of_Z 0) (F32.of_Z 255)
    (F32.of_Z 100) (F32.of_Z 10) (v4 1 1 1 1).

(** A camera that looks along the z axis: the pixel [(px, py)] of
    [-1, 1) x [-1, 1) gets the ray from [(px + 1/2, py + 1/2, -1)] along
    z; the volume has 2 x 2 x 2 voxels. *)
Definition scene_z : Scene :=
  mkScene (v3 0 0 1)
    (fun p =>
       mkRay (Vec3 (x2 p + half) (y2 p + half) (F32.of_Z (-1))) (v3 0 0 1)
             F32.zero F32.zero)
    (2, 2, 2).
End Examples.

(** * Properties *)

(** The literals are the correctly rounded decimals of the source. *)
Example literals_are_nearest :
  F32.c0_8 = (F32.of_Z 8 / F32.of_Z 10)%f32 /\
  F32.c0_01 = (F32.of_Z 1 / F32.of_Z 100)%f32 /\
  F32.one = F32.of_Z 1 /\ F32.two = F32.of_Z 2 /\ F32.three = F32.of_Z 3 /\
  F32.c256 = F32.of_Z 256.
Proof. repeat split; reflexivity. Qed.

(** ** binary32 rounding *)

Lemma digits2_pos_bounds :
  forall p : positive,
    2 ^ (Zpos (digits2_pos p) - 1) <= Zpos p < 2 ^ Zpos (digits2_pos p).
Proof.
  induction p as [p IH|p IH|]; cbn [digits2_pos];
    rewrite ?Pos2Z.inj_succ.
  - replace (Z.succ (Zpos (digits2_pos p)) - 1)
      with (Z.succ (Zpos (digits2_pos p) - 1)) by lia.
    rewrite !Z.pow_succ_r by lia. lia.
  - replace (Z.succ (Zpos (digits2_pos p)) - 1)
      with (Z.succ (Zpos (digits2_pos p) - 1)) by lia.
    rewrite !Z.pow_succ_r by lia. lia.
  - cbn. lia.
Qed.

Lemma iter_pos_nat :
  forall (A : Type) (f : A -> A) (p : positive) (x : A),
    iter_pos f p x = Nat.iter (Pos.to_nat p) f x.
Proof.
  intros A f. induction p as [p IH|p IH|]; intros x; cbn [iter_pos].
  - rewrite !IH, Pos2Nat.inj_xI.
    replace (S (2 * Pos.to_nat p)) with (Pos.to_nat p + S (Pos.to_nat p))%nat by lia.
    rewrite Nat.iter_add, Nat.iter_succ_r. reflexivity.
  - rewrite !IH, Pos2Nat.inj_xO.
    replace (2 * Pos.to_nat p)%nat with (Pos.to_nat p + Pos.to_nat p)%nat by lia.
    rewrite Nat.iter_add. reflexivity.
  - reflexivity.
Qed.

Lemma shr_1_spec :
  forall (m : Z) (r s : bool),
    0 <= m ->
    shr_1 (Build_shr_record m r s)
    = Build_shr_record (m / 2) (Z.odd m) (r || s).
Proof.
  intros m r s Hm. rewrite <- Z.div2_div.
  destruct m as [|p|p]; [reflexivity| |lia].
  destruct p; reflexivity.
Qed.

Lemma shr_iter_spec :
  forall (N : Z) (k : nat),
    0 <= N ->
    Nat.iter (S k) shr_1 (Build_shr_record N false false)
    = Build_shr_record (N / 2 ^ Z.of_nat (S k))
        (Z.odd (N / 2 ^ Z.of_nat k))
        (negb (N mod 2 ^ Z.of_nat k =? 0)).
Proof.
  intros N k HN. induction k as [|k IH].
  - cbn [Nat.iter]. rewrite shr_1_spec by exact HN.
    change (2 ^ Z.of_nat 1) with 2. change (2 ^ Z.of_nat 0) with 1.
    rewrite Z.div_1_r, Z.mod_1_r. reflexivity.
  - change (Nat.iter (S (S k)) shr_1 (Build_shr_record N false false))
      with (shr_1 (Nat.iter (S k) shr_1 (Build_shr_record N false false))).
    rewrite IH.
    assert (Hp : 0 < 2 ^ Z.of_nat k) by (apply Z.pow_pos_nonneg; lia).
    rewrite shr_1_spec by (apply Z.div_pos; [lia | apply Z.pow_pos_nonneg; lia]).
    rewrite Z.div_div by (try apply Z.pow_pos_nonneg; lia).
    replace (2 ^ Z.of_nat (S k) * 2) with (2 ^ Z.of_nat (S (S k)))
      by (rewrite (Nat2Z.inj_succ (S k)), Z.pow_succ_r; lia).
    f_equal.
    replace (2 ^ Z.of_nat (S k)) with (2 ^ Z.of_nat k * 2)
      by (rewrite Nat2Z.inj_succ, Z.pow_succ_r; lia).
    rewrite Z.rem_mul_r by lia.
    pose proof (Z.mod_pos_bound N (2 ^ Z.of_nat k) Hp) as Hm.
    rewrite Zmod_odd.
    destruct (Z.odd (N / 2 ^ Z.of_nat k)); cbn [orb].
    + symmetry. apply negb_true_iff. apply Z.eqb_neq. lia.
    + f_equal. f_equal. lia.
Qed.

Lemma shr_pos_round :
  forall (N : Z) (n : positive),
    0 <= N ->
    let mrs := iter_pos shr_1 n (Build_shr_record N false false) in
    round_nearest_even (shr_m mrs) (loc_of_shr_record mrs) = rne N (Zpos n).
Proof.
  intros N n HN mrs. subst mrs. rewrite iter_pos_nat.
  destruct (Pos2Nat.is_succ n) as [k Hk]. rewrite Hk, shr_iter_spec by exact HN.
  assert (Hn : Zpos n = Z.of_nat (S k)) by lia.
  unfold rne. rewrite Hn.
  replace (Z.of_nat (S k) - 1) with (Z.of_nat k) by lia.
  cbn [shr_m loc_of_shr_record].
  destruct (Z.odd (N / 2 ^ Z.of_nat k)), (negb (N mod 2 ^ Z.of_nat k =? 0));
    reflexivity.
Qed.

Lemma rne_spec :
  forall N n : Z,
    0 <= N -> 1 <= n ->
    exists (q t : Z) (r : bool),
      N = 2 * 2 ^ (n - 1) * q + 2 ^ (n - 1) * (if r then 1 else 0) + t /\
      0 <= t < 2 ^ (n - 1) /\ 0 <= q /\
      rne N n = q + (if r && (negb (t =? 0) || Z.odd q) then 1 else 0).
Proof.
  intros N n HN Hn.
  assert (HP : 0 < 2 ^ (n - 1)) by (apply Z.pow_pos_nonneg; lia).
  assert (H2P : 2 ^ n = 2 ^ (n - 1) * 2).
  { replace n with (Z.succ (n - 1)) at 1 by lia. rewrite Z.pow_succ_r; lia. }
  exists (N / 2 ^ n), (N mod 2 ^ (n - 1)), (Z.odd (N / 2 ^ (n - 1))).
  pose proof (Z.mod_pos_bound N (2 ^ (n - 1)) HP) as Ht.
  pose proof (Z.div_mod N (2 ^ (n - 1)) ltac:(lia)) as Hdm.
  assert (Hq : N / 2 ^ n = N / 2 ^ (n - 1) / 2).
  { rewrite H2P, Z.div_div; lia. }
  pose proof (Z.div_mod (N / 2 ^ (n - 1)) 2 ltac:(lia)) as Hdm2.
  rewrite Zmod_odd in Hdm2.
  assert (H0 : 0 <= N / 2 ^ (n - 1)) by (apply Z.div_pos; lia).
  split; [|split; [|split]].
  - rewrite Hq. destruct (Z.odd (N / 2 ^ (n - 1))); nia.
  - exact Ht.
  - rewrite Hq. apply Z.div_pos; lia.
  - unfold rne. rewrite <- Z.negb_odd.
    destruct (Z.odd (N / 2 ^ (n - 1))); cbn [andb orb]; [|lia].
    destruct (negb (N mod 2 ^ (n - 1) =? 0)); cbn [orb]; [reflexivity|].
    destruct (Z.odd (N / 2 ^ n)); cbn [negb]; lia.
Qed.

(** [rne] of a multiple of the grid is exact. *)
Lemma rne_exact :
  forall M n k : Z,
    0 <= M -> 0 <= n -> 0 <= k -> 1 <= n + k ->
    rne (M * 2 ^ k) (n + k) = if n =? 0 then M else rne M n.
Proof.
  intros M n k HM Hn Hk Hnk.
  assert (Hk2 : 0 < 2 ^ k) by (apply Z.pow_pos_nonneg; lia).
  destruct (Z.eqb_spec n 0) as [->|Hn0].
  - cbn [Z.add]. unfold rne.
    replace (M * 2 ^ k / 2 ^ (k - 1)) with (M * 2).
    + rewrite Z.odd_mul. cbn. rewrite andb_false_r.
      apply Z.div_mul. lia.
    + replace k with (Z.succ (k - 1)) at 1 by lia.
      rewrite Z.pow_succ_r by lia.
      replace (M * (2 * 2 ^ (k - 1))) with (M * 2 * 2 ^ (k - 1)) by ring.
      rewrite Z.div_mul; [reflexivity|].
      assert (0 < 2 ^ (k - 1)) by (apply Z.pow_pos_nonneg; lia). lia.
  - unfold rne.
    assert (Hn1 : 0 < 2 ^ (n - 1)) by (apply Z.pow_pos_nonneg; lia).
    assert (Hn2 : 0 < 2 ^ n) by (apply Z.pow_pos_nonneg; lia).
    rewrite (Z.pow_add_r 2 n k) by lia.
    replace (n + k - 1) with ((n - 1) + k) by lia.
    rewrite (Z.pow_add_r 2 (n - 1) k) by lia.
    rewrite !Z.div_mul_cancel_r by lia.
    rewrite Z.mul_mod_distr_r by lia.
    replace (M mod 2 ^ (n - 1) * 2 ^ k =? 0) with (M mod 2 ^ (n - 1) =? 0);
      [reflexivity|].
    destruct (Z.eqb_spec (M mod 2 ^ (n - 1)) 0) as [->|Hne]; symmetry.
    + apply Z.eqb_eq. lia.
    + apply Z.eqb_neq. nia.
Qed.

(** ** Rounding on the integers, in units of [2^-299] *)

Lemma Zdigits2_bounds :
  forall N : Z, 0 < N -> 2 ^ (Zdigits2 N - 1) <= N < 2 ^ Zdigits2 N.
Proof.
  intros [|p|p] HN; try lia. apply digits2_pos_bounds.
Qed.

Lemma Zdigits2_pos : forall N : Z, 0 < N -> 0 < Zdigits2 N.
Proof. intros [|p|p] HN; try lia. cbn. lia. Qed.

Lemma Zdigits2_unique :
  forall N d : Z, 0 < N -> 2 ^ (d - 1) <= N < 2 ^ d -> Zdigits2 N = d.
Proof.
  intros N d HN [Hlo Hhi].
  destruct (Zdigits2_bounds N HN) as [Hlo' Hhi'].
  pose proof (Zdigits2_pos N HN) as Hd.
  assert (Hd0 : 0 < d).
  { destruct (Z.ltb_spec 0 d) as [|Hle]; [assumption|].
    rewrite Z.pow_neg_r in Hhi by lia || (destruct (Z.eq_dec d 0); subst; cbn in Hhi; lia).
    lia. }
  destruct (Z.lt_trichotomy (Zdigits2 N) d) as [Hlt|[Heq|Hgt]]; [|exact Heq|].
  - assert (2 ^ Zdigits2 N <= 2 ^ (d - 1)) by (apply Z.pow_le_mono_r; lia). lia.
  - assert (2 ^ d <= 2 ^ (Zdigits2 N - 1)) by (apply Z.pow_le_mono_r; lia). lia.
Qed.

Lemma Zdigits2_mono :
  forall N Y : Z, 0 < N -> N <= Y -> Zdigits2 N <= Zdigits2 Y.
Proof.
  intros N Y HN HY.
  destruct (Zdigits2_bounds N HN) as [Hlo _].
  destruct (Zdigits2_bounds Y ltac:(lia)) as [_ Hhi].
  destruct (Z.leb_spec (Zdigits2 N) (Zdigits2 Y)) as [|Hlt]; [assumption|].
  assert (2 ^ Zdigits2 Y <= 2 ^ (Zdigits2 N - 1)) by (apply Z.pow_le_mono_r; lia).
  lia.
Qed.

Lemma grid_mono : forall N Y : Z, 0 < N -> N <= Y -> grid N <= grid Y.
Proof.
  intros N Y HN HY. unfold grid. pose proof (Zdigits2_mono N Y HN HY). lia.
Qed.

Lemma grid_ge : forall N : Z, 150 <= grid N.
Proof. intros N. unfold grid. lia. Qed.

Lemma pow2_split :
  forall g : Z, 1 <= g -> 0 < 2 ^ (g - 1) /\ 2 ^ g = 2 * 2 ^ (g - 1).
Proof.
  intros g Hg. split; [apply Z.pow_pos_nonneg; lia|].
  replace g with (Z.succ (g - 1)) at 1 by lia. rewrite Z.pow_succ_r; lia.
Qed.

Lemma round_value_bounds :
  forall N : Z,
    0 < N ->
    exists q : Z,
      0 <= q /\
      q * 2 ^ grid N <= N < (q + 1) * 2 ^ grid N /\
      (round_value N = q * 2 ^ grid N \/ round_value N = (q + 1) * 2 ^ grid N) /\
      (N = q * 2 ^ grid N -> round_value N = N) /\
      round_value N <= N + 2 ^ (grid N - 1) /\
      N <= round_value N + 2 ^ (grid N - 1) /\
      (N = q * 2 ^ grid N + 2 ^ (grid N - 1) -> Z.odd q = false ->
       round_value N = q * 2 ^ grid N).
Proof.
  intros N HN. unfold round_value.
  pose proof (grid_ge N) as Hg.
  destruct (pow2_split (grid N) ltac:(lia)) as [HP H2P].
  destruct (rne_spec N (grid N) ltac:(lia) ltac:(lia))
    as (q & t & r & HNeq & Ht & Hq & Hrne).
  rewrite Hrne, H2P. set (P := 2 ^ (grid N - 1)) in *.
  exists q. split; [exact Hq|].
  assert (Hcases :
    (r && (negb (t =? 0) || Z.odd q) = true /\
     r = true /\ (t <> 0 \/ Z.odd q = true)) \/
    (r && (negb (t =? 0) || Z.odd q) = false /\
     (r = false \/ (t = 0 /\ Z.odd q = false)))).
  { destruct r; cbn [andb]; [|right; auto].
    destruct (Z.eqb_spec t 0) as [Ht0|Ht0]; cbn [negb orb]; [|left; auto].
    destruct (Z.odd q); [left; auto | right; auto]. }
  destruct Hcases as [(Hup & Hr & Hwhy)|(Hup & Hwhy)]; rewrite Hup.
  - subst r.
    split; [nia|]. split; [right; reflexivity|]. split; [intros Heq; nia|].
    split; [nia|]. split; [nia|].
    intros Heq Hodd. destruct Hwhy as [Hw|Hw]; [nia | congruence].
  - assert (Hlow : 2 * P * q <= N < 2 * P * q + P \/ N = 2 * P * q + P)
      by (destruct Hwhy as [Hw|[Hw _]]; destruct r; try discriminate; nia).
    clear HNeq Hrne Hup Hwhy.
    split; [nia|]. split; [left; ring|].
    split; [intros Heq; nia|]. split; [nia|]. split; [nia|].
    intros Heq Hodd. ring.
Qed.

Lemma representable_multiple :
  forall Y g : Z,
    representable Y -> 0 <= g <= grid Y -> exists y, Y = y * 2 ^ g.
Proof.
  intros Y g HY Hg. unfold representable in HY.
  apply Z.div_exact in HY; [|apply Z.pow_nonzero; pose proof (grid_ge Y); lia].
  exists (Y / 2 ^ grid Y * 2 ^ (grid Y - g)).
  rewrite <- Z.mul_assoc, <- Z.pow_add_r by lia.
  replace (grid Y - g + g) with (grid Y) by lia. lia.
Qed.

(** Rounding does not cross a representable value. *)
Lemma round_value_le_representable :
  forall N Y : Z,
    0 < N -> N <= Y -> representable Y -> round_value N <= Y.
Proof.
  intros N Y HN HNY HY.
  pose proof (grid_mono N Y HN HNY) as Hg. pose proof (grid_ge N) as Hg0.
  destruct (representable_multiple Y (grid N) HY ltac:(lia)) as [y Hy].
  destruct (round_value_bounds N HN) as (q & Hq & Hb & Hcase & Hexact & _).
  assert (HP : 0 < 2 ^ grid N) by (apply Z.pow_pos_nonneg; lia).
  destruct Hcase as [Hc|Hc]; [lia|].
  destruct (Z.eq_dec N (q * 2 ^ grid N)) as [Heq|Hne].
  - rewrite (Hexact Heq). exact HNY.
  - rewrite Hc. set (G := 2 ^ grid N) in *.
    assert (Hlt : q < y) by nia.
    assert (Hle : (q + 1) * G <= y * G) by (apply Z.mul_le_mono_nonneg_r; lia).
    lia.
Qed.

Lemma representable_le_round_value :
  forall N Y : Z,
    0 < Y -> Y <= N -> representable Y -> Y <= round_value N.
Proof.
  intros N Y HY0 HYN HY.
  pose proof (grid_mono Y N HY0 HYN) as Hg. pose proof (grid_ge Y) as HgY.
  destruct (round_value_bounds N ltac:(lia)) as (q & Hq & Hb & Hcase & _).
  assert (HP : 0 < 2 ^ grid N) by (apply Z.pow_pos_nonneg; lia).
  assert (Hfloor : Y <= q * 2 ^ grid N); [|destruct Hcase; nia].
  destruct (Z.eq_dec (grid Y) (grid N)) as [Heq|Hne].
  - destruct (representable_multiple Y (grid Y) HY ltac:(lia)) as [y Hy].
    rewrite Heq in Hy. set (G := 2 ^ grid N) in *.
    assert (Hlt : y < q + 1) by nia.
    assert (Hle : y * G <= q * G) by (apply Z.mul_le_mono_nonneg_r; lia).
    lia.
  - (* the grid of [N] is coarser: a power of two lies between them *)
    assert (HdN : grid N = Zdigits2 N - 24) by (unfold grid in *; lia).
    assert (HdY : Zdigits2 Y <= Zdigits2 N - 1) by (unfold grid in *; lia).
    destruct (Zdigits2_bounds Y HY0) as [_ HYhi].
    destruct (Zdigits2_bounds N ltac:(lia)) as [HNlo _].
    assert (Hpow : 2 ^ Zdigits2 Y <= 2 ^ (Zdigits2 N - 1))
      by (apply Z.pow_le_mono_r; lia).
    assert (Hsplit : 2 ^ (Zdigits2 N - 1) = 2 ^ 23 * 2 ^ grid N).
    { rewrite <- Z.pow_add_r by lia. f_equal. lia. }
    assert (H23 : 2 ^ 23 <= q); [|nia].
    destruct (Z.leb_spec (2 ^ 23) q) as [|Hlt]; [assumption|].
    assert ((q + 1) * 2 ^ grid N <= 2 ^ 23 * 2 ^ grid N) by nia. lia.
Qed.

Lemma round_value_representable :
  forall Y : Z, 0 < Y -> representable Y -> round_value Y = Y.
Proof.
  intros Y HY0 HY.
  pose proof (round_value_le_representable Y Y HY0 ltac:(lia) HY).
  pose proof (representable_le_round_value Y Y HY0 ltac:(lia) HY). lia.
Qed.

Lemma round_value_0 : round_value 0 = 0.
Proof. reflexivity. Qed.

Lemma round_value_nonneg : forall N : Z, 0 <= N -> 0 <= round_value N.
Proof.
  intros N HN. destruct (Z.eq_dec N 0) as [->|Hne]; [rewrite round_value_0; lia|].
  destruct (round_value_bounds N ltac:(lia)) as (q & Hq & Hb & Hcase & _).
  assert (HP : 0 < 2 ^ grid N)
    by (apply Z.pow_pos_nonneg; pose proof (grid_ge N); lia).
  destruct Hcase; nia.
Qed.

Lemma representable_unit : representable unit_value.
Proof. reflexivity. Qed.

Lemma grid_le_unit : forall N : Z, 0 < N -> N <= unit_value -> grid N <= 276.
Proof.
  intros N HN HNU. pose proof (grid_mono N unit_value HN HNU) as H.
  change (grid unit_value) with 276 in H. exact H.
Qed.

(** Below one, rounding adds at most [2^-24]. *)
Lemma round_value_error_below_unit :
  forall N : Z, 0 <= N -> N <= unit_value -> round_value N <= N + 2 ^ 275.
Proof.
  intros N HN HNU. destruct (Z.eq_dec N 0) as [->|Hne].
  - rewrite round_value_0. cbn. lia.
  - destruct (round_value_bounds N ltac:(lia)) as (q & _ & _ & _ & _ & Herr & _).
    pose proof (grid_le_unit N ltac:(lia) HNU) as Hg.
    assert (2 ^ (grid N - 1) <= 2 ^ 275) by (apply Z.pow_le_mono_r; lia).
    lia.
Qed.

(** Up to [1 + 2^-24], rounding gives at most one. *)
Lemma round_value_le_unit :
  forall N : Z, 0 <= N -> N <= unit_value + 2 ^ 275 -> round_value N <= unit_value.
Proof.
  intros N HN HNU. destruct (Z.eq_dec N 0) as [->|Hne].
  - rewrite round_value_0. cbn. lia.
  - destruct (Z.leb_spec N unit_value) as [Hle|Hgt].
    + apply round_value_le_representable; [lia | exact Hle | exact representable_unit].
    + assert (Hd : Zdigits2 N = 300).
      { apply Zdigits2_unique; [lia|]. change (2 ^ (300 - 1)) with unit_value.
        split; [lia|]. assert (unit_value + 2 ^ 275 < 2 ^ 300) by reflexivity. lia. }
      assert (Hg : grid N = 276) by (unfold grid; rewrite Hd; reflexivity).
      destruct (round_value_bounds N ltac:(lia))
        as (q & Hq & Hb & Hcase & _ & Herr & _ & Htie).
      rewrite Hg in *. change (276 - 1) with 275 in *.
      assert (HU : unit_value = 2 ^ 23 * 2 ^ 276) by reflexivity.
      assert (H275 : 2 ^ 276 = 2 * 2 ^ 275) by reflexivity.
      assert (H274 : 0 < 2 ^ 275) by reflexivity.
      assert (Hq23 : q = 2 ^ 23) by nia.
      destruct Hcase as [Hc|Hc]; [nia|].
      destruct (Z.eq_dec N (q * 2 ^ 276 + 2 ^ 275)) as [Heq|Hneq].
      * rewrite (Htie Heq); [nia|]. rewrite Hq23. reflexivity.
      * nia.
Qed.

Lemma fexp32_eq : forall e, fexp 24 128 e = fexp32 e.
Proof. reflexivity. Qed.

Lemma binary_round_aux_exact :
  forall (s : bool) (M E : Z),
    0 < M ->
    E <= fexp32 (Zdigits2 M + E) ->
    let n := fexp32 (Zdigits2 M + E) - E in
    binary_round_aux 24 128 s M E loc_Exact
    = round_finish s (if n =? 0 then M else rne M n) (E + n).
Proof.
  intros s M E HM Hpre n.
  unfold binary_round_aux.
  unfold shr_fexp at 1. rewrite fexp32_eq. fold n.
  cbn [shr_record_of_loc]. unfold shr.
  destruct n as [|p|p] eqn:Hn; [| |lia].
  - cbn [Z.eqb shr_m loc_of_shr_record round_nearest_even].
    rewrite Z.add_0_r. reflexivity.
  - cbn [Z.eqb]. rewrite shr_pos_round by lia. reflexivity.
Qed.

Lemma round_finish_zero : forall s e, round_finish s 0 e = S754_zero s.
Proof.
  intros s e. unfold round_finish, shr_fexp, shr. cbn [shr_record_of_loc].
  destruct (fexp 24 128 (Zdigits2 0 + e) - e) as [|p|p]; try reflexivity.
  rewrite iter_pos_nat. destruct (Pos2Nat.is_succ p) as [k Hk].
  rewrite Hk, shr_iter_spec by lia. cbn [shr_m].
  rewrite Z.div_0_l; [reflexivity|]. apply Z.pow_nonzero; lia.
Qed.

Lemma round_finish_canonical :
  forall s (q : positive) e,
    fexp32 (Zpos (digits2_pos q) + e) = e -> e <= 104 ->
    round_finish s (Zpos q) e = S754_finite s q e.
Proof.
  intros s q e Hcan He. unfold round_finish, shr_fexp.
  rewrite fexp32_eq. cbn [Zdigits2]. rewrite Hcan, Z.sub_diag.
  cbn [shr shr_record_of_loc shr_m].
  replace (e <=? 128 - 24) with true; [reflexivity|].
  symmetry. apply Z.leb_le. lia.
Qed.

Lemma round_finish_carry :
  forall s e,
    -149 <= e -> e + 1 <= 104 ->
    round_finish s (2 ^ 24) e = S754_finite s 8388608 (e + 1).
Proof.
  intros s e He Hov. unfold round_finish, shr_fexp.
  rewrite fexp32_eq. change (Zdigits2 (2 ^ 24)) with 25.
  replace (fexp32 (25 + e) - e) with 1 by (unfold fexp32; lia).
  cbn [shr shr_record_of_loc iter_pos shr_1 shr_m].
  change (2 ^ 24) with 16777216. cbn [shr_1 shr_m].
  replace (e + 1 <=? 128 - 24) with true; [reflexivity|].
  symmetry. apply Z.leb_le. lia.
Qed.

(** ** Values *)

Lemma Zdigits2_mul_pow2 :
  forall M k : Z, 0 < M -> 0 <= k -> Zdigits2 (M * 2 ^ k) = Zdigits2 M + k.
Proof.
  intros M k HM Hk.
  assert (Hk2 : 0 < 2 ^ k) by (apply Z.pow_pos_nonneg; lia).
  destruct (Zdigits2_bounds M HM) as [Hlo Hhi].
  pose proof (Zdigits2_pos M HM) as Hd.
  apply Zdigits2_unique; [nia|].
  replace (Zdigits2 M + k - 1) with (Zdigits2 M - 1 + k) by lia.
  rewrite !Z.pow_add_r by lia. nia.
Qed.

Lemma round_aux_value :
  forall M E : Z,
    0 < M -> -299 <= E ->
    E <= fexp32 (Zdigits2 M + E) ->
    M * 2 ^ (E + 299) <= 2 ^ 301 ->
    let f := binary_round_aux 24 128 false M E loc_Exact in
    nonneg_finite f = true /\ value_of f = round_value (M * 2 ^ (E + 299)).
Proof.
  intros M E HM HE Hpre Hsmall f. subst f.
  rewrite binary_round_aux_exact by assumption.
  set (N := M * 2 ^ (E + 299)) in *.
  assert (Hk2 : 0 < 2 ^ (E + 299)) by (apply Z.pow_pos_nonneg; lia).
  assert (HN : 0 < N) by (unfold N; nia).
  assert (HdN : Zdigits2 N = Zdigits2 M + (E + 299))
    by (apply Zdigits2_mul_pow2; lia).
  set (e := fexp32 (Zdigits2 M + E)) in *.
  assert (Hg : grid N = e + 299) by (unfold grid, e, fexp32; lia).
  assert (He : -149 <= e) by (unfold e, fexp32; lia).
  assert (Hrne : rne N (grid N) = if e - E =? 0 then M else rne M (e - E)).
  { rewrite Hg. replace (e + 299) with ((e - E) + (E + 299)) by lia.
    unfold N. apply rne_exact; lia. }
  set (q' := if e - E =? 0 then M else rne M (e - E)) in *.
  replace (E + (e - E)) with e by lia.
  assert (HVR : round_value N = q' * 2 ^ (e + 299)) by (unfold round_value; rewrite Hrne, Hg; reflexivity).
  destruct (round_value_bounds N HN) as (q0 & Hq0 & Hb & Hcase & _).
  rewrite Hg in Hb, Hcase. rewrite HVR in Hcase.
  set (G := 2 ^ (e + 299)) in *.
  assert (HG : 0 < G) by (apply Z.pow_pos_nonneg; lia).
  assert (Hq' : q' = q0 \/ q' = q0 + 1) by nia.
  destruct (Zdigits2_bounds N HN) as [HNlo HNhi].
  assert (Hdig300 : Zdigits2 N <= 302).
  { destruct (Z.leb_spec (Zdigits2 N) 302) as [|Hgt]; [assumption|].
    assert (2 ^ 302 <= 2 ^ (Zdigits2 N - 1)) by (apply Z.pow_le_mono_r; lia).
    assert (2 ^ 301 < 2 ^ 302) by reflexivity. lia. }
  assert (Hov : e + 1 <= 104) by (unfold grid in Hg; lia).
  (* the two regimes of the grid *)
  assert (Hregime :
    (e + 299 = Zdigits2 N - 24 /\ 2 ^ 23 <= q0 < 2 ^ 24) \/
    (e = -149 /\ q0 < 2 ^ 23)).
  { unfold grid in Hg.
    destruct (Z.leb_spec 150 (Zdigits2 N - 24)) as [Hnorm|Hsub].
    - left. split; [lia|].
      assert (Hhi : 2 ^ Zdigits2 N = 2 ^ 24 * G).
      { unfold G. rewrite <- Z.pow_add_r by lia. f_equal. lia. }
      assert (Hlo : 2 ^ (Zdigits2 N - 1) = 2 ^ 23 * G).
      { unfold G. rewrite <- Z.pow_add_r by lia. f_equal. lia. }
      split; nia.
    - right. split; [lia|].
      assert (Hhi : 2 ^ Zdigits2 N <= 2 ^ 23 * G).
      { unfold G. rewrite <- Z.pow_add_r by lia.
        apply Z.pow_le_mono_r; lia. }
      nia. }
  destruct (Z.eq_dec q' 0) as [Hz|Hnz].
  - rewrite Hz, round_finish_zero. split; [reflexivity|]. cbn [value_of]. lia.
  - destruct (Z.eq_dec q' (2 ^ 24)) as [Hc|Hnc].
    + rewrite Hc, round_finish_carry by lia. split.
      * unfold nonneg_finite, F32.valid, valid_binary, bounded,
          canonical_mantissa.
        rewrite fexp32_eq. change (Zpos (digits2_pos 8388608)) with 24.
        replace (fexp32 (24 + (e + 1))) with (e + 1) by (unfold fexp32; lia).
        rewrite Z.eqb_refl. cbn [andb].
        rewrite andb_true_r. apply Z.leb_le. unfold F32.emax, F32.prec. lia.
      * cbn [value_of]. unfold G. replace (e + 1 + 299) with (Z.succ (e + 299)) by lia.
        rewrite Z.pow_succ_r by lia. change (2 ^ 24) with 16777216. lia.
    + assert (Hpos : 0 < q' < 2 ^ 24) by (destruct Hregime; lia).
      destruct q' as [|q|q] eqn:Hq; try lia.
      assert (Hcan : fexp32 (Zpos (digits2_pos q) + e) = e).
      { pose proof (digits2_pos_bounds q) as [Hqlo Hqhi].
        assert (Hd24 : Zpos (digits2_pos q) <= 24).
        { destruct (Z.leb_spec (Zpos (digits2_pos q)) 24) as [|Hgt]; [assumption|].
          assert (2 ^ 24 <= 2 ^ (Zpos (digits2_pos q) - 1))
            by (apply Z.pow_le_mono_r; lia). lia. }
        destruct Hregime as [[Hnorm Hq23]|[Hsub _]].
        - assert (Hd : Zpos (digits2_pos q) = 24).
          { destruct (Z.eq_dec (Zpos (digits2_pos q)) 24) as [|Hne]; [assumption|].
            assert (2 ^ Zpos (digits2_pos q) <= 2 ^ 23)
              by (apply Z.pow_le_mono_r; lia). lia. }
          unfold fexp32. lia.
        - unfold fexp32. lia. }
      rewrite round_finish_canonical by (assumption || lia). split.
      * unfold nonneg_finite, F32.valid, valid_binary, bounded,
          canonical_mantissa.
        rewrite fexp32_eq, Hcan, Z.eqb_refl. cbn [andb].
        rewrite andb_true_r. apply Z.leb_le. unfold F32.emax, F32.prec. lia.
      * cbn [value_of]. lia.
Qed.

Lemma pos_iter_xO :
  forall (m d : positive), Zpos (Pos.iter xO m d) = Zpos m * 2 ^ Zpos d.
Proof.
  intros m d. revert m. induction d as [|d IH] using Pos.peano_ind; intros m.
  - cbn [Pos.iter]. rewrite Pos2Z.inj_xO. change (2 ^ 1) with 2. ring.
  - rewrite Pos.iter_succ, Pos2Z.inj_xO, IH, Pos2Z.inj_succ, Z.pow_succ_r by lia.
    ring.
Qed.

Lemma shl_align_spec :
  forall (m : positive) (e e' : Z),
    snd (shl_align m e e') = Z.min e e' /\
    Zpos (fst (shl_align m e e'))
    = Zpos m * 2 ^ (e - snd (shl_align m e e')).
Proof.
  intros m e e'. unfold shl_align.
  destruct (e' - e) as [|d|d] eqn:Hd; cbn [fst snd].
  - split; [lia|]. rewrite Z.sub_diag. cbn. lia.
  - split; [lia|]. rewrite Z.sub_diag. cbn. lia.
  - split; [lia|]. rewrite pos_iter_xO. f_equal. f_equal. lia.
Qed.

(** [binary_round] is [binary_round_aux] on an aligned mantissa that meets
    the precondition of the rounding lemmas. *)
Lemma binary_round_aligned :
  forall (s : bool) (m : positive) (e : Z),
    exists (mz : positive) (ez : Z),
      binary_round 24 128 s m e
      = binary_round_aux 24 128 s (Zpos mz) ez loc_Exact /\
      ez <= e /\
      Zpos mz = Zpos m * 2 ^ (e - ez) /\
      ez = Z.min e (fexp32 (Zpos (digits2_pos m) + e)) /\
      ez <= fexp32 (Zdigits2 (Zpos mz) + ez).
Proof.
  intros s m e. unfold binary_round. rewrite fexp32_eq.
  destruct (shl_align_spec m e (fexp32 (Zpos (digits2_pos m) + e)))
    as [Hsnd Hfst].
  destruct (shl_align m e (fexp32 (Zpos (digits2_pos m) + e))) as [mz ez].
  cbn [fst snd] in *. exists mz, ez.
  split; [reflexivity|]. split; [lia|]. split; [exact Hfst|].
  split; [exact Hsnd|].
  rewrite Hfst, Zdigits2_mul_pow2 by lia. cbn [Zdigits2].
  replace (Zpos (digits2_pos m) + (e - ez) + ez)
    with (Zpos (digits2_pos m) + e) by lia.
  lia.
Qed.

(** ** Shape and order of the non-negative numbers of the format *)

Lemma nonneg_finite_cases :
  forall x : float,
    nonneg_finite x = true ->
    (exists s, x = S754_zero s) \/
    (exists m e, x = S754_finite false m e /\
                 fexp32 (Zpos (digits2_pos m) + e) = e /\ e <= 104).
Proof.
  intros x Hx. unfold nonneg_finite in Hx.
  apply andb_true_iff in Hx. destruct Hx as [Hv Hs].
  destruct x as [s|s| |s m e]; try discriminate.
  - left. exists s. reflexivity.
  - destruct s; [discriminate|]. right. exists m, e.
    unfold F32.valid, valid_binary, bounded, canonical_mantissa in Hv.
    apply andb_true_iff in Hv. destruct Hv as [Hc Hb].
    apply Z.eqb_eq in Hc. apply Z.leb_le in Hb.
    rewrite fexp32_eq in Hc. unfold F32.emax, F32.prec in Hb.
    repeat split; [exact Hc | lia].
Qed.

Lemma canonical_digits :
  forall (m : positive) (e : Z),
    fexp32 (Zpos (digits2_pos m) + e) = e ->
    -149 <= e /\ Zpos m < 2 ^ 24 /\ (-149 < e -> 2 ^ 23 <= Zpos m).
Proof.
  intros m e Hc. unfold fexp32 in Hc.
  destruct (digits2_pos_bounds m) as [Hlo Hhi].
  assert (Hd : Zpos (digits2_pos m) <= 24) by lia.
  split; [lia|]. split.
  - assert (2 ^ Zpos (digits2_pos m) <= 2 ^ 24)
      by (apply Z.pow_le_mono_r; lia). lia.
  - intros He. replace (Zpos (digits2_pos m)) with 24 in Hlo by lia.
    exact Hlo.
Qed.

Lemma value_of_nonneg_finite :
  forall x : float,
    nonneg_finite x = true ->
    value_of x = 0 \/ (0 < value_of x /\ representable (value_of x)).
Proof.
  intros x Hx.
  destruct (nonneg_finite_cases x Hx) as [[s ->]|(m & e & -> & Hc & He)].
  - left. reflexivity.
  - right. cbn [value_of].
    destruct (canonical_digits m e Hc) as (Hlo & _ & _).
    assert (Hp : 0 < 2 ^ (e + 299)) by (apply Z.pow_pos_nonneg; lia).
    split; [nia|].
    unfold representable, grid.
    replace (1 * (Zpos m * 2 ^ (e + 299))) with (Zpos m * 2 ^ (e + 299)) by ring.
    rewrite Zdigits2_mul_pow2 by lia. cbn [Zdigits2].
    replace (Z.max (Zpos (digits2_pos m) + (e + 299) - 24) 150)
      with (e + 299) by (unfold fexp32 in Hc; lia).
    apply Z.mod_mul. lia.
Qed.

Lemma value_of_nonneg : forall x, nonneg_finite x = true -> 0 <= value_of x.
Proof. intros x Hx. destruct (value_of_nonneg_finite x Hx); lia. Qed.

Lemma value_of_finite_lt :
  forall (m1 m2 : positive) (e1 e2 : Z),
    fexp32 (Zpos (digits2_pos m1) + e1) = e1 ->
    fexp32 (Zpos (digits2_pos m2) + e2) = e2 ->
    e1 < e2 ->
    Zpos m1 * 2 ^ (e1 + 299) < Zpos m2 * 2 ^ (e2 + 299).
Proof.
  intros m1 m2 e1 e2 H1 H2 Hlt.
  destruct (canonical_digits m1 e1 H1) as (He1 & Hm1 & _).
  destruct (canonical_digits m2 e2 H2) as (He2 & _ & Hm2).
  specialize (Hm2 ltac:(lia)).
  assert (Hp : 0 < 2 ^ (e1 + 299)) by (apply Z.pow_pos_nonneg; lia).
  assert (Hpow : 2 * 2 ^ (e1 + 299) <= 2 ^ (e2 + 299)).
  { rewrite <- Z.pow_succ_r by lia. apply Z.pow_le_mono_r; lia. }
  change (2 ^ 24) with (2 * 2 ^ 23) in Hm1.
  assert (0 < 2 ^ 23) by reflexivity.
  nia.
Qed.

Lemma leb_value :
  forall x y : float,
    nonneg_finite x = true -> nonneg_finite y = true ->
    ((x <=? y)%f32 = true <-> value_of x <= value_of y).
Proof.
  intros x y Hx Hy.
  destruct (nonneg_finite_cases x Hx) as [[sx ->]|(mx & ex & -> & Hcx & Hbx)];
    destruct (nonneg_finite_cases y Hy) as [[sy ->]|(my & ey & -> & Hcy & Hby)].
  - cbn. split; [lia | reflexivity].
  - pose proof (value_of_nonneg _ Hy) as Hw. change (value_of (S754_zero sx)) with 0.
    split; [intros _; exact Hw | reflexivity].
  - change (value_of (S754_zero sy)) with 0.
    assert (Hpos : 0 < value_of (S754_finite false mx ex)).
    { cbn [value_of]. destruct (canonical_digits mx ex Hcx) as (Hex & _ & _).
      assert (0 < 2 ^ (ex + 299)) by (apply Z.pow_pos_nonneg; lia). nia. }
    split; [discriminate | lia].
  - cbn [value_of]. unfold F32.leb, SFleb, SFcompare.
    destruct (canonical_digits mx ex Hcx) as (Hex & _ & _).
    destruct (canonical_digits my ey Hcy) as (Hey & _ & _).
    destruct (Z.compare_spec ex ey) as [Heq|Hlt|Hgt].
    + subst ey. rewrite Pos.compare_cont_spec. cbn [Pos.switch_Eq].
      assert (Hp : 0 < 2 ^ (ex + 299)) by (apply Z.pow_pos_nonneg; lia).
      destruct (Pos.compare_spec mx my) as [Hm|Hm|Hm].
      * subst my. split; [lia | reflexivity].
      * split; [nia | reflexivity].
      * split; [discriminate | nia].
    + pose proof (value_of_finite_lt mx my ex ey Hcx Hcy Hlt).
      split; [lia | reflexivity].
    + pose proof (value_of_finite_lt my mx ey ex Hcy Hcx Hgt).
      split; [discriminate | lia].
Qed.

Lemma normalize_value :
  forall M e : Z,
    0 <= M -> -149 <= e -> M * 2 ^ (e + 299) <= 2 ^ 301 ->
    let f := binary_normalize 24 128 M e false in
    nonneg_finite f = true /\ value_of f = round_value (M * 2 ^ (e + 299)).
Proof.
  intros M e HM He Hsmall f. subst f.
  destruct M as [|m|m]; [| |lia].
  - cbn [binary_normalize]. split; reflexivity.
  - cbn [binary_normalize].
    destruct (binary_round_aligned false m e)
      as (mz & ez & -> & Hle & Hmz & Hez & Hpre).
    assert (Hval : Zpos mz * 2 ^ (ez + 299) = Zpos m * 2 ^ (e + 299)).
    { rewrite Hmz, <- Z.mul_assoc, <- Z.pow_add_r by (unfold fexp32 in Hez; lia).
      f_equal. f_equal. lia. }
    rewrite <- Hval.
    apply round_aux_value;
      [lia | unfold fexp32 in Hez; lia | exact Hpre
      | rewrite Hval; exact Hsmall].
Qed.

Lemma aligned_value :
  forall (m : positive) (e ez : Z),
    -149 <= ez -> ez <= e ->
    Zpos (fst (shl_align m e ez)) * 2 ^ (ez + 299) = Zpos m * 2 ^ (e + 299).
Proof.
  intros m e ez Hez Hle.
  destruct (shl_align_spec m e ez) as [Hsnd Hfst].
  rewrite Hfst, Hsnd. replace (Z.min e ez) with ez by lia.
  rewrite <- Z.mul_assoc, <- Z.pow_add_r by lia. f_equal. f_equal. lia.
Qed.

Lemma value_of_finite :
  forall m e, value_of (S754_finite false m e) = Zpos m * 2 ^ (e + 299).
Proof. intros m e. cbn [value_of]. lia. Qed.

Lemma add_value :
  forall x y : float,
    nonneg_finite x = true -> nonneg_finite y = true ->
    value_of x + value_of y <= 2 ^ 301 ->
    nonneg_finite (x + y)%f32 = true /\ value_of (x + y)%f32 = round_value (value_of x + value_of y).
Proof.
  intros x y Hx Hy Hsmall.
  destruct (nonneg_finite_cases x Hx) as [[sx ->]|(mx & ex & -> & Hcx & Hbx)];
    destruct (nonneg_finite_cases y Hy) as [[sy ->]|(my & ey & -> & Hcy & Hby)].
  - destruct sx, sy; split; reflexivity.
  - change (S754_zero sx + S754_finite false my ey)%f32
      with (S754_finite false my ey).
    split; [exact Hy|]. change (value_of (S754_zero sx)) with 0. rewrite Z.add_0_l.
    destruct (value_of_nonneg_finite _ Hy) as [H0|[Hpos Hrep]].
    + rewrite H0. reflexivity.
    + symmetry. apply round_value_representable; assumption.
  - change (S754_finite false mx ex + S754_zero sy)%f32
      with (S754_finite false mx ex).
    split; [exact Hx|]. change (value_of (S754_zero sy)) with 0. rewrite Z.add_0_r.
    destruct (value_of_nonneg_finite _ Hx) as [H0|[Hpos Hrep]].
    + rewrite H0. reflexivity.
    + symmetry. apply round_value_representable; assumption.
  - rewrite !value_of_finite in *.
    destruct (canonical_digits mx ex Hcx) as (Hex & _ & _).
    destruct (canonical_digits my ey Hcy) as (Hey & _ & _).
    unfold F32.add, SFadd, F32.prec, F32.emax. cbn [cond_Zopp].
    set (ez := Z.min ex ey).
    pose proof (aligned_value mx ex ez ltac:(lia) ltac:(lia)) as Ha.
    pose proof (aligned_value my ey ez ltac:(lia) ltac:(lia)) as Hb.
    rewrite <- Ha, <- Hb, <- Z.mul_add_distr_r in *.
    apply normalize_value; lia.
Qed.

Lemma sub_value :
  forall x y : float,
    nonneg_finite x = true -> nonneg_finite y = true ->
    value_of y <= value_of x -> value_of x <= 2 ^ 301 ->
    nonneg_finite (x - y)%f32 = true /\ value_of (x - y)%f32 = round_value (value_of x - value_of y).
Proof.
  intros x y Hx Hy Hle Hsmall.
  destruct (nonneg_finite_cases x Hx) as [[sx ->]|(mx & ex & -> & Hcx & Hbx)];
    destruct (nonneg_finite_cases y Hy) as [[sy ->]|(my & ey & -> & Hcy & Hby)].
  - destruct sx, sy; split; reflexivity.
  - exfalso. destruct (canonical_digits my ey Hcy) as (Hey & _ & _).
    rewrite value_of_finite in Hle. change (value_of (S754_zero sx)) with 0 in Hle.
    assert (0 < 2 ^ (ey + 299)) by (apply Z.pow_pos_nonneg; lia). nia.
  - change (S754_finite false mx ex - S754_zero sy)%f32
      with (S754_finite false mx ex).
    split; [exact Hx|]. change (value_of (S754_zero sy)) with 0. rewrite Z.sub_0_r.
    destruct (value_of_nonneg_finite _ Hx) as [H0|[Hpos Hrep]].
    + rewrite H0. reflexivity.
    + symmetry. apply round_value_representable; assumption.
  - rewrite !value_of_finite in *.
    destruct (canonical_digits mx ex Hcx) as (Hex & _ & _).
    destruct (canonical_digits my ey Hcy) as (Hey & _ & _).
    unfold F32.sub, SFsub, F32.prec, F32.emax. cbn [cond_Zopp].
    set (ez := Z.min ex ey).
    pose proof (aligned_value mx ex ez ltac:(lia) ltac:(lia)) as Ha.
    pose proof (aligned_value my ey ez ltac:(lia) ltac:(lia)) as Hb.
    rewrite <- Ha, <- Hb, <- Z.mul_sub_distr_r in *.
    assert (Hp : 0 < 2 ^ (ez + 299)) by (apply Z.pow_pos_nonneg; lia).
    apply normalize_value; try lia. nia.
Qed.

(** The product of two mantissas has at least the digits of the parts. *)
Lemma Zdigits2_mul_ge :
  forall a b : positive,
    Zpos (digits2_pos a) + Zpos (digits2_pos b) - 1
    <= Zpos (digits2_pos (a * b)).
Proof.
  intros a b.
  destruct (digits2_pos_bounds a) as [Ha _].
  destruct (digits2_pos_bounds b) as [Hb _].
  destruct (digits2_pos_bounds (a * b)) as [_ Hab].
  rewrite Pos2Z.inj_mul in Hab.
  destruct (Z.leb_spec (Zpos (digits2_pos a) + Zpos (digits2_pos b) - 1)
                       (Zpos (digits2_pos (a * b)))) as [|Hlt]; [assumption|].
  assert (Hpow : 2 ^ Zpos (digits2_pos (a * b))
                 <= 2 ^ (Zpos (digits2_pos a) - 1 + (Zpos (digits2_pos b) - 1)))
    by (apply Z.pow_le_mono_r; lia).
  rewrite Z.pow_add_r in Hpow by lia.
  assert (0 < 2 ^ (Zpos (digits2_pos a) - 1)) by (apply Z.pow_pos_nonneg; lia).
  assert (0 < 2 ^ (Zpos (digits2_pos b) - 1)) by (apply Z.pow_pos_nonneg; lia).
  nia.
Qed.

Lemma mul_value :
  forall x y : float,
    nonneg_finite x = true -> nonneg_finite y = true ->
    value_of x * value_of y <= 2 ^ 301 * unit_value ->
    exists P : Z,
      P * unit_value = value_of x * value_of y /\ 0 <= P /\
      nonneg_finite (x * y)%f32 = true /\ value_of (x * y)%f32 = round_value P.
Proof.
  intros x y Hx Hy Hsmall.
  destruct (nonneg_finite_cases x Hx) as [[sx ->]|(mx & ex & -> & Hcx & Hbx)];
    destruct (nonneg_finite_cases y Hy) as [[sy ->]|(my & ey & -> & Hcy & Hby)];
    try (exists 0; split; [cbn [value_of]; lia|]; split; [lia|]; split; reflexivity).
  rewrite !value_of_finite in *.
  destruct (canonical_digits mx ex Hcx) as (Hex & Hmx & Hnx).
  destruct (canonical_digits my ey Hcy) as (Hey & Hmy & Hny).
  exists (Zpos (mx * my) * 2 ^ (ex + ey + 299)).
  assert (Hprod : Zpos (mx * my) * 2 ^ (ex + ey + 299) * unit_value
                  = Zpos mx * 2 ^ (ex + 299) * (Zpos my * 2 ^ (ey + 299))).
  { unfold unit_value. rewrite Pos2Z.inj_mul.
    replace (Zpos mx * Zpos my * 2 ^ (ex + ey + 299) * 2 ^ 299)
      with (Zpos mx * Zpos my * (2 ^ (ex + ey + 299) * 2 ^ 299)) by ring.
    rewrite <- Z.pow_add_r by lia.
    replace (Zpos mx * 2 ^ (ex + 299) * (Zpos my * 2 ^ (ey + 299)))
      with (Zpos mx * Zpos my * (2 ^ (ex + 299) * 2 ^ (ey + 299))) by ring.
    rewrite <- Z.pow_add_r by lia. f_equal. f_equal. lia. }
  split; [exact Hprod|].
  assert (Hp : 0 < 2 ^ (ex + ey + 299)) by (apply Z.pow_pos_nonneg; lia).
  split; [nia|].
  unfold F32.mul, SFmul, F32.prec, F32.emax. cbn [xorb].
  apply round_aux_value; try lia.
  - pose proof (Zdigits2_mul_ge mx my) as Hd. cbn [Zdigits2].
    pose proof (digits2_pos_bounds mx) as [Hlx Hhx].
    pose proof (digits2_pos_bounds my) as [Hly Hhy].
    unfold fexp32 in *. lia.
  - assert (HU : 0 < unit_value) by reflexivity. nia.
Qed.

Lemma nonneg_finite_one : nonneg_finite F32.one = true.
Proof. reflexivity. Qed.

Lemma value_of_one : value_of F32.one = unit_value.
Proof. reflexivity. Qed.

Lemma in_unit_interval_spec :
  forall x : float,
    in_unit_interval x = true <-> nonneg_finite x = true /\ value_of x <= unit_value.
Proof.
  intros x. unfold in_unit_interval. split.
  - intros H. apply andb_true_iff in H. destruct H as [H H1].
    apply andb_true_iff in H. destruct H as [Hv H0].
    assert (Hnn : nonneg_finite x = true).
    { unfold nonneg_finite. rewrite Hv. cbn [andb].
      destruct x as [s|s| |s m e]; try reflexivity; try discriminate.
      - destruct s; discriminate.
      - destruct s; [discriminate | reflexivity]. }
    split; [exact Hnn|]. rewrite <- value_of_one.
    apply (leb_value x F32.one Hnn nonneg_finite_one). exact H1.
  - intros [Hnn HW].
    assert (Hv : F32.valid x = true).
    { unfold nonneg_finite in Hnn. apply andb_true_iff in Hnn. tauto. }
    rewrite Hv. cbn [andb]. apply andb_true_iff. split.
    + apply (leb_value F32.zero x eq_refl Hnn). apply (value_of_nonneg x Hnn).
    + apply (leb_value x F32.one Hnn nonneg_finite_one). rewrite value_of_one. exact HW.
Qed.

Lemma unit_value_facts : 0 < unit_value /\ unit_value + unit_value <= 2 ^ 301 /\ 0 < 2 ^ 275 /\ 2 ^ 275 <= unit_value.
Proof. repeat split; reflexivity || discriminate. Qed.

(** [b * a] for [a], [b] in [0, 1] is in [0, a]. *)
Lemma mul_unit_interval :
  forall b a : float,
    in_unit_interval b = true -> in_unit_interval a = true ->
    in_unit_interval (b * a)%f32 = true /\ value_of (b * a)%f32 <= value_of a.
Proof.
  intros b a Hb Ha.
  apply in_unit_interval_spec in Hb. destruct Hb as [Hbn HbU].
  apply in_unit_interval_spec in Ha. destruct Ha as [Han HaU].
  pose proof (value_of_nonneg b Hbn) as Hb0. pose proof (value_of_nonneg a Han) as Ha0.
  destruct unit_value_facts as (HU0 & HU2 & H274 & H274U).
  destruct (mul_value b a Hbn Han ltac:(nia)) as (P & HP & HP0 & Hn & HW).
  assert (HPa : P <= value_of a) by nia.
  assert (Hle : value_of (b * a)%f32 <= value_of a).
  { rewrite HW. destruct (Z.eq_dec P 0) as [->|Hne]; [rewrite round_value_0; lia|].
    destruct (value_of_nonneg_finite a Han) as [H0|[Hpos Hrep]]; [lia|].
    apply round_value_le_representable; (lia || assumption). }
  split; [|exact Hle].
  apply in_unit_interval_spec. split; [exact Hn | lia].
Qed.

(** The update [a + (1 - a) * o] of front-to-back compositing keeps the
    accumulated opacity in [0, 1] and does not decrease it. *)
Lemma composite_update :
  forall a o : float,
    in_unit_interval a = true -> in_unit_interval o = true ->
    in_unit_interval (a + (F32.one - a) * o)%f32 = true /\
    (a <=? a + (F32.one - a) * o)%f32 = true.
Proof.
  intros a o Ha Ho.
  pose proof Ha as Ha'. pose proof Ho as Ho'.
  apply in_unit_interval_spec in Ha'. destruct Ha' as [Han HaU].
  apply in_unit_interval_spec in Ho'. destruct Ho' as [Hon HoU].
  pose proof (value_of_nonneg a Han) as Ha0.
  destruct unit_value_facts as (HU0 & HU2 & H274 & H274U).
  (* r = 1 - a *)
  destruct (sub_value F32.one a nonneg_finite_one Han
              ltac:(rewrite value_of_one; lia) ltac:(rewrite value_of_one; lia))
    as [Hrn HrW].
  rewrite value_of_one in HrW.
  assert (HrU : value_of (F32.one - a)%f32 <= unit_value).
  { rewrite HrW. destruct (Z.eq_dec (unit_value - value_of a) 0) as [->|Hne]; [rewrite round_value_0; lia|].
    apply round_value_le_representable; [lia | lia | exact representable_unit]. }
  assert (Hrerr : value_of (F32.one - a)%f32 <= unit_value - value_of a + 2 ^ 275).
  { rewrite HrW. apply round_value_error_below_unit; lia. }
  assert (Hr : in_unit_interval (F32.one - a)%f32 = true)
    by (apply in_unit_interval_spec; split; assumption).
  (* p = r * o *)
  destruct (mul_unit_interval o (F32.one - a)%f32 Ho Hr) as [_ Hp'].
  destruct (mul_unit_interval (F32.one - a)%f32 o Hr Ho) as [Hp HpW].
  assert (HpU : value_of ((F32.one - a) * o)%f32 <= value_of (F32.one - a)%f32).
  { apply in_unit_interval_spec in Hr. destruct Hr as [Hrn' _].
    pose proof (value_of_nonneg o Hon) as Ho0.
    pose proof (value_of_nonneg _ Hrn') as Hr0.
    destruct (mul_value (F32.one - a)%f32 o Hrn' Hon ltac:(nia))
      as (P & HP & HP0 & _ & HW).
    rewrite HW. assert (HPr : P <= value_of (F32.one - a)%f32) by nia.
    destruct (Z.eq_dec P 0) as [->|Hne]; [rewrite round_value_0; lia|].
    destruct (value_of_nonneg_finite _ Hrn') as [H0|[Hpos Hrep]]; [lia|].
    apply round_value_le_representable; (lia || assumption). }
  apply in_unit_interval_spec in Hp. destruct Hp as [Hpn _].
  pose proof (value_of_nonneg _ Hpn) as Hp0.
  (* a' = a + p *)
  destruct (add_value a ((F32.one - a) * o)%f32 Han Hpn ltac:(lia))
    as [Hsn HsW].
  assert (HsU : value_of (a + (F32.one - a) * o)%f32 <= unit_value).
  { rewrite HsW. apply round_value_le_unit; lia. }
  assert (Hsa : value_of a <= value_of (a + (F32.one - a) * o)%f32).
  { rewrite HsW. destruct (value_of_nonneg_finite a Han) as [H0|[Hpos Hrep]].
    - rewrite H0. apply round_value_nonneg. lia.
    - apply representable_le_round_value; (lia || assumption). }
  split.
  - apply in_unit_interval_spec. split; assumption.
  - apply (leb_value a _ Han Hsn). exact Hsa.
Qed.

(** The update of the MIDA tracer with a blend factor [beta] in [0, 1]. *)
Lemma mida_update :
  forall beta a o : float,
    in_unit_interval beta = true ->
    in_unit_interval a = true -> in_unit_interval o = true ->
    in_unit_interval
      (beta * a + (F32.one - beta * a) * o)%f32 = true.
Proof.
  intros beta a o Hb Ha Ho.
  destruct (mul_unit_interval beta a Hb Ha) as [Hba _].
  apply (composite_update (beta * a)%f32 o Hba Ho).
Qed.

Lemma one_minus_unit_interval :
  forall d : float,
    in_unit_interval d = true -> in_unit_interval (F32.one - d)%f32 = true.
Proof.
  intros d Hd. apply in_unit_interval_spec in Hd. destruct Hd as [Hdn HdU].
  pose proof (value_of_nonneg d Hdn) as Hd0.
  destruct unit_value_facts as (HU0 & HU2 & H274 & H274U).
  destruct (sub_value F32.one d nonneg_finite_one Hdn
              ltac:(rewrite value_of_one; lia) ltac:(rewrite value_of_one; lia))
    as [Hrn HrW].
  rewrite value_of_one in HrW.
  apply in_unit_interval_spec. split; [exact Hrn|].
  rewrite HrW. destruct (Z.eq_dec (unit_value - value_of d) 0) as [->|Hne]; [rewrite round_value_0; lia|].
  apply round_value_le_representable; [lia | lia | exact representable_unit].
Qed.

Lemma xorb_false_right : forall s, xorb s false = s.
Proof. destruct s; reflexivity. Qed.

(** Multiplying a number of the format by [1.0f] gives it back. *)
Lemma mul_one_r :
  forall x : float, F32.valid x = true -> (x * F32.one)%f32 = x.
Proof.
  intros [s|s| |s m e] Hv; try (destruct s; reflexivity); try reflexivity.
  unfold F32.valid, valid_binary, bounded, canonical_mantissa in Hv.
  apply andb_true_iff in Hv. destruct Hv as [Hc Hb].
  apply Z.eqb_eq in Hc. apply Z.leb_le in Hb. rewrite fexp32_eq in Hc.
  unfold F32.mul, SFmul, F32.one, F32.prec, F32.emax in *.
  rewrite xorb_false_right.
  assert (HM : Zpos (m * 8388608) = Zpos m * 2 ^ 23) by (rewrite Pos2Z.inj_mul; reflexivity).
  rewrite HM.
  assert (Hd : Zdigits2 (Zpos m * 2 ^ 23) = Zpos (digits2_pos m) + 23)
    by (rewrite Zdigits2_mul_pow2 by lia; reflexivity).
  assert (Hf : fexp32 (Zdigits2 (Zpos m * 2 ^ 23) + (e + -23)) = e).
  { rewrite Hd. rewrite <- Hc at 2. f_equal. lia. }
  rewrite binary_round_aux_exact by (rewrite ?Hf; lia).
  rewrite Hf. replace (e - (e + -23)) with (0 + 23) by lia.
  cbn [Z.add Z.eqb].
  change 23 with (0 + 23) at 2. rewrite rne_exact by lia. cbn [Z.eqb].
  replace (e + -23 + 23) with e by lia.
  apply round_finish_canonical; [exact Hc | lia].
Qed.

Lemma shr_iter_m :
  forall (k : nat) (mrs : shr_record),
    0 <= shr_m mrs ->
    shr_m (Nat.iter k shr_1 mrs) = shr_m mrs / 2 ^ Z.of_nat k.
Proof.
  induction k as [|k IH]; intros mrs Hm.
  - cbn. rewrite Z.div_1_r. reflexivity.
  - rewrite Nat.iter_succ. specialize (IH mrs Hm).
    assert (Hp : 0 < 2 ^ Z.of_nat k) by (apply Z.pow_pos_nonneg; lia).
    destruct (Nat.iter k shr_1 mrs) as [m' r' s'] eqn:Hit.
    cbn [shr_m] in IH.
    assert (Hm' : 0 <= m') by (rewrite IH; apply Z.div_pos; lia).
    rewrite shr_1_spec by exact Hm'. cbn [shr_m]. rewrite IH.
    rewrite Z.div_div by lia.
    f_equal. rewrite Nat2Z.inj_succ, Z.pow_succ_r; lia.
Qed.

Lemma shr_pos_m :
  forall (N : Z) (r s : bool) (p : positive),
    0 <= N ->
    shr_m (iter_pos shr_1 p (Build_shr_record N r s)) = N / 2 ^ Zpos p.
Proof.
  intros N r s p HN. rewrite iter_pos_nat, shr_iter_m by exact HN.
  cbn [shr_m]. f_equal. f_equal. lia.
Qed.

Lemma round_nearest_even_range :
  forall (q : Z) (l : location),
    round_nearest_even q l = q \/ round_nearest_even q l = q + 1.
Proof.
  intros q [|[| |]]; cbn [round_nearest_even]; auto.
  destruct (Z.even q); auto.
Qed.

Lemma Zdigits2_div_pow2 :
  forall M n : Z,
    0 < M -> 0 <= n < Zdigits2 M ->
    Zdigits2 (M / 2 ^ n) = Zdigits2 M - n.
Proof.
  intros M n HM Hn.
  destruct (Zdigits2_bounds M HM) as [Hlo Hhi].
  assert (Hp : 0 < 2 ^ n) by (apply Z.pow_pos_nonneg; lia).
  assert (Hsplit : 2 ^ (Zdigits2 M - 1) = 2 ^ (Zdigits2 M - n - 1) * 2 ^ n).
  { rewrite <- Z.pow_add_r by lia. f_equal. lia. }
  assert (Hsplit' : 2 ^ Zdigits2 M = 2 ^ (Zdigits2 M - n) * 2 ^ n).
  { rewrite <- Z.pow_add_r by lia. f_equal. lia. }
  assert (Hq0 : 2 ^ (Zdigits2 M - n - 1) <= M / 2 ^ n).
  { apply Z.div_le_lower_bound; lia. }
  assert (Hq1 : M / 2 ^ n < 2 ^ (Zdigits2 M - n)).
  { apply Z.div_lt_upper_bound; lia. }
  assert (0 < 2 ^ (Zdigits2 M - n - 1)) by (apply Z.pow_pos_nonneg; lia).
  apply Zdigits2_unique; lia.
Qed.

Lemma valid_finite :
  forall s (m : positive) e,
    fexp32 (Zpos (digits2_pos m) + e) = e -> e <= 104 ->
    F32.valid (S754_finite s m e) = true.
Proof.
  intros s m e Hc He.
  unfold F32.valid, valid_binary, bounded, canonical_mantissa.
  rewrite fexp32_eq, Hc, Z.eqb_refl. cbn [andb].
  apply Z.leb_le. unfold F32.emax, F32.prec. lia.
Qed.

Lemma round_finish_valid :
  forall s q e,
    0 <= q -> e <= fexp32 (Zdigits2 q + e) ->
    F32.valid (round_finish s q e) = true.
Proof.
  intros s q e Hq Hpre.
  destruct (Z.eq_dec q 0) as [->|Hq0]; [rewrite round_finish_zero; reflexivity|].
  unfold round_finish, shr_fexp. rewrite fexp32_eq.
  cbn [shr_record_of_loc]. unfold shr.
  destruct (fexp32 (Zdigits2 q + e) - e) as [|k|k] eqn:Hn; [| |lia].
  - cbn [shr_m]. destruct q as [|p|p]; try lia.
    destruct (Z.leb_spec e (128 - 24)) as [He|He]; [|reflexivity].
    apply valid_finite; [cbn [Zdigits2] in Hn; lia | lia].
  - rewrite shr_pos_m by lia.
    destruct (q / 2 ^ Zpos k) as [|p|p] eqn:Hdiv; try reflexivity.
    destruct (Z.leb_spec (e + Zpos k) (128 - 24)) as [He|He]; [|reflexivity].
    assert (Hlt : Zpos k < Zdigits2 q).
    { destruct (Z.ltb_spec (Zpos k) (Zdigits2 q)) as [|Hge]; [assumption|].
      destruct (Zdigits2_bounds q ltac:(lia)) as [_ Hhi].
      assert (2 ^ Zdigits2 q <= 2 ^ Zpos k) by (apply Z.pow_le_mono_r; lia).
      rewrite Z.div_small in Hdiv by lia. discriminate. }
    pose proof (Zdigits2_div_pow2 q (Zpos k) ltac:(lia) ltac:(lia)) as Hd.
    rewrite Hdiv in Hd. cbn [Zdigits2] in Hd.
    apply valid_finite; [|lia].
    rewrite Hd. replace (Zdigits2 q - Zpos k + (e + Zpos k))
      with (Zdigits2 q + e) by lia. lia.
Qed.

(** Whatever it is given, [binary_round_aux] returns a number of the format
    when its input meets the alignment precondition. *)
Lemma binary_round_aux_valid :
  forall s M E l,
    0 <= M -> E <= fexp32 (Zdigits2 M + E) ->
    F32.valid (binary_round_aux 24 128 s M E l) = true.
Proof.
  intros s M E l HM Hpre.
  unfold binary_round_aux.
  destruct (shr_fexp 24 128 M E l) as [mrs e'] eqn:Hshr.
  change (F32.valid
    (round_finish s
       (round_nearest_even (shr_m mrs) (loc_of_shr_record mrs)) e')
    = true).
  assert (Hfirst : snd (shr_fexp 24 128 M E l) = fexp32 (Zdigits2 M + E) /\
                   shr_m (fst (shr_fexp 24 128 M E l))
                   = M / 2 ^ (fexp32 (Zdigits2 M + E) - E)).
  { unfold shr_fexp, shr. rewrite fexp32_eq.
    destruct (fexp32 (Zdigits2 M + E) - E) as [|k|k] eqn:Hn; [| |lia].
    - cbn [fst snd]. split; [lia|].
      change (2 ^ 0) with 1. rewrite Z.div_1_r.
      destruct l as [|[| |]]; reflexivity.
    - cbn [fst snd]. split; [lia|].
      destruct l as [|[| |]]; cbn [shr_record_of_loc];
        apply shr_pos_m; exact HM. }
  rewrite Hshr in Hfirst. cbn [fst snd] in Hfirst.
  destruct Hfirst as [He' Hm'].
  set (q1 := shr_m _) in *.
  set (q' := round_nearest_even q1 _).
  assert (Hq' : q' = q1 \/ q' = q1 + 1) by apply round_nearest_even_range.
  assert (Hq1 : 0 <= q1).
  { rewrite Hm'. apply Z.div_pos; [lia | apply Z.pow_pos_nonneg; lia]. }
  apply round_finish_valid; [lia|].
  rewrite He'.
  destruct (Z.eq_dec (fexp32 (Zdigits2 M + E)) (-149)) as [Hsub|Hnorm].
  - rewrite Hsub. unfold fexp32. lia.
  - assert (Hd : fexp32 (Zdigits2 M + E) = Zdigits2 M + E - 24)
      by (unfold fexp32 in *; lia).
    assert (HM0 : 0 < M).
    { destruct (Z.eq_dec M 0) as [->|]; [|lia].
      cbn [Zdigits2] in *. unfold fexp32 in *. lia. }
    assert (Hdq1 : Zdigits2 q1 = 24).
    { rewrite Hm', Zdigits2_div_pow2; [lia | lia |].
      pose proof (Zdigits2_pos M HM0). lia. }
    assert (Hq1pos : 0 < q1).
    { destruct (Z.eq_dec q1 0) as [Hz|]; [|lia].
      rewrite Hz in Hdq1. discriminate. }
    pose proof (Zdigits2_mono q1 q' Hq1pos ltac:(lia)) as Hmono.
    rewrite Hd. unfold fexp32. lia.
Qed.

Lemma binary_normalize_valid :
  forall M e szero, F32.valid (binary_normalize 24 128 M e szero) = true.
Proof.
  intros [|m|m] e szero; cbn [binary_normalize]; [reflexivity| |].
  - destruct (binary_round_aligned false m e) as (mz & ez & -> & _ & _ & _ & Hpre).
    apply binary_round_aux_valid; [lia | exact Hpre].
  - destruct (binary_round_aligned true m e) as (mz & ez & -> & _ & _ & _ & Hpre).
    apply binary_round_aux_valid; [lia | exact Hpre].
Qed.

Lemma sub_valid :
  forall x y : float,
    F32.valid x = true -> F32.valid y = true -> F32.valid (x - y)%f32 = true.
Proof.
  intros x y Hx Hy. unfold F32.sub, SFsub, F32.prec, F32.emax.
  destruct x as [sx|sx| |sx mx ex], y as [sy|sy| |sy my ey];
    try reflexivity; try exact Hx; try exact Hy;
    try (destruct sx, sy; reflexivity).
  apply binary_normalize_valid.
Qed.

Lemma div_core_precondition :
  forall (m1 m2 : positive) (e1 e2 : Z),
    let '(q, e', l) := SFdiv_core_binary 24 128 (Zpos m1) e1 (Zpos m2) e2 in
    0 <= q /\ e' <= fexp32 (Zdigits2 q + e').
Proof.
  intros m1 m2 e1 e2. unfold SFdiv_core_binary. rewrite fexp32_eq.
  cbn [Zdigits2].
  set (d1 := Zpos (digits2_pos m1)). set (d2 := Zpos (digits2_pos m2)).
  set (e' := Z.min (fexp32 (d1 + e1 - (d2 + e2))) (e1 - e2)).
  set (s := e1 - e2 - e').
  assert (Hs : 0 <= s) by (unfold s, e'; lia).
  set (m' := match s with
             | 0 => Zpos m1
             | Zpos _ => Z.shiftl (Zpos m1) s
             | Zneg _ => 0
             end).
  assert (Hm' : m' = Zpos m1 * 2 ^ s).
  { unfold m'. destruct s as [|p|p] eqn:Hsp; [cbn; lia| |lia].
    rewrite Z.shiftl_mul_pow2 by lia. reflexivity. }
  pose proof (Z.div_eucl_eq m' (Zpos m2) ltac:(lia)) as Heucl.
  pose proof (Z.mod_pos_bound m' (Zpos m2) ltac:(lia)) as Hmod.
  unfold Z.modulo in Hmod.
  destruct (Z.div_eucl m' (Zpos m2)) as [q r].
  assert (Hp : 0 < 2 ^ s) by (apply Z.pow_pos_nonneg; lia).
  assert (Hq : 0 <= q) by nia.
  split; [exact Hq|].
  destruct (Z.leb_spec e' (-149)) as [Hsub|Hnorm]; [unfold fexp32; lia|].
  assert (HD : fexp32 (d1 + e1 - (d2 + e2)) = d1 + e1 - (d2 + e2) - 24)
    by (unfold e', fexp32 in *; lia).
  assert (Hk : 24 <= d1 + s - d2) by (unfold s, e'; lia).
  destruct (digits2_pos_bounds m1) as [Hlo1 _].
  destruct (digits2_pos_bounds m2) as [_ Hhi2].
  fold d1 in Hlo1. fold d2 in Hhi2.
  assert (Hpow : 2 ^ (d1 + s - d2 - 1) * 2 ^ d2 = 2 ^ (d1 - 1) * 2 ^ s).
  { rewrite <- !Z.pow_add_r by (unfold d1, d2; lia). f_equal. lia. }
  assert (Hk1 : 0 < 2 ^ (d1 + s - d2 - 1)) by (apply Z.pow_pos_nonneg; lia).
  assert (Hqlo : 2 ^ (d1 + s - d2 - 1) <= q).
  { destruct (Z.leb_spec (2 ^ (d1 + s - d2 - 1)) q) as [|Hlt]; [assumption|].
    exfalso.
    assert ((q + 1) * Zpos m2 <= 2 ^ (d1 + s - d2 - 1) * Zpos m2)
      by (apply Z.mul_le_mono_nonneg_r; lia).
    assert (2 ^ (d1 + s - d2 - 1) * Zpos m2 < 2 ^ (d1 + s - d2 - 1) * 2 ^ d2)
      by (apply Z.mul_lt_mono_pos_l; lia).
    nia. }
  assert (Hdq : d1 + s - d2 <= Zdigits2 q).
  { destruct (Zdigits2_bounds q ltac:(lia)) as [_ Hhi].
    destruct (Z.leb_spec (d1 + s - d2) (Zdigits2 q)) as [|Hlt]; [assumption|].
    assert (2 ^ Zdigits2 q <= 2 ^ (d1 + s - d2 - 1))
      by (apply Z.pow_le_mono_r; [lia | lia]).
    lia. }
  unfold fexp32. unfold s, e' in *. unfold fexp32 in *. lia.
Qed.

Lemma div_valid : forall x y : float, F32.valid (x / y)%f32 = true.
Proof.
  intros x y. unfold F32.div, SFdiv, F32.prec, F32.emax.
  destruct x as [sx|sx| |sx mx ex], y as [sy|sy| |sy my ey]; try reflexivity.
  pose proof (div_core_precondition mx my ex ey) as Hpre.
  destruct (SFdiv_core_binary 24 128 (Zpos mx) ex (Zpos my) ey) as [[q e'] l].
  destruct Hpre as [Hq Hpre].
  apply binary_round_aux_valid; assumption.
Qed.

(** ** Rounding is monotone *)

Lemma rne_mono_same_grid :
  forall N1 N2 g : Z,
    0 <= N1 -> N1 <= N2 -> 1 <= g -> rne N1 g <= rne N2 g.
Proof.
  intros N1 N2 g H1 H12 Hg.
  destruct (pow2_split g Hg) as [HP H2P].
  destruct (rne_spec N1 g H1 Hg) as (q1 & t1 & r1 & E1 & Ht1 & Hq1 & R1).
  destruct (rne_spec N2 g ltac:(lia) Hg) as (q2 & t2 & r2 & E2 & Ht2 & Hq2 & R2).
  set (P := 2 ^ (g - 1)) in *.
  assert (Hup1 : rne N1 g <= q1 + 1)
    by (rewrite R1; destruct (r1 && _); lia).
  assert (Hlo2 : q2 <= rne N2 g)
    by (rewrite R2; destruct (r2 && _); lia).
  assert (Hq : q1 <= q2) by (destruct r1, r2; nia).
  destruct (Z.eq_dec q1 q2) as [Heq|Hne]; [|lia].
  subst q2. rewrite R1, R2.
  destruct r1; cbn [andb]; [|destruct (r2 && _); lia].
  assert (Hr2 : r2 = true) by (destruct r2; [reflexivity | nia]).
  subst r2. cbn [andb].
  assert (Ht : t1 <= t2) by nia.
  destruct (Z.eqb_spec t1 0) as [Hz1|Hz1]; destruct (Z.eqb_spec t2 0) as [Hz2|Hz2];
    cbn [negb orb]; try lia; destruct (Z.odd q1); lia.
Qed.

Lemma round_value_small : forall N : Z, 0 <= N -> N < 2 ^ 149 -> round_value N = 0.
Proof.
  intros N HN Hlt. unfold round_value.
  assert (Hg : grid N = 150).
  { unfold grid. destruct (Z.eq_dec N 0) as [->|Hne]; [reflexivity|].
    destruct (Zdigits2_bounds N ltac:(lia)) as [Hlo _].
    destruct (Z.leb_spec (Zdigits2 N) 150) as [|Hgt]; [lia|].
    assert (2 ^ 149 <= 2 ^ (Zdigits2 N - 1)) by (apply Z.pow_le_mono_r; lia).
    lia. }
  rewrite Hg. unfold rne. change (150 - 1) with 149.
  rewrite (Z.div_small N (2 ^ 149)) by lia.
  assert (N < 2 ^ 150) by (assert (2 ^ 149 < 2 ^ 150) by reflexivity; lia).
  rewrite (Z.div_small N (2 ^ 150)) by lia. reflexivity.
Qed.

Lemma representable_pow2 :
  forall d : Z, 150 <= d -> representable (2 ^ d).
Proof.
  intros d Hd. unfold representable.
  assert (Hdig : Zdigits2 (2 ^ d) = d + 1).
  { apply Zdigits2_unique.
    - apply Z.pow_pos_nonneg; lia.
    - replace (d + 1 - 1) with d by lia. split; [lia|].
      apply Z.pow_lt_mono_r; lia. }
  unfold grid. rewrite Hdig.
  set (g := Z.max (d + 1 - 24) 150).
  replace d with ((d - g) + g) at 1 by lia.
  rewrite Z.pow_add_r by (unfold g; lia).
  apply Z.mod_mul. apply Z.pow_nonzero; unfold g; lia.
Qed.

Lemma round_value_mono :
  forall N1 N2 : Z, 0 <= N1 -> N1 <= N2 -> round_value N1 <= round_value N2.
Proof.
  intros N1 N2 H1 H12.
  destruct (Z.eq_dec N1 0) as [->|Hne1]; [rewrite round_value_0; apply round_value_nonneg; lia|].
  pose proof (grid_mono N1 N2 ltac:(lia) H12) as Hg.
  pose proof (grid_ge N1) as Hg1.
  destruct (Z.eq_dec (grid N1) (grid N2)) as [Heq|Hneq].
  - unfold round_value. rewrite <- Heq.
    apply Z.mul_le_mono_nonneg_r; [apply Z.pow_nonneg; lia|].
    apply rne_mono_same_grid; lia.
  - (* a power of two lies between the two values *)
    assert (Hd2 : grid N2 = Zdigits2 N2 - 24) by (unfold grid in *; lia).
    assert (Hd : Zdigits2 N1 < Zdigits2 N2) by (unfold grid in *; lia).
    destruct (Zdigits2_bounds N1 ltac:(lia)) as [_ Hhi1].
    destruct (Zdigits2_bounds N2 ltac:(lia)) as [Hlo2 _].
    assert (Hmid : 2 ^ Zdigits2 N1 <= 2 ^ (Zdigits2 N2 - 1))
      by (apply Z.pow_le_mono_r; lia).
    assert (Hhigh : 2 ^ (Zdigits2 N2 - 1) <= round_value N2).
    { apply representable_le_round_value.
      - apply Z.pow_pos_nonneg; lia.
      - exact Hlo2.
      - apply representable_pow2. unfold grid in *. lia. }
    destruct (Z.leb_spec 150 (Zdigits2 N1)) as [Hbig|Hsmall].
    + assert (round_value N1 <= 2 ^ Zdigits2 N1); [|lia].
      apply round_value_le_representable; [lia | lia |].
      apply representable_pow2. exact Hbig.
    + rewrite round_value_small; [lia | lia |].
      assert (2 ^ Zdigits2 N1 <= 2 ^ 149) by (apply Z.pow_le_mono_r; lia).
      lia.
Qed.

(** ** Values that round alike *)

Lemma rne_same_cell :
  forall N N' j g : Z,
    0 <= N -> 0 <= N' -> 0 <= j -> j + 1 <= g ->
    N / 2 ^ j = N' / 2 ^ j ->
    (N mod 2 ^ j = 0 <-> N' mod 2 ^ j = 0) ->
    rne N g = rne N' g.
Proof.
  intros N N' j g HN HN' Hj Hg Hcell Hzero.
  assert (Hpj : 0 < 2 ^ j) by (apply Z.pow_pos_nonneg; lia).
  assert (Hpg : 0 < 2 ^ (g - 1 - j)) by (apply Z.pow_pos_nonneg; lia).
  assert (Hs1 : 2 ^ (g - 1) = 2 ^ j * 2 ^ (g - 1 - j)).
  { rewrite <- Z.pow_add_r by lia. f_equal. lia. }
  assert (Hs0 : 2 ^ g = 2 ^ j * 2 ^ (g - j)).
  { rewrite <- Z.pow_add_r by lia. f_equal. lia. }
  unfold rne. rewrite Hs0, Hs1.
  rewrite <- !Z.div_div by (try apply Z.pow_pos_nonneg; lia).
  rewrite Hcell.
  rewrite !Z.rem_mul_r by lia. rewrite Hcell.
  replace (N mod 2 ^ j + 2 ^ j * ((N' / 2 ^ j) mod 2 ^ (g - 1 - j)) =? 0)
    with (N' mod 2 ^ j + 2 ^ j * ((N' / 2 ^ j) mod 2 ^ (g - 1 - j)) =? 0);
    [reflexivity|].
  pose proof (Z.mod_pos_bound N (2 ^ j) Hpj) as Hm.
  pose proof (Z.mod_pos_bound N' (2 ^ j) Hpj) as Hm'.
  pose proof (Z.mod_pos_bound (N' / 2 ^ j) (2 ^ (g - 1 - j)) Hpg) as Hc.
  destruct (Z.eqb_spec (N' mod 2 ^ j + 2 ^ j * ((N' / 2 ^ j) mod 2 ^ (g - 1 - j))) 0)
    as [H0|H0]; symmetry.
  - apply Z.eqb_eq. assert (N' mod 2 ^ j = 0) by nia.
    assert (N mod 2 ^ j = 0) by tauto. nia.
  - apply Z.eqb_neq. intros Hc0. apply H0.
    assert (N mod 2 ^ j = 0) by nia.
    assert (N' mod 2 ^ j = 0) by tauto. nia.
Qed.

Lemma Zdigits2_same_cell :
  forall N N' j : Z,
    0 < N -> 0 < N' -> 0 <= j ->
    N / 2 ^ j = N' / 2 ^ j -> 0 < N / 2 ^ j ->
    Zdigits2 N = Zdigits2 N'.
Proof.
  intros N N' j HN HN' Hj Hcell Hpos.
  assert (Hpj : 0 < 2 ^ j) by (apply Z.pow_pos_nonneg; lia).
  assert (Hgen : forall M, 0 < M -> 0 < M / 2 ^ j ->
            Zdigits2 M = Zdigits2 (M / 2 ^ j) + j).
  { intros M HM HMj.
    assert (Hlt : j < Zdigits2 M).
    { destruct (Z.ltb_spec j (Zdigits2 M)) as [|Hge]; [assumption|].
      destruct (Zdigits2_bounds M HM) as [_ Hhi].
      assert (2 ^ Zdigits2 M <= 2 ^ j) by (apply Z.pow_le_mono_r; lia).
      rewrite Z.div_small in HMj; lia. }
    rewrite Zdigits2_div_pow2; lia. }
  rewrite (Hgen N HN Hpos), (Hgen N' HN' ltac:(lia)), Hcell. reflexivity.
Qed.

Lemma round_value_same_cell :
  forall N N' j : Z,
    0 < N -> 0 < N' -> 0 <= j -> j + 1 <= grid N ->
    grid N = grid N' ->
    N / 2 ^ j = N' / 2 ^ j ->
    (N mod 2 ^ j = 0 <-> N' mod 2 ^ j = 0) ->
    round_value N = round_value N'.
Proof.
  intros N N' j HN HN' Hj Hjg Hg Hcell Hzero.
  unfold round_value. rewrite <- Hg. f_equal.
  apply (rne_same_cell N N' j (grid N)); (lia || assumption).
Qed.

(** ** Division *)

Lemma new_location_code :
  forall nb r : Z,
    0 <= r < nb ->
    loc_code (new_location nb r)
    = if r =? 0 then 0
      else match 2 * r ?= nb with Lt => 1 | Eq => 2 | Gt => 3 end.
Proof.
  intros nb r Hr. unfold new_location.
  destruct (Z.even nb) eqn:Heven;
    unfold new_location_even, new_location_odd;
    destruct (Z.eqb_spec r 0) as [Hr0|Hr0]; try reflexivity.
  assert (Hodd : Z.odd nb = true) by (rewrite <- Z.negb_even, Heven; reflexivity).
  apply Z.odd_spec in Hodd. destruct Hodd as [h Hh].
  destruct (Z.compare_spec (2 * r + 1) nb) as [H1|H1|H1];
    destruct (Z.compare_spec (2 * r) nb) as [H2|H2|H2];
    try reflexivity; lia.
Qed.

Lemma shr_record_of_loc_code :
  forall (q : Z) (l : location),
    0 <= q ->
    Nat.iter 2 shr_1 (Build_shr_record (4 * q + loc_code l) false false)
    = shr_record_of_loc q l.
Proof.
  intros q l Hq.
  assert (Hc : 0 <= loc_code l <= 3) by (destruct l as [|[| |]]; cbn; lia).
  rewrite shr_iter_spec by lia.
  change (2 ^ Z.of_nat 2) with 4. change (2 ^ Z.of_nat 1) with 2.
  assert (H4 : (4 * q + loc_code l) / 4 = q).
  { symmetry. apply (Z.div_unique _ 4 q (loc_code l)); lia. }
  rewrite H4.
  destruct l as [|[| |]]; cbn [loc_code shr_record_of_loc].
  - replace ((4 * q + 0) / 2) with (2 * q)
      by (apply (Z.div_unique _ 2 (2 * q) 0); lia).
    replace ((4 * q + 0) mod 2) with 0
      by (apply (Z.mod_unique _ 2 (2 * q) 0); lia).
    rewrite Z.odd_mul. reflexivity.
  - replace ((4 * q + 2) / 2) with (2 * q + 1)
      by (apply (Z.div_unique _ 2 (2 * q + 1) 0); lia).
    replace ((4 * q + 2) mod 2) with 0
      by (apply (Z.mod_unique _ 2 (2 * q + 1) 0); lia).
    replace (2 * q + 1) with (1 + 2 * q) by lia.
    rewrite Z.odd_add_mul_2. reflexivity.
  - replace ((4 * q + 1) / 2) with (2 * q)
      by (apply (Z.div_unique _ 2 (2 * q) 1); lia).
    replace ((4 * q + 1) mod 2) with 1
      by (apply (Z.mod_unique _ 2 (2 * q) 1); lia).
    rewrite Z.odd_mul. reflexivity.
  - replace ((4 * q + 3) / 2) with (2 * q + 1)
      by (apply (Z.div_unique _ 2 (2 * q + 1) 1); lia).
    replace ((4 * q + 3) mod 2) with 1
      by (apply (Z.mod_unique _ 2 (2 * q + 1) 1); lia).
    replace (2 * q + 1) with (1 + 2 * q) by lia.
    rewrite Z.odd_add_mul_2. reflexivity.
Qed.

Lemma shr_fexp_loc :
  forall (q e : Z) (l : location),
    0 <= q -> e <= fexp32 (Zdigits2 q + e) ->
    fexp32 (Zdigits2 (4 * q + loc_code l) + (e - 2))
    = fexp32 (Zdigits2 q + e) ->
    shr_fexp 24 128 (4 * q + loc_code l) (e - 2) loc_Exact
    = shr_fexp 24 128 q e l.
Proof.
  intros q e l Hq Hpre Hf. unfold shr_fexp.
  change (fexp 24 128) with fexp32. rewrite Hf.
  cbn [shr_record_of_loc].
  rewrite <- (shr_record_of_loc_code q l Hq).
  set (X := Build_shr_record (4 * q + loc_code l) false false).
  unfold shr.
  destruct (fexp32 (Zdigits2 q + e) - e) as [|p|p] eqn:Hn; [| |lia].
  - replace (fexp32 (Zdigits2 q + e) - (e - 2)) with 2 by lia.
    rewrite iter_pos_nat. f_equal; lia.
  - replace (fexp32 (Zdigits2 q + e) - (e - 2)) with (Zpos (p + 2)) by lia.
    rewrite !iter_pos_nat.
    replace (Pos.to_nat (p + 2)) with (Pos.to_nat p + 2)%nat by lia.
    rewrite Nat.iter_add. f_equal; lia.
Qed.

Lemma binary_round_aux_loc :
  forall (s : bool) (q e : Z) (l : location),
    0 <= q -> e <= fexp32 (Zdigits2 q + e) ->
    fexp32 (Zdigits2 (4 * q + loc_code l) + (e - 2))
    = fexp32 (Zdigits2 q + e) ->
    binary_round_aux 24 128 s q e l
    = binary_round_aux 24 128 s (4 * q + loc_code l) (e - 2) loc_Exact.
Proof.
  intros s q e l Hq Hpre Hf. unfold binary_round_aux.
  rewrite (shr_fexp_loc q e l Hq Hpre Hf). reflexivity.
Qed.

Lemma Zdigits2_extend :
  forall q c : Z,
    0 < q -> 0 <= c <= 3 -> Zdigits2 (4 * q + c) = Zdigits2 q + 2.
Proof.
  intros q c Hq Hc.
  destruct (Zdigits2_bounds q Hq) as [Hlo Hhi].
  pose proof (Zdigits2_pos q Hq) as Hd.
  apply Zdigits2_unique; [lia|].
  replace (Zdigits2 q + 2 - 1) with (Z.succ (Z.succ (Zdigits2 q - 1))) by lia.
  replace (Zdigits2 q + 2) with (Z.succ (Z.succ (Zdigits2 q))) by lia.
  rewrite !Z.pow_succ_r by lia. lia.
Qed.

(** What [SFdiv_core_binary] computes. *)
Lemma div_core_spec :
  forall (m1 m2 : positive) (e1 e2 : Z),
    let '(q, e', l) := SFdiv_core_binary 24 128 (Zpos m1) e1 (Zpos m2) e2 in
    exists r : Z,
      e' = Z.min (fexp32 (Zpos (digits2_pos m1) + e1
                          - (Zpos (digits2_pos m2) + e2))) (e1 - e2) /\
      Zpos m1 * 2 ^ (e1 - e2 - e') = q * Zpos m2 + r /\
      0 <= r < Zpos m2 /\ 0 <= q /\
      l = new_location (Zpos m2) r.
Proof.
  intros m1 m2 e1 e2. unfold SFdiv_core_binary. rewrite fexp32_eq.
  cbn [Zdigits2].
  set (e' := Z.min _ (e1 - e2)).
  set (s := e1 - e2 - e').
  assert (Hs : 0 <= s) by (unfold s, e'; lia).
  set (m' := match s with
             | 0 => Zpos m1
             | Zpos _ => Z.shiftl (Zpos m1) s
             | Zneg _ => 0
             end).
  assert (Hm' : m' = Zpos m1 * 2 ^ s).
  { unfold m'. destruct s as [|p|p] eqn:Hsp; [cbn; lia| |lia].
    rewrite Z.shiftl_mul_pow2 by lia. reflexivity. }
  pose proof (Z.div_eucl_eq m' (Zpos m2) ltac:(lia)) as Heucl.
  pose proof (Z.mod_pos_bound m' (Zpos m2) ltac:(lia)) as Hmod.
  unfold Z.modulo in Hmod.
  destruct (Z.div_eucl m' (Zpos m2)) as [q r].
  assert (Hp : 0 < 2 ^ s) by (apply Z.pow_pos_nonneg; lia).
  exists r. split; [reflexivity|].
  split; [fold e'; fold s; rewrite <- Hm', Heucl; ring|].
  split; [exact Hmod|]. split; [nia | reflexivity].
Qed.

Lemma grid_scaled :
  forall M E : Z,
    0 < M -> -299 <= E ->
    grid (M * 2 ^ (E + 299)) = fexp32 (Zdigits2 M + E) + 299.
Proof.
  intros M E HM HE. unfold grid, fexp32.
  rewrite Zdigits2_mul_pow2 by lia. lia.
Qed.

Lemma Zdigits2_lt_pow2 :
  forall N j : Z, 0 < N -> 0 <= j -> N < 2 ^ j -> Zdigits2 N <= j.
Proof.
  intros N j HN Hj Hlt.
  destruct (Zdigits2_bounds N HN) as [Hlo _].
  destruct (Z.leb_spec (Zdigits2 N) j) as [|Hgt]; [assumption|].
  assert (2 ^ j <= 2 ^ (Zdigits2 N - 1)) by (apply Z.pow_le_mono_r; lia).
  lia.
Qed.

(** The quotient [(q * m2 + r) / m2], scaled by [2^(k+1)], and the
    mantissa extended by the location of [r] fall in the same half cell. *)
Lemma div_repr_cell :
  forall m2 q r k : Z,
    0 < m2 -> 0 <= q -> 0 <= r < m2 -> 0 <= k ->
    let c := if r =? 0 then 0
             else match 2 * r ?= m2 with Lt => 1 | Eq => 2 | Gt => 3 end in
    let A := (q * m2 + r) * 2 ^ (k + 1) in
    let N2 := 2 * (A / m2) + (if A mod m2 =? 0 then 0 else 1) in
    let N' := (4 * q + c) * 2 ^ k in
    let h := if m2 <=? 2 * r then 1 else 0 in
    N' / 2 ^ (k + 1) = 2 * q + h /\
    N2 / 2 ^ (k + 1) = 2 * q + h /\
    (N' mod 2 ^ (k + 1) = 0 <-> N2 mod 2 ^ (k + 1) = 0) /\
    0 <= c <= 3 /\ (0 < q * m2 + r -> 0 < 4 * q + c /\ 0 < N2).
Proof.
  intros m2 q r k Hm2 Hq Hr Hk c A N2 N' h.
  assert (HK : 0 < 2 ^ k) by (apply Z.pow_pos_nonneg; lia).
  assert (HK1 : 2 ^ (k + 1) = 2 * 2 ^ k) by (rewrite Z.pow_add_r by lia; lia).
  set (K := 2 ^ k) in *.
  (* the quotient and remainder of the scaled numerator *)
  set (T := r * (2 * K)).
  assert (HA : A = (q * (2 * K)) * m2 + T) by (unfold A, T; rewrite HK1; ring).
  pose proof (Z.div_mod T m2 ltac:(lia)) as HT.
  pose proof (Z.mod_pos_bound T m2 Hm2) as Ht.
  set (f := T / m2) in *. set (t := T mod m2) in *.
  assert (Hf : 0 <= f < 2 * K).
  { split; [apply Z.div_pos; unfold T; nia|].
    apply Z.div_lt_upper_bound; unfold T; nia. }
  assert (HAdiv : A / m2 = q * (2 * K) + f).
  { symmetry. apply (Z.div_unique A m2 _ t); [lia|]. rewrite HA. unfold T in *. lia. }
  assert (HAmod : A mod m2 = t).
  { symmetry. apply (Z.mod_unique A m2 (q * (2 * K) + f) t); [lia|].
    rewrite HA. unfold T in *. lia. }
  set (sg := if A mod m2 =? 0 then 0 else 1) in *.
  assert (Hsg : (sg = 0 /\ t = 0) \/ (sg = 1 /\ t <> 0)).
  { unfold sg. rewrite HAmod. destruct (Z.eqb_spec t 0); [left | right]; auto. }
  assert (HN2 : N2 = (2 * q) * (2 * K) + (2 * f + sg))
    by (unfold N2; rewrite HAdiv; ring).
  (* the class of [r] *)
  assert (Hh : (h = 1 /\ m2 <= 2 * r) \/ (h = 0 /\ 2 * r < m2)).
  { unfold h. destruct (Z.leb_spec m2 (2 * r)); [left | right]; auto. }
  assert (Hfh : (h = 1 -> K <= f) /\ (h = 0 -> f < K)).
  { split; intros Hh'; destruct Hh as [[? Hc]|[? Hc]]; try lia.
    - apply Z.div_le_lower_bound; [lia|]. unfold T. nia.
    - apply Z.div_lt_upper_bound; [lia|]. unfold T. nia. }
  assert (Hc : (r = 0 /\ c = 0) \/ (0 < r /\ 2 * r < m2 /\ c = 1) \/
               (2 * r = m2 /\ c = 2) \/ (m2 < 2 * r /\ c = 3)).
  { unfold c. destruct (Z.eqb_spec r 0) as [->|Hr0]; [left; auto|].
    destruct (Z.compare_spec (2 * r) m2); [right; right; left | right; left
                                          | right; right; right]; lia. }
  assert (HN' : N' = (2 * q + h) * (2 * K) + (c - 2 * h) * K).
  { unfold N'. fold K. ring. }
  assert (Hch : 0 <= c - 2 * h <= 1) by lia.
  split; [|split; [|split; [|split]]].
  - rewrite HK1. symmetry.
    apply (Z.div_unique N' (2 * K) (2 * q + h) ((c - 2 * h) * K)); [nia|].
    rewrite HN'. ring.
  - rewrite HK1. symmetry.
    apply (Z.div_unique N2 (2 * K) (2 * q + h) (2 * f + sg - h * (2 * K)));
      [|rewrite HN2; ring].
    destruct Hfh as [Hf1 Hf0]. destruct Hh as [[-> _]|[-> _]]; lia.
  - rewrite HK1.
    assert (Hm' : N' mod (2 * K) = (c - 2 * h) * K).
    { symmetry. apply (Z.mod_unique N' (2 * K) (2 * q + h)); [nia|].
      rewrite HN'. ring. }
    assert (Hm2' : N2 mod (2 * K) = 2 * f + sg - h * (2 * K)).
    { symmetry. apply (Z.mod_unique N2 (2 * K) (2 * q + h));
        [|rewrite HN2; ring].
      destruct Hfh as [Hf1 Hf0]. destruct Hh as [[-> _]|[-> _]]; lia. }
    rewrite Hm', Hm2'.
    (* both remainders vanish exactly when [r = 0] or [2 r = m2] *)
    assert (Hleft : (c - 2 * h) * K = 0 <-> (r = 0 \/ 2 * r = m2)) by nia.
    assert (Hright : 2 * f + sg - h * (2 * K) = 0 <-> (r = 0 \/ 2 * r = m2)).
    { split.
      - intros H0. assert (Hsg0 : sg = 0 /\ t = 0) by lia.
        destruct Hsg0 as [-> Ht0]. fold t in HT. rewrite Ht0 in HT.
        destruct Hh as [[Hh1 _]|[Hh0 _]].
        + right. assert (f = K) by lia. unfold T in HT. nia.
        + left. assert (f = 0) by lia. unfold T in HT. nia.
      - intros [Hr0|Hhalf].
        + assert (T = 0) by (unfold T; nia).
          assert (f = 0) by (unfold f; rewrite H; apply Z.div_0_l; lia).
          assert (t = 0) by (unfold t; rewrite H; apply Z.mod_0_l; lia).
          destruct Hsg as [[-> _]|[_ ?]]; [|lia].
          destruct Hh as [[_ ?]|[-> _]]; lia.
        + assert (HTK : T = K * m2) by (unfold T; nia).
          assert (f = K) by (unfold f; rewrite HTK; apply Z.div_mul; lia).
          assert (t = 0) by (unfold t; rewrite HTK; apply Z.mod_mul; lia).
          destruct Hsg as [[-> _]|[_ ?]]; [|lia].
          destruct Hh as [[-> _]|[_ ?]]; lia. }
    tauto.
  - lia.
  - intros Hpos. split; [nia|].
    rewrite HN2. destruct (Z.eq_dec q 0) as [->|Hq0];
      [|assert (K <= q * K) by nia; lia].
    assert (0 < r) by lia.
    destruct Hsg as [[Hsg0 Ht0]|[Hsg1 _]]; [|lia].
    assert (HTpos : 0 < T) by (unfold T; apply Z.mul_pos_pos; lia).
    destruct (Z.eq_dec f 0) as [Hf0|Hf0]; [|lia].
    fold t in HT. rewrite Hf0, Ht0 in HT. lia.
Qed.

Lemma div_repr_0 : forall B : Z, div_repr 0 B = 0.
Proof.
  intros B. unfold div_repr. cbn [Z.mul].
  rewrite Zdiv_0_l, Zmod_0_l. reflexivity.
Qed.

Lemma div_value :
  forall x y : float,
    nonneg_finite x = true -> nonneg_finite y = true ->
    0 < value_of y -> value_of x <= value_of y ->
    nonneg_finite (x / y)%f32 = true /\
    value_of (x / y)%f32 = round_value (div_repr (value_of x) (value_of y)).
Proof.
  intros x y Hx Hy HWy Hle.
  destruct (nonneg_finite_cases y Hy) as [[sy ->]|(m2 & e2 & -> & Hc2 & Hb2)];
    [cbn in HWy; lia|].
  destruct (nonneg_finite_cases x Hx) as [[sx ->]|(m1 & e1 & -> & Hc1 & Hb1)].
  { change (value_of (S754_zero sx)) with 0. rewrite div_repr_0, round_value_0.
    destruct sx; split; reflexivity. }
  rewrite !value_of_finite in *.
  destruct (canonical_digits m1 e1 Hc1) as (He1 & _ & _).
  destruct (canonical_digits m2 e2 Hc2) as (He2 & _ & _).
  unfold F32.div, SFdiv, F32.prec, F32.emax. cbn [xorb].
  pose proof (div_core_precondition m1 m2 e1 e2) as Hpre.
  pose proof (div_core_spec m1 m2 e1 e2) as Hspec.
  destruct (SFdiv_core_binary 24 128 (Zpos m1) e1 (Zpos m2) e2) as [[q e'] l].
  destruct Hpre as [Hq Hpre].
  destruct Hspec as (r & He' & Hdiv & Hr & _ & Hl).
  assert (He'lo : -297 <= e') by (rewrite He'; unfold fexp32; lia).
  assert (Hs : 0 <= e1 - e2 - e') by (rewrite He'; lia).
  set (k := e' + 297).
  assert (Hk : 0 <= k) by (unfold k; lia).
  destruct (div_repr_cell (Zpos m2) q r k ltac:(lia) Hq Hr Hk)
    as (Hcell' & Hcell2 & Hzero & Hcode & Hposs).
  rewrite <- (new_location_code (Zpos m2) r Hr), <- Hl in Hcell', Hzero, Hcode, Hposs.
  assert (Hs2 : 0 < 2 ^ (e1 - e2 - e')) by (apply Z.pow_pos_nonneg; lia).
  assert (Hnum : 0 < q * Zpos m2 + r) by nia.
  destruct (Hposs Hnum) as [HM HN2pos]. clear Hposs.
  (* the value computed is that of the extended mantissa *)
  assert (Hfexp : fexp32 (Zdigits2 (4 * q + loc_code l) + (e' - 2))
                  = fexp32 (Zdigits2 q + e')).
  { destruct (Z.eq_dec q 0) as [->|Hq0].
    - change (Zdigits2 0) with 0 in *.
      assert (He'sub : e' <= -149) by (unfold fexp32 in Hpre; lia).
      replace (4 * 0 + loc_code l) with (loc_code l) in * by lia.
      assert (Zdigits2 (loc_code l) <= 2).
      { apply Zdigits2_lt_pow2; [lia | lia |]. change (2 ^ 2) with 4. lia. }
      unfold fexp32. lia.
    - rewrite Zdigits2_extend by lia. f_equal. lia. }
  rewrite (binary_round_aux_loc false q e' l Hq Hpre Hfexp).
  set (M := 4 * q + loc_code l) in *.
  set (N' := M * 2 ^ (e' - 2 + 299)).
  assert (HN'k : N' = M * 2 ^ k).
  { unfold N', k. replace (e' - 2 + 299) with (e' + 297) by lia. reflexivity. }
  assert (HK : 0 < 2 ^ k) by (apply Z.pow_pos_nonneg; lia).
  (* the quotient is at most one *)
  assert (Hquot : q * 2 ^ (k + 2) <= 2 ^ 299).
  { assert (Ha : 1 <= e' + e2 + 299) by (rewrite He'; unfold fexp32; lia).
    assert (Hx' : Zpos m1 * 2 ^ (e1 + 299)
                  = (q * Zpos m2 + r) * 2 ^ (e' + e2 + 299)).
    { rewrite <- Hdiv, <- Z.mul_assoc, <- Z.pow_add_r by lia.
      f_equal. f_equal. lia. }
    rewrite Hx' in Hle. clear Hx'.
    assert (Hm2 : 0 < Zpos m2) by lia.
    replace (k + 2) with (e' + 299) by (unfold k; lia).
    destruct (Z.leb_spec 0 e') as [Hpos|Hneg].
    - assert (Hsplit : 2 ^ (e' + e2 + 299) = 2 ^ e' * 2 ^ (e2 + 299)).
      { rewrite <- Z.pow_add_r by lia. f_equal. lia. }
      assert (Hsplit' : 2 ^ (e' + 299) = 2 ^ e' * 2 ^ 299).
      { rewrite <- Z.pow_add_r by lia. f_equal. }
      assert (Hb : 0 < 2 ^ (e2 + 299)) by (apply Z.pow_pos_nonneg; lia).
      assert (He'p : 0 < 2 ^ e') by (apply Z.pow_pos_nonneg; lia).
      assert (H299 : 0 < 2 ^ 299) by reflexivity.
      rewrite Hsplit in Hle. rewrite Hsplit'.
      set (B := 2 ^ (e2 + 299)) in *. set (Ep := 2 ^ e') in *.
      assert (Hq1 : (q * Zpos m2 + r) * Ep <= Zpos m2) by nia.
      assert (Hq2 : q * Ep <= 1) by nia.
      nia.
    - assert (Hsplit : 2 ^ (e2 + 299) = 2 ^ (- e') * 2 ^ (e' + e2 + 299)).
      { rewrite <- Z.pow_add_r by lia. f_equal. lia. }
      assert (Hsplit' : 2 ^ 299 = 2 ^ (- e') * 2 ^ (e' + 299)).
      { rewrite <- Z.pow_add_r by lia. f_equal. lia. }
      assert (Hb : 0 < 2 ^ (e' + e2 + 299)) by (apply Z.pow_pos_nonneg; lia).
      assert (He'p : 0 < 2 ^ (- e')) by (apply Z.pow_pos_nonneg; lia).
      assert (Hc : 0 < 2 ^ (e' + 299)) by (apply Z.pow_pos_nonneg; lia).
      rewrite Hsplit in Hle. rewrite Hsplit'.
      set (B := 2 ^ (e' + e2 + 299)) in *. set (En := 2 ^ (- e')) in *.
      set (C := 2 ^ (e' + 299)) in *.
      assert (Hq1 : q * Zpos m2 + r <= Zpos m2 * En) by nia.
      assert (Hq2 : q <= En) by nia.
      nia. }
  assert (HK2 : 2 ^ (k + 2) = 4 * 2 ^ k) by (rewrite Z.pow_add_r by lia; lia).
  assert (Hsmall : N' <= 2 ^ 301).
  { rewrite HN'k. unfold M.
    assert (H301 : 2 ^ 301 = 4 * 2 ^ 299) by reflexivity.
    assert (H299 : 0 < 2 ^ 299) by reflexivity.
    destruct (Z.eq_dec q 0) as [Hq0|Hq0].
    - rewrite Hq0 in Hpre. change (Zdigits2 0) with 0 in Hpre.
      assert (k + 2 <= 150) by (unfold k, fexp32 in *; lia).
      assert (2 ^ (k + 2) <= 2 ^ 150) by (apply Z.pow_le_mono_r; lia).
      assert (2 ^ 150 <= 2 ^ 299) by (apply Z.pow_le_mono_r; lia).
      rewrite HK2 in *. rewrite Hq0.
      clear - Hcode HK H H0 H1 H301 H299. nia.
    - rewrite HK2 in Hquot.
      assert (HqK : 2 ^ k <= q * 2 ^ k) by (clear - Hq Hq0 HK; nia).
      clear - Hquot HqK Hcode HK H301 H299. nia. }
  destruct (round_aux_value M (e' - 2) HM ltac:(lia)
              ltac:(rewrite Hfexp; lia) Hsmall) as [Hnn HW].
  split; [exact Hnn|]. rewrite HW. fold N'.
  (* the representative of the quotient is in the same half cell *)
  assert (Hrepr : div_repr (Zpos m1 * 2 ^ (e1 + 299)) (Zpos m2 * 2 ^ (e2 + 299))
                  = 2 * ((q * Zpos m2 + r) * 2 ^ (k + 1) / Zpos m2)
                    + (if ((q * Zpos m2 + r) * 2 ^ (k + 1)) mod Zpos m2 =? 0
                       then 0 else 1)).
  { unfold div_repr.
    assert (Hsc : Zpos m1 * 2 ^ (e1 + 299) * 2 ^ 298
                  = (q * Zpos m2 + r) * 2 ^ (k + 1) * 2 ^ (e2 + 299)).
    { rewrite <- Hdiv, <- !Z.mul_assoc, <- !Z.pow_add_r by (unfold k; lia).
      f_equal. f_equal. unfold k. lia. }
    assert (Hp2 : 0 < 2 ^ (e2 + 299)) by (apply Z.pow_pos_nonneg; lia).
    rewrite Hsc, Z.div_mul_cancel_r, Z.mul_mod_distr_r by lia.
    f_equal.
    destruct (Z.eqb_spec (((q * Zpos m2 + r) * 2 ^ (k + 1)) mod Zpos m2) 0)
      as [->|Hne].
    - reflexivity.
    - destruct (Z.eqb_spec
        (((q * Zpos m2 + r) * 2 ^ (k + 1)) mod Zpos m2 * 2 ^ (e2 + 299)) 0);
        [nia | reflexivity]. }
  rewrite Hrepr.
  set (N2 := 2 * ((q * Zpos m2 + r) * 2 ^ (k + 1) / Zpos m2) + _) in *.
  rewrite HN'k in *. fold M in Hcell', Hzero.
  assert (Hgrid' : grid (M * 2 ^ k) = fexp32 (Zdigits2 q + e') + 299).
  { rewrite <- Hfexp. replace k with (e' - 2 + 299) by (unfold k; lia).
    apply grid_scaled; lia. }
  assert (HMK : 0 < M * 2 ^ k) by (apply Z.mul_pos_pos; assumption).
  assert (Hh : 0 <= (if Zpos m2 <=? 2 * r then 1 else 0) <= 1)
    by (destruct (Zpos m2 <=? 2 * r); lia).
  apply (round_value_same_cell (M * 2 ^ k) N2 (k + 1)).
  - exact HMK.
  - exact HN2pos.
  - clear - Hk. lia.
  - rewrite Hgrid'. clear - Hpre. unfold k. lia.
  - (* same grid *)
    destruct (Z.eq_dec q 0) as [Hq0|Hq0].
    + rewrite Hq0 in Hpre, Hcell', Hcell2. change (Zdigits2 0) with 0 in Hpre.
      assert (Hk2 : k + 2 <= 150) by (clear - Hpre; unfold k, fexp32 in *; lia).
      assert (HK1 : 0 < 2 ^ (k + 1)) by (apply Z.pow_pos_nonneg; lia).
      assert (Hbound : forall N, 0 < N -> N / 2 ^ (k + 1) <= 1 -> grid N = 150).
      { clear - Hk Hk2 HK1. intros N HN Hdiv1.
        assert (N < 2 * 2 ^ (k + 1)).
        { destruct (Z.ltb_spec N (2 * 2 ^ (k + 1))) as [|Hge]; [assumption|].
          assert (2 <= N / 2 ^ (k + 1)) by (apply Z.div_le_lower_bound; lia).
          lia. }
        assert (Zdigits2 N <= k + 2).
        { apply Zdigits2_lt_pow2; [lia | lia |].
          replace (k + 2) with (Z.succ (k + 1)) by lia.
          rewrite Z.pow_succ_r by lia. lia. }
        unfold grid. lia. }
      rewrite (Hbound (M * 2 ^ k) HMK) by (rewrite Hcell'; clear - Hh; lia).
      rewrite (Hbound N2 HN2pos) by (rewrite Hcell2; clear - Hh; lia).
      reflexivity.
    + unfold grid. f_equal. f_equal.
      apply (Zdigits2_same_cell (M * 2 ^ k) N2 (k + 1)).
      * exact HMK.
      * exact HN2pos.
      * clear - Hk. lia.
      * rewrite Hcell', Hcell2. reflexivity.
      * rewrite Hcell'. clear - Hh Hq Hq0. lia.
  - rewrite Hcell', Hcell2. reflexivity.
  - exact Hzero.
Qed.

Lemma div_repr_mono :
  forall A1 A2 B : Z,
    0 <= A1 -> A1 <= A2 -> 0 < B -> div_repr A1 B <= div_repr A2 B.
Proof.
  intros A1 A2 B H1 H12 HB. unfold div_repr.
  assert (H298 : 0 < 2 ^ 298) by reflexivity.
  set (a1 := A1 * 2 ^ 298). set (a2 := A2 * 2 ^ 298).
  assert (Ha : a1 <= a2) by (unfold a1, a2; nia).
  pose proof (Z.div_le_mono a1 a2 B HB Ha) as Hq.
  pose proof (Z.div_mod a1 B ltac:(lia)) as E1.
  pose proof (Z.div_mod a2 B ltac:(lia)) as E2.
  pose proof (Z.mod_pos_bound a1 B HB) as M1.
  pose proof (Z.mod_pos_bound a2 B HB) as M2.
  destruct (Z.eqb_spec (a1 mod B) 0) as [Hz1|Hz1];
    destruct (Z.eqb_spec (a2 mod B) 0) as [Hz2|Hz2]; try lia.
  destruct (Z.eq_dec (a1 / B) (a2 / B)) as [Heq|Hne]; [|lia].
  rewrite Heq in E1. lia.
Qed.

Lemma div_repr_le_unit :
  forall A B : Z, 0 <= A -> A <= B -> 0 < B -> div_repr A B <= unit_value.
Proof.
  intros A B HA HAB HB. unfold div_repr.
  assert (H298 : 0 < 2 ^ 298) by reflexivity.
  assert (HU : unit_value = 2 * 2 ^ 298) by reflexivity.
  set (a := A * 2 ^ 298).
  assert (Ha : a <= B * 2 ^ 298) by (unfold a; nia).
  assert (Hq : a / B <= 2 ^ 298).
  { apply Z.div_le_upper_bound; lia. }
  pose proof (Z.div_mod a B ltac:(lia)) as E.
  pose proof (Z.mod_pos_bound a B HB) as M.
  destruct (Z.eqb_spec (a mod B) 0) as [Hz|Hz]; [lia|].
  destruct (Z.eq_dec (a / B) (2 ^ 298)) as [Heq|Hne]; [|lia].
  rewrite Heq in E. lia.
Qed.

Lemma div_repr_nonneg :
  forall A B : Z, 0 <= A -> 0 < B -> 0 <= div_repr A B.
Proof.
  intros A B HA HB. unfold div_repr.
  assert (0 <= A * 2 ^ 298 / B).
  { apply Z.div_pos; [|lia]. assert (0 < 2 ^ 298) by reflexivity. nia. }
  destruct (_ =? 0); lia.
Qed.

Lemma ltb_leb :
  forall x y : float, (x <? y)%f32 = true -> (x <=? y)%f32 = true.
Proof.
  intros x y. unfold F32.ltb, SFltb, F32.leb, SFleb.
  destruct (SFcompare x y) as [[| |]|]; intros H; try discriminate; reflexivity.
Qed.

Section MidaDelta.
Variable self : Renderer.

(** The volume maximum is a positive number of the format, and every
    sample is a number of the format between 0 and the maximum. *)
Hypothesis maximum_positive :
  nonneg_finite (maximum (m_pVolume self)) = true /\
  (F32.zero <? maximum (m_pVolume self))%f32 = true.

Lemma value_of_maximum_pos : 0 < value_of (maximum (m_pVolume self)).
Proof.
  destruct maximum_positive as [Hn Hlt].
  destruct (nonneg_finite_cases _ Hn) as [[s Hs]|(m & e & Hm & Hc & _)].
  - rewrite Hs in Hlt. destruct s; discriminate.
  - rewrite Hm, value_of_finite.
    destruct (canonical_digits m e Hc) as (He & _ & _).
    assert (0 < 2 ^ (e + 299)) by (apply Z.pow_pos_nonneg; lia). nia.
Qed.

Lemma normalized_value :
  forall v : float,
    nonneg_finite v = true ->
    (v <=? maximum (m_pVolume self))%f32 = true ->
    nonneg_finite (v / maximum (m_pVolume self))%f32 = true /\
    value_of (v / maximum (m_pVolume self))%f32
    = round_value (div_repr (value_of v) (value_of (maximum (m_pVolume self)))).
Proof.
  intros v Hv Hle. destruct maximum_positive as [Hn _].
  apply div_value; [exact Hv | exact Hn | exact value_of_maximum_pos |].
  apply (leb_value v _ Hv Hn). exact Hle.
Qed.

Lemma mida_delta_unit_interval :
  forall val maxVal : float,
    nonneg_finite val = true ->
    (val <=? maximum (m_pVolume self))%f32 = true ->
    nonneg_finite maxVal = true ->
    (maxVal <=? maximum (m_pVolume self))%f32 = true ->
    in_unit_interval (mida_delta self val maxVal) = true.
Proof.
  intros val maxVal Hv Hvle Hm Hmle. unfold mida_delta.
  destruct (val >? maxVal)%f32 eqn:Hgt; [|reflexivity].
  destruct maximum_positive as [Hn _]. pose proof value_of_maximum_pos as Hpos.
  assert (Hmv : value_of maxVal <= value_of val).
  { apply (leb_value maxVal val Hm Hv). apply ltb_leb. exact Hgt. }
  assert (HvU : value_of val <= value_of (maximum (m_pVolume self)))
    by (apply (leb_value val _ Hv Hn); exact Hvle).
  destruct (normalized_value val Hv Hvle) as [Han HaW].
  destruct (normalized_value maxVal Hm Hmle) as [Hbn HbW].
  pose proof (value_of_nonneg maxVal Hm) as Hm0.
  assert (Hba : value_of (maxVal / maximum (m_pVolume self))%f32
                <= value_of (val / maximum (m_pVolume self))%f32).
  { rewrite HaW, HbW. apply round_value_mono.
    - apply div_repr_nonneg; lia.
    - apply div_repr_mono; lia. }
  assert (HaU : value_of (val / maximum (m_pVolume self))%f32 <= unit_value).
  { rewrite HaW.
    pose proof (div_repr_le_unit (value_of val) _ ltac:(lia) HvU Hpos) as Hle.
    pose proof (div_repr_nonneg (value_of val) _ ltac:(lia) Hpos) as Hge.
    destruct (Z.eq_dec (div_repr (value_of val) (value_of (maximum (m_pVolume self)))) 0)
      as [->|Hne]; [rewrite round_value_0; unfold unit_value; lia|].
    apply round_value_le_representable; [lia | exact Hle | exact representable_unit]. }
  destruct unit_value_facts as (HU0 & HU2 & _ & _).
  destruct (sub_value _ _ Han Hbn Hba ltac:(lia)) as [Hdn HdW].
  apply in_unit_interval_spec. split; [exact Hdn|].
  rewrite HdW.
  pose proof (value_of_nonneg _ Hbn) as Hb0.
  destruct (Z.eq_dec (value_of (val / maximum (m_pVolume self))%f32
                      - value_of (maxVal / maximum (m_pVolume self))%f32) 0)
    as [->|Hne]; [rewrite round_value_0; lia|].
  apply round_value_le_representable; [lia | lia | exact representable_unit].
Qed.
End MidaDelta.

(** ** Loops *)

Lemma run_loop_ext :
  forall (S : Type) (guard : S -> bool) (body1 body2 : S -> step_result S),
    (forall s, body1 s = body2 s) ->
    forall fuel s, run_loop guard body1 fuel s = run_loop guard body2 fuel s.
Proof.
  intros S guard body1 body2 Hext. induction fuel as [|fuel IH]; intros s.
  - reflexivity.
  - cbn [run_loop]. rewrite Hext.
    destruct (guard s); [|reflexivity].
    destruct (body2 s); [apply IH | reflexivity].
Qed.

Lemma loop_reaches_invariant :
  forall (S : Type) (guard : S -> bool) (body : S -> step_result S)
         (Inv : S -> Prop) (s0 : S),
    Inv s0 ->
    (forall s s', Inv s -> loop_step guard body s s' -> Inv s') ->
    forall s, loop_reaches guard body s0 s -> Inv s.
Proof.
  intros S guard body Inv s0 H0 Hstep s Hreach.
  induction Hreach as [|s s' _ IH Hg Hb]; [exact H0|].
  apply (Hstep s s' IH). split; [exact Hg | left; exact Hb].
Qed.

(** What a terminating run returns: a state in which the guard fails, or the
    state in which an iteration leaves the loop. *)
Lemma run_loop_reaches :
  forall (S : Type) (guard : S -> bool) (body : S -> step_result S)
         (s0 : S) (fuel : nat) (s s' : S),
    loop_reaches guard body s0 s ->
    run_loop guard body fuel s = Some s' ->
    (loop_reaches guard body s0 s' /\ guard s' = false) \/
    (exists s1, loop_reaches guard body s0 s1 /\ guard s1 = true /\
                body s1 = Break s').
Proof.
  intros S guard body s0. induction fuel as [|fuel IH]; intros s s' Hs Hrun;
    cbn [run_loop] in Hrun; destruct (guard s) eqn:Hg;
    try discriminate; try (injection Hrun as <-; left; split; assumption).
  destruct (body s) as [s1|s1] eqn:Hb.
  - apply (IH s1 s'); [|exact Hrun].
    apply (reaches_next guard body s0 s s1 Hs Hg Hb).
  - injection Hrun as <-. right. exists s. repeat split; assumption.
Qed.

(** ** Combined at gamma = 0 *)

Lemma mida_delta_valid :
  forall (self : Renderer) (val maxVal : float),
    F32.valid (mida_delta self val maxVal) = true.
Proof.
  intros self val maxVal. unfold mida_delta.
  destruct (val >? maxVal)%f32; [|reflexivity].
  apply sub_valid; apply div_valid.
Qed.

Lemma eqb_zero :
  forall g : float, F32.eqb g F32.zero = true -> exists s, g = S754_zero s.
Proof.
  intros [s|s| |s m e] H; try discriminate.
  - exists s. reflexivity.
  - destruct s; discriminate.
  - destruct s; discriminate.
Qed.

Lemma combined_body_gamma_zero :
  forall `{Platform} (self : Renderer) (ray : Ray) (sampleStep : float),
    F32.eqb (gamma (m_config self)) F32.zero = true ->
    forall st,
      combined_body self ray sampleStep st = mida_body self ray sampleStep st.
Proof.
  intros P self ray sampleStep Hg st.
  destruct (eqb_zero _ Hg) as [s Hs].
  unfold combined_body, mida_body. rewrite Hs.
  replace (S754_zero s <=? F32.zero)%f32 with true by (destruct s; reflexivity).
  replace (F32.one + S754_zero s)%f32 with F32.one by (destruct s; reflexivity).
  rewrite mul_one_r by apply mida_delta_valid.
  reflexivity.
Qed.

(** ** Ray/box intersection *)

(** C10: when the intersection reports a miss, the ray it leaves is the ray
    it was given; [tmin] and [tmax] are written on the success path only. *)
Theorem intersect_miss_keeps_ray :
  forall (ray : Ray) (bounds : Bounds),
    fst (instersectRayVolumeBounds ray bounds) = false ->
    snd (instersectRayVolumeBounds ray bounds) = ray /\
    tmin (snd (instersectRayVolumeBounds ray bounds)) = tmin ray /\
    tmax (snd (instersectRayVolumeBounds ray bounds)) = tmax ray.
Proof.
  intros ray bounds.
  unfold instersectRayVolumeBounds.
  destruct (glm.lessThan3 _ _) as [[s0 s1] s2].
  repeat match goal with
         | |- context [if ?c then _ else _] => destruct c
         end; simpl; intros Hmiss; try discriminate; auto.
Qed.

(** ** Bisection *)

Section Bisection.
Variable self : Renderer.
Variable ray : Ray.
Variable isoValue : float.

Lemma bisection_interval_succ :
  forall t0 t1 k,
    bisection_interval self ray isoValue t0 t1 (S k) =
    let ab := bisection_narrow self ray isoValue (t0, t1) in
    bisection_interval self ray isoValue (fst ab) (snd ab) k.
Proof.
  intros t0 t1 k. unfold bisection_interval.
  rewrite Nat.iter_succ_r.
  destruct (bisection_narrow self ray isoValue (t0, t1)); reflexivity.
Qed.

Lemma bisection_loop_spec :
  forall (n : nat) (t0 t1 c : float),
  exists k : nat,
    (k < S n)%nat /\
    bisection_loop self ray isoValue (S n) (t0, t1) c =
      bisection_midpoint
        (fst (bisection_interval self ray isoValue t0 t1 k))
        (snd (bisection_interval self ray isoValue t0 t1 k)) /\
    (forall j, (j < k)%nat ->
       bisection_done self ray isoValue
         (fst (bisection_interval self ray isoValue t0 t1 j))
         (snd (bisection_interval self ray isoValue t0 t1 j)) = false) /\
    ((S k < S n)%nat ->
       bisection_done self ray isoValue
         (fst (bisection_interval self ray isoValue t0 t1 k))
         (snd (bisection_interval self ray isoValue t0 t1 k)) = true).
Proof.
  induction n as [|n IH]; intros t0 t1 c.
  - exists 0%nat. cbn [bisection_loop fst snd].
    repeat split; try lia.
    destruct (bisection_done self ray isoValue t0 t1); reflexivity.
  - change (bisection_loop self ray isoValue (S (S n)) (t0, t1) c)
      with (if bisection_done self ray isoValue t0 t1
            then bisection_midpoint t0 t1
            else bisection_loop self ray isoValue (S n)
                   (bisection_narrow self ray isoValue (t0, t1))
                   (bisection_midpoint t0 t1)).
    destruct (bisection_done self ray isoValue t0 t1) eqn:Hdone.
    + exists 0%nat. repeat split; try lia. intros _. exact Hdone.
    + destruct (bisection_narrow self ray isoValue (t0, t1)) as [a b] eqn:Hn.
      destruct (IH a b (bisection_midpoint t0 t1)) as (k & Hk & Hres & Hbefore & Hstop).
      exists (S k).
      rewrite bisection_interval_succ, Hn. cbn [fst snd].
      split; [lia|]. split; [exact Hres|]. split.
      * intros [|j] Hj.
        -- exact Hdone.
        -- rewrite bisection_interval_succ, Hn. cbn [fst snd].
           apply Hbefore. lia.
      * intros Hlt. apply Hstop. lia.
Qed.
End Bisection.

(** C9: [bisectionAccuracy] runs its loop body [k + 1] times for some
    [k < 30], so at most 30 times, and returns the midpoint [(a + b) / 2]
    of the interval [(a, b)] of the iteration it ends in.  That interval
    comes from [(t0, t1)] by [k] narrowings, each of which replaces [a] by
    the midpoint when the scalar sampled there is below the isovalue and
    [b] by the midpoint otherwise.  None of the earlier iterations met the
    stopping test, and when fewer than 30 iterations ran, the last one met
    it: the scalar at the midpoint is within [0.01] of the isovalue or the
    interval is narrower than [0.01]. *)
Theorem bisectionAccuracy_at_most_30_iterations :
  forall (self : Renderer) (ray : Ray) (t0 t1 isoValue : float),
    let value (c : float) : float :=
      getSampleInterpolate (m_pVolume self)
        (glm.add3 (origin ray) (glm.smul3 c (direction ray))) in
    let mid (ab : float * float) : float :=
      ((fst ab + snd ab) / F32.two)%f32 in
    let narrow (ab : float * float) : float * float :=
      if (value (mid ab) <? isoValue)%f32 then (mid ab, snd ab)
      else (fst ab, mid ab) in
    let stop (ab : float * float) : bool :=
      (F32.abs (value (mid ab) - isoValue) <? F32.c0_01)%f32
      || (F32.abs (snd ab - fst ab) <? F32.c0_01)%f32 in
    exists k : nat,
      (k < 30)%nat /\
      bisectionAccuracy self ray t0 t1 isoValue
      = mid (Nat.iter k narrow (t0, t1)) /\
      (forall j, (j < k)%nat -> stop (Nat.iter j narrow (t0, t1)) = false) /\
      ((k + 1 < 30)%nat -> stop (Nat.iter k narrow (t0, t1)) = true).
Proof.
  intros self ray t0 t1 isoValue value mid narrow stop.
  assert (Hnarrow : forall ab, bisection_narrow self ray isoValue ab = narrow ab)
    by (intros [a b]; reflexivity).
  assert (Hiter : forall k,
            bisection_interval self ray isoValue t0 t1 k
            = Nat.iter k narrow (t0, t1)).
  { induction k as [|k IH]; [reflexivity|].
    unfold bisection_interval in *. rewrite !Nat.iter_succ, IH.
    apply Hnarrow. }
  destruct (bisection_loop_spec self ray isoValue 29 t0 t1 F32.nan)
    as (k & Hk & Hres & Hbefore & Hstop).
  exists k. split; [exact Hk|]. split; [|split].
  - rewrite <- Hiter. exact Hres.
  - intros j Hj. rewrite <- Hiter. apply Hbefore. exact Hj.
  - intros Hlt. rewrite <- Hiter. apply Hstop. lia.
Qed.

(** C10, on a ray that passes beside the box. *)
Lemma intersect_miss_keeps_ray_witness :
  fst (instersectRayVolumeBounds Examples.ray_beside Examples.unit_box) = false /\
  snd (instersectRayVolumeBounds Examples.ray_beside Examples.unit_box)
    = Examples.ray_beside.
Proof.
  split; [reflexivity|].
  apply (intersect_miss_keeps_ray Examples.ray_beside Examples.unit_box).
  reflexivity.
Defined.

(** C8 fails on a ray that lies in a face of the box: its direction has a
    zero x component, so [invDir.x] is [+infinity], and its origin has
    [x = lower.x], so the slab distance [(lower.x - origin.x) * invDir.x] is
    [0 * infinity], a NaN.  Every comparison with it is false and
    [std::max] keeps it: the function returns [true] with [tmin] a NaN and
    [tmax = 2], and [tmin <= tmax] does not hold. *)
Theorem intersect_face_ray_tmin_nan :
  finite3 (origin Examples.ray_in_face) = true /\
  finite3 (direction Examples.ray_in_face) = true /\
  F32.is_finite (tmin Examples.ray_in_face) = true /\
  F32.is_finite (tmax Examples.ray_in_face) = true /\
  finite3 (lower Examples.unit_box) = true /\
  finite3 (upper Examples.unit_box) = true /\
  instersectRayVolumeBounds Examples.ray_in_face Examples.unit_box
    = (true, mkRay (origin Examples.ray_in_face)
                   (direction Examples.ray_in_face) F32.nan F32.two) /\
  (let r := snd (instersectRayVolumeBounds Examples.ray_in_face
                   Examples.unit_box) in
   (tmin r <=? tmax r)%f32 = false).
Proof. repeat split; reflexivity. Qed.

(** ** The 1D transfer function *)

Lemma size_t_of_float_range :
  forall `{Platform} (x : float), 0 <= size_t_of_float x <= size_t_max.
Proof.
  intros P x. unfold size_t_of_float, size_t_max.
  assert (Hmod : forall z, 0 <= z mod 2 ^ 64 <= 2 ^ 64 - 1).
  { intros z. pose proof (Z.mod_pos_bound z (2 ^ 64) ltac:(lia)). lia. }
  destruct (F32.trunc x) as [n|]; [|apply Hmod].
  destruct ((0 <=? n) && (n <=? 2 ^ 64 - 1)) eqn:Hn; [|apply Hmod].
  apply andb_true_iff in Hn. destruct Hn as [H0 H1].
  apply Z.leb_le in H0. apply Z.leb_le in H1. lia.
Qed.

Lemma getTFValue_index_range :
  forall `{Platform} (self : Renderer) (val : float),
    0 <= getTFValue_index self val <= 255.
Proof.
  intros P self val. unfold getTFValue_index, tfColorMap_size.
  pose proof (size_t_of_float_range (getTFValue_range01 self val * F32.c256)%f32).
  lia.
Qed.

Lemma getTFValue_in_table :
  forall `{Platform} (self : Renderer) (val : float),
    wf_config (m_config self) ->
    (Z.to_nat (getTFValue_index self val) < length (tfColorMap (m_config self)))%nat /\
    In (getTFValue self val) (tfColorMap (m_config self)).
Proof.
  intros P self val Hwf.
  pose proof (getTFValue_index_range self val) as Hi.
  unfold wf_config, tfColorMap_size in Hwf.
  assert (Hlt : (Z.to_nat (getTFValue_index self val)
                 < length (tfColorMap (m_config self)))%nat) by lia.
  split; [exact Hlt|].
  unfold getTFValue. apply nth_In. exact Hlt.
Qed.

(** C3, as the code has it: the index is at most 255 for every value and
    every behaviour of the out-of-range conversion, so the access is within
    the 256 entries; and it is [clamp(n, 0, 255)] whenever the scaled value
    [(val - start) / range * 256] truncates to an [n] from 0 up to the
    largest [size_t].  Nothing clamps from below. *)
Theorem getTFValue_index_upper_clamp :
  forall `{Platform} (self : Renderer) (val : float),
    0 <= getTFValue_index self val <= 255 /\
    (wf_config (m_config self) ->
     (Z.to_nat (getTFValue_index self val)
      < length (tfColorMap (m_config self)))%nat) /\
    (forall n : Z,
       F32.trunc (getTFValue_range01 self val * F32.c256)%f32 = Some n ->
       0 <= n <= size_t_max ->
       getTFValue_index self val = Z.max 0 (Z.min n 255)).
Proof.
  intros P self val. split; [apply getTFValue_index_range|]. split.
  - intros Hwf. apply (getTFValue_in_table self val Hwf).
  - intros n Hn Hrange.
    unfold getTFValue_index, size_t_of_float, tfColorMap_size.
    rewrite Hn.
    replace ((0 <=? n) && (n <=? size_t_max)) with true; [lia|].
    symmetry. apply andb_true_iff. split; apply Z.leb_le; lia.
Qed.

Lemma div_by_zero_not_finite :
  forall (x : float) (s : bool),
    F32.is_finite (x / S754_zero s)%f32 = false.
Proof. intros [sx|sx| |sx mx ex] s; reflexivity. Qed.

(** C7, as the code has it: with a zero domain range the quotient
    [(val - start) / range] is never finite (it is an infinity or a NaN) and
    [getTFValue] has no guard for it; the index is still at most 255, so
    the function returns one of the entries of the lookup table, whatever
    that entry holds. *)
Theorem getTFValue_zero_range_returns_table_entry :
  forall `{Platform} (self : Renderer) (val : float) (s : bool),
    wf_config (m_config self) ->
    tfColorMapIndexRange (m_config self) = S754_zero s ->
    F32.is_finite (getTFValue_range01 self val) = false /\
    0 <= getTFValue_index self val <= 255 /\
    In (getTFValue self val) (tfColorMap (m_config self)).
Proof.
  intros P self val s Hwf Hzero. split; [|split].
  - unfold getTFValue_range01. rewrite Hzero. apply div_by_zero_not_finite.
  - apply getTFValue_index_range.
  - apply (getTFValue_in_table self val Hwf).
Qed.

(** ** The 2D transfer function *)

Lemma ltb_irrefl : forall x : float, (x <? x)%f32 = false.
Proof.
  intros [s|s| |s m e]; try reflexivity; try (destruct s; reflexivity).
  unfold F32.ltb, SFltb, SFcompare.
  destruct s; rewrite Z.compare_refl, Pos.compare_cont_refl; reflexivity.
Qed.

Lemma sub_diag_finite :
  forall x : float, F32.is_finite x = true -> (x - x)%f32 = F32.zero.
Proof.
  intros [s|s| |s m e] Hfin; try discriminate.
  - destruct s; reflexivity.
  - unfold F32.sub, SFsub. rewrite Z.sub_diag. reflexivity.
Qed.

Lemma ltb_infinity_sub_false :
  forall (s : bool) (r : float),
    (S754_infinity s - r <? S754_infinity s)%f32 = false /\
    (S754_infinity s <? S754_infinity s + r)%f32 = false.
Proof.
  intros s r. destruct s, r as [sr|sr| |sr mr er];
    try destruct sr; split; reflexivity.
Qed.

Lemma tf2d_inside_intensity_finite :
  forall (self : Renderer) (g : float),
    tf2d_inside self (TF2DIntensity (m_config self)) g = true ->
    F32.is_finite (TF2DIntensity (m_config self)) = true.
Proof.
  intros self g Hin. unfold tf2d_inside in Hin.
  repeat (apply andb_true_iff in Hin; destruct Hin as [Hin ?]).
  destruct (TF2DIntensity (m_config self)) as [s|s| |s m e] eqn:HI;
    try reflexivity; exfalso.
  - unfold F32.gtb in *. fold F32.ltb in *.
    destruct s.
    + pose proof (proj2 (ltb_infinity_sub_false true (TF2DRadius (m_config self)))).
      congruence.
    + pose proof (proj1 (ltb_infinity_sub_false false (TF2DRadius (m_config self)))).
      congruence.
  - unfold F32.gtb in *. discriminate.
Qed.

(** C4, as the code has it: opacity 1 is returned on the vertical line
    through the apex (intensity [TF2DIntensity]) at the points that pass the
    strict inside-triangle test and whose horizontal distance to the edge is
    positive; at the apex itself, whenever one of the edge lines evaluated
    at the apex intensity gives back the apex magnitude (as it does in exact
    arithmetic), the strict test fails and the opacity is 0. *)
Theorem getTF2DOpacity_apex_line :
  forall (self : Renderer),
    let apexIntensity := TF2DIntensity (m_config self) in
    let apexGradientMagnitude := minMagnitude (m_pGradientVolume self) in
    (forall g : float,
       tf2d_inside self apexIntensity g = true ->
       (F32.zero <? tf2d_distancefromApex self apexIntensity g)%f32 = true ->
       getTF2DOpacity self apexIntensity g = F32.one) /\
    ((tf2d_m1 self * apexIntensity + tf2d_q1 self)%f32 = apexGradientMagnitude
     \/ (tf2d_m2 self * apexIntensity + tf2d_q2 self)%f32 = apexGradientMagnitude ->
     getTF2DOpacity self apexIntensity apexGradientMagnitude = F32.zero).
Proof.
  intros self apexIntensity apexGradientMagnitude. split.
  - intros g Hin Hdist.
    pose proof (tf2d_inside_intensity_finite self g Hin) as Hfin.
    unfold getTF2DOpacity. fold apexIntensity. rewrite Hin.
    rewrite (sub_diag_finite apexIntensity Hfin).
    destruct (tf2d_distancefromApex self apexIntensity g) as [s|s| |s m e];
      try discriminate; try (destruct s; discriminate); reflexivity.
  - intros Hedge. unfold getTF2DOpacity, tf2d_inside.
    fold apexIntensity apexGradientMagnitude. unfold F32.gtb. fold F32.ltb.
    destruct Hedge as [He|He]; rewrite He, ltb_irrefl.
    + reflexivity.
    + rewrite andb_false_r. reflexivity.
Qed.

(** ** Isosurface tracer, shading disabled *)

Section IsoUnshaded.
Context `{Platform}.
Variable self : Renderer.
Variable ray : Ray.
Variable sampleStep : float.

Local Abbreviation sample_of tp :=
  (getSampleInterpolate (m_pVolume self) (snd tp)).
Local Abbreviation advance := (sample_advance ray sampleStep).
Local Abbreviation iso := (isoValue (m_config self)).

Lemma iso_loop_hit :
  forall (k fuel : nat) (tp : float * vec3) (res : float),
    (k < fuel)%nat ->
    (forall j, (j <= k)%nat ->
       (fst (Nat.iter j advance tp) <=? tmax ray)%f32 = true) ->
    (sample_of (Nat.iter k advance tp) >? iso)%f32 = true ->
    exists st,
      run_loop (iso_guard ray) (iso_body self ray sampleStep) fuel
               (mkIsoState (fst tp) (snd tp) res) = Some st /\
      is_res st = F32.one.
Proof.
  induction k as [|k IH]; intros fuel tp res Hfuel Hrange Hhit;
    (destruct fuel as [|fuel]; [lia|]);
    pose proof (Hrange 0%nat ltac:(lia)) as Hguard; cbn in Hguard;
    cbn [run_loop]; unfold iso_guard at 1; cbn [is_t]; rewrite Hguard;
    unfold iso_body; cbn [is_t is_samplePos is_res].
  - cbn in Hhit. rewrite Hhit. eexists. split; reflexivity.
  - destruct (sample_of tp >? iso)%f32.
    + eexists. split; reflexivity.
    + apply (IH fuel (advance tp) res); [lia| |].
      * intros j Hj. rewrite <- Nat.iter_succ_r. apply Hrange. lia.
      * rewrite <- Nat.iter_succ_r. exact Hhit.
Qed.

Lemma iso_loop_miss :
  forall (n fuel : nat) (tp : float * vec3) (res : float),
    (n <= fuel)%nat ->
    (forall j, (j < n)%nat ->
       (fst (Nat.iter j advance tp) <=? tmax ray)%f32 = true /\
       (sample_of (Nat.iter j advance tp) >? iso)%f32 = false) ->
    (fst (Nat.iter n advance tp) <=? tmax ray)%f32 = false ->
    exists st,
      run_loop (iso_guard ray) (iso_body self ray sampleStep) fuel
               (mkIsoState (fst tp) (snd tp) res) = Some st /\
      is_res st = res.
Proof.
  induction n as [|n IH]; intros fuel tp res Hfuel Hbelow Hend.
  - cbn in Hend. destruct fuel; cbn [run_loop]; unfold iso_guard;
      cbn [is_t]; rewrite Hend; eexists; split; reflexivity.
  - destruct fuel as [|fuel]; [lia|].
    destruct (Hbelow 0%nat ltac:(lia)) as [Hguard Hval]. cbn in Hguard, Hval.
    cbn [run_loop]. unfold iso_guard at 1. cbn [is_t]. rewrite Hguard.
    unfold iso_body. cbn [is_t is_samplePos is_res]. rewrite Hval.
    apply (IH fuel (advance tp) res); [lia| |].
    + intros j Hj. rewrite <- !Nat.iter_succ_r. apply Hbelow. lia.
    + rewrite <- Nat.iter_succ_r. exact Hend.
Qed.
End IsoUnshaded.

(** C5, as the code has it: with volume shading disabled, a ray whose loop
    gets to a sample above the isovalue returns the yellow-green colour
    (0.8, 0.8, 0) with opacity 1; a ray whose loop ends after [n] samples,
    none of them above the isovalue, returns black with opacity 1, which is
    not the transparent black the frame buffer is cleared to. *)
Theorem traceRayISO_unshaded :
  forall `{Platform} (self : Renderer) (ray : Ray) (sampleStep : float),
    volumeShading (m_config self) = false ->
    (forall k fuel : nat,
       (k < fuel)%nat ->
       sample_in_range ray sampleStep k ->
       (getSampleInterpolate (m_pVolume self)
          (snd (sample_point ray sampleStep k))
        >? isoValue (m_config self))%f32 = true ->
       traceRayISO self fuel ray sampleStep
         = Some (Vec4 F32.c0_8 F32.c0_8 F32.zero F32.one)) /\
    (forall n fuel : nat,
       (n <= fuel)%nat ->
       (forall j, (j < n)%nat ->
          (fst (sample_point ray sampleStep j) <=? tmax ray)%f32 = true /\
          (getSampleInterpolate (m_pVolume self)
             (snd (sample_point ray sampleStep j))
           >? isoValue (m_config self))%f32 = false) ->
       (fst (sample_point ray sampleStep n) <=? tmax ray)%f32 = false ->
       traceRayISO self fuel ray sampleStep
         = Some (Vec4 F32.zero F32.zero F32.zero F32.one)).
Proof.
  intros P self ray sampleStep Hshading. split.
  - intros k fuel Hfuel Hrange Hhit.
    unfold traceRayISO. rewrite Hshading. cbn [negb].
    destruct (iso_loop_hit self ray sampleStep k fuel (sample_start ray)
                F32.zero Hfuel Hrange Hhit) as (st & Hrun & Hres).
    unfold iso_init. change (tmin ray) with (fst (sample_start ray)) at 1.
    change (glm.add3 (origin ray) (glm.smul3 (tmin ray) (direction ray)))
      with (snd (sample_start ray)).
    rewrite Hrun. cbn [option_map]. rewrite Hres. reflexivity.
  - intros n fuel Hfuel Hbelow Hend.
    unfold traceRayISO. rewrite Hshading. cbn [negb].
    destruct (iso_loop_miss self ray sampleStep n fuel (sample_start ray)
                F32.zero Hfuel Hbelow Hend) as (st & Hrun & Hres).
    unfold iso_init. change (tmin ray) with (fst (sample_start ray)) at 1.
    change (glm.add3 (origin ray) (glm.smul3 (tmin ray) (direction ray)))
      with (snd (sample_start ray)).
    rewrite Hrun. cbn [option_map]. rewrite Hres. reflexivity.
Qed.

(** ** The light vector of the shaded samples *)

(** *** Sign bits

    The sign of a product is the exclusive or of the signs of its factors,
    whatever the rounding does; sums, square roots and reciprocals of
    values that are not negative are not negative. *)













(** C1: with [gamma = 0] (of either sign) the Combined tracer returns what the
    MIDA tracer returns on the same ray and sample step, for every amount of
    fuel: both run out of fuel together, and otherwise give the same
    colour. *)
Theorem traceRayCombined_gamma_zero :
  forall `{Platform} (self : Renderer) (ray : Ray) (sampleStep : float)
         (fuel : nat),
    F32.eqb (gamma (m_config self)) F32.zero = true ->
    traceRayCombined self fuel ray sampleStep
    = traceRayMIDA self fuel ray sampleStep.
Proof.
  intros P self ray sampleStep fuel Hg.
  unfold traceRayCombined, traceRayMIDA.
  rewrite (run_loop_ext _ _ _ _
             (combined_body_gamma_zero self ray sampleStep Hg)).
  destruct (run_loop _ _ fuel (mida_init ray)) as [st|]; [|reflexivity].
  cbn [option_map]. f_equal. unfold combined_result.
  destruct (eqb_zero _ Hg) as [s Hs]. rewrite Hs.
  destruct s; reflexivity.
Qed.

(** ** Accumulated opacity *)

Section AccumulatedOpacity.
Context `{Platform}.
Variable self : Renderer.
Variable ray : Ray.
Variable sampleStep : float.

(** The transfer-function opacity of every sample is a number in [0, 1]. *)
Hypothesis opacities_in_unit_interval :
  forall pos : vec3,
    in_unit_interval
      (w4 (getTFValue self (getSampleInterpolate (m_pVolume self) pos)))
    = true.

Lemma composite_step_opacity :
  forall st st',
    in_unit_interval (cs_accumulatedOpacity st) = true ->
    loop_step (composite_guard ray) (composite_body self ray sampleStep)
              st st' ->
    in_unit_interval (cs_accumulatedOpacity st') = true /\
    (cs_accumulatedOpacity st <=? cs_accumulatedOpacity st')%f32 = true.
Proof.
  intros st st' Hst [_ Hbody].
  pose proof (composite_update (cs_accumulatedOpacity st) _ Hst
                (opacities_in_unit_interval (cs_samplePos st))) as Hup.
  unfold composite_body in Hbody.
  destruct (_ >=? F32.one)%f32 in Hbody;
    destruct Hbody as [Hb|Hb]; try discriminate;
    injection Hb as <-; exact Hup.
Qed.

Lemma composite_reaches_opacity :
  forall st,
    loop_reaches (composite_guard ray) (composite_body self ray sampleStep)
                 (composite_init ray) st ->
    in_unit_interval (cs_accumulatedOpacity st) = true.
Proof.
  apply loop_reaches_invariant; [reflexivity|].
  intros s s' Hs Hstep. apply (composite_step_opacity s s' Hs Hstep).
Qed.

(** The volume maximum is a positive number of the format, and every
    sample is a number of the format between 0 and the maximum. *)
Hypothesis maximum_positive :
  nonneg_finite (maximum (m_pVolume self)) = true /\
  (F32.zero <? maximum (m_pVolume self))%f32 = true.

Hypothesis samples_in_range :
  forall pos : vec3,
    nonneg_finite (getSampleInterpolate (m_pVolume self) pos) = true /\
    (getSampleInterpolate (m_pVolume self) pos
     <=? maximum (m_pVolume self))%f32 = true.

Lemma mida_step_opacity :
  forall st st',
    mida_invariant self st ->
    loop_step (mida_guard ray) (mida_body self ray sampleStep) st st' ->
    mida_invariant self st'.
Proof.
  intros st st' (Hst & Hmn & Hmle) [_ Hbody].
  unfold mida_body in Hbody.
  destruct Hbody as [Hb|Hb]; [|discriminate].
  injection Hb as <-. unfold mida_invariant.
  cbn [ms_accumulatedOpacity ms_maxVal].
  destruct (samples_in_range (ms_samplePos st)) as [Hvn Hvle].
  split.
  - apply mida_update.
    + apply one_minus_unit_interval.
      apply (mida_delta_unit_interval self maximum_positive); assumption.
    + exact Hst.
    + apply opacities_in_unit_interval.
  - unfold F32.std_max.
    match goal with
    | |- context [if ?c then _ else _] => destruct c
    end; split; assumption.
Qed.

Lemma mida_reaches_invariant :
  forall st,
    loop_reaches (mida_guard ray) (mida_body self ray sampleStep)
                 (mida_init ray) st ->
    mida_invariant self st.
Proof.
  intros st Hreach.
  apply (loop_reaches_invariant MidaState (mida_guard ray)
           (mida_body self ray sampleStep) (mida_invariant self)
           (mida_init ray));
    [| |exact Hreach].
  - destruct maximum_positive as [Hn Hlt].
    split; [reflexivity|]. split; [reflexivity|].
    cbn [mida_init ms_maxVal]. apply ltb_leb. exact Hlt.
  - intros s s' Hs Hstep. apply (mida_step_opacity s s' Hs Hstep).
Qed.
End AccumulatedOpacity.

(** C2, as the code has it: when the transfer-function opacity of every
    sample is a binary32 number in [0, 1], the accumulated opacity of the
    Composite tracer is in [0, 1] in every state its loop goes through and
    no iteration decreases it; the accumulated opacity of the MIDA tracer is
    in [0, 1] in every state its loop goes through, provided the samples lie
    between 0 and the (positive) volume maximum.  The MIDA update first
    scales the accumulated opacity by [beta = 1 - delta], so an iteration of
    the MIDA loop can decrease it. *)
Theorem accumulated_opacity_in_unit_interval :
  forall `{Platform} (self : Renderer) (ray : Ray) (sampleStep : float),
    (forall pos : vec3,
       in_unit_interval
         (w4 (getTFValue self (getSampleInterpolate (m_pVolume self) pos)))
       = true) ->
    (forall st,
       loop_reaches (composite_guard ray)
         (composite_body self ray sampleStep) (composite_init ray) st ->
       in_unit_interval (cs_accumulatedOpacity st) = true /\
       (forall st',
          loop_step (composite_guard ray)
            (composite_body self ray sampleStep) st st' ->
          in_unit_interval (cs_accumulatedOpacity st') = true /\
          (cs_accumulatedOpacity st <=? cs_accumulatedOpacity st')%f32
          = true)) /\
    (nonneg_finite (maximum (m_pVolume self)) = true /\
     (F32.zero <? maximum (m_pVolume self))%f32 = true ->
     (forall pos : vec3,
        nonneg_finite (getSampleInterpolate (m_pVolume self) pos) = true /\
        (getSampleInterpolate (m_pVolume self) pos
         <=? maximum (m_pVolume self))%f32 = true) ->
     forall st,
       loop_reaches (mida_guard ray) (mida_body self ray sampleStep)
         (mida_init ray) st ->
       in_unit_interval (ms_accumulatedOpacity st) = true /\
       (forall st',
          loop_step (mida_guard ray) (mida_body self ray sampleStep) st st' ->
          in_unit_interval (ms_accumulatedOpacity st') = true)).
Proof.
  intros P self ray sampleStep Hop. split.
  - intros st Hreach.
    pose proof (composite_reaches_opacity self ray sampleStep Hop st Hreach)
      as Hst.
    split; [exact Hst|]. intros st' Hstep.
    apply (composite_step_opacity self ray sampleStep Hop st st' Hst Hstep).
  - intros Hmax Hsamples st Hreach.
    pose proof (mida_reaches_invariant self ray sampleStep Hop Hmax Hsamples
                  st Hreach) as Hst.
    split; [exact (proj1 Hst)|]. intros st' Hstep.
    exact (proj1 (mida_step_opacity self ray sampleStep Hop Hmax Hsamples
                    st st' Hst Hstep)).
Qed.

Section OnX86_64.
#[local] Existing Instance Examples.x86_64.

(** C3 on the examples' platform: scalar 10 over the domain [0, 255] has
    index 10. *)
Lemma getTFValue_index_upper_clamp_witness :
  let self := Examples.renderer_of (Examples.flat_volume 0 100)
              (Examples.config_with Examples.white_table 0 255 F32.zero) in
  getTFValue_index self (F32.of_Z 10) = 10 /\
  (Z.to_nat (getTFValue_index self (F32.of_Z 10))
   < length (tfColorMap (m_config self)))%nat.
Proof.
  intros self.
  destruct (getTFValue_index_upper_clamp self (F32.of_Z 10))
    as (_ & Hbound & Hclamp).
  split.
  - apply (Hclamp 10); [reflexivity | unfold size_t_max; lia].
  - apply Hbound. reflexivity.
Defined.

(** C3 as stated fails: with the domain [0, 255], the scalar -10 lies below
    the domain start; its scaled value truncates to -10, the unsigned
    conversion of x86-64 wraps it to [2^64 - 10], and the upper clamp gives
    index 255, not 0. *)
Lemma getTFValue_index_below_start :
  let self := Examples.renderer_of (Examples.flat_volume 0 100)
              (Examples.config_with Examples.white_table 0 255 F32.zero) in
  (F32.of_Z (-10) <? tfColorMapIndexStart (m_config self))%f32 = true /\
  F32.trunc (getTFValue_range01 self (F32.of_Z (-10)) * F32.c256)%f32
  = Some (-10) /\
  getTFValue_index self (F32.of_Z (-10)) = 255 /\
  getTFValue_index self (F32.of_Z (-10)) <> Z.max 0 (Z.min (-10) 255).
Proof. repeat split; try reflexivity. vm_compute. discriminate. Qed.

(** C7 on a renderer whose domain range is 0 and whose table is opaque
    white throughout. *)
Lemma getTFValue_zero_range_returns_table_entry_witness :
  let self := Examples.renderer_of (Examples.flat_volume 0 100)
              (Examples.config_with Examples.white_table 0 0 F32.zero) in
  F32.is_finite (getTFValue_range01 self F32.one) = false /\
  0 <= getTFValue_index self F32.one <= 255 /\
  In (getTFValue self F32.one) (tfColorMap (m_config self)).
Proof.
  intros self.
  apply (getTFValue_zero_range_returns_table_entry self F32.one false);
    reflexivity.
Defined.

(** C7 as stated fails: with a zero domain range and a table that is opaque
    white throughout, the scalar 1 is classified as opaque white, opacity 1,
    not as a zero contribution. *)
Lemma getTFValue_zero_range_not_zero_contribution :
  let self := Examples.renderer_of (Examples.flat_volume 0 100)
              (Examples.config_with Examples.white_table 0 0 F32.zero) in
  tfColorMapIndexRange (m_config self) = F32.zero /\
  getTFValue_range01 self F32.one = F32.infinity /\
  getTFValue self F32.one = Vec4 F32.one F32.one F32.one F32.one /\
  w4 (getTFValue self F32.one) <> F32.zero.
Proof. repeat split; try reflexivity. vm_compute. discriminate. Qed.

(** C4 on the triangle with apex (100, 0), radius 10 and base magnitude 50:
    the point (100, 25) on the vertical line through the apex has opacity
    1, and the apex has opacity 0. *)
Lemma getTF2DOpacity_apex_line_witness :
  let self := Examples.renderer_of (Examples.flat_volume 0 100)
              (Examples.config_with Examples.white_table 0 255 F32.zero) in
  getTF2DOpacity self (F32.of_Z 100) (F32.of_Z 25) = F32.one /\
  getTF2DOpacity self (F32.of_Z 100) (F32.of_Z 0) = F32.zero.
Proof.
  intros self.
  destruct (getTF2DOpacity_apex_line self) as [Hline Hapex].
  split.
  - apply (Hline (F32.of_Z 25)); reflexivity.
  - apply Hapex. left. reflexivity.
Defined.

(** C4 as stated fails: for the triangle with apex intensity 100, radius 10
    and gradient magnitudes from 0 to 50, the sample exactly at the apex
    (100, 0) has opacity 0, not 1. *)
Lemma getTF2DOpacity_apex_is_zero :
  let self := Examples.renderer_of (Examples.flat_volume 0 100)
              (Examples.config_with Examples.white_table 0 255 F32.zero) in
  TF2DIntensity (m_config self) = F32.of_Z 100 /\
  minMagnitude (m_pGradientVolume self) = F32.of_Z 0 /\
  getTF2DOpacity self (F32.of_Z 100) (F32.of_Z 0) = F32.zero /\
  getTF2DOpacity self (F32.of_Z 100) (F32.of_Z 0) <> F32.one.
Proof. repeat split; try reflexivity. vm_compute. discriminate. Qed.

(** C5 on the ramp volume (scalar = x) with isovalue 95: the ray sampled at
    x = 94, 95, 96, ... returns the surface colour at its third sample; on
    the volume that is 0 everywhere the ray sampled at t = 0, 1, 2, 3
    returns opaque black. *)
Lemma traceRayISO_unshaded_witness :
  let cfg := Examples.config_with Examples.white_table 0 255 F32.zero in
  let ramp := Examples.renderer_of (Examples.ramp_volume 100) cfg in
  let flat := Examples.renderer_of (Examples.flat_volume 0 100) cfg in
  let ray_far :=
    mkRay (Examples.v3 0 0 0) (Examples.v3 1 0 0) (F32.of_Z 94) (F32.of_Z 99) in
  traceRayISO ramp 10 ray_far F32.one
  = Some (Vec4 F32.c0_8 F32.c0_8 F32.zero F32.one) /\
  traceRayISO flat 10 Examples.ray_x F32.one
  = Some (Vec4 F32.zero F32.zero F32.zero F32.one).
Proof.
  intros cfg ramp flat ray_far. split.
  - destruct (traceRayISO_unshaded ramp ray_far F32.one eq_refl) as [Hhit _].
    apply (Hhit 2%nat 10%nat); [lia | | reflexivity].
    intros j Hj. destruct j as [|[|[|j]]]; [reflexivity .. | lia].
  - destruct (traceRayISO_unshaded flat Examples.ray_x F32.one eq_refl)
      as [_ Hmiss].
    apply (Hmiss 4%nat 10%nat); [lia | | reflexivity].
    intros j Hj. destruct j as [|[|[|[|j]]]]; [split; reflexivity .. | lia].
Defined.

(** C5 as stated fails: on the volume that is 0 everywhere no sample
    exceeds the isovalue 95, and the tracer returns black with opacity 1;
    the cleared background is [vec4(0)], with opacity 0. *)
Lemma traceRayISO_miss_is_opaque :
  let flat := Examples.renderer_of (Examples.flat_volume 0 100)
              (Examples.config_with Examples.white_table 0 255 F32.zero) in
  volumeShading (m_config flat) = false /\
  (forall p : vec3,
     (getSampleInterpolate (m_pVolume flat) p >? isoValue (m_config flat))%f32
     = false) /\
  traceRayISO flat 10 Examples.ray_x F32.one
  = Some (Vec4 F32.zero F32.zero F32.zero F32.one) /\
  traceRayISO flat 10 Examples.ray_x F32.one <> Some (glm.splat4 F32.zero).
Proof.
  repeat split; try reflexivity. vm_compute. discriminate.
Qed.





(** C1 on the step volume with [gamma = 0]. *)
Lemma traceRayCombined_gamma_zero_witness :
  let self := Examples.renderer_of Examples.step_volume
                (Examples.config_with Examples.step_table 0 255 F32.zero) in
  traceRayCombined self 10 Examples.ray_x F32.one
  = traceRayMIDA self 10 Examples.ray_x F32.one.
Proof.
  intros self.
  apply (traceRayCombined_gamma_zero self Examples.ray_x F32.one 10).
  reflexivity.
Defined.

(** C2 on the step volume (scalar 0 for [x < 1/2], 1 elsewhere, maximum
    100) and the table that is opaque in its first entry and transparent
    elsewhere. *)
Lemma accumulated_opacity_in_unit_interval_witness :
  let self := Examples.renderer_of Examples.step_volume
                (Examples.config_with Examples.step_table 0 255 F32.zero) in
  (forall st,
     loop_reaches (composite_guard Examples.ray_x)
       (composite_body self Examples.ray_x F32.one)
       (composite_init Examples.ray_x) st ->
     in_unit_interval (cs_accumulatedOpacity st) = true) /\
  (forall st,
     loop_reaches (mida_guard Examples.ray_x)
       (mida_body self Examples.ray_x F32.one)
       (mida_init Examples.ray_x) st ->
     in_unit_interval (ms_accumulatedOpacity st) = true).
Proof.
  intros self.
  assert (Hop : forall pos : vec3,
            in_unit_interval
              (w4 (getTFValue self
                     (getSampleInterpolate (m_pVolume self) pos))) = true).
  { intros pos. cbn [self Examples.renderer_of m_pVolume Examples.step_volume
                     getSampleInterpolate].
    destruct (x3 pos <? Examples.half)%f32; reflexivity. }
  destruct (accumulated_opacity_in_unit_interval self Examples.ray_x F32.one Hop)
    as [Hcomposite Hmida].
  split.
  - intros st Hreach. exact (proj1 (Hcomposite st Hreach)).
  - intros st Hreach. refine (proj1 (Hmida _ _ st Hreach)).
    + split; reflexivity.
    + intros pos. cbn [self Examples.renderer_of m_pVolume Examples.step_volume
                       getSampleInterpolate maximum].
      destruct (x3 pos <? Examples.half)%f32; split; reflexivity.
Defined.

(** C2 as stated fails for the MIDA tracer.  On the step volume the ray
    along x first samples the scalar 0, which the table makes opaque: the
    accumulated opacity is 1.  The next sample is 1, a new maximum, which the
    table makes transparent: [delta] is [1/100], [beta] is [0.99] and the
    accumulated opacity drops to [0.99 * 1].  All opacities of the table
    are 0 or 1. *)
Lemma mida_opacity_decreases :
  let self := Examples.renderer_of Examples.step_volume
                (Examples.config_with Examples.step_table 0 255 F32.zero) in
  let guard := mida_guard Examples.ray_x in
  let body := mida_body self Examples.ray_x F32.one in
  (forall pos : vec3,
     in_unit_interval
       (w4 (getTFValue self (getSampleInterpolate (m_pVolume self) pos)))
     = true) /\
  exists st1 st2 : MidaState,
    loop_reaches guard body (mida_init Examples.ray_x) st1 /\
    loop_step guard body st1 st2 /\
    ms_accumulatedOpacity st1 = F32.one /\
    (ms_accumulatedOpacity st2 <? ms_accumulatedOpacity st1)%f32 = true /\
    (ms_accumulatedOpacity st1 <=? ms_accumulatedOpacity st2)%f32 = false.
Proof.
  intros self guard body. split.
  - intros pos. cbn [self Examples.renderer_of m_pVolume Examples.step_volume
                     getSampleInterpolate].
    destruct (x3 pos <? Examples.half)%f32; reflexivity.
  - pose (st0 := mida_init Examples.ray_x).
    destruct (body st0) as [st1|st1] eqn:H1; [|vm_compute in H1; discriminate].
    destruct (body st1) as [st2|st2] eqn:H2;
      [|vm_compute in H1; injection H1 as <-; vm_compute in H2; discriminate].
    exists st1, st2.
    assert (Hg0 : guard st0 = true) by reflexivity.
    assert (Hg1 : guard st1 = true)
      by (vm_compute in H1; injection H1 as <-; reflexivity).
    split; [|split; [|split; [|split]]].
    + exact (reaches_next guard body st0 st0 st1 (reaches_start _ _ _)
               Hg0 H1).
    + split; [exact Hg1 | left; exact H2].
    + vm_compute in H1. injection H1 as <-. reflexivity.
    + vm_compute in H1. injection H1 as <-.
      vm_compute in H2. injection H2 as <-. reflexivity.
    + vm_compute in H1. injection H1 as <-.
      vm_compute in H2. injection H2 as <-. reflexivity.
Qed.
End OnX86_64.

(** * Further properties *)

(** ** The order of the comparisons *)

Lemma compare_finite :
  forall s1 m1 e1 s2 m2 e2,
    SFcompare (S754_finite s1 m1 e1) (S754_finite s2 m2 e2) =
    Some match s1, s2 with
         | true, false => Lt
         | false, true => Gt
         | false, false =>
             match e1 ?= e2 with
             | Lt => Lt | Gt => Gt | Eq => (m1 ?= m2)%positive
             end
         | true, true =>
             match e1 ?= e2 with
             | Lt => Gt | Gt => Lt | Eq => CompOpp (m1 ?= m2)%positive
             end
         end.
Proof. intros. reflexivity. Qed.

Ltac order_cases :=
  repeat match goal with
         | H : context [(?a ?= ?b)%Z] |- _ =>
             destruct (Z.compare_spec a b); try subst
         | |- context [(?a ?= ?b)%Z] =>
             destruct (Z.compare_spec a b); try subst
         | H : context [(?a ?= ?b)%positive] |- _ =>
             destruct (Pos.compare_spec a b); try subst
         | |- context [(?a ?= ?b)%positive] =>
             destruct (Pos.compare_spec a b); try subst
         end;
  cbn in *; try reflexivity; try discriminate; try lia.

Ltac order_by_cases x y :=
  unfold F32.geb, F32.gtb, F32.leb, F32.ltb, SFleb, SFltb, F32.isnan;
  destruct x as [[|]|[|]| |[|] ? ?], y as [[|]|[|]| |[|] ? ?];
  rewrite ?compare_finite; cbn; intros;
  try reflexivity; try discriminate; order_cases.

Lemma leb_trans :
  forall x y z : float,
    (x <=? y)%f32 = true -> (y <=? z)%f32 = true -> (x <=? z)%f32 = true.
Proof.
  intros x y z. unfold F32.leb, SFleb.
  destruct x as [sx|sx| |sx mx ex], y as [sy|sy| |sy my ey],
           z as [sz|sz| |sz mz ez];
    rewrite ?compare_finite;
    try (destruct sx); try (destruct sy); try (destruct sz);
    cbn; intros Hxy Hyz; try reflexivity; try discriminate;
    order_cases.
Qed.

Lemma leb_refl :
  forall x : float, F32.isnan x = false -> (x <=? x)%f32 = true.
Proof.
  intros x. unfold F32.leb, SFleb, F32.isnan.
  destruct x as [[|]|[|]| |[|] m e]; rewrite ?compare_finite; cbn; intros;
    try reflexivity; try discriminate;
    rewrite Z.compare_refl, Pos.compare_refl; reflexivity.
Qed.

(** Among numbers, [x < y] fails exactly when [y <= x]. *)
Lemma ltb_false_leb :
  forall x y : float,
    F32.isnan x = false -> F32.isnan y = false ->
    (x <? y)%f32 = false -> (y <=? x)%f32 = true.
Proof. intros x y. order_by_cases x y. Qed.

Lemma leb_ltb_false :
  forall x y : float, (x <=? y)%f32 = true -> (y <? x)%f32 = false.
Proof. intros x y. order_by_cases x y. Qed.

Lemma leb_not_nan :
  forall x y : float,
    (x <=? y)%f32 = true -> F32.isnan x = false /\ F32.isnan y = false.
Proof. intros x y. order_by_cases x y; split; reflexivity. Qed.

Lemma ltb_nan :
  forall x : float,
    (S754_nan <? x)%f32 = false /\ (x <? S754_nan)%f32 = false.
Proof. intros [s|s| |s m e]; split; reflexivity. Qed.

Lemma isnan_nan : forall x : float, F32.isnan x = true -> x = S754_nan.
Proof. intros [s|s| |s m e] H; (reflexivity || discriminate). Qed.

(** [std::max] and [std::min] of two numbers. *)
Lemma std_max_spec :
  forall a b : float,
    F32.isnan a = false -> F32.isnan b = false ->
    (F32.std_max a b = a \/ F32.std_max a b = b) /\
    (a <=? F32.std_max a b)%f32 = true /\
    (b <=? F32.std_max a b)%f32 = true.
Proof.
  intros a b Ha Hb. unfold F32.std_max.
  destruct (a <? b)%f32 eqn:Hlt.
  - split; [right; reflexivity|]. split.
    + apply ltb_leb. exact Hlt.
    + apply leb_refl. exact Hb.
  - split; [left; reflexivity|]. split.
    + apply leb_refl. exact Ha.
    + apply ltb_false_leb; assumption.
Qed.

Lemma std_min_spec :
  forall a b : float,
    F32.isnan a = false -> F32.isnan b = false ->
    (F32.std_min a b = a \/ F32.std_min a b = b) /\
    (F32.std_min a b <=? a)%f32 = true /\
    (F32.std_min a b <=? b)%f32 = true.
Proof.
  intros a b Ha Hb. unfold F32.std_min.
  destruct (b <? a)%f32 eqn:Hlt.
  - split; [right; reflexivity|]. split.
    + apply ltb_leb. exact Hlt.
    + apply leb_refl. exact Hb.
  - split; [left; reflexivity|]. split.
    + apply leb_refl. exact Ha.
    + apply ltb_false_leb; assumption.
Qed.

(** ** More arithmetic in the unit interval *)

Lemma in_unit_interval_nonneg_finite :
  forall x : float, in_unit_interval x = true -> nonneg_finite x = true.
Proof. intros x Hx. apply in_unit_interval_spec in Hx. apply Hx. Qed.

Lemma nonneg_finite_valid :
  forall x : float, nonneg_finite x = true -> F32.valid x = true.
Proof.
  intros x Hx. unfold nonneg_finite in Hx.
  apply andb_true_iff in Hx. apply Hx.
Qed.

(** [r * o <= r] for [r], [o] in [0, 1]. *)
Lemma mul_unit_interval_l :
  forall r o : float,
    in_unit_interval r = true -> in_unit_interval o = true ->
    in_unit_interval (r * o)%f32 = true /\
    value_of (r * o)%f32 <= value_of r.
Proof.
  intros r o Hr Ho.
  destruct (mul_unit_interval r o Hr Ho) as [Hp _]. split; [exact Hp|].
  apply in_unit_interval_spec in Hr. destruct Hr as [Hrn HrU].
  apply in_unit_interval_spec in Ho. destruct Ho as [Hon HoU].
  pose proof (value_of_nonneg o Hon) as Ho0.
  pose proof (value_of_nonneg r Hrn) as Hr0.
  destruct unit_value_facts as (HU0 & HU2 & H274 & H274U).
  destruct (mul_value r o Hrn Hon ltac:(nia)) as (P & HP & HP0 & _ & HW).
  rewrite HW. assert (HPr : P <= value_of r) by nia.
  destruct (Z.eq_dec P 0) as [->|Hne]; [rewrite round_value_0; lia|].
  destruct (value_of_nonneg_finite _ Hrn) as [H0|[Hpos Hrep]]; [lia|].
  apply round_value_le_representable; (lia || assumption).
Qed.

(** Adding to [a] something that is at most the computed [1 - a] stays in
    [0, 1] and does not go below [a]. *)
Lemma add_within_complement :
  forall a y : float,
    in_unit_interval a = true -> nonneg_finite y = true ->
    value_of y <= value_of (F32.one - a)%f32 ->
    in_unit_interval (a + y)%f32 = true /\
    (a <=? a + y)%f32 = true /\
    value_of (a + y)%f32 = round_value (value_of a + value_of y).
Proof.
  intros a y Ha Hyn Hy.
  apply in_unit_interval_spec in Ha. destruct Ha as [Han HaU].
  pose proof (value_of_nonneg a Han) as Ha0.
  pose proof (value_of_nonneg y Hyn) as Hy0.
  destruct unit_value_facts as (HU0 & HU2 & H274 & H274U).
  destruct (sub_value F32.one a nonneg_finite_one Han
              ltac:(rewrite value_of_one; lia) ltac:(rewrite value_of_one; lia))
    as [Hrn HrW].
  rewrite value_of_one in HrW.
  assert (Hrerr : value_of (F32.one - a)%f32
                  <= unit_value - value_of a + 2 ^ 275).
  { rewrite HrW. apply round_value_error_below_unit; lia. }
  destruct (add_value a y Han Hyn ltac:(lia)) as [Hsn HsW].
  assert (HsU : value_of (a + y)%f32 <= unit_value).
  { rewrite HsW. apply round_value_le_unit; lia. }
  assert (Hsa : value_of a <= value_of (a + y)%f32).
  { rewrite HsW. destruct (value_of_nonneg_finite a Han) as [H0|[Hpos Hrep]].
    - rewrite H0. apply round_value_nonneg. lia.
    - apply representable_le_round_value; (lia || assumption). }
  split; [|split].
  - apply in_unit_interval_spec. split; assumption.
  - apply (leb_value a _ Han Hsn). exact Hsa.
  - exact HsW.
Qed.

(** The update [a + (1 - a) * o * c] of [traceRayTF2D]. *)
Lemma tf2d_update :
  forall a o c : float,
    in_unit_interval a = true -> in_unit_interval o = true ->
    in_unit_interval c = true ->
    in_unit_interval (a + (F32.one - a) * o * c)%f32 = true /\
    (a <=? a + (F32.one - a) * o * c)%f32 = true.
Proof.
  intros a o c Ha Ho Hc.
  pose proof (one_minus_unit_interval a Ha) as Hr.
  destruct (mul_unit_interval_l _ o Hr Ho) as [Hp HpW].
  destruct (mul_unit_interval_l _ c Hp Hc) as [Hq HqW].
  destruct (add_within_complement a ((F32.one - a) * o * c)%f32 Ha
              (in_unit_interval_nonneg_finite _ Hq) ltac:(lia))
    as (H1 & H2 & _).
  split; assumption.
Qed.

(** A number of [0, 1] that is at least 1 is [1.0f]. *)
Lemma in_unit_interval_geb_one :
  forall a : float,
    in_unit_interval a = true -> (a >=? F32.one)%f32 = true -> a = F32.one.
Proof.
  intros a Ha Hge. unfold in_unit_interval in Ha.
  apply andb_true_iff in Ha. destruct Ha as [Ha Hle].
  apply andb_true_iff in Ha. destruct Ha as [Hv _].
  unfold F32.geb in Hge. fold F32.leb in Hge.
  destruct a as [s|s| |s m e]; try discriminate;
    try (destruct s; discriminate).
  unfold F32.leb, SFleb, F32.one in *. rewrite compare_finite in Hle, Hge.
  destruct s; [discriminate|].
  destruct (Z.compare_spec e (-23)); try discriminate;
    destruct (Z.compare_spec (-23) e); try discriminate; try lia.
  subst e.
  rewrite (Pos.compare_antisym m 8388608) in Hge.
  destruct (m ?= 8388608)%positive eqn:Hm; try discriminate.
  apply Pos.compare_eq in Hm. subst m. reflexivity.
Qed.

(** ** The frame buffer *)

Lemma list_set_length :
  forall (A : Type) (l : list A) (i : nat) (x : A),
    length (list_set l i x) = length l.
Proof.
  induction l as [|y l IH]; intros [|i] x; cbn; try reflexivity.
  rewrite IH. reflexivity.
Qed.

Lemma list_set_nth_same :
  forall (A : Type) (l : list A) (i : nat) (x d : A),
    (i < length l)%nat -> nth i (list_set l i x) d = x.
Proof.
  induction l as [|y l IH]; intros [|i] x d Hi; cbn in *; try lia.
  - reflexivity.
  - apply IH. lia.
Qed.

Lemma list_set_nth_other :
  forall (A : Type) (l : list A) (i j : nat) (x d : A),
    i <> j -> nth j (list_set l i x) d = nth j l d.
Proof.
  induction l as [|y l IH]; intros [|i] [|j] x d Hij; cbn; try reflexivity.
  - lia.
  - apply IH. lia.
Qed.

Lemma vector_resize_length :
  forall (A : Type) (v : list A) (n : Z) (x : A),
    length (vector_resize v n x) = Z.to_nat n.
Proof.
  intros A v n x. unfold vector_resize.
  rewrite length_app, length_firstn, repeat_length. lia.
Qed.

Lemma vector_resize_nth_old :
  forall (A : Type) (v : list A) (n : Z) (x d : A) (i : nat),
    (i < length v)%nat -> (i < Z.to_nat n)%nat ->
    nth i (vector_resize v n x) d = nth i v d.
Proof.
  intros A v n x d i Hv Hn. unfold vector_resize.
  rewrite app_nth1 by (rewrite length_firstn; lia).
  rewrite <- (firstn_skipn (Z.to_nat n) v) at 2.
  rewrite app_nth1 by (rewrite length_firstn; lia). reflexivity.
Qed.

Lemma vector_resize_nth_new :
  forall (A : Type) (v : list A) (n : Z) (x d : A) (i : nat),
    (length v <= i)%nat -> (i < Z.to_nat n)%nat ->
    nth i (vector_resize v n x) d = x.
Proof.
  intros A v n x d i Hv Hn. unfold vector_resize.
  rewrite app_nth2 by (rewrite length_firstn; lia).
  rewrite length_firstn. apply nth_repeat_lt. lia.
Qed.

(** The size of the image of a resolution. *)
Lemma image_size :
  forall W H : Z,
    0 <= W <= int_max -> 0 <= H <= int_max ->
    size_t_mul (size_t_of_int W) (size_t_of_int H) = W * H.
Proof.
  intros W H HW HH. unfold size_t_mul, size_t_of_int, int_max in *.
  rewrite (Z.mod_small W), (Z.mod_small H) by lia.
  apply Z.mod_small. split; [nia|].
  assert (W * H <= (2 ^ 31 - 1) * (2 ^ 31 - 1)) by nia. lia.
Qed.

Lemma resizeImage_size_ok :
  forall (this : RendererObject) (resolution : Z * Z),
    resolution_ok resolution ->
    Z.of_nat (length (m_frameBuffer (resizeImage this resolution)))
    = fst resolution * snd resolution.
Proof.
  intros this [W H] [HW HH]. cbn [fst snd] in *.
  unfold resizeImage. cbn [m_frameBuffer fst snd].
  rewrite (image_size W H HW HH), vector_resize_length. nia.
Qed.

Lemma fillColor_index :
  forall (this : RendererObject) (x y : Z) (color : vec4),
    let W := fst (renderResolution (m_config (members this))) in
    let H := snd (renderResolution (m_config (members this))) in
    0 <= x < W -> 0 <= y < H -> W * H <= int_max ->
    frame_buffer_ok this ->
    fillColor this x y color
    = Some (mkRendererObject (members this)
              (list_set (m_frameBuffer this) (Z.to_nat (W * y + x)) color))
    /\ (Z.to_nat (W * y + x) < length (m_frameBuffer this))%nat.
Proof.
  intros this x y color W H Hx Hy Hmax Hok.
  unfold frame_buffer_ok in Hok. fold W H in Hok.
  assert (Hidx : 0 <= W * y + x < W * H) by nia.
  assert (Hprod : 0 <= W * y <= int_max) by nia.
  unfold fillColor. fold W.
  unfold int_mul, int_add, in_int, int_min, int_max in *.
  replace ((- 2 ^ 31 <=? W * y) && (W * y <=? 2 ^ 31 - 1)) with true
    by (symmetry; apply andb_true_iff; split; apply Z.leb_le; lia).
  replace ((- 2 ^ 31 <=? W * y + x) && (W * y + x <=? 2 ^ 31 - 1)) with true
    by (symmetry; apply andb_true_iff; split; apply Z.leb_le; lia).
  unfold vector_set, size_t_of_int.
  rewrite (Z.mod_small (W * y + x)) by lia.
  replace (W * y + x <? Z.of_nat (length (m_frameBuffer this))) with true
    by (symmetry; apply Z.ltb_lt; lia).
  split; [reflexivity | lia].
Qed.

(** X3: A pixel written by [fillColor] is read back, and the other pixels of the
    image are left alone: for a frame buffer that fits the resolution and a
    pixel [(x, y)] inside it, [fillColor] is defined, stores the colour at
    [(x, y)] and changes neither the members, nor the size of the buffer,
    nor any other pixel. *)
Theorem fillColor_round_trip :
  forall (this : RendererObject) (x y : Z) (color : vec4),
    let W := fst (renderResolution (m_config (members this))) in
    let H := snd (renderResolution (m_config (members this))) in
    0 <= x < W -> 0 <= y < H -> W * H <= int_max ->
    frame_buffer_ok this ->
    exists this' : RendererObject,
      fillColor this x y color = Some this' /\
      members this' = members this /\
      frame_buffer_ok this' /\
      pixel this' x y = color /\
      (forall x' y' : Z,
         0 <= x' < W -> 0 <= y' < H -> (x', y') <> (x, y) ->
         pixel this' x' y' = pixel this x' y').
Proof.
  intros this x y color W H Hx Hy Hmax Hok.
  destruct (fillColor_index this x y color Hx Hy Hmax Hok) as [Hfill Hlt].
  fold W in Hfill, Hlt.
  eexists. split; [exact Hfill|]. cbn [members m_frameBuffer].
  split; [reflexivity|]. split; [|split].
  - unfold frame_buffer_ok in *. cbn [members m_frameBuffer].
    rewrite list_set_length. exact Hok.
  - unfold pixel. cbn [members m_frameBuffer]. fold W.
    apply list_set_nth_same. exact Hlt.
  - intros x' y' Hx' Hy' Hne. unfold pixel. cbn [members m_frameBuffer].
    fold W. apply list_set_nth_other.
    intros Heq. apply Hne.
    assert (HZ : W * y + x = W * y' + x') by nia.
    assert (y = y') by nia. subst y'. f_equal. lia.
Qed.

(** X2: [resizeImage] does not clear the image: the buffer gets the size of the
    new resolution, the colours it held at the indices that remain are kept,
    and only the entries added at its end are transparent black. *)
Theorem resizeImage_keeps_old_colours :
  forall (this : RendererObject) (resolution : Z * Z),
    resolution_ok resolution ->
    let this' := resizeImage this resolution in
    members this' = members this /\
    Z.of_nat (length (m_frameBuffer this'))
    = fst resolution * snd resolution /\
    (forall i : nat,
       Z.of_nat i < fst resolution * snd resolution ->
       nth i (m_frameBuffer this') (glm.splat4 F32.zero)
       = if (i <? length (m_frameBuffer this))%nat
         then nth i (m_frameBuffer this) (glm.splat4 F32.zero)
         else glm.splat4 F32.zero).
Proof.
  intros this [W H] [HW HH] this'. cbn [fst snd] in *.
  unfold this', resizeImage. cbn [members m_frameBuffer fst snd].
  rewrite (image_size W H HW HH).
  split; [reflexivity|]. split.
  - rewrite vector_resize_length. nia.
  - intros i Hi. destruct (i <? length (m_frameBuffer this))%nat eqn:Hold.
    + apply Nat.ltb_lt in Hold. apply vector_resize_nth_old; lia.
    + apply Nat.ltb_ge in Hold. apply vector_resize_nth_new; lia.
Qed.

(** X1: The frame buffer holds one colour per pixel of the configured
    resolution after the constructor, and [setConfig], [resetImage] and
    [fillColor] keep it so; [setConfig] installs the new configuration and
    leaves the other members alone. *)
Theorem frame_buffer_fits_resolution :
  (forall (pVolume : Volume) (pGradientVolume : GradientVolume)
          (pCamera : RayTraceCamera) (initialConfig : RenderConfig),
     resolution_ok (renderResolution initialConfig) ->
     frame_buffer_ok
       (Renderer_new pVolume pGradientVolume pCamera initialConfig)) /\
  (forall (this : RendererObject) (config : RenderConfig),
     frame_buffer_ok this ->
     resolution_ok (renderResolution config) ->
     frame_buffer_ok (setConfig this config) /\
     m_config (members (setConfig this config)) = config /\
     m_pVolume (members (setConfig this config)) = m_pVolume (members this) /\
     m_pGradientVolume (members (setConfig this config))
     = m_pGradientVolume (members this) /\
     m_pCamera (members (setConfig this config))
     = m_pCamera (members this)) /\
  (forall this : RendererObject,
     frame_buffer_ok this -> frame_buffer_ok (resetImage this)) /\
  (forall (this this' : RendererObject) (x y : Z) (color : vec4),
     frame_buffer_ok this -> fillColor this x y color = Some this' ->
     frame_buffer_ok this').
Proof.
  split; [|split; [|split]].
  - intros v g c cfg Hres. unfold frame_buffer_ok, Renderer_new.
    apply (resizeImage_size_ok _ _ Hres).
  - intros this cfg Hok Hres. unfold setConfig.
    destruct (ivec2_neq _ _) eqn:Hneq.
    + cbn [members m_frameBuffer m_config m_pVolume m_pGradientVolume
           m_pCamera resizeImage].
      repeat split. unfold frame_buffer_ok. cbn [members m_frameBuffer m_config].
      apply (resizeImage_size_ok this _ Hres).
    + cbn [members m_frameBuffer m_config m_pVolume m_pGradientVolume
           m_pCamera].
      repeat split. unfold frame_buffer_ok in *.
      cbn [members m_frameBuffer m_config].
      unfold ivec2_neq in Hneq. apply orb_false_iff in Hneq.
      destruct Hneq as [H1 H2].
      apply negb_false_iff in H1, H2. apply Z.eqb_eq in H1, H2.
      rewrite H1, H2. exact Hok.
  - intros this Hok. unfold frame_buffer_ok, resetImage in *.
    cbn [members m_frameBuffer]. rewrite length_map. exact Hok.
  - intros this this' x y color Hok Hfill. unfold fillColor in Hfill.
    destruct (int_mul _ y) as [p|]; [|discriminate].
    destruct (int_add p x) as [i|]; [|discriminate].
    unfold vector_set in Hfill.
    destruct (_ <? _); [|discriminate].
    cbn [option_map] in Hfill. injection Hfill as <-.
    unfold frame_buffer_ok in *. cbn [members m_frameBuffer].
    rewrite list_set_length. exact Hok.
Qed.

(** ** Loops that take every step *)

Lemma run_loop_counted :
  forall (St : Type) (guard : St -> bool) (body : St -> step_result St)
         (step : St -> St),
    (forall s, body s = Continue (step s)) ->
    forall (n fuel : nat) (s : St),
      (n <= fuel)%nat ->
      (forall j, (j < n)%nat -> guard (Nat.iter j step s) = true) ->
      guard (Nat.iter n step s) = false ->
      run_loop guard body fuel s = Some (Nat.iter n step s).
Proof.
  intros St guard body step Hbody.
  induction n as [|n IH]; intros fuel s Hfuel Hin Hout.
  - cbn in Hout. destruct fuel; cbn [run_loop]; rewrite Hout; reflexivity.
  - destruct fuel as [|fuel]; [lia|].
    pose proof (Hin 0%nat ltac:(lia)) as Hg. cbn in Hg.
    cbn [run_loop]. rewrite Hg, Hbody.
    rewrite Nat.iter_succ_r. apply IH; [lia| |].
    + intros j Hj. rewrite <- Nat.iter_succ_r. apply Hin. lia.
    + rewrite <- Nat.iter_succ_r. exact Hout.
Qed.

(** A run that takes every step ends after the number of steps at which
    the guard first fails, whatever fuel it had. *)
Lemma run_loop_counted_inv :
  forall (St : Type) (guard : St -> bool) (body : St -> step_result St)
         (step : St -> St),
    (forall s, body s = Continue (step s)) ->
    forall (fuel : nat) (s s' : St),
      run_loop guard body fuel s = Some s' ->
      exists n : nat,
        (n <= fuel)%nat /\ s' = Nat.iter n step s /\
        (forall j, (j < n)%nat -> guard (Nat.iter j step s) = true) /\
        guard (Nat.iter n step s) = false.
Proof.
  intros St guard body step Hbody.
  induction fuel as [|fuel IH]; intros s s' Hrun; cbn [run_loop] in Hrun;
    destruct (guard s) eqn:Hg; try discriminate.
  - injection Hrun as <-. exists 0%nat. cbn. repeat split; [lia | | exact Hg].
    intros j Hj. lia.
  - rewrite Hbody in Hrun. destruct (IH _ _ Hrun) as (n & Hn & Hs' & Hin & Hout).
    exists (S n). rewrite Nat.iter_succ_r.
    split; [lia|]. split; [exact Hs'|]. split; [|exact Hout].
    intros [|j] Hj; [exact Hg|].
    rewrite Nat.iter_succ_r. apply Hin. lia.
  - injection Hrun as <-. exists 0%nat. cbn. repeat split; [lia | | exact Hg].
    intros j Hj. lia.
Qed.

(** ** Rays whose sampling ends

    A tracer returns when the parameter [t], which starts at [tmin] and
    grows by [sampleStep] in every iteration that stays in the loop, gets
    beyond [tmax] after [n] samples; a loop that leaves earlier through a
    [break] returns as well. *)

Lemma run_loop_terminates :
  forall (St : Type) (guard : St -> bool) (body : St -> step_result St)
         (at_sample : nat -> St -> Prop) (n : nat),
    (forall k s s',
       at_sample k s -> body s = Continue s' -> at_sample (S k) s') ->
    (forall s, at_sample n s -> guard s = false) ->
    forall (fuel k : nat) (s : St),
      (k <= n)%nat -> (n <= k + fuel)%nat -> at_sample k s ->
      exists s', run_loop guard body fuel s = Some s'.
Proof.
  intros St guard body at_sample n Hstep Hend.
  induction fuel as [|fuel IH]; intros k s Hk Hfuel Hs.
  - assert (k = n) by lia. subst k.
    cbn [run_loop]. rewrite (Hend s Hs). exists s. reflexivity.
  - cbn [run_loop]. destruct (guard s) eqn:Hg; [|exists s; reflexivity].
    destruct (body s) as [s'|s'] eqn:Hb; [|exists s'; reflexivity].
    assert (k <> n)
      by (intros ->; rewrite (Hend s Hs) in Hg; discriminate Hg).
    apply (IH (S k)); [lia | lia |].
    apply (Hstep k s s' Hs Hb).
Qed.

Lemma sample_point_succ_fst :
  forall (ray : Ray) (sampleStep : float) (k : nat),
    fst (sample_point ray sampleStep (S k))
    = (fst (sample_point ray sampleStep k) + sampleStep)%f32.
Proof. intros ray sampleStep k. reflexivity. Qed.

Section SamplingEnds.
Context `{Platform}.
Variable self : Renderer.
Variable ray : Ray.
Variable sampleStep : float.
Variables n fuel : nat.
Hypothesis Hfuel : (n <= fuel)%nat.
Hypothesis Hend : samples_end_at ray sampleStep n.

Lemma traceRayComposite_returns :
  exists c : vec4, traceRayComposite self fuel ray sampleStep = Some c.
Proof.
  destruct (run_loop_terminates _ (composite_guard ray)
              (composite_body self ray sampleStep)
              (fun k st => cs_t st = fst (sample_point ray sampleStep k)) n)
    with (fuel := fuel) (k := 0%nat) (s := composite_init ray)
    as [st Hrun]; [| | lia | lia | reflexivity |].
  - intros k s s' Hs Hbody. unfold composite_body in Hbody.
    destruct (_ >=? F32.one)%f32 in Hbody; [discriminate Hbody|].
    injection Hbody as <-. cbn [cs_t].
    rewrite sample_point_succ_fst, Hs. reflexivity.
  - intros s Hs. unfold composite_guard. rewrite Hs. exact (proj2 Hend).
  - unfold traceRayComposite. rewrite Hrun. eexists. reflexivity.
Qed.

Lemma traceRayMIDA_returns :
  exists c : vec4, traceRayMIDA self fuel ray sampleStep = Some c.
Proof.
  destruct (run_loop_terminates _ (mida_guard ray)
              (mida_body self ray sampleStep)
              (fun k st => ms_t st = fst (sample_point ray sampleStep k)) n)
    with (fuel := fuel) (k := 0%nat) (s := mida_init ray)
    as [st Hrun]; [| | lia | lia | reflexivity |].
  - intros k s s' Hs Hbody. unfold mida_body in Hbody.
    injection Hbody as <-. cbn [ms_t].
    rewrite sample_point_succ_fst, Hs. reflexivity.
  - intros s Hs. unfold mida_guard. rewrite Hs. exact (proj2 Hend).
  - unfold traceRayMIDA. rewrite Hrun. eexists. reflexivity.
Qed.

Lemma traceRayCombined_returns :
  exists c : vec4, traceRayCombined self fuel ray sampleStep = Some c.
Proof.
  destruct (run_loop_terminates _ (mida_guard ray)
              (combined_body self ray sampleStep)
              (fun k st => ms_t st = fst (sample_point ray sampleStep k)) n)
    with (fuel := fuel) (k := 0%nat) (s := mida_init ray)
    as [st Hrun]; [| | lia | lia | reflexivity |].
  - intros k s s' Hs Hbody. unfold combined_body in Hbody.
    injection Hbody as <-. cbn [ms_t].
    rewrite sample_point_succ_fst, Hs. reflexivity.
  - intros s Hs. unfold mida_guard. rewrite Hs. exact (proj2 Hend).
  - unfold traceRayCombined. rewrite Hrun. eexists. reflexivity.
Qed.

Lemma traceRayTF2D_returns :
  exists c : vec4, traceRayTF2D self fuel ray sampleStep = Some c.
Proof.
  destruct (run_loop_terminates _ (tf2d_guard ray)
              (tf2d_body self ray sampleStep)
              (fun k st => tf_t st = fst (sample_point ray sampleStep k)) n)
    with (fuel := fuel) (k := 0%nat) (s := tf2d_init ray)
    as [st Hrun]; [| | lia | lia | reflexivity |].
  - intros k s s' Hs Hbody. unfold tf2d_body in Hbody.
    destruct (_ >=? F32.one)%f32 in Hbody; [discriminate Hbody|].
    injection Hbody as <-. cbn [tf_t].
    rewrite sample_point_succ_fst, Hs. reflexivity.
  - intros s Hs. unfold tf2d_guard. rewrite Hs. exact (proj2 Hend).
  - unfold traceRayTF2D. rewrite Hrun. eexists. reflexivity.
Qed.
End SamplingEnds.

(** ** Maximum intensity projection *)

Section MIP.
Variable self : Renderer.
Variable ray : Ray.
Variable sampleStep : float.

Lemma ray_samples_succ :
  forall n,
    ray_samples self ray sampleStep (S n)
    = ray_samples self ray sampleStep n ++ [ray_sample self ray sampleStep n].
Proof.
  intros n. unfold ray_samples. rewrite seq_S, map_app. reflexivity.
Qed.

Lemma mip_iter :
  forall j : nat,
    Nat.iter j (mip_step self ray sampleStep) (mip_init ray)
    = mkMipState (fst (sample_point ray sampleStep j))
        (snd (sample_point ray sampleStep j))
        (running_max F32.zero (ray_samples self ray sampleStep j)).
Proof.
  induction j as [|j IH]; [reflexivity|].
  rewrite Nat.iter_succ, IH. unfold mip_step, mip_body.
  cbn [mip_t mip_samplePos mip_maxVal].
  rewrite ray_samples_succ. unfold running_max. rewrite fold_left_app.
  reflexivity.
Qed.

Lemma traceRayMIP_run :
  forall n fuel : nat,
    (n <= fuel)%nat -> samples_end_at ray sampleStep n ->
    traceRayMIP self fuel ray sampleStep
    = Some (mip_result self
              (running_max F32.zero (ray_samples self ray sampleStep n))).
Proof.
  intros n fuel Hfuel [Hin Hout]. unfold traceRayMIP.
  rewrite (run_loop_counted _ (mip_guard ray) (mip_body self ray sampleStep)
             (mip_step self ray sampleStep) (fun s => eq_refl) n fuel _ Hfuel).
  - rewrite mip_iter. reflexivity.
  - intros j Hj. rewrite mip_iter. apply Hin. exact Hj.
  - rewrite mip_iter. exact Hout.
Qed.
End MIP.

Lemma running_max_numbers :
  forall (vals : list float) (m0 : float),
    F32.isnan m0 = false ->
    (forall v, In v vals -> F32.isnan v = false) ->
    let m := running_max m0 vals in
    (m = m0 \/ In m vals) /\
    (m0 <=? m)%f32 = true /\
    (forall v, In v vals -> (v <=? m)%f32 = true).
Proof.
  induction vals as [|v vals IH]; intros m0 Hm0 Hvals; cbn zeta.
  - cbn. split; [left; reflexivity|]. split; [apply leb_refl; exact Hm0|].
    intros v [].
  - cbn [running_max fold_left].
    assert (Hv : F32.isnan v = false) by (apply Hvals; left; reflexivity).
    destruct (std_max_spec v m0 Hv Hm0) as (Hsel & Hvle & Hmle).
    assert (Hmax : F32.isnan (F32.std_max v m0) = false)
      by (destruct Hsel as [-> | ->]; assumption).
    destruct (IH (F32.std_max v m0) Hmax
                (fun u Hu => Hvals u (or_intror Hu))) as (Hin & Hle & Hall).
    fold (running_max (F32.std_max v m0) vals) in *.
    split; [|split].
    + destruct Hin as [Heq | Hin]; [|right; right; exact Hin].
      rewrite Heq. destruct Hsel as [-> | ->];
        [right; left; reflexivity | left; reflexivity].
    + apply (leb_trans _ _ _ Hmle Hle).
    + intros u [<- | Hu]; [apply (leb_trans _ _ _ Hvle Hle) | apply Hall, Hu].
Qed.

Lemma running_max_app :
  forall (l1 l2 : list float) (m : float),
    running_max m (l1 ++ l2) = running_max (running_max m l1) l2.
Proof. intros. unfold running_max. apply fold_left_app. Qed.

(** A NaN replaces the running maximum, and the next scalar replaces the
    NaN. *)
Lemma running_max_after_nan :
  forall (m v : float) (vals : list float),
    running_max m (S754_nan :: v :: vals) = running_max v vals.
Proof.
  intros m v vals. unfold running_max. cbn [fold_left].
  replace (F32.std_max S754_nan m) with S754_nan
    by (unfold F32.std_max; rewrite (proj1 (ltb_nan m)); reflexivity).
  replace (F32.std_max v S754_nan) with v
    by (unfold F32.std_max; rewrite (proj2 (ltb_nan v)); reflexivity).
  reflexivity.
Qed.

Lemma ray_samples_split :
  forall self ray sampleStep (k n : nat),
    (k <= n)%nat ->
    ray_samples self ray sampleStep n
    = ray_samples self ray sampleStep k
      ++ map (ray_sample self ray sampleStep) (seq k (n - k)).
Proof.
  intros self ray sampleStep k n Hk. unfold ray_samples.
  rewrite <- map_app, <- seq_app. f_equal. f_equal. lia.
Qed.

Lemma ray_samples_in :
  forall self ray sampleStep (k len : nat) (v : float),
    In v (map (ray_sample self ray sampleStep) (seq k len)) ->
    exists j, (k <= j < k + len)%nat /\ v = ray_sample self ray sampleStep j.
Proof.
  intros self ray sampleStep k len v Hin.
  apply in_map_iff in Hin. destruct Hin as (j & <- & Hj).
  apply in_seq in Hj. exists j. split; [lia | reflexivity].
Qed.

(** X6: When none of the scalars sampled along the ray is a NaN, [traceRayMIP]
    returns the grey level [m / maximum] of their maximum and 0: [m] is 0
    or one of the scalars, and it is at least 0 and at least every
    scalar. *)
Theorem traceRayMIP_is_the_maximum :
  forall (self : Renderer) (ray : Ray) (sampleStep : float) (n fuel : nat),
    (n <= fuel)%nat ->
    samples_end_at ray sampleStep n ->
    (forall j, (j < n)%nat ->
       F32.isnan (ray_sample self ray sampleStep j) = false) ->
    exists m : float,
      traceRayMIP self fuel ray sampleStep = Some (mip_result self m) /\
      (m = F32.zero \/
       exists j, (j < n)%nat /\ m = ray_sample self ray sampleStep j) /\
      (F32.zero <=? m)%f32 = true /\
      (forall j, (j < n)%nat ->
         (ray_sample self ray sampleStep j <=? m)%f32 = true).
Proof.
  intros self ray sampleStep n fuel Hfuel Hend Hnum.
  exists (running_max F32.zero (ray_samples self ray sampleStep n)).
  split; [apply (traceRayMIP_run self ray sampleStep n fuel Hfuel Hend)|].
  destruct (running_max_numbers (ray_samples self ray sampleStep n) F32.zero
              eq_refl) as (Hin & Hle & Hall).
  { intros v Hv. destruct (ray_samples_in _ _ _ _ _ _ Hv) as (j & Hj & ->).
    apply Hnum. lia. }
  split; [|split; [exact Hle|]].
  - destruct Hin as [Heq | Hin]; [left; exact Heq | right].
    destruct (ray_samples_in _ _ _ _ _ _ Hin) as (j & Hj & Hm).
    exists j. split; [lia | exact Hm].
  - intros j Hj. apply Hall. unfold ray_samples. apply in_map.
    apply in_seq. lia.
Qed.

(** X7: A NaN among the scalars makes [traceRayMIP] forget what it has seen:
    [std::max(NaN, m)] is the NaN and [std::max(v, NaN)] is [v].  When
    sample [k] is a NaN and the samples after it are numbers, the result is
    the maximum of the samples after [k] alone; neither the samples before
    [k] nor the initial 0 count.  When the last sample is a NaN, the result
    is [NaN / maximum]. *)
Theorem traceRayMIP_restarts_after_nan :
  forall (self : Renderer) (ray : Ray) (sampleStep : float) (k n fuel : nat),
    (n <= fuel)%nat ->
    samples_end_at ray sampleStep n ->
    (k < n)%nat ->
    F32.isnan (ray_sample self ray sampleStep k) = true ->
    (forall j, (k < j < n)%nat ->
       F32.isnan (ray_sample self ray sampleStep j) = false) ->
    exists m : float,
      traceRayMIP self fuel ray sampleStep = Some (mip_result self m) /\
      (S k = n -> m = S754_nan) /\
      ((S k < n)%nat ->
       (exists j, (k < j < n)%nat /\ m = ray_sample self ray sampleStep j) /\
       (forall j, (k < j < n)%nat ->
          (ray_sample self ray sampleStep j <=? m)%f32 = true)).
Proof.
  intros self ray sampleStep k n fuel Hfuel Hend Hk Hnan Hnum.
  exists (running_max F32.zero (ray_samples self ray sampleStep n)).
  split; [apply (traceRayMIP_run self ray sampleStep n fuel Hfuel Hend)|].
  apply isnan_nan in Hnan.
  rewrite (ray_samples_split self ray sampleStep k n) by lia.
  rewrite running_max_app.
  set (m0 := running_max F32.zero (ray_samples self ray sampleStep k)).
  replace (n - k)%nat with (S (n - k - 1)) by lia.
  cbn [seq map]. rewrite Hnan.
  split.
  - intros Hlast. replace (n - k - 1)%nat with 0%nat by lia.
    cbn [seq map running_max fold_left]. unfold F32.std_max.
    rewrite (proj1 (ltb_nan m0)). reflexivity.
  - intros Hmore. replace (n - k - 1)%nat with (S (n - k - 2)) by lia.
    cbn [seq map]. rewrite running_max_after_nan.
    set (rest := map (ray_sample self ray sampleStep) (seq (S (S k)) (n - k - 2))).
    assert (Hrest : forall v, In v rest ->
              exists j, (S k < j < n)%nat /\ v = ray_sample self ray sampleStep j).
    { intros v Hv. destruct (ray_samples_in _ _ _ _ _ _ Hv) as (j & Hj & ->).
      exists j. split; [lia | reflexivity]. }
    destruct (running_max_numbers rest (ray_sample self ray sampleStep (S k))
                (Hnum (S k) ltac:(lia))) as (Hin & Hle & Hall).
    { intros v Hv. destruct (Hrest v Hv) as (j & Hj & ->). apply Hnum. lia. }
    split.
    + destruct Hin as [Heq | Hin].
      * exists (S k). split; [lia | exact Heq].
      * destruct (Hrest _ Hin) as (j & Hj & Hm). exists j. split; [lia | exact Hm].
    + intros j Hj. destruct (Nat.eq_dec j (S k)) as [-> | Hne]; [exact Hle|].
      apply Hall. unfold rest. apply in_map. apply in_seq. lia.
Qed.

(** ** The 2D transfer function tracer *)

Section TF2D.
Variable self : Renderer.
Variable ray : Ray.
Variable sampleStep : float.

Hypothesis colour_opacity :
  in_unit_interval (w4 (TF2DColor (m_config self))) = true.
Hypothesis sample_opacities :
  forall pos : vec3, in_unit_interval (tf2d_sampleOpacity self pos) = true.

Lemma tf2d_step_opacity :
  forall st st',
    in_unit_interval (tf_accumulatedOpacity st) = true ->
    loop_step (tf2d_guard ray) (tf2d_body self ray sampleStep) st st' ->
    in_unit_interval (tf_accumulatedOpacity st') = true /\
    (tf_accumulatedOpacity st <=? tf_accumulatedOpacity st')%f32 = true.
Proof.
  intros st st' Hst [_ Hbody].
  pose proof (tf2d_update (tf_accumulatedOpacity st) _ _ Hst
                (sample_opacities (tf_samplePos st)) colour_opacity) as Hup.
  unfold tf2d_body in Hbody.
  destruct (_ >=? F32.one)%f32 in Hbody;
    destruct Hbody as [Hb|Hb]; try discriminate;
    injection Hb as <-; cbn [tf_accumulatedOpacity]; [|exact Hup].
  split; [reflexivity|].
  unfold in_unit_interval in Hst. apply andb_true_iff in Hst. apply Hst.
Qed.

Lemma tf2d_reaches_opacity :
  forall st,
    loop_reaches (tf2d_guard ray) (tf2d_body self ray sampleStep)
                 (tf2d_init ray) st ->
    in_unit_interval (tf_accumulatedOpacity st) = true.
Proof.
  apply loop_reaches_invariant; [reflexivity|].
  intros s s' Hs Hstep. apply (tf2d_step_opacity s s' Hs Hstep).
Qed.
End TF2D.

(** When the opacity of the 2D transfer function is in [0, 1] at every
    sample and the alpha of [TF2DColor] is in [0, 1], the accumulated
    opacity of [traceRayTF2D] stays in [0, 1] and no iteration decreases it,
    and what the tracer returns is [TF2DColor] scaled by an opacity in
    [0, 1]. *)
Lemma tf2d_result_scaled :
  forall (self : Renderer) (ray : Ray) (sampleStep : float),
    in_unit_interval (w4 (TF2DColor (m_config self))) = true ->
    (forall pos : vec3,
       in_unit_interval (tf2d_sampleOpacity self pos) = true) ->
    (forall st,
       loop_reaches (tf2d_guard ray) (tf2d_body self ray sampleStep)
         (tf2d_init ray) st ->
       in_unit_interval (tf_accumulatedOpacity st) = true /\
       (forall st',
          loop_step (tf2d_guard ray) (tf2d_body self ray sampleStep) st st' ->
          in_unit_interval (tf_accumulatedOpacity st') = true /\
          (tf_accumulatedOpacity st <=? tf_accumulatedOpacity st')%f32
          = true)) /\
    (forall (fuel : nat) (c : vec4),
       traceRayTF2D self fuel ray sampleStep = Some c ->
       exists a : float,
         in_unit_interval a = true /\
         c = glm.muls4 (TF2DColor (m_config self)) a).
Proof.
  intros self ray sampleStep Hcol Hop. split.
  - intros st Hreach.
    pose proof (tf2d_reaches_opacity self ray sampleStep Hcol Hop st Hreach)
      as Hst.
    split; [exact Hst|]. intros st' Hstep.
    apply (tf2d_step_opacity self ray sampleStep Hcol Hop st st' Hst Hstep).
  - intros fuel c Hrun. unfold traceRayTF2D in Hrun.
    destruct (run_loop _ _ fuel (tf2d_init ray)) as [st|] eqn:Hloop;
      [|discriminate].
    cbn [option_map] in Hrun. injection Hrun as <-.
    exists (tf_accumulatedOpacity st). split; [|reflexivity].
    destruct (run_loop_reaches _ _ _ _ fuel _ _
                (reaches_start _ _ (tf2d_init ray)) Hloop)
      as [[Hreach _] | (s1 & Hreach & Hg & Hb)].
    + apply (tf2d_reaches_opacity self ray sampleStep Hcol Hop st Hreach).
    + pose proof (tf2d_reaches_opacity self ray sampleStep Hcol Hop s1 Hreach)
        as Hs1.
      apply (tf2d_step_opacity self ray sampleStep Hcol Hop s1 st Hs1).
      split; [exact Hg | right; exact Hb].
Qed.

(** X14: When the opacity of the 2D transfer function is in [0, 1] at every
    sample and the alpha of [TF2DColor] is in [0, 1], the accumulated
    opacity of [traceRayTF2D] stays in [0, 1] and no iteration decreases
    it; the tracer returns for every ray whose sampling ends, and what it
    returns is [TF2DColor] scaled by an opacity in [0, 1]. *)
Theorem traceRayTF2D_scales_the_colour :
  forall (self : Renderer) (ray : Ray) (sampleStep : float),
    in_unit_interval (w4 (TF2DColor (m_config self))) = true ->
    (forall pos : vec3,
       in_unit_interval (tf2d_sampleOpacity self pos) = true) ->
    (forall st,
       loop_reaches (tf2d_guard ray) (tf2d_body self ray sampleStep)
         (tf2d_init ray) st ->
       in_unit_interval (tf_accumulatedOpacity st) = true /\
       (forall st',
          loop_step (tf2d_guard ray) (tf2d_body self ray sampleStep) st st' ->
          in_unit_interval (tf_accumulatedOpacity st') = true /\
          (tf_accumulatedOpacity st <=? tf_accumulatedOpacity st')%f32
          = true)) /\
    (forall n fuel : nat,
       (n <= fuel)%nat -> samples_end_at ray sampleStep n ->
       exists a : float,
         in_unit_interval a = true /\
         traceRayTF2D self fuel ray sampleStep
         = Some (glm.muls4 (TF2DColor (m_config self)) a)) /\
    (forall (fuel : nat) (c : vec4),
       traceRayTF2D self fuel ray sampleStep = Some c ->
       exists a : float,
         in_unit_interval a = true /\
         c = glm.muls4 (TF2DColor (m_config self)) a).
Proof.
  intros self ray sampleStep Hcol Hop.
  destruct (tf2d_result_scaled self ray sampleStep Hcol Hop) as [Hinv Hany].
  split; [exact Hinv|]. split; [|exact Hany].
  intros n fuel Hfuel Hend.
  destruct (traceRayTF2D_returns self ray sampleStep n fuel Hfuel Hend)
    as [c Hrun].
  destruct (Hany fuel c Hrun) as (a & Ha & ->).
  exists a. split; [exact Ha | exact Hrun].
Qed.


(** ** Phong shading *)

Lemma mul_nan_r : forall x : float, (x * S754_nan)%f32 = S754_nan.
Proof. intros [s|s| |s m e]; reflexivity. Qed.

Lemma mul_nan_l : forall x : float, (S754_nan * x)%f32 = S754_nan.
Proof. intros x. reflexivity. Qed.

Lemma add_nan_l : forall x : float, (S754_nan + x)%f32 = S754_nan.
Proof. intros x. reflexivity. Qed.

Lemma add_nan_r : forall x : float, (x + S754_nan)%f32 = S754_nan.
Proof. intros [s|s| |s m e]; reflexivity. Qed.

(** The normalisation of a zero vector is [0 * (1 / sqrt 0)], a NaN in each
    component. *)
Lemma normalize_zero :
  forall s1 s2 s3 : bool,
    glm.normalize (Vec3 (S754_zero s1) (S754_zero s2) (S754_zero s3))
    = Vec3 S754_nan S754_nan S754_nan.
Proof. intros [|] [|] [|]; reflexivity. Qed.

(** X17: With a zero gradient the diffuse term would be a NaN in every
    component, and the check replaces it by zero: the shading is the ambient
    term plus zero plus the specular term, which has no such check. *)
Theorem computePhongShading_zero_gradient :
  forall `{Platform} (color : vec3) (gradient : GradientVoxel) (L V : vec3)
         (ka kd ks alpha : float) (s1 s2 s3 : bool),
    dir gradient = Vec3 (S754_zero s1) (S754_zero s2) (S754_zero s3) ->
    F32.isnan
      (glm.dot (glm.normalize (dir gradient)) L) = true /\
    computePhongShading color gradient L V ka kd ks alpha
    = glm.add3
        (glm.add3 (glm.smul3 ka color) (glm.splat3 F32.zero))
        (glm.muls3 (glm.smul3 ks (glm.splat3 F32.one))
           (std_pow
              (F32.abs
                 (glm.dot (glm.normalize (glm.reflect L (dir gradient))) V))
              alpha)).
Proof.
  intros P color gradient L V ka kd ks alpha s1 s2 s3 Hdir.
  assert (Hcos : glm.dot (glm.normalize (dir gradient)) L = S754_nan).
  { rewrite Hdir, normalize_zero. unfold glm.dot. cbn [x3 y3 z3].
    rewrite !mul_nan_l. reflexivity. }
  split; [rewrite Hcos; reflexivity|].
  unfold computePhongShading. rewrite Hcos.
  change (F32.abs S754_nan) with S754_nan.
  replace (glm.muls3 (glm.smul3 kd color) S754_nan)
    with (Vec3 S754_nan S754_nan S754_nan)
    by (unfold glm.muls3; rewrite !mul_nan_r; reflexivity).
  reflexivity.
Qed.

(** ** Loops that leave at their first [break] *)

Lemma run_loop_breaks_at :
  forall (St : Type) (guard : St -> bool) (body : St -> step_result St)
         (step : St -> St) (k fuel : nat) (s s' : St),
    (k < fuel)%nat ->
    (forall j, (j <= k)%nat -> guard (Nat.iter j step s) = true) ->
    (forall j, (j < k)%nat ->
       body (Nat.iter j step s) = Continue (step (Nat.iter j step s))) ->
    body (Nat.iter k step s) = Break s' ->
    run_loop guard body fuel s = Some s'.
Proof.
  intros St guard body step.
  induction k as [|k IH]; intros fuel s s' Hfuel Hguard Hcont Hbreak;
    (destruct fuel as [|fuel]; [lia|]);
    pose proof (Hguard 0%nat ltac:(lia)) as Hg; cbn in Hg;
    cbn [run_loop]; rewrite Hg.
  - cbn in Hbreak. rewrite Hbreak. reflexivity.
  - pose proof (Hcont 0%nat ltac:(lia)) as Hc. cbn in Hc. rewrite Hc.
    apply IH; [lia| | |].
    + intros j Hj. rewrite <- Nat.iter_succ_r. apply Hguard. lia.
    + intros j Hj. rewrite <- Nat.iter_succ_r. apply Hcont. lia.
    + rewrite <- Nat.iter_succ_r. exact Hbreak.
Qed.

Lemma run_loop_never_breaks :
  forall (St : Type) (guard : St -> bool) (body : St -> step_result St)
         (step : St -> St) (n fuel : nat) (s : St),
    (n <= fuel)%nat ->
    (forall j, (j < n)%nat -> guard (Nat.iter j step s) = true) ->
    (forall j, (j < n)%nat ->
       body (Nat.iter j step s) = Continue (step (Nat.iter j step s))) ->
    guard (Nat.iter n step s) = false ->
    run_loop guard body fuel s = Some (Nat.iter n step s).
Proof.
  intros St guard body step.
  induction n as [|n IH]; intros fuel s Hfuel Hin Hcont Hout.
  - cbn in Hout. destruct fuel; cbn [run_loop]; rewrite Hout; reflexivity.
  - destruct fuel as [|fuel]; [lia|].
    pose proof (Hin 0%nat ltac:(lia)) as Hg. cbn in Hg.
    pose proof (Hcont 0%nat ltac:(lia)) as Hc. cbn in Hc.
    cbn [run_loop]. rewrite Hg, Hc.
    rewrite Nat.iter_succ_r. apply IH; [lia| | |].
    + intros j Hj. rewrite <- Nat.iter_succ_r. apply Hin. lia.
    + intros j Hj. rewrite <- Nat.iter_succ_r. apply Hcont. lia.
    + rewrite <- Nat.iter_succ_r. exact Hout.
Qed.

(** ** Isosurface tracer, shading enabled *)

Section IsoShaded.
Context `{Platform}.
Variable self : Renderer.
Variable ray : Ray.
Variable sampleStep : float.

Lemma iso_shaded_iter :
  forall j : nat,
    Nat.iter j (iso_shaded_advance ray sampleStep)
      (mkIsoShadedState (tmin ray)
         (glm.add3 (origin ray) (glm.smul3 (tmin ray) (direction ray))) None)
    = mkIsoShadedState (fst (sample_point ray sampleStep j))
        (snd (sample_point ray sampleStep j)) None.
Proof.
  induction j as [|j IH]; [reflexivity|].
  rewrite Nat.iter_succ, IH. reflexivity.
Qed.

(** The test of an iteration looks at the sample and at the next one. *)
Lemma iso_shaded_body_at :
  forall j : nat,
    iso_shaded_body self ray sampleStep
      (mkIsoShadedState (fst (sample_point ray sampleStep j))
         (snd (sample_point ray sampleStep j)) None)
    = if (ray_sample self ray sampleStep j >? isoValue (m_config self))%f32
         || (ray_sample self ray sampleStep (S j)
             >? isoValue (m_config self))%f32
      then
        Break
          (mkIsoShadedState (fst (sample_point ray sampleStep j))
             (snd (sample_point ray sampleStep j))
             (Some
                (glm.vec4_of
                   (phongAt self ray
                      (glm.add3 (origin ray)
                         (glm.smul3
                            (bisectionAccuracy self ray
                               (fst (sample_point ray sampleStep j))
                               (fst (sample_point ray sampleStep j)
                                + sampleStep)%f32
                               (isoValue (m_config self)))
                            (direction ray)))
                      isoColor)
                   F32.one)))
      else
        Continue
          (iso_shaded_advance ray sampleStep
             (mkIsoShadedState (fst (sample_point ray sampleStep j))
                (snd (sample_point ray sampleStep j)) None)).
Proof. intros j. reflexivity. Qed.
End IsoShaded.

(** X16: With volume shading enabled, each iteration of [traceRayISO] tests its
    own sample and the one after it.  The tracer leaves at the first
    iteration [k] whose sample or whose next sample exceeds the isovalue,
    also when that next sample lies beyond [tmax], and returns the Phong
    shading of the surface colour at the position that the bisection finds
    between [t] and [t + sampleStep], with opacity 1.  When no sample of the
    loop and no next sample exceeds the isovalue it returns opaque
    black. *)
Theorem traceRayISO_shaded :
  forall `{Platform} (self : Renderer) (ray : Ray) (sampleStep : float),
    volumeShading (m_config self) = true ->
    let above (j : nat) :=
      (ray_sample self ray sampleStep j >? isoValue (m_config self))%f32 in
    (forall k fuel : nat,
       (k < fuel)%nat ->
       sample_in_range ray sampleStep k ->
       (forall j, (j < k)%nat -> above j = false /\ above (S j) = false) ->
       above k || above (S k) = true ->
       let t := fst (sample_point ray sampleStep k) in
       let preciseT :=
         bisectionAccuracy self ray t (t + sampleStep)%f32
                           (isoValue (m_config self)) in
       let precisePos :=
         glm.add3 (origin ray) (glm.smul3 preciseT (direction ray)) in
       traceRayISO self fuel ray sampleStep
       = Some (glm.vec4_of (phongAt self ray precisePos isoColor) F32.one)) /\
    (forall n fuel : nat,
       (n <= fuel)%nat ->
       samples_end_at ray sampleStep n ->
       (forall j, (j < n)%nat -> above j = false /\ above (S j) = false) ->
       traceRayISO self fuel ray sampleStep
       = Some (Vec4 F32.zero F32.zero F32.zero F32.one)).
Proof.
  intros P self ray sampleStep Hshading above. split.
  - intros k fuel Hfuel Hrange Hbelow Hhit t preciseT precisePos.
    unfold traceRayISO. rewrite Hshading. cbn [negb].
    rewrite (run_loop_breaks_at _ _ (iso_shaded_body self ray sampleStep)
               (iso_shaded_advance ray sampleStep) k fuel _
               (mkIsoShadedState t (snd (sample_point ray sampleStep k))
                  (Some (glm.vec4_of (phongAt self ray precisePos isoColor)
                           F32.one)))
               Hfuel).
    + reflexivity.
    + intros j Hj. rewrite iso_shaded_iter. apply Hrange. exact Hj.
    + intros j Hj. rewrite iso_shaded_iter, iso_shaded_body_at.
      fold (above j) (above (S j)).
      destruct (Hbelow j Hj) as [-> ->]. reflexivity.
    + rewrite iso_shaded_iter, iso_shaded_body_at.
      fold (above k) (above (S k)). rewrite Hhit. reflexivity.
  - intros n fuel Hfuel [Hin Hout] Hbelow.
    unfold traceRayISO. rewrite Hshading. cbn [negb].
    rewrite (run_loop_never_breaks _ _ (iso_shaded_body self ray sampleStep)
               (iso_shaded_advance ray sampleStep) n fuel _ Hfuel).
    + rewrite iso_shaded_iter. reflexivity.
    + intros j Hj. rewrite iso_shaded_iter. apply Hin. exact Hj.
    + intros j Hj. rewrite iso_shaded_iter, iso_shaded_body_at.
      fold (above j) (above (S j)).
      destruct (Hbelow j Hj) as [-> ->]. reflexivity.
    + rewrite iso_shaded_iter. exact Hout.
Qed.

(** ** The interval of a hit *)

Lemma std_max_lub :
  forall a b c : float,
    (a <=? c)%f32 = true -> (b <=? c)%f32 = true ->
    (F32.std_max a b <=? c)%f32 = true.
Proof. intros a b c Ha Hb. unfold F32.std_max. destruct (a <? b)%f32; assumption. Qed.

Lemma std_min_glb :
  forall a b c : float,
    (c <=? a)%f32 = true -> (c <=? b)%f32 = true ->
    (c <=? F32.std_min a b)%f32 = true.
Proof. intros a b c Ha Hb. unfold F32.std_min. destruct (b <? a)%f32; assumption. Qed.

Lemma std_max_not_nan :
  forall a b : float,
    F32.isnan a = false -> F32.isnan b = false ->
    F32.isnan (F32.std_max a b) = false.
Proof. intros a b Ha Hb. unfold F32.std_max. destruct (a <? b)%f32; assumption. Qed.

Lemma std_min_not_nan :
  forall a b : float,
    F32.isnan a = false -> F32.isnan b = false ->
    F32.isnan (F32.std_min a b) = false.
Proof. intros a b Ha Hb. unfold F32.std_min. destruct (b <? a)%f32; assumption. Qed.

Lemma gtb_false_leb :
  forall x y : float,
    F32.isnan x = false -> F32.isnan y = false ->
    (x >? y)%f32 = false -> (x <=? y)%f32 = true.
Proof.
  intros x y Hx Hy Hgt. unfold F32.gtb in Hgt. fold (F32.ltb y x) in Hgt.
  apply ltb_false_leb; assumption.
Qed.

Lemma leb_gtb_false :
  forall x y : float, (x <=? y)%f32 = true -> (x >? y)%f32 = false.
Proof.
  intros x y Hle. unfold F32.gtb. fold (F32.ltb y x).
  apply leb_ltb_false. exact Hle.
Qed.

(** The function in terms of the slab distances of the three axes. *)
Lemma instersectRayVolumeBounds_slabs :
  forall (ray : Ray) (bounds : Bounds),
    let near_x := slab_near (x3 (lower bounds)) (x3 (upper bounds))
                    (x3 (origin ray)) (x3 (direction ray)) in
    let far_x := slab_far (x3 (lower bounds)) (x3 (upper bounds))
                   (x3 (origin ray)) (x3 (direction ray)) in
    let near_y := slab_near (y3 (lower bounds)) (y3 (upper bounds))
                    (y3 (origin ray)) (y3 (direction ray)) in
    let far_y := slab_far (y3 (lower bounds)) (y3 (upper bounds))
                   (y3 (origin ray)) (y3 (direction ray)) in
    let near_z := slab_near (z3 (lower bounds)) (z3 (upper bounds))
                    (z3 (origin ray)) (z3 (direction ray)) in
    let far_z := slab_far (z3 (lower bounds)) (z3 (upper bounds))
                   (z3 (origin ray)) (z3 (direction ray)) in
    instersectRayVolumeBounds ray bounds
    = if (near_x >? far_y)%f32 || (near_y >? far_x)%f32 then (false, ray)
      else if (F32.std_max near_x near_y >? far_z)%f32
              || (near_z >? F32.std_min far_x far_y)%f32
           then (false, ray)
           else (true,
                 mkRay (origin ray) (direction ray)
                   (F32.std_max (F32.std_max near_x near_y) near_z)
                   (F32.std_min (F32.std_min far_x far_y) far_z)).
Proof.
  intros ray bounds. cbv zeta.
  unfold instersectRayVolumeBounds, slab_near, slab_far, glm.lessThan3,
    glm.sdiv3, glm.splat3, lowerUpper.
  cbn [x3 y3 z3].
  destruct (F32.one / x3 (direction ray) <? F32.zero)%f32,
           (F32.one / y3 (direction ray) <? F32.zero)%f32,
           (F32.one / z3 (direction ray) <? F32.zero)%f32;
    reflexivity.
Qed.

(** X19: When, on each axis, the distance to the near plane of the slab is at
    most the distance to the far plane (which rules out a NaN among them),
    [instersectRayVolumeBounds] reports a hit exactly when the largest near
    distance is at most the smallest far distance; it then writes these two
    as [tmin] and [tmax], so that [tmin <= tmax], and leaves origin and
    direction alone. *)
Theorem instersectRayVolumeBounds_hit_interval :
  forall (ray : Ray) (bounds : Bounds),
    let near_x := slab_near (x3 (lower bounds)) (x3 (upper bounds))
                    (x3 (origin ray)) (x3 (direction ray)) in
    let far_x := slab_far (x3 (lower bounds)) (x3 (upper bounds))
                   (x3 (origin ray)) (x3 (direction ray)) in
    let near_y := slab_near (y3 (lower bounds)) (y3 (upper bounds))
                    (y3 (origin ray)) (y3 (direction ray)) in
    let far_y := slab_far (y3 (lower bounds)) (y3 (upper bounds))
                   (y3 (origin ray)) (y3 (direction ray)) in
    let near_z := slab_near (z3 (lower bounds)) (z3 (upper bounds))
                    (z3 (origin ray)) (z3 (direction ray)) in
    let far_z := slab_far (z3 (lower bounds)) (z3 (upper bounds))
                   (z3 (origin ray)) (z3 (direction ray)) in
    let enter := F32.std_max (F32.std_max near_x near_y) near_z in
    let leave := F32.std_min (F32.std_min far_x far_y) far_z in
    (near_x <=? far_x)%f32 = true ->
    (near_y <=? far_y)%f32 = true ->
    (near_z <=? far_z)%f32 = true ->
    (fst (instersectRayVolumeBounds ray bounds) = true
     <-> (enter <=? leave)%f32 = true) /\
    (fst (instersectRayVolumeBounds ray bounds) = true ->
     snd (instersectRayVolumeBounds ray bounds)
     = mkRay (origin ray) (direction ray) enter leave /\
     (tmin (snd (instersectRayVolumeBounds ray bounds))
      <=? tmax (snd (instersectRayVolumeBounds ray bounds)))%f32 = true).
Proof.
  intros ray bounds near_x far_x near_y far_y near_z far_z enter leave
         Hx Hy Hz.
  rewrite instersectRayVolumeBounds_slabs.
  fold near_x far_x near_y far_y near_z far_z. fold enter leave.
  destruct (leb_not_nan _ _ Hx) as [Hnx Hfx].
  destruct (leb_not_nan _ _ Hy) as [Hny Hfy].
  destruct (leb_not_nan _ _ Hz) as [Hnz Hfz].
  pose proof (std_max_not_nan _ _ Hnx Hny) as Hn2.
  pose proof (std_min_not_nan _ _ Hfx Hfy) as Hf2.
  destruct (std_max_spec near_x near_y Hnx Hny) as (_ & Hmx & Hmy).
  destruct (std_min_spec far_x far_y Hfx Hfy) as (_ & Hix & Hiy).
  destruct (std_max_spec (F32.std_max near_x near_y) near_z Hn2 Hnz)
    as (_ & Hm2 & Hmz).
  destruct (std_min_spec (F32.std_min far_x far_y) far_z Hf2 Hfz)
    as (_ & Hi2 & Hiz).
  fold enter in Hm2, Hmz. fold leave in Hi2, Hiz.
  assert (Hhit :
            (near_x >? far_y)%f32 = false -> (near_y >? far_x)%f32 = false ->
            (F32.std_max near_x near_y >? far_z)%f32 = false ->
            (near_z >? F32.std_min far_x far_y)%f32 = false ->
            (enter <=? leave)%f32 = true).
  { intros H1 H2 H3 H4.
    apply gtb_false_leb in H1, H2, H3, H4; try assumption.
    unfold enter, leave.
    apply std_max_lub; apply std_min_glb; try assumption.
    apply std_max_lub; apply std_min_glb; assumption. }
  assert (Hmiss :
            (enter <=? leave)%f32 = true ->
            (near_x >? far_y)%f32 = false /\ (near_y >? far_x)%f32 = false /\
            (F32.std_max near_x near_y >? far_z)%f32 = false /\
            (near_z >? F32.std_min far_x far_y)%f32 = false).
  { intros Hle.
    repeat split; apply leb_gtb_false.
    - apply (leb_trans _ _ _ Hmx), (leb_trans _ _ _ Hm2),
        (leb_trans _ _ _ Hle), (leb_trans _ _ _ Hi2), Hiy.
    - apply (leb_trans _ _ _ Hmy), (leb_trans _ _ _ Hm2),
        (leb_trans _ _ _ Hle), (leb_trans _ _ _ Hi2), Hix.
    - apply (leb_trans _ _ _ Hm2), (leb_trans _ _ _ Hle), Hiz.
    - apply (leb_trans _ _ _ Hmz), (leb_trans _ _ _ Hle), Hi2. }
  destruct (near_x >? far_y)%f32 eqn:H1; cbn [orb].
  { split; [split; [discriminate|] | discriminate].
    intros Hle. destruct (Hmiss Hle) as (H & _). discriminate. }
  destruct (near_y >? far_x)%f32 eqn:H2; cbn [orb].
  { split; [split; [discriminate|] | discriminate].
    intros Hle. destruct (Hmiss Hle) as (_ & H & _). discriminate. }
  destruct (F32.std_max near_x near_y >? far_z)%f32 eqn:H3; cbn [orb].
  { split; [split; [discriminate|] | discriminate].
    intros Hle. destruct (Hmiss Hle) as (_ & _ & H & _). discriminate. }
  destruct (near_z >? F32.std_min far_x far_y)%f32 eqn:H4; cbn [orb].
  { split; [split; [discriminate|] | discriminate].
    intros Hle. destruct (Hmiss Hle) as (_ & _ & _ & H). discriminate. }
  pose proof (Hhit eq_refl eq_refl eq_refl eq_refl) as Hle.
  cbn [fst snd tmin tmax].
  split; [split; [intros _; exact Hle | reflexivity]|].
  intros _. split; [reflexivity | exact Hle].
Qed.

(** ** Rendering an image *)

Lemma for_each_app :
  forall (A St : Type) (body : A -> St -> option St) (l1 l2 : list A) (s : St),
    for_each (l1 ++ l2) body s
    = match for_each l1 body s with
      | Some s' => for_each l2 body s'
      | None => None
      end.
Proof.
  intros A St body. induction l1 as [|a l1 IH]; intros l2 s; [reflexivity|].
  cbn [app for_each]. destruct (body a s); [apply IH | reflexivity].
Qed.

(** Two nested loops are one loop over the pairs. *)
Lemma for_each_nested :
  forall (A B St : Type) (body : A -> B -> St -> option St)
         (la : list A) (lb : list B) (s : St),
    for_each la (fun a => for_each lb (body a)) s
    = for_each (flat_map (fun a => map (pair a) lb) la)
        (fun ab => body (fst ab) (snd ab)) s.
Proof.
  intros A B St body la lb. induction la as [|a la IH]; intros s;
    [reflexivity|].
  cbn [for_each flat_map]. rewrite for_each_app.
  assert (Hin : forall l s0,
            for_each l (body a) s0
            = for_each (map (pair a) l)
                (fun ab => body (fst ab) (snd ab)) s0).
  { induction l as [|b l IHl]; intros s0; [reflexivity|].
    cbn [for_each map fst snd]. destruct (body a b s0); [apply IHl|reflexivity]. }
  rewrite <- Hin. destruct (for_each lb (body a) s); [apply IH | reflexivity].
Qed.

(** A loop whose body keeps an invariant of the elements done so far. *)
Lemma for_each_invariant :
  forall (A St : Type) (body : A -> St -> option St)
         (Inv : list A -> St -> Prop) (l : list A) (s : St),
    NoDup l ->
    Inv [] s ->
    (forall (done : list A) (a : A) (s1 : St),
       In a l -> ~ In a done -> Inv done s1 ->
       exists s2, body a s1 = Some s2 /\ Inv (done ++ [a]) s2) ->
    exists s', for_each l body s = Some s' /\ Inv l s'.
Proof.
  intros A St body Inv l s Hnd H0 Hstep.
  assert (Hgen : forall (rest done : list A) (s1 : St),
            l = done ++ rest -> Inv done s1 ->
            exists s', for_each rest body s1 = Some s' /\ Inv l s').
  { induction rest as [|a rest IH]; intros done s1 Hl Hinv.
    - rewrite app_nil_r in Hl. subst done. exists s1. split; [reflexivity|exact Hinv].
    - assert (Hin : In a l) by (rewrite Hl; apply in_or_app; right; left; reflexivity).
      assert (Hnot : ~ In a done).
      { rewrite Hl in Hnd. apply NoDup_remove_2 in Hnd.
        intros Hd. apply Hnd. apply in_or_app. left. exact Hd. }
      destruct (Hstep done a s1 Hin Hnot Hinv) as (s2 & Hb & Hinv2).
      cbn [for_each]. rewrite Hb.
      apply (IH (done ++ [a])); [|exact Hinv2].
      rewrite <- app_assoc. exact Hl. }
  apply (Hgen l [] s); [reflexivity | exact H0].
Qed.

Lemma NoDup_map_injective :
  forall (A B : Type) (f : A -> B) (l : list A),
    (forall a b, f a = f b -> a = b) -> NoDup l -> NoDup (map f l).
Proof.
  intros A B f l Hinj. induction 1 as [|a l Ha Hl IH]; cbn; constructor.
  - intros Hin. apply in_map_iff in Hin. destruct Hin as (b & Hb & Hin).
    apply Hinj in Hb. subst b. contradiction.
  - exact IH.
Qed.

Lemma int_range_spec :
  forall n i : Z, In i (int_range n) <-> 0 <= i < n.
Proof.
  intros n i. unfold int_range. rewrite in_map_iff. split.
  - intros (k & <- & Hk). apply in_seq in Hk. lia.
  - intros Hi. exists (Z.to_nat i). split; [lia|]. apply in_seq. lia.
Qed.

Lemma int_range_NoDup : forall n : Z, NoDup (int_range n).
Proof.
  intros n. unfold int_range.
  apply NoDup_map_injective; [|apply seq_NoDup].
  intros a b Hab. lia.
Qed.

Lemma pixels_NoDup :
  forall W H : Z,
    NoDup (flat_map (fun x => map (pair x) (int_range H)) (int_range W)).
Proof.
  intros W H.
  assert (Hgen : forall l : list Z,
            NoDup l ->
            NoDup (flat_map (fun x => map (pair x) (int_range H)) l)).
  { induction l as [|x l IH]; intros Hnd; [constructor|].
    cbn [flat_map]. inversion Hnd as [|? ? Hx Hl]; subst.
    apply NoDup_app; [| apply IH; exact Hl |].
    - apply NoDup_map_injective; [|apply int_range_NoDup].
      intros a b Hab. congruence.
    - intros [x' y'] H1 H2.
      apply in_map_iff in H1. destruct H1 as (y0 & Heq & _).
      injection Heq as <- <-.
      apply in_flat_map in H2. destruct H2 as (x1 & Hx1 & H2).
      apply in_map_iff in H2. destruct H2 as (y1 & Heq & _).
      injection Heq as <- <-. contradiction. }
  apply Hgen, int_range_NoDup.
Qed.

Lemma pixels_spec :
  forall (W H x y : Z),
    In (x, y) (flat_map (fun x => map (pair x) (int_range H)) (int_range W))
    <-> 0 <= x < W /\ 0 <= y < H.
Proof.
  intros W H x y. rewrite in_flat_map. split.
  - intros (x0 & Hx0 & Hin). apply in_map_iff in Hin.
    destruct Hin as (y0 & Heq & Hy0). injection Heq as <- <-.
    apply int_range_spec in Hx0, Hy0. split; assumption.
  - intros [Hx Hy]. exists x. split; [apply int_range_spec; exact Hx|].
    apply in_map. apply int_range_spec. exact Hy.
Qed.

Lemma resetImage_pixel :
  forall (this : RendererObject) (x y : Z),
    pixel (resetImage this) x y = glm.splat4 F32.zero.
Proof.
  intros this x y. unfold pixel, resetImage. cbn [members m_frameBuffer].
  generalize (Z.to_nat
                (fst (renderResolution (m_config (members this))) * y + x)).
  induction (m_frameBuffer this) as [|c l IH]; intros [|i]; cbn;
    try reflexivity. apply IH.
Qed.

Section RenderImage.
Context `{Platform}.
Variable scene : Scene.
Variable fuel : nat.
Variable bounds : Bounds.
Variable self : Renderer.

Local Abbreviation width := (fst (renderResolution (m_config self))).
Local Abbreviation height := (snd (renderResolution (m_config self))).

Hypothesis image_fits : width * height <= int_max.
Hypothesis rays_end :
  forall x y : Z,
    0 <= x < width -> 0 <= y < height ->
    render_colour scene fuel self bounds x y <> None.

(** The colour of a pixel after [render]. *)
Local Abbreviation expected xy :=
  (match render_colour scene fuel self bounds (fst xy) (snd xy) with
   | Some (Some c) => c
   | _ => glm.splat4 F32.zero
   end).

Lemma render_pixel_step :
  forall (this : RendererObject) (x y : Z),
    members this = self -> frame_buffer_ok this ->
    0 <= x < width -> 0 <= y < height ->
    pixel this x y = glm.splat4 F32.zero ->
    exists this',
      render_pixel scene fuel bounds x y this = Some this' /\
      members this' = self /\ frame_buffer_ok this' /\
      pixel this' x y = expected (x, y) /\
      (forall x' y',
         0 <= x' < width -> 0 <= y' < height -> (x', y') <> (x, y) ->
         pixel this' x' y' = pixel this x' y').
Proof.
  intros this x y Hself Hok Hx Hy Hzero.
  pose proof (rays_end x y Hx Hy) as Hend.
  unfold render_pixel, render_colour in *. cbn [fst snd].
  rewrite Hself.
  destruct (instersectRayVolumeBounds _ bounds) as [hit ray].
  destruct hit; cbn [negb] in *.
  - destruct (traceRay self fuel ray _ _ _) as [color|];
      [|exfalso; apply Hend; reflexivity].
    cbn [option_map].
    assert (Hx' : 0 <= x < fst (renderResolution (m_config (members this))))
      by (rewrite Hself; exact Hx).
    assert (Hy' : 0 <= y < snd (renderResolution (m_config (members this))))
      by (rewrite Hself; exact Hy).
    assert (Hfit : fst (renderResolution (m_config (members this)))
                   * snd (renderResolution (m_config (members this)))
                   <= int_max) by (rewrite Hself; exact image_fits).
    destruct (fillColor_index this x y color Hx' Hy' Hfit Hok)
      as [Hfill Hlt].
    rewrite Hfill. eexists. split; [reflexivity|].
    cbn [members m_frameBuffer].
    split; [exact Hself|]. split; [|split].
    + unfold frame_buffer_ok in *. cbn [members m_frameBuffer].
      rewrite list_set_length. exact Hok.
    + unfold pixel. cbn [members m_frameBuffer].
      apply list_set_nth_same. exact Hlt.
    + intros x' y' Hx1 Hy1 Hne. unfold pixel. cbn [members m_frameBuffer].
      apply list_set_nth_other. rewrite Hself in *.
      intros Heq. apply Hne.
      assert (HZ : width * y + x = width * y' + x') by nia.
      assert (y = y') by nia. subst y'. f_equal. lia.
  - exists this. split; [reflexivity|]. split; [exact Hself|].
    split; [exact Hok|]. split; [exact Hzero|]. intros; reflexivity.
Qed.
End RenderImage.

(** X4: [render] computes every pixel of the image.  For a frame buffer that
    fits the resolution, when the bounds are defined and the ray of every
    pixel ends within the fuel, [render] is defined; it changes only the
    frame buffer, and afterwards the pixel [(x, y)] holds the colour of the
    tracer of the render mode on the ray through it when that ray hits the
    bounds of the volume, and transparent black when the ray misses. *)
Theorem render_computes_every_pixel :
  forall `{Platform} (scene : Scene) (fuel : nat) (bounds : Bounds)
         (this : RendererObject),
    let self := members this in
    let W := fst (renderResolution (m_config self)) in
    let H := snd (renderResolution (m_config self)) in
    frame_buffer_ok this ->
    W * H <= int_max ->
    render_bounds scene = Some bounds ->
    (forall x y : Z,
       0 <= x < W -> 0 <= y < H ->
       render_colour scene fuel self bounds x y <> None) ->
    exists this' : RendererObject,
      render scene fuel this = Some this' /\
      members this' = self /\
      frame_buffer_ok this' /\
      (forall x y : Z,
         0 <= x < W -> 0 <= y < H ->
         pixel this' x y
         = match render_colour scene fuel self bounds x y with
           | Some (Some c) => c
           | _ => glm.splat4 F32.zero
           end).
Proof.
  intros P scene fuel bounds this self W H Hok Hfit Hbounds Hend.
  unfold render. rewrite Hbounds.
  change (renderResolution (m_config (members (resetImage this))))
    with (renderResolution (m_config self)).
  fold W H. rewrite for_each_nested.
  set (pixels := flat_map (fun x => map (pair x) (int_range H)) (int_range W)).
  set (Inv := fun (done : list (Z * Z)) (s : RendererObject) =>
                members s = self /\ frame_buffer_ok s /\
                forall x y, 0 <= x < W -> 0 <= y < H ->
                  pixel s x y
                  = if in_dec (fun a b : Z * Z =>
                                 ltac:(decide equality; apply Z.eq_dec))
                         (x, y) done
                    then match render_colour scene fuel self bounds x y with
                         | Some (Some c) => c
                         | _ => glm.splat4 F32.zero
                         end
                    else glm.splat4 F32.zero).
  destruct (for_each_invariant _ _
              (fun ab => render_pixel scene fuel bounds (fst ab) (snd ab))
              Inv pixels (resetImage this) (pixels_NoDup W H))
    as (this' & Hrun & Hself & Hok' & Hpix).
  - split; [reflexivity|]. split.
    + unfold frame_buffer_ok, resetImage in *. cbn [members m_frameBuffer].
      rewrite length_map. exact Hok.
    + intros x y Hx Hy. cbn. apply resetImage_pixel.
  - intros done [x y] s1 Hin Hnot (Hs1 & Hok1 & Hpix1).
    apply pixels_spec in Hin. destruct Hin as [Hx Hy]. cbn [fst snd].
    assert (Hzero : pixel s1 x y = glm.splat4 F32.zero).
    { rewrite (Hpix1 x y Hx Hy). destruct (in_dec _ (x, y) done); [contradiction|reflexivity]. }
    destruct (render_pixel_step scene fuel bounds self Hfit Hend s1 x y
                Hs1 Hok1 Hx Hy Hzero)
      as (s2 & Hstep & Hs2 & Hok2 & Hsame & Hother).
    exists s2. split; [exact Hstep|]. split; [exact Hs2|]. split; [exact Hok2|].
    intros x' y' Hx' Hy'.
    destruct (in_dec _ (x', y') (done ++ [(x, y)])) as [Hyes|Hno].
    + apply in_app_or in Hyes. destruct Hyes as [Hd|[Heq|[]]].
      * assert (Hne : (x', y') <> (x, y))
          by (intros Heq; injection Heq as -> ->; contradiction).
        rewrite (Hother x' y' Hx' Hy' Hne), (Hpix1 x' y' Hx' Hy').
        destruct (in_dec _ (x', y') done); [reflexivity|contradiction].
      * injection Heq as <- <-. exact Hsame.
    + assert (Hne : (x', y') <> (x, y)).
      { intros Heq. injection Heq as -> ->.
        apply Hno. apply in_or_app. right. left. reflexivity. }
      rewrite (Hother x' y' Hx' Hy' Hne), (Hpix1 x' y' Hx' Hy').
      destruct (in_dec _ (x', y') done) as [Hd|_]; [|reflexivity].
      exfalso. apply Hno. apply in_or_app. left. exact Hd.
  - exists this'. split; [exact Hrun|]. split; [exact Hself|].
    split; [exact Hok'|]. intros x y Hx Hy.
    rewrite (Hpix x y Hx Hy).
    destruct (in_dec _ (x, y) pixels) as [_|Hno]; [reflexivity|].
    exfalso. apply Hno. apply pixels_spec. split; assumption.
Qed.

(** ** Signs of zero *)

Lemma zero_or_positive_nonneg_finite :
  forall x : float, zero_or_positive x = true -> nonneg_finite x = true.
Proof.
  intros x Hx. unfold zero_or_positive in Hx.
  apply andb_true_iff in Hx. apply Hx.
Qed.

Lemma zero_or_positive_cases :
  forall x : float,
    zero_or_positive x = true ->
    x = F32.zero \/ exists m e, x = S754_finite false m e.
Proof.
  intros x Hx. unfold zero_or_positive, nonneg_finite in Hx.
  destruct x as [[|]|s| |[|] m e]; rewrite ?andb_false_r in Hx;
    try discriminate.
  - left. reflexivity.
  - right. exists m, e. reflexivity.
Qed.

Lemma nonneg_finite_shape :
  forall x : float,
    nonneg_finite x = true ->
    (exists s, x = S754_zero s) \/ exists m e, x = S754_finite false m e.
Proof.
  intros x Hx. unfold nonneg_finite in Hx.
  destruct x as [s|s| |[|] m e]; rewrite ?andb_false_r in Hx;
    try discriminate.
  - left. exists s. reflexivity.
  - right. exists m, e. reflexivity.
Qed.

Lemma binary_round_aux_sign :
  forall (M E : Z) (l : location),
    binary_round_aux 24 128 false M E l <> S754_zero true.
Proof.
  intros M E l. unfold binary_round_aux.
  destruct (shr_fexp 24 128 M E l) as [mrs e'].
  destruct (shr_fexp 24 128 _ e' loc_Exact) as [mrs' e''].
  destruct (shr_m mrs') as [|m|m]; try discriminate.
  destruct (e'' <=? 128 - 24); discriminate.
Qed.

Lemma binary_normalize_sign :
  forall (M E : Z),
    0 <= M -> binary_normalize 24 128 M E false <> S754_zero true.
Proof.
  intros [|m|m] E HM; try lia; unfold binary_normalize; [discriminate|].
  unfold binary_round.
  destruct (shl_align m E _) as [mz ez].
  apply binary_round_aux_sign.
Qed.

Lemma nonneg_finite_zero_or_positive :
  forall x : float,
    nonneg_finite x = true -> x <> S754_zero true ->
    zero_or_positive x = true.
Proof.
  intros x Hx Hne. unfold zero_or_positive. rewrite Hx. cbn [andb].
  destruct x as [[|]|s| |s m e]; try reflexivity. contradiction.
Qed.

(** A sum whose first operand is not [-0] is not [-0]. *)
Lemma add_zero_or_positive :
  forall x y : float,
    zero_or_positive x = true -> nonneg_finite y = true ->
    value_of x + value_of y <= 2 ^ 301 ->
    zero_or_positive (x + y)%f32 = true.
Proof.
  intros x y Hx Hy Hsum.
  pose proof (zero_or_positive_nonneg_finite x Hx) as Hxn.
  destruct (add_value x y Hxn Hy Hsum) as [Hn _].
  apply nonneg_finite_zero_or_positive; [exact Hn|].
  destruct (zero_or_positive_cases x Hx) as [-> | (mx & ex & ->)];
    destruct (nonneg_finite_shape y Hy) as [[[|] ->] | (my & ey & ->)];
    try discriminate.
  unfold F32.add, SFadd, F32.prec, F32.emax. cbn [cond_Zopp].
  apply binary_normalize_sign. lia.
Qed.

Lemma mul_zero_or_positive :
  forall x y : float,
    zero_or_positive x = true -> zero_or_positive y = true ->
    value_of x * value_of y <= 2 ^ 301 * unit_value ->
    zero_or_positive (x * y)%f32 = true.
Proof.
  intros x y Hx Hy Hprod.
  pose proof (zero_or_positive_nonneg_finite x Hx) as Hxn.
  pose proof (zero_or_positive_nonneg_finite y Hy) as Hyn.
  destruct (mul_value x y Hxn Hyn Hprod) as (P & _ & _ & Hn & _).
  apply nonneg_finite_zero_or_positive; [exact Hn|].
  destruct (zero_or_positive_cases x Hx) as [-> | (mx & ex & ->)];
    destruct (zero_or_positive_cases y Hy) as [-> | (my & ey & ->)];
    try discriminate.
  unfold F32.mul, SFmul, F32.prec, F32.emax. cbn [xorb].
  apply binary_round_aux_sign.
Qed.

(** A difference [x - y] with [y <= x] whose first operand is not [-0] is
    not [-0]. *)
Lemma sub_zero_or_positive :
  forall x y : float,
    zero_or_positive x = true -> nonneg_finite y = true ->
    value_of y <= value_of x -> value_of x <= 2 ^ 301 ->
    zero_or_positive (x - y)%f32 = true.
Proof.
  intros x y Hx Hy Hle Hmax.
  pose proof (zero_or_positive_nonneg_finite x Hx) as Hxn.
  destruct (sub_value x y Hxn Hy Hle Hmax) as [Hn _].
  apply nonneg_finite_zero_or_positive; [exact Hn|].
  destruct (nonneg_finite_cases y Hy) as [[sy Hye] | (my & ey & Hye & Hcy & _)];
    destruct (nonneg_finite_cases x Hxn) as [[sx Hxe] | (mx & ex & Hxe & Hcx & _)];
    subst x y.
  - destruct sx; [vm_compute in Hx; discriminate|].
    destruct sy; discriminate.
  - discriminate.
  - exfalso. destruct (canonical_digits _ _ Hcy) as (Hey & _).
    rewrite value_of_finite in Hle. cbn [value_of] in Hle.
    assert (0 < Zpos my * 2 ^ (ey + 299))
      by (apply Z.mul_pos_pos; [lia | apply Z.pow_pos_nonneg; lia]).
    lia.
  - destruct (canonical_digits _ _ Hcx) as (Hex & _).
    destruct (canonical_digits _ _ Hcy) as (Hey & _).
    unfold F32.sub, SFsub, F32.prec, F32.emax. cbn [cond_Zopp].
    apply binary_normalize_sign.
    pose proof (aligned_value mx ex (Z.min ex ey) ltac:(lia) ltac:(lia)) as H1.
    pose proof (aligned_value my ey (Z.min ex ey) ltac:(lia) ltac:(lia)) as H2.
    rewrite !value_of_finite in Hle.
    assert (Hp : 0 < 2 ^ (Z.min ex ey + 299))
      by (apply Z.pow_pos_nonneg; lia).
    nia.
Qed.

Lemma zero_or_positive_one : zero_or_positive F32.one = true.
Proof. reflexivity. Qed.

(** [1 - d] is not [-0]. *)
Lemma one_minus_zero_or_positive :
  forall d : float,
    in_unit_interval d = true -> zero_or_positive (F32.one - d)%f32 = true.
Proof.
  intros d Hd. apply in_unit_interval_spec in Hd. destruct Hd as [Hn HU].
  destruct unit_value_facts as (HU0 & HU2 & _).
  apply sub_zero_or_positive; [reflexivity | exact Hn | |];
    rewrite value_of_one; lia.
Qed.

(** ** Monotone sums and products *)

Lemma add_mono :
  forall x y x' y' : float,
    nonneg_finite x = true -> nonneg_finite y = true ->
    nonneg_finite x' = true -> nonneg_finite y' = true ->
    value_of x <= value_of x' -> value_of y <= value_of y' ->
    value_of x' + value_of y' <= 2 ^ 301 ->
    value_of (x + y)%f32 <= value_of (x' + y')%f32.
Proof.
  intros x y x' y' Hx Hy Hx' Hy' Hxx Hyy Hsum.
  pose proof (value_of_nonneg x Hx). pose proof (value_of_nonneg y Hy).
  destruct (add_value x y Hx Hy ltac:(lia)) as [_ ->].
  destruct (add_value x' y' Hx' Hy' Hsum) as [_ ->].
  apply round_value_mono; lia.
Qed.

Lemma mul_mono_r :
  forall b x x' : float,
    in_unit_interval b = true ->
    nonneg_finite x = true -> in_unit_interval x' = true ->
    value_of x <= value_of x' ->
    value_of (b * x)%f32 <= value_of (b * x')%f32.
Proof.
  intros b x x' Hb Hx Hx' Hle.
  apply in_unit_interval_spec in Hb. destruct Hb as [Hbn HbU].
  apply in_unit_interval_spec in Hx'. destruct Hx' as [Hxn' HxU'].
  pose proof (value_of_nonneg b Hbn). pose proof (value_of_nonneg x Hx).
  destruct unit_value_facts as (HU0 & HU2 & _).
  destruct (mul_value b x Hbn Hx ltac:(nia)) as (P & HP & HP0 & _ & ->).
  destruct (mul_value b x' Hbn Hxn' ltac:(nia)) as (P' & HP' & HP0' & _ & ->).
  apply round_value_mono; [exact HP0 | nia].
Qed.

Lemma mul_comm : forall x y : float, (x * y)%f32 = (y * x)%f32.
Proof.
  intros [sx|sx| |sx mx ex] [sy|sy| |sy my ey]; unfold F32.mul, SFmul;
    rewrite ?(xorb_comm sx sy); try reflexivity.
  rewrite (Pos.mul_comm mx my), (Z.add_comm ex ey). reflexivity.
Qed.

Lemma mul_one_l :
  forall x : float, F32.valid x = true -> (F32.one * x)%f32 = x.
Proof. intros x Hx. rewrite mul_comm. apply mul_one_r. exact Hx. Qed.

(** Adding a zero of either sign to a number that is not [-0]. *)
Lemma add_zero_r :
  forall (x : float) (s : bool),
    zero_or_positive x = true -> (x + S754_zero s)%f32 = x.
Proof.
  intros x s Hx.
  destruct (zero_or_positive_cases x Hx) as [-> | (m & e & ->)];
    destruct s; reflexivity.
Qed.

Lemma add_zero_l :
  forall x : float, zero_or_positive x = true -> (F32.zero + x)%f32 = x.
Proof.
  intros x Hx.
  destruct (zero_or_positive_cases x Hx) as [-> | (m & e & ->)]; reflexivity.
Qed.

(** The product of a zero of the accumulated kind with a number in
    [0, 1] is a zero. *)
Lemma mul_zero_l :
  forall x : float,
    nonneg_finite x = true -> exists s, (F32.zero * x)%f32 = S754_zero s.
Proof.
  intros x Hx.
  destruct (nonneg_finite_shape x Hx) as [[s ->] | (m & e & ->)];
    eexists; reflexivity.
Qed.

Lemma mul_zero_r :
  forall x : float,
    zero_or_positive x = true -> (x * F32.zero)%f32 = F32.zero.
Proof.
  intros x Hx.
  destruct (zero_or_positive_cases x Hx) as [-> | (m & e & ->)]; reflexivity.
Qed.

Lemma in_unit_interval_zero_cases :
  forall (s : bool), in_unit_interval (S754_zero s) = true.
Proof. intros [|]; reflexivity. Qed.

Lemma leb_in_unit_interval :
  forall c a : float,
    nonneg_finite c = true -> in_unit_interval a = true ->
    (c <=? a)%f32 = true -> in_unit_interval c = true.
Proof.
  intros c a Hc Ha Hle.
  apply in_unit_interval_spec in Ha. destruct Ha as [Han HaU].
  apply in_unit_interval_spec. split; [exact Hc|].
  apply (leb_value c a Hc Han) in Hle. lia.
Qed.

(** ** Opacity-weighted colours *)

Lemma weighted_channel_unit :
  forall a c : float,
    in_unit_interval a = true -> weighted_channel a c ->
    in_unit_interval c = true.
Proof.
  intros a c Ha [Hz Hle].
  apply (leb_in_unit_interval c a); try assumption.
  apply zero_or_positive_nonneg_finite. exact Hz.
Qed.

(** One channel of the update [C + s * c] beside [A + s]. *)
Lemma weighted_channel_add :
  forall a C s c : float,
    in_unit_interval a = true -> weighted_channel a C ->
    in_unit_interval s = true ->
    value_of s <= value_of (F32.one - a)%f32 ->
    in_unit_interval c = true ->
    weighted_channel (a + s)%f32 (C + s * c)%f32.
Proof.
  intros a C s c Ha [HCz HCle] Hs Hsr Hc.
  pose proof (zero_or_positive_nonneg_finite C HCz) as HCn.
  pose proof Ha as Ha'. apply in_unit_interval_spec in Ha'.
  destruct Ha' as [Han HaU].
  pose proof Hs as Hs'. apply in_unit_interval_spec in Hs'.
  destruct Hs' as [Hsn HsU].
  apply (leb_value C a HCn Han) in HCle.
  destruct (mul_unit_interval_l s c Hs Hc) as [Hp HpW].
  pose proof (in_unit_interval_nonneg_finite _ Hp) as Hpn.
  pose proof (value_of_nonneg C HCn). pose proof (value_of_nonneg _ Hpn).
  pose proof (value_of_nonneg a Han). pose proof (value_of_nonneg s Hsn).
  destruct unit_value_facts as (HU0 & HU2 & _).
  destruct (add_within_complement a s Ha Hsn Hsr) as (Hsum & _ & HsumW).
  pose proof (in_unit_interval_nonneg_finite _ Hsum) as Hsumn.
  split.
  - apply add_zero_or_positive; [exact HCz | exact Hpn | lia].
  - destruct (add_value C (s * c)%f32 HCn Hpn ltac:(lia)) as [Hn HW].
    apply (leb_value _ _ Hn Hsumn).
    apply add_mono; try assumption; lia.
Qed.

Lemma colour_in_unit_interval_channels :
  forall c : vec4,
    colour_in_unit_interval c = true ->
    in_unit_interval (x4 c) = true /\ in_unit_interval (y4 c) = true /\
    in_unit_interval (z4 c) = true /\ in_unit_interval (w4 c) = true.
Proof.
  intros c Hc. unfold colour_in_unit_interval in Hc.
  apply andb_true_iff in Hc. destruct Hc as [Hc Hw].
  apply andb_true_iff in Hc. destruct Hc as [Hc Hz].
  apply andb_true_iff in Hc. destruct Hc as [Hx Hy].
  repeat split; assumption.
Qed.

(** What a caller sees of an opacity-weighted colour. *)
Lemma opacity_weighted_colour :
  forall (a : float) (c : vec4),
    opacity_weighted a c ->
    colour_in_unit_interval c = true /\
    (x4 c <=? w4 c)%f32 = true /\ (y4 c <=? w4 c)%f32 = true /\
    (z4 c <=? w4 c)%f32 = true.
Proof.
  intros a c (Ha & Hw & Hx & Hy & Hz).
  unfold colour_in_unit_interval.
  rewrite (weighted_channel_unit a _ Ha Hx), (weighted_channel_unit a _ Ha Hy),
    (weighted_channel_unit a _ Ha Hz), Hw, Ha.
  split; [reflexivity|]. repeat split; [apply Hx | apply Hy | apply Hz].
Qed.

Lemma opacity_weighted_init :
  opacity_weighted F32.zero (glm.splat4 F32.zero).
Proof. repeat split. Qed.

(** The blend [beta * C + (1 - beta * A) * o * colour] of the MIDA family
    beside [beta * A + (1 - beta * A) * o]; [beta = 1] is the update of
    the Composite tracer. *)
Lemma blend_weighted :
  forall (beta A : float) (C tfValue : vec4),
    in_unit_interval beta = true -> zero_or_positive beta = true ->
    opacity_weighted A C ->
    colour_in_unit_interval tfValue = true ->
    let s := ((F32.one - beta * A) * w4 tfValue)%f32 in
    opacity_weighted (beta * A + s)%f32
      (glm.add4 (glm.smul4 beta C)
         (glm.smul4 s
            (glm.vec4_of (glm.vec3_of_vec4 tfValue) F32.one))).
Proof.
  intros beta A C tfValue Hb Hbz (HA & HCw & HCx & HCy & HCz) Htf s.
  destruct (colour_in_unit_interval_channels _ Htf) as (Hx & Hy & Hz & Ho).
  destruct (mul_unit_interval beta A Hb HA) as [HbA _].
  pose proof (one_minus_unit_interval _ HbA) as Hr.
  destruct (mul_unit_interval_l _ (w4 tfValue) Hr Ho) as [Hs HsW].
  fold s in Hs, HsW.
  destruct (add_within_complement (beta * A)%f32 s HbA
              (in_unit_interval_nonneg_finite _ Hs) HsW) as (HA' & _ & _).
  assert (Hchan : forall Cx c : float,
            weighted_channel A Cx -> in_unit_interval c = true ->
            weighted_channel (beta * A + s)%f32 (beta * Cx + s * c)%f32).
  { intros Cx c [HCz' HCle] Hc.
    pose proof (zero_or_positive_nonneg_finite Cx HCz') as HCn.
    pose proof HA as HA2. apply in_unit_interval_spec in HA2.
    destruct HA2 as [HAn HAU].
    pose proof Hb as Hb2. apply in_unit_interval_spec in Hb2.
    destruct Hb2 as [Hbn HbU].
    apply (leb_value Cx A HCn HAn) in HCle.
    pose proof (value_of_nonneg Cx HCn). pose proof (value_of_nonneg beta Hbn).
    destruct unit_value_facts as (HU0 & HU2 & _).
    apply weighted_channel_add; try assumption.
    split.
    - apply mul_zero_or_positive; [exact Hbz | exact HCz' | nia].
    - assert (HCu : in_unit_interval Cx = true)
        by (apply in_unit_interval_spec; split; [exact HCn | lia]).
      destruct (mul_unit_interval beta Cx Hb HCu) as [HbC _].
      apply (leb_value _ _ (in_unit_interval_nonneg_finite _ HbC)
               (in_unit_interval_nonneg_finite _ HbA)).
      apply mul_mono_r; assumption. }
  split; [exact HA'|]. split; [|split; [|split]].
  - cbn [glm.add4 glm.smul4 glm.vec4_of glm.vec3_of_vec4 w4 x3 y3 z3].
    rewrite HCw.
    rewrite (mul_one_r s)
      by (apply nonneg_finite_valid, in_unit_interval_nonneg_finite, Hs).
    reflexivity.
  - apply (Hchan (x4 C) (x4 tfValue) HCx Hx).
  - apply (Hchan (y4 C) (y4 tfValue) HCy Hy).
  - apply (Hchan (z4 C) (z4 tfValue) HCz Hz).
Qed.

Lemma in_unit_interval_one : in_unit_interval F32.one = true.
Proof. reflexivity. Qed.

Lemma smul4_one :
  forall (a : float) (c : vec4),
    opacity_weighted a c -> glm.smul4 F32.one c = c.
Proof.
  intros a [x y z w] (Ha & Hw & Hx & Hy & Hz). cbn [w4 x4 y4 z4] in *.
  unfold glm.smul4. cbn [x4 y4 z4 w4].
  rewrite !mul_one_l; [reflexivity | | | |];
    apply nonneg_finite_valid; try (apply zero_or_positive_nonneg_finite;
    (apply Hx || apply Hy || apply Hz)).
  subst w. apply in_unit_interval_nonneg_finite. exact Ha.
Qed.

(** The update of the Composite tracer. *)
Lemma composite_weighted :
  forall (A : float) (C tfValue : vec4),
    opacity_weighted A C ->
    colour_in_unit_interval tfValue = true ->
    let s := ((F32.one - A) * w4 tfValue)%f32 in
    opacity_weighted (A + s)%f32
      (glm.add4 C
         (glm.smul4 s (glm.vec4_of (glm.vec3_of_vec4 tfValue) F32.one))).
Proof.
  intros A C tfValue HAC Htf s.
  pose proof (blend_weighted F32.one A C tfValue in_unit_interval_one
                zero_or_positive_one HAC Htf) as Hw.
  cbv zeta in Hw.
  rewrite (smul4_one A C HAC) in Hw.
  rewrite (mul_one_l A) in Hw
    by (apply nonneg_finite_valid, in_unit_interval_nonneg_finite, HAC).
  exact Hw.
Qed.

(** ** The colour returned by the Composite and MIDA tracers *)

Section WeightedColour.
Context `{Platform}.
Variable self : Renderer.
Variable ray : Ray.
Variable sampleStep : float.

Hypothesis shading_disabled : volumeShading (m_config self) = false.
Hypothesis table_in_unit_interval :
  forall pos : vec3,
    colour_in_unit_interval
      (getTFValue self (getSampleInterpolate (m_pVolume self) pos)) = true.

Lemma table_opacity_in_unit_interval :
  forall pos : vec3,
    in_unit_interval
      (w4 (getTFValue self (getSampleInterpolate (m_pVolume self) pos)))
    = true.
Proof.
  intros pos.
  apply (colour_in_unit_interval_channels _ (table_in_unit_interval pos)).
Qed.

Lemma composite_step_weighted :
  forall st st',
    opacity_weighted (cs_accumulatedOpacity st) (cs_accumulatedColor st) ->
    loop_step (composite_guard ray) (composite_body self ray sampleStep)
              st st' ->
    opacity_weighted (cs_accumulatedOpacity st') (cs_accumulatedColor st').
Proof.
  intros st st' Hst [_ Hbody].
  pose proof (composite_weighted _ _ _ Hst
                (table_in_unit_interval (cs_samplePos st))) as Hup.
  cbv zeta in Hup.
  unfold composite_body, composite_sampleColor,
    composite_sampleColor_with in Hbody.
  rewrite shading_disabled in Hbody.
  destruct (_ >=? F32.one)%f32 in Hbody;
    destruct Hbody as [Hb|Hb]; try discriminate;
    injection Hb as <-; exact Hup.
Qed.

Lemma composite_run_weighted :
  forall (fuel : nat) (st : CompositeState),
    run_loop (composite_guard ray) (composite_body self ray sampleStep) fuel
             (composite_init ray) = Some st ->
    opacity_weighted (cs_accumulatedOpacity st) (cs_accumulatedColor st).
Proof.
  intros fuel st Hrun.
  assert (Hinv : forall s,
            loop_reaches (composite_guard ray)
              (composite_body self ray sampleStep) (composite_init ray) s ->
            opacity_weighted (cs_accumulatedOpacity s)
                             (cs_accumulatedColor s)).
  { apply (loop_reaches_invariant CompositeState _ _
             (fun s => opacity_weighted (cs_accumulatedOpacity s)
                                        (cs_accumulatedColor s))).
    - apply opacity_weighted_init.
    - apply composite_step_weighted. }
  destruct (run_loop_reaches _ _ _ _ fuel _ _
              (reaches_start _ _ (composite_init ray)) Hrun)
    as [[Hreach _] | (s1 & Hreach & Hg & Hb)].
  - apply Hinv. exact Hreach.
  - apply (composite_step_weighted s1 st (Hinv s1 Hreach)).
    split; [exact Hg | right; exact Hb].
Qed.

Hypothesis maximum_positive :
  nonneg_finite (maximum (m_pVolume self)) = true /\
  (F32.zero <? maximum (m_pVolume self))%f32 = true.
Hypothesis samples_in_range :
  forall pos : vec3,
    nonneg_finite (getSampleInterpolate (m_pVolume self) pos) = true /\
    (getSampleInterpolate (m_pVolume self) pos
     <=? maximum (m_pVolume self))%f32 = true.

Lemma mida_beta :
  forall st : MidaState,
    mida_invariant self st ->
    let beta :=
      (F32.one
       - mida_delta self
           (getSampleInterpolate (m_pVolume self) (ms_samplePos st))
           (ms_maxVal st))%f32 in
    in_unit_interval beta = true /\ zero_or_positive beta = true.
Proof.
  intros st (_ & Hmn & Hmle) beta.
  destruct (samples_in_range (ms_samplePos st)) as [Hvn Hvle].
  pose proof (mida_delta_unit_interval self maximum_positive _ _
                Hvn Hvle Hmn Hmle) as Hd.
  split; [apply one_minus_unit_interval | apply one_minus_zero_or_positive];
    exact Hd.
Qed.

Lemma mida_step_weighted :
  forall st st',
    mida_invariant self st ->
    opacity_weighted (ms_accumulatedOpacity st) (ms_accumulatedColor st) ->
    loop_step (mida_guard ray) (mida_body self ray sampleStep) st st' ->
    mida_invariant self st' /\
    opacity_weighted (ms_accumulatedOpacity st') (ms_accumulatedColor st').
Proof.
  intros st st' Hinv Hst Hstep.
  split.
  - apply (mida_step_opacity self ray sampleStep
             table_opacity_in_unit_interval maximum_positive samples_in_range
             st st' Hinv Hstep).
  - destruct Hstep as [_ Hbody].
    destruct (mida_beta st Hinv) as [Hb Hbz].
    pose proof (blend_weighted _ _ _ _ Hb Hbz Hst
                  (table_in_unit_interval (ms_samplePos st))) as Hup.
    cbv zeta in Hup.
    unfold mida_body, shadedSampleColor, shadedSampleColor_with in Hbody.
    rewrite shading_disabled in Hbody.
    destruct Hbody as [Hbd|Hbd]; [|discriminate].
    injection Hbd as <-. exact Hup.
Qed.

Lemma mida_init_invariant : mida_invariant self (mida_init ray).
Proof.
  destruct maximum_positive as [Hn Hlt].
  split; [reflexivity|]. split; [reflexivity|].
  cbn [mida_init ms_maxVal]. apply ltb_leb. exact Hlt.
Qed.

Lemma mida_run_weighted :
  forall (fuel : nat) (st : MidaState),
    run_loop (mida_guard ray) (mida_body self ray sampleStep) fuel
             (mida_init ray) = Some st ->
    opacity_weighted (ms_accumulatedOpacity st) (ms_accumulatedColor st).
Proof.
  intros fuel st Hrun.
  set (Inv := fun s : MidaState =>
                mida_invariant self s /\
                opacity_weighted (ms_accumulatedOpacity s)
                                 (ms_accumulatedColor s)).
  assert (Hinv : forall s,
            loop_reaches (mida_guard ray) (mida_body self ray sampleStep)
              (mida_init ray) s -> Inv s).
  { apply (loop_reaches_invariant MidaState _ _ Inv).
    - split; [apply mida_init_invariant | apply opacity_weighted_init].
    - intros s s' [Hi Hw] Hstep. apply (mida_step_weighted s s' Hi Hw Hstep). }
  destruct (run_loop_reaches _ _ _ _ fuel _ _
              (reaches_start _ _ (mida_init ray)) Hrun)
    as [[Hreach _] | (s1 & Hreach & Hg & Hb)].
  - apply (Hinv st Hreach).
  - destruct (Hinv s1 Hreach) as [Hi Hw].
    apply (mida_step_weighted s1 st Hi Hw).
    split; [exact Hg | right; exact Hb].
Qed.
End WeightedColour.

(** With volume shading disabled and a transfer function whose colours and
    opacities are in [0, 1] at every sample, the colour that
    [traceRayComposite] returns is weighted by its opacity: its four
    channels are in [0, 1] and none of red, green and blue exceeds alpha,
    which is the accumulated opacity. *)
Lemma composite_result_weighted :
  forall `{Platform} (self : Renderer) (ray : Ray) (sampleStep : float),
    volumeShading (m_config self) = false ->
    (forall pos : vec3,
       colour_in_unit_interval
         (getTFValue self (getSampleInterpolate (m_pVolume self) pos))
       = true) ->
    forall (fuel : nat) (c : vec4),
      traceRayComposite self fuel ray sampleStep = Some c ->
      colour_in_unit_interval c = true /\
      (x4 c <=? w4 c)%f32 = true /\ (y4 c <=? w4 c)%f32 = true /\
      (z4 c <=? w4 c)%f32 = true.
Proof.
  intros P self ray sampleStep Hshading Htable fuel c Hrun.
  unfold traceRayComposite in Hrun.
  destruct (run_loop _ _ fuel (composite_init ray)) as [st|] eqn:Hloop;
    [|discriminate].
  cbn [option_map] in Hrun. injection Hrun as <-.
  apply (opacity_weighted_colour (cs_accumulatedOpacity st)).
  apply (composite_run_weighted self ray sampleStep Hshading Htable fuel st
           Hloop).
Qed.

(** X9: With volume shading disabled and a transfer function whose colours
    and opacities are in [0, 1] at every sample, [traceRayComposite]
    returns a colour for every ray whose sampling ends, and the colour it
    returns is weighted by its opacity: its four channels are in [0, 1] and
    none of red, green and blue exceeds alpha, which is the accumulated
    opacity.  The same holds of whatever it returns with less fuel, through
    its early exit. *)
Theorem traceRayComposite_weighted_colour :
  forall `{Platform} (self : Renderer) (ray : Ray) (sampleStep : float),
    volumeShading (m_config self) = false ->
    (forall pos : vec3,
       colour_in_unit_interval
         (getTFValue self (getSampleInterpolate (m_pVolume self) pos))
       = true) ->
    let weighted (c : vec4) : Prop :=
      colour_in_unit_interval c = true /\
      (x4 c <=? w4 c)%f32 = true /\ (y4 c <=? w4 c)%f32 = true /\
      (z4 c <=? w4 c)%f32 = true in
    (forall n fuel : nat,
       (n <= fuel)%nat -> samples_end_at ray sampleStep n ->
       exists c : vec4,
         traceRayComposite self fuel ray sampleStep = Some c /\ weighted c) /\
    (forall (fuel : nat) (c : vec4),
       traceRayComposite self fuel ray sampleStep = Some c -> weighted c).
Proof.
  intros P self ray sampleStep Hshading Htable weighted.
  assert (Hany : forall (fuel : nat) (c : vec4),
            traceRayComposite self fuel ray sampleStep = Some c -> weighted c)
    by exact (composite_result_weighted self ray sampleStep Hshading Htable).
  split; [|exact Hany].
  intros n fuel Hfuel Hend.
  destruct (traceRayComposite_returns self ray sampleStep n fuel Hfuel Hend)
    as [c Hrun].
  exists c. split; [exact Hrun|]. exact (Hany fuel c Hrun).
Qed.

(** What [traceRayMIDA] returns, when the samples lie between 0 and the
    positive maximum of the volume: although an iteration can lower the
    accumulated opacity, the colour returned stays weighted by it. *)
Lemma mida_result_weighted :
  forall `{Platform} (self : Renderer) (ray : Ray) (sampleStep : float),
    volumeShading (m_config self) = false ->
    (forall pos : vec3,
       colour_in_unit_interval
         (getTFValue self (getSampleInterpolate (m_pVolume self) pos))
       = true) ->
    nonneg_finite (maximum (m_pVolume self)) = true /\
    (F32.zero <? maximum (m_pVolume self))%f32 = true ->
    (forall pos : vec3,
       nonneg_finite (getSampleInterpolate (m_pVolume self) pos) = true /\
       (getSampleInterpolate (m_pVolume self) pos
        <=? maximum (m_pVolume self))%f32 = true) ->
    forall (fuel : nat) (c : vec4),
      traceRayMIDA self fuel ray sampleStep = Some c ->
      colour_in_unit_interval c = true /\
      (x4 c <=? w4 c)%f32 = true /\ (y4 c <=? w4 c)%f32 = true /\
      (z4 c <=? w4 c)%f32 = true.
Proof.
  intros P self ray sampleStep Hshading Htable Hmax Hsamples fuel c Hrun.
  unfold traceRayMIDA in Hrun.
  destruct (run_loop _ _ fuel (mida_init ray)) as [st|] eqn:Hloop;
    [|discriminate].
  cbn [option_map] in Hrun. injection Hrun as <-.
  apply (opacity_weighted_colour (ms_accumulatedOpacity st)).
  apply (mida_run_weighted self ray sampleStep Hshading Htable Hmax Hsamples
           fuel st Hloop).
Qed.

(** X10: With volume shading disabled, a transfer function whose colours
    and opacities are in [0, 1] at every sample, and samples between 0 and
    the positive maximum of the volume, [traceRayMIDA] returns a colour for
    every ray whose sampling ends.  Although an iteration can lower the
    accumulated opacity, the colour returned is weighted by it: its four
    channels are in [0, 1] and none of red, green and blue exceeds alpha.
    The same holds of whatever it returns with less fuel. *)
Theorem traceRayMIDA_weighted_colour :
  forall `{Platform} (self : Renderer) (ray : Ray) (sampleStep : float),
    volumeShading (m_config self) = false ->
    (forall pos : vec3,
       colour_in_unit_interval
         (getTFValue self (getSampleInterpolate (m_pVolume self) pos))
       = true) ->
    nonneg_finite (maximum (m_pVolume self)) = true /\
    (F32.zero <? maximum (m_pVolume self))%f32 = true ->
    (forall pos : vec3,
       nonneg_finite (getSampleInterpolate (m_pVolume self) pos) = true /\
       (getSampleInterpolate (m_pVolume self) pos
        <=? maximum (m_pVolume self))%f32 = true) ->
    let weighted (c : vec4) : Prop :=
      colour_in_unit_interval c = true /\
      (x4 c <=? w4 c)%f32 = true /\ (y4 c <=? w4 c)%f32 = true /\
      (z4 c <=? w4 c)%f32 = true in
    (forall n fuel : nat,
       (n <= fuel)%nat -> samples_end_at ray sampleStep n ->
       exists c : vec4,
         traceRayMIDA self fuel ray sampleStep = Some c /\ weighted c) /\
    (forall (fuel : nat) (c : vec4),
       traceRayMIDA self fuel ray sampleStep = Some c -> weighted c).
Proof.
  intros P self ray sampleStep Hshading Htable Hmax Hsamples weighted.
  assert (Hany : forall (fuel : nat) (c : vec4),
            traceRayMIDA self fuel ray sampleStep = Some c -> weighted c)
    by exact (mida_result_weighted self ray sampleStep Hshading Htable Hmax
                Hsamples).
  split; [|exact Hany].
  intros n fuel Hfuel Hend.
  destruct (traceRayMIDA_returns self ray sampleStep n fuel Hfuel Hend)
    as [c Hrun].
  exists c. split; [exact Hrun|]. exact (Hany fuel c Hrun).
Qed.

(** ** The Combined tracer at the ends of its range *)

Lemma div_zero_or_positive :
  forall v m : float,
    zero_or_positive v = true -> nonneg_finite m = true ->
    (F32.zero <? m)%f32 = true -> (v <=? m)%f32 = true ->
    zero_or_positive (v / m)%f32 = true.
Proof.
  intros v m Hv Hm Hpos Hle.
  pose proof (zero_or_positive_nonneg_finite v Hv) as Hvn.
  assert (Hmpos : 0 < value_of m).
  { destruct (nonneg_finite_cases m Hm) as [[s ->] | (mm & em & -> & Hc & _)].
    - destruct s; discriminate.
    - destruct (canonical_digits _ _ Hc) as (He & _).
      rewrite value_of_finite.
      apply Z.mul_pos_pos; [lia | apply Z.pow_pos_nonneg; lia]. }
  destruct (div_value v m Hvn Hm Hmpos
              (proj1 (leb_value v m Hvn Hm) Hle)) as [Hn _].
  apply nonneg_finite_zero_or_positive; [exact Hn|].
  destruct (zero_or_positive_cases v Hv) as [-> | (mv & ev & ->)];
    destruct (nonneg_finite_shape m Hm) as [[[|] ->] | (mm & em & ->)];
    try discriminate.
  unfold F32.div, SFdiv, F32.prec, F32.emax. cbn [xorb].
  destruct (SFdiv_core_binary 24 128 (Zpos mv) ev (Zpos mm) em) as [[mz ez] lz].
  apply binary_round_aux_sign.
Qed.

Lemma std_max_zero_or_positive :
  forall a b : float,
    zero_or_positive a = true -> zero_or_positive b = true ->
    zero_or_positive (F32.std_max a b) = true.
Proof. intros a b Ha Hb. unfold F32.std_max. destruct (a <? b)%f32; assumption. Qed.

Section CombinedEnds.
Context `{Platform}.
Variable self : Renderer.
Variable ray : Ray.
Variable sampleStep : float.

Hypothesis shading_disabled : volumeShading (m_config self) = false.
Hypothesis table_in_unit_interval :
  forall pos : vec3,
    colour_in_unit_interval
      (getTFValue self (getSampleInterpolate (m_pVolume self) pos)) = true.
Hypothesis maximum_positive :
  nonneg_finite (maximum (m_pVolume self)) = true /\
  (F32.zero <? maximum (m_pVolume self))%f32 = true.

(** *** [gamma = 1]: maximum intensity projection *)

Section GammaOne.
Hypothesis gamma_one : gamma (m_config self) = F32.one.
Hypothesis samples_in_range :
  forall pos : vec3,
    zero_or_positive (getSampleInterpolate (m_pVolume self) pos) = true /\
    (getSampleInterpolate (m_pVolume self) pos
     <=? maximum (m_pVolume self))%f32 = true.

Lemma samples_nonneg_in_range :
  forall pos : vec3,
    nonneg_finite (getSampleInterpolate (m_pVolume self) pos) = true /\
    (getSampleInterpolate (m_pVolume self) pos
     <=? maximum (m_pVolume self))%f32 = true.
Proof.
  intros pos. destruct (samples_in_range pos) as [Hz Hle].
  split; [apply zero_or_positive_nonneg_finite; exact Hz | exact Hle].
Qed.

Lemma combined_body_gamma_one :
  forall st, combined_body self ray sampleStep st
             = mida_body self ray sampleStep st.
Proof.
  intros st. unfold combined_body, mida_body. rewrite gamma_one.
  reflexivity.
Qed.

Lemma mida_step_sample :
  forall st : MidaState,
    ms_t (mida_step self ray sampleStep st) = (ms_t st + sampleStep)%f32 /\
    ms_samplePos (mida_step self ray sampleStep st)
    = glm.add3 (ms_samplePos st) (glm.smul3 sampleStep (direction ray)) /\
    ms_maxVal (mida_step self ray sampleStep st)
    = F32.std_max (getSampleInterpolate (m_pVolume self) (ms_samplePos st))
                  (ms_maxVal st).
Proof. intros st. repeat split. Qed.

Lemma mida_iter :
  forall j : nat,
    let st := Nat.iter j (mida_step self ray sampleStep) (mida_init ray) in
    ms_t st = fst (sample_point ray sampleStep j) /\
    ms_samplePos st = snd (sample_point ray sampleStep j) /\
    ms_maxVal st
    = running_max F32.zero (ray_samples self ray sampleStep j).
Proof.
  induction j as [|j IH]; [repeat split|].
  cbv zeta in *. rewrite Nat.iter_succ.
  destruct IH as (Ht & Hp & Hm).
  destruct (mida_step_sample
              (Nat.iter j (mida_step self ray sampleStep) (mida_init ray)))
    as (-> & -> & ->).
  rewrite Ht, Hp, Hm. split; [reflexivity|]. split; [reflexivity|].
  rewrite ray_samples_succ, running_max_app. reflexivity.
Qed.

Lemma running_max_zero_or_positive :
  forall (vals : list float) (m : float),
    zero_or_positive m = true ->
    (forall v, In v vals -> zero_or_positive v = true) ->
    zero_or_positive (running_max m vals) = true.
Proof.
  induction vals as [|v vals IH]; intros m Hm Hvals; [exact Hm|].
  cbn [running_max fold_left]. apply IH.
  - apply std_max_zero_or_positive; [|exact Hm].
    apply Hvals. left. reflexivity.
  - intros u Hu. apply Hvals. right. exact Hu.
Qed.

Lemma maxVal_zero_or_positive :
  forall j : nat,
    zero_or_positive
      (running_max F32.zero (ray_samples self ray sampleStep j)) = true.
Proof.
  intros j. apply running_max_zero_or_positive; [reflexivity|].
  intros v Hv. destruct (ray_samples_in _ _ _ _ _ _ Hv) as (k & _ & ->).
  apply samples_in_range.
Qed.

(** The result of the Combined tracer for a final state. *)
Lemma combined_result_gamma_one :
  forall st : MidaState,
    mida_invariant self st ->
    zero_or_positive (ms_maxVal st) = true ->
    opacity_weighted (ms_accumulatedOpacity st) (ms_accumulatedColor st) ->
    combined_result self st = mip_result self (ms_maxVal st).
Proof.
  intros st (_ & Hmn & Hmle) Hmz (HA & Hw & Hx & Hy & Hz).
  destruct maximum_positive as [Hmaxn Hmaxp].
  pose proof (div_zero_or_positive _ _ Hmz Hmaxn Hmaxp Hmle) as Hq.
  unfold combined_result, mip_result. rewrite gamma_one.
  change (F32.one <=? F32.zero)%f32 with false. cbv iota.
  unfold glm.mix4, glm.add4, glm.muls4, glm.vec4_of, glm.sdivr3, glm.splat3.
  cbn [x3 y3 z3 x4 y4 z4 w4].
  change (F32.one - F32.one)%f32 with F32.zero.
  rewrite (mul_zero_r _ (proj1 Hx)), (mul_zero_r _ (proj1 Hy)),
    (mul_zero_r _ (proj1 Hz)).
  rewrite (mul_one_r (ms_maxVal st / maximum (m_pVolume self))%f32)
    by apply div_valid.
  rewrite (add_zero_l _ Hq).
  rewrite Hw.
  destruct (mul_zero_l _ (in_unit_interval_nonneg_finite _ HA)) as [s Hs].
  rewrite (mul_comm (ms_accumulatedOpacity st) F32.zero), Hs.
  destruct s; reflexivity.
Qed.

Lemma traceRayCombined_gamma_one_loops :
  forall fuel : nat,
    traceRayCombined self fuel ray sampleStep
    = traceRayMIP self fuel ray sampleStep.
Proof.
  intros fuel. unfold traceRayCombined, traceRayMIP.
  rewrite (run_loop_ext _ _ _ _ combined_body_gamma_one).
  assert (Hguard : forall j,
            mida_guard ray
              (Nat.iter j (mida_step self ray sampleStep) (mida_init ray))
            = mip_guard ray
                (Nat.iter j (mip_step self ray sampleStep) (mip_init ray))).
  { intros j. unfold mida_guard, mip_guard.
    rewrite (proj1 (mida_iter j)), mip_iter. reflexivity. }
  destruct (run_loop (mida_guard ray) _ fuel (mida_init ray)) as [sm|] eqn:Hm.
  - destruct (run_loop_counted_inv _ _ (mida_body self ray sampleStep)
                (mida_step self ray sampleStep) (fun s => eq_refl)
                fuel _ _ Hm) as (n & Hn & Hsm & Hin & Hout).
    rewrite (run_loop_counted _ (mip_guard ray) (mip_body self ray sampleStep)
               (mip_step self ray sampleStep) (fun s => eq_refl) n fuel _ Hn).
    + cbn [option_map]. f_equal.
      rewrite mip_iter. cbn [mip_maxVal].
      destruct (mida_iter n) as (_ & _ & Hmax). rewrite <- Hsm in Hmax.
      rewrite <- Hmax.
      destruct (run_loop_reaches _ _ _ _ fuel _ _
                  (reaches_start _ _ (mida_init ray)) Hm)
        as [[Hreach _] | (s1 & _ & _ & Hb)]; [|discriminate Hb].
      apply combined_result_gamma_one.
      * apply (mida_reaches_invariant self ray sampleStep
                 (table_opacity_in_unit_interval self table_in_unit_interval)
                 maximum_positive samples_nonneg_in_range sm Hreach).
      * rewrite Hmax. apply maxVal_zero_or_positive.
      * apply (mida_run_weighted self ray sampleStep shading_disabled
                 table_in_unit_interval maximum_positive
                 samples_nonneg_in_range fuel sm Hm).
    + intros j Hj. rewrite <- Hguard. apply Hin. exact Hj.
    + rewrite <- Hguard. exact Hout.
  - destruct (run_loop (mip_guard ray) _ fuel (mip_init ray)) as [sp|] eqn:Hp;
      [|reflexivity].
    destruct (run_loop_counted_inv _ _ (mip_body self ray sampleStep)
                (mip_step self ray sampleStep) (fun s => eq_refl)
                fuel _ _ Hp) as (n & Hn & Hsp & Hin & Hout).
    rewrite (run_loop_counted _ (mida_guard ray)
               (mida_body self ray sampleStep)
               (mida_step self ray sampleStep) (fun s => eq_refl) n fuel _ Hn)
      in Hm.
    + discriminate.
    + intros j Hj. rewrite Hguard. apply Hin. exact Hj.
    + rewrite Hguard. exact Hout.
Qed.
End GammaOne.

(** *** [gamma = -1]: direct volume rendering *)

Section GammaMinusOne.
Hypothesis gamma_minus_one : gamma (m_config self) = F32.neg F32.one.
Hypothesis samples_in_range :
  forall pos : vec3,
    nonneg_finite (getSampleInterpolate (m_pVolume self) pos) = true /\
    (getSampleInterpolate (m_pVolume self) pos
     <=? maximum (m_pVolume self))%f32 = true.

(** The state of the Composite tracer that a state of the Combined tracer
    corresponds to. *)
Local Abbreviation composite_of st :=
  (mkCompositeState (ms_t st) (ms_samplePos st) (ms_accumulatedOpacity st)
     (ms_accumulatedColor st)).

(** The update of the Composite tracer on a state of the Combined
    tracer. *)
Local Abbreviation dvr_weight st :=
  (F32.mul (F32.sub F32.one (ms_accumulatedOpacity st))
     (w4 (getTFValue self
            (getSampleInterpolate (m_pVolume self) (ms_samplePos st))))).

Local Abbreviation dvr_opacity st :=
  (F32.add (ms_accumulatedOpacity st) (dvr_weight st)).

Local Abbreviation dvr_colour st :=
  (glm.add4 (ms_accumulatedColor st)
     (glm.smul4 (dvr_weight st)
        (glm.vec4_of
           (glm.vec3_of_vec4
              (getTFValue self
                 (getSampleInterpolate (m_pVolume self) (ms_samplePos st))))
           F32.one))).

Lemma beta_gamma_minus_one :
  forall d : float,
    in_unit_interval d = true ->
    (F32.one - d * (F32.one + F32.neg F32.one))%f32 = F32.one.
Proof.
  intros d Hd. change (F32.one + F32.neg F32.one)%f32 with F32.zero.
  destruct (mul_zero_l d (in_unit_interval_nonneg_finite d Hd)) as [s Hs].
  rewrite mul_comm, Hs. destruct s; reflexivity.
Qed.

Lemma combined_body_gamma_minus_one :
  forall st : MidaState,
    mida_invariant self st ->
    opacity_weighted (ms_accumulatedOpacity st) (ms_accumulatedColor st) ->
    combined_body self ray sampleStep st
    = Continue
        (mkMidaState (ms_t st + sampleStep)%f32
           (glm.add3 (ms_samplePos st)
              (glm.smul3 sampleStep (direction ray)))
           (F32.std_max
              (getSampleInterpolate (m_pVolume self) (ms_samplePos st))
              (ms_maxVal st))
           (dvr_opacity st) (dvr_colour st)).
Proof.
  intros st Hinv Hw.
  destruct Hinv as (HA & Hmn & Hmle).
  destruct (samples_in_range (ms_samplePos st)) as [Hvn Hvle].
  pose proof (mida_delta_unit_interval self maximum_positive _ _
                Hvn Hvle Hmn Hmle) as Hd.
  unfold combined_body, shadedSampleColor, shadedSampleColor_with.
  rewrite shading_disabled, gamma_minus_one.
  change (F32.neg F32.one <=? F32.zero)%f32 with true. cbv iota.
  rewrite (beta_gamma_minus_one _ Hd).
  rewrite (smul4_one _ _ Hw).
  rewrite (mul_one_l (ms_accumulatedOpacity st))
    by (apply nonneg_finite_valid, in_unit_interval_nonneg_finite, HA).
  reflexivity.
Qed.

Lemma composite_body_of :
  forall st : MidaState,
    composite_body self ray sampleStep (composite_of st)
    = if (dvr_opacity st >=? F32.one)%f32
      then Break (mkCompositeState (ms_t st) (ms_samplePos st)
                    (dvr_opacity st) (dvr_colour st))
      else Continue
             (mkCompositeState (ms_t st + sampleStep)%f32
                (glm.add3 (ms_samplePos st)
                   (glm.smul3 sampleStep (direction ray)))
                (dvr_opacity st) (dvr_colour st)).
Proof.
  intros st.
  unfold composite_body, composite_sampleColor, composite_sampleColor_with.
  rewrite shading_disabled. reflexivity.
Qed.

(** The invariant of the loop. *)
Local Abbreviation combined_invariant st :=
  (mida_invariant self st /\
   opacity_weighted (ms_accumulatedOpacity st) (ms_accumulatedColor st)).

Lemma combined_step_invariant :
  forall st : MidaState,
    combined_invariant st ->
    combined_invariant
      (mkMidaState (ms_t st + sampleStep)%f32
         (glm.add3 (ms_samplePos st) (glm.smul3 sampleStep (direction ray)))
         (F32.std_max
            (getSampleInterpolate (m_pVolume self) (ms_samplePos st))
            (ms_maxVal st))
         (dvr_opacity st) (dvr_colour st)).
Proof.
  intros st [(HA & Hmn & Hmle) Hw].
  destruct (samples_in_range (ms_samplePos st)) as [Hvn Hvle].
  pose proof (composite_weighted _ _ _ Hw
                (table_in_unit_interval (ms_samplePos st))) as Hup.
  cbv zeta in Hup.
  split; [|exact Hup].
  split; [apply Hup|]. cbn [ms_maxVal].
  unfold F32.std_max.
  match goal with
  | |- context [if ?c then _ else _] => destruct c
  end; split; assumption.
Qed.

(** Once the opacity is 1 the Combined tracer goes on to the end of the
    ray, but its colour changes no more. *)
Lemma combined_saturated :
  forall (fuel : nat) (st final : MidaState),
    combined_invariant st ->
    ms_accumulatedOpacity st = F32.one ->
    run_loop (mida_guard ray) (combined_body self ray sampleStep) fuel st
    = Some final ->
    ms_accumulatedColor final = ms_accumulatedColor st.
Proof.
  induction fuel as [|fuel IH]; intros st final Hinv Hone Hrun;
    cbn [run_loop] in Hrun; destruct (mida_guard ray st); try discriminate;
    try (injection Hrun as <-; reflexivity).
  rewrite (combined_body_gamma_minus_one st (proj1 Hinv) (proj2 Hinv)) in Hrun.
  pose proof (combined_step_invariant st Hinv) as Hnext.
  destruct Hinv as [_ (HA & Hw & Hx & Hy & Hz)].
  destruct (colour_in_unit_interval_channels _
              (table_in_unit_interval (ms_samplePos st)))
    as (Hcx & Hcy & Hcz & Ho).
  assert (Hs : exists s, dvr_weight st = S754_zero s).
  { rewrite Hone. change (F32.one - F32.one)%f32 with F32.zero.
    apply mul_zero_l. apply in_unit_interval_nonneg_finite. exact Ho. }
  destruct Hs as [s Hs].
  assert (Hzero : forall c : float,
            in_unit_interval c = true ->
            exists s', (S754_zero s * c)%f32 = S754_zero s').
  { intros c Hc.
    destruct (nonneg_finite_shape c (in_unit_interval_nonneg_finite c Hc))
      as [[sc ->] | (m & e & ->)]; eexists; reflexivity. }
  assert (Hcol : dvr_colour st = ms_accumulatedColor st).
  { rewrite Hs. unfold glm.add4, glm.smul4, glm.vec4_of, glm.vec3_of_vec4.
    cbn [x3 y3 z3 x4 y4 z4 w4].
    destruct (Hzero _ Hcx) as [sx ->]. destruct (Hzero _ Hcy) as [sy ->].
    destruct (Hzero _ Hcz) as [sz ->].
    destruct (Hzero F32.one eq_refl) as [sw ->].
    rewrite (add_zero_r _ sx (proj1 Hx)), (add_zero_r _ sy (proj1 Hy)),
      (add_zero_r _ sz (proj1 Hz)).
    rewrite Hw, Hone. replace (F32.one + S754_zero sw)%f32 with F32.one
      by (destruct sw; reflexivity).
    rewrite <- Hone, <- Hw. destruct (ms_accumulatedColor st); reflexivity. }
  assert (Hop : dvr_opacity st = F32.one).
  { rewrite Hs, Hone. destruct s; reflexivity. }
  rewrite <- Hcol.
  apply (IH _ final Hnext); [exact Hop | exact Hrun].
Qed.

Lemma combined_simulates_composite :
  forall (fuel : nat) (st final : MidaState),
    combined_invariant st ->
    run_loop (mida_guard ray) (combined_body self ray sampleStep) fuel st
    = Some final ->
    exists final' : CompositeState,
      run_loop (composite_guard ray) (composite_body self ray sampleStep)
               fuel (composite_of st) = Some final' /\
      cs_accumulatedColor final' = ms_accumulatedColor final.
Proof.
  induction fuel as [|fuel IH]; intros st final Hinv Hrun;
    cbn [run_loop] in *; unfold composite_guard at 1; cbn [cs_t];
    fold (mida_guard ray st); destruct (mida_guard ray st);
    try discriminate;
    try (injection Hrun as <-; eexists; split; reflexivity).
  rewrite (combined_body_gamma_minus_one st (proj1 Hinv) (proj2 Hinv)) in Hrun.
  pose proof (combined_step_invariant st Hinv) as Hnext.
  rewrite composite_body_of.
  destruct (dvr_opacity st >=? F32.one)%f32 eqn:Hsat.
  - eexists. split; [reflexivity|]. cbn [cs_accumulatedColor].
    symmetry.
    apply (combined_saturated fuel _ final Hnext); [|exact Hrun].
    cbn [ms_accumulatedOpacity].
    apply in_unit_interval_geb_one; [apply Hnext | exact Hsat].
  - apply (IH _ final Hnext Hrun).
Qed.
End GammaMinusOne.
End CombinedEnds.

(** X11: With [gamma = 1] the Combined tracer is maximum intensity projection:
    with volume shading disabled, a transfer function whose colours and
    opacities are in [0, 1] at every sample, and samples that are [+0] or
    positive and at most the positive maximum of the volume, it returns
    what [traceRayMIP] returns, for every amount of fuel. *)
Theorem traceRayCombined_gamma_one_is_MIP :
  forall `{Platform} (self : Renderer) (ray : Ray) (sampleStep : float)
         (fuel : nat),
    gamma (m_config self) = F32.one ->
    volumeShading (m_config self) = false ->
    (forall pos : vec3,
       colour_in_unit_interval
         (getTFValue self (getSampleInterpolate (m_pVolume self) pos))
       = true) ->
    nonneg_finite (maximum (m_pVolume self)) = true /\
    (F32.zero <? maximum (m_pVolume self))%f32 = true ->
    (forall pos : vec3,
       zero_or_positive (getSampleInterpolate (m_pVolume self) pos) = true /\
       (getSampleInterpolate (m_pVolume self) pos
        <=? maximum (m_pVolume self))%f32 = true) ->
    traceRayCombined self fuel ray sampleStep
    = traceRayMIP self fuel ray sampleStep.
Proof.
  intros P self ray sampleStep fuel Hg Hshading Htable Hmax Hsamples.
  apply (traceRayCombined_gamma_one_loops self ray sampleStep Hshading Htable
           Hmax Hg Hsamples fuel).
Qed.

(** X12: With [gamma = -1] the Combined tracer is the Composite tracer without
    its early exit: with volume shading disabled, a transfer function whose
    colours and opacities are in [0, 1] at every sample, and samples between
    0 and the positive maximum of the volume, whatever the Combined tracer
    returns the Composite tracer returns too, with the same fuel. *)
Theorem traceRayCombined_gamma_minus_one_is_Composite :
  forall `{Platform} (self : Renderer) (ray : Ray) (sampleStep : float),
    gamma (m_config self) = F32.neg F32.one ->
    volumeShading (m_config self) = false ->
    (forall pos : vec3,
       colour_in_unit_interval
         (getTFValue self (getSampleInterpolate (m_pVolume self) pos))
       = true) ->
    nonneg_finite (maximum (m_pVolume self)) = true /\
    (F32.zero <? maximum (m_pVolume self))%f32 = true ->
    (forall pos : vec3,
       nonneg_finite (getSampleInterpolate (m_pVolume self) pos) = true /\
       (getSampleInterpolate (m_pVolume self) pos
        <=? maximum (m_pVolume self))%f32 = true) ->
    forall (fuel : nat) (c : vec4),
      traceRayCombined self fuel ray sampleStep = Some c ->
      traceRayComposite self fuel ray sampleStep = Some c.
Proof.
  intros P self ray sampleStep Hg Hshading Htable Hmax Hsamples fuel c Hrun.
  unfold traceRayCombined in Hrun.
  destruct (run_loop _ _ fuel (mida_init ray)) as [final|] eqn:Hloop;
    [|discriminate].
  cbn [option_map] in Hrun. injection Hrun as <-.
  destruct (combined_simulates_composite self ray sampleStep Hshading Htable
              Hmax Hg Hsamples fuel (mida_init ray) final)
    as (final' & Hrun' & Hcol).
  - split; [|apply opacity_weighted_init].
    apply (mida_init_invariant self ray Hmax).
  - exact Hloop.
  - unfold traceRayComposite.
    change (composite_init ray)
      with (mkCompositeState (ms_t (mida_init ray))
              (ms_samplePos (mida_init ray))
              (ms_accumulatedOpacity (mida_init ray))
              (ms_accumulatedColor (mida_init ray))).
    rewrite Hrun'. cbn [option_map]. rewrite Hcol.
    unfold combined_result. rewrite Hg. reflexivity.
Qed.

(** ** Normalised grey levels *)

Lemma normalized_unit_interval :
  forall (self : Renderer) (v : float),
    nonneg_finite (maximum (m_pVolume self)) = true /\
    (F32.zero <? maximum (m_pVolume self))%f32 = true ->
    nonneg_finite v = true ->
    (v <=? maximum (m_pVolume self))%f32 = true ->
    in_unit_interval (v / maximum (m_pVolume self))%f32 = true.
Proof.
  intros self v Hmax Hv Hle.
  destruct (normalized_value self Hmax v Hv Hle) as [Hn HW].
  pose proof (value_of_maximum_pos self Hmax) as Hpos.
  pose proof (value_of_nonneg v Hv) as Hv0.
  assert (HvU : value_of v <= value_of (maximum (m_pVolume self)))
    by (apply (leb_value v _ Hv (proj1 Hmax)); exact Hle).
  apply in_unit_interval_spec. split; [exact Hn|]. rewrite HW.
  pose proof (div_repr_le_unit (value_of v) _ Hv0 HvU Hpos) as Hdu.
  pose proof (div_repr_nonneg (value_of v) _ Hv0 Hpos) as Hd0.
  destruct (Z.eq_dec (div_repr (value_of v)
                        (value_of (maximum (m_pVolume self)))) 0)
    as [->|Hne].
  - rewrite round_value_0. destruct unit_value_facts as (HU0 & _). lia.
  - apply round_value_le_representable;
      [lia | exact Hdu | exact representable_unit].
Qed.

(** ** The slicer *)

(** X5: [traceRaySlice] returns an opaque grey whose level is
    [std::max(val / maximum, 0)]: never below 0, equal to 0 for a negative
    ratio and equal to the ratio otherwise, so that a NaN ratio passes
    through and a ratio above 1 is not clamped.  For a sample between 0 and
    the positive maximum of the volume the level is the ratio itself and
    lies in [0, 1]. *)
Theorem traceRaySlice_level :
  forall (self : Renderer) (ray : Ray) (volumeCenter planeNormal : vec3),
    let t :=
      (glm.dot (glm.sub3 volumeCenter (origin ray)) planeNormal
       / glm.dot (direction ray) planeNormal)%f32 in
    let val :=
      getSampleInterpolate (m_pVolume self)
        (glm.add3 (origin ray) (glm.muls3 (direction ray) t)) in
    let ratio := (val / maximum (m_pVolume self))%f32 in
    exists level : float,
      traceRaySlice self ray volumeCenter planeNormal
      = Vec4 level level level F32.one /\
      (level <? F32.zero)%f32 = false /\
      ((ratio <? F32.zero)%f32 = true -> level = F32.zero) /\
      ((ratio <? F32.zero)%f32 = false -> level = ratio) /\
      (F32.isnan ratio = false -> (F32.zero <=? level)%f32 = true) /\
      (F32.isnan ratio = true -> F32.isnan level = true) /\
      (in_unit_interval ratio = true ->
       level = ratio /\ in_unit_interval level = true) /\
      (nonneg_finite (maximum (m_pVolume self)) = true /\
       (F32.zero <? maximum (m_pVolume self))%f32 = true ->
       nonneg_finite val = true ->
       (val <=? maximum (m_pVolume self))%f32 = true ->
       level = ratio /\ in_unit_interval level = true).
Proof.
  intros self ray volumeCenter planeNormal t val ratio.
  assert (Hunit : in_unit_interval ratio = true ->
                  F32.std_max ratio F32.zero = ratio /\
                  in_unit_interval (F32.std_max ratio F32.zero) = true).
  { intros Hin.
    assert (Hneg : (ratio <? F32.zero)%f32 = false).
    { apply leb_ltb_false. unfold in_unit_interval in Hin.
      apply andb_true_iff in Hin. destruct Hin as [Hin _].
      apply andb_true_iff in Hin. exact (proj2 Hin). }
    unfold F32.std_max. rewrite Hneg. split; [reflexivity | exact Hin]. }
  exists (F32.std_max ratio F32.zero).
  split; [reflexivity|].
  split; [|split; [|split; [|split; [|split; [|split; [exact Hunit|]]]]]].
  - unfold F32.std_max. destruct (ratio <? F32.zero)%f32 eqn:Hneg;
      [reflexivity | exact Hneg].
  - intros Hneg. unfold F32.std_max. rewrite Hneg. reflexivity.
  - intros Hneg. unfold F32.std_max. rewrite Hneg. reflexivity.
  - intros Hnum. unfold F32.std_max.
    destruct (ratio <? F32.zero)%f32 eqn:Hneg; [reflexivity|].
    apply ltb_false_leb; [exact Hnum | reflexivity | exact Hneg].
  - intros Hnan. apply isnan_nan in Hnan. rewrite Hnan. reflexivity.
  - intros Hmax Hval Hle. apply Hunit.
    apply (normalized_unit_interval self val Hmax Hval Hle).
Qed.

Lemma running_max_in_range :
  forall (m : float) (vals : list float) (bound : float),
    nonneg_finite m = true -> (m <=? bound)%f32 = true ->
    (forall v, In v vals ->
       nonneg_finite v = true /\ (v <=? bound)%f32 = true) ->
    nonneg_finite (running_max m vals) = true /\
    (running_max m vals <=? bound)%f32 = true.
Proof.
  intros m vals bound. revert m.
  induction vals as [|v vals IH]; intros m Hm Hle Hvals;
    [split; assumption|].
  cbn [running_max fold_left].
  destruct (Hvals v (or_introl eq_refl)) as [Hv Hvle].
  apply IH.
  - unfold F32.std_max. destruct (v <? m)%f32; assumption.
  - unfold F32.std_max. destruct (v <? m)%f32; assumption.
  - intros u Hu. apply Hvals. right. exact Hu.
Qed.

(** X8: When the samples lie between 0 and the positive maximum of the volume,
    [traceRayMIP] returns an opaque grey whose level is in [0, 1]. *)
Theorem traceRayMIP_normalised :
  forall (self : Renderer) (ray : Ray) (sampleStep : float),
    nonneg_finite (maximum (m_pVolume self)) = true /\
    (F32.zero <? maximum (m_pVolume self))%f32 = true ->
    (forall pos : vec3,
       nonneg_finite (getSampleInterpolate (m_pVolume self) pos) = true /\
       (getSampleInterpolate (m_pVolume self) pos
        <=? maximum (m_pVolume self))%f32 = true) ->
    forall (fuel : nat) (c : vec4),
      traceRayMIP self fuel ray sampleStep = Some c ->
      exists level : float,
        c = Vec4 level level level F32.one /\
        in_unit_interval level = true.
Proof.
  intros self ray sampleStep Hmax Hsamples fuel c Hrun.
  unfold traceRayMIP in Hrun.
  destruct (run_loop _ _ fuel (mip_init ray)) as [st|] eqn:Hloop;
    [|discriminate].
  cbn [option_map] in Hrun. injection Hrun as <-.
  destruct (run_loop_counted_inv _ _ (mip_body self ray sampleStep)
              (mip_step self ray sampleStep) (fun s => eq_refl)
              fuel _ _ Hloop) as (n & _ & -> & _ & _).
  rewrite mip_iter. cbn [mip_maxVal].
  eexists. split; [reflexivity|].
  destruct (running_max_in_range F32.zero
              (ray_samples self ray sampleStep n)
              (maximum (m_pVolume self)) eq_refl
              (ltb_leb _ _ (proj2 Hmax))) as [Hn Hle].
  { intros v Hv. destruct (ray_samples_in _ _ _ _ _ _ Hv) as (k & _ & ->).
    apply Hsamples. }
  apply (normalized_unit_interval self _ Hmax Hn Hle).
Qed.

(** ** The Combined tracer over its whole range *)

(** [1 + gamma] for a [gamma] from -1 to 0. *)
Lemma one_plus_nonpositive :
  forall g : float,
    in_unit_interval (F32.abs g) = true -> (g <=? F32.zero)%f32 = true ->
    in_unit_interval (F32.one + g)%f32 = true.
Proof.
  intros g Habs Hle.
  destruct g as [s|s| |s m e].
  - destruct s; reflexivity.
  - discriminate Habs.
  - discriminate Habs.
  - destruct s; [|discriminate Hle].
    change (F32.one + S754_finite true m e)%f32
      with (F32.one - S754_finite false m e)%f32.
    apply one_minus_unit_interval. exact Habs.
Qed.

Lemma positive_gamma :
  forall g : float,
    in_unit_interval (F32.abs g) = true -> (g <=? F32.zero)%f32 = false ->
    in_unit_interval g = true.
Proof.
  intros g Habs Hle.
  destruct g as [s|s| |s m e].
  - destruct s; discriminate Hle.
  - discriminate Habs.
  - discriminate Habs.
  - destruct s; [discriminate Hle | exact Habs].
Qed.

(** [mix(x, y, a) = x * (1 - a) + y * a] of numbers in [0, 1]. *)
Lemma mix_unit_interval :
  forall x y a : float,
    in_unit_interval x = true -> in_unit_interval y = true ->
    in_unit_interval a = true ->
    in_unit_interval (x * (F32.one - a) + y * a)%f32 = true.
Proof.
  intros x y a Hx Hy Ha.
  pose proof (one_minus_unit_interval a Ha) as Hr.
  destruct (mul_unit_interval x _ Hx Hr) as [Hp HpW].
  destruct (mul_unit_interval y a Hy Ha) as [Hq HqW].
  pose proof (in_unit_interval_nonneg_finite _ Hp) as Hpn.
  pose proof (in_unit_interval_nonneg_finite _ Hq) as Hqn.
  pose proof (in_unit_interval_nonneg_finite _ Ha) as Han.
  destruct (add_within_complement a _ Ha Hpn HpW) as (Hsum & _ & HsumW).
  pose proof Hsum as Hsum'. apply in_unit_interval_spec in Hsum'.
  destruct Hsum' as [Hsn HsU].
  pose proof (value_of_nonneg _ Hpn). pose proof (value_of_nonneg _ Hqn).
  pose proof (value_of_nonneg _ Han).
  apply in_unit_interval_spec in Ha. destruct Ha as [_ HaU].
  apply in_unit_interval_spec in Hr. destruct Hr as [Hrn HrU].
  destruct unit_value_facts as (HU0 & HU2 & _).
  destruct (add_value (x * (F32.one - a))%f32 (y * a)%f32 Hpn Hqn
              ltac:(lia)) as [Hn HW].
  apply in_unit_interval_spec. split; [exact Hn|].
  rewrite HW.
  apply Z.le_trans with (m := round_value (value_of a
                                + value_of (x * (F32.one - a))%f32)).
  - apply round_value_mono; lia.
  - rewrite <- HsumW. exact HsU.
Qed.

Section CombinedRange.
Context `{Platform}.
Variable self : Renderer.
Variable ray : Ray.
Variable sampleStep : float.

Hypothesis gamma_range :
  in_unit_interval (F32.abs (gamma (m_config self))) = true.
Hypothesis shading_disabled : volumeShading (m_config self) = false.
Hypothesis table_in_unit_interval :
  forall pos : vec3,
    colour_in_unit_interval
      (getTFValue self (getSampleInterpolate (m_pVolume self) pos)) = true.
Hypothesis maximum_positive :
  nonneg_finite (maximum (m_pVolume self)) = true /\
  (F32.zero <? maximum (m_pVolume self))%f32 = true.
Hypothesis samples_in_range :
  forall pos : vec3,
    nonneg_finite (getSampleInterpolate (m_pVolume self) pos) = true /\
    (getSampleInterpolate (m_pVolume self) pos
     <=? maximum (m_pVolume self))%f32 = true.

Lemma combined_beta :
  forall d : float,
    in_unit_interval d = true ->
    let beta :=
      if (gamma (m_config self) <=? F32.zero)%f32
      then (F32.one - d * (F32.one + gamma (m_config self)))%f32
      else (F32.one - d)%f32 in
    in_unit_interval beta = true /\ zero_or_positive beta = true.
Proof.
  intros d Hd beta. unfold beta.
  destruct (gamma (m_config self) <=? F32.zero)%f32 eqn:Hg.
  - pose proof (one_plus_nonpositive _ gamma_range Hg) as Hone.
    destruct (mul_unit_interval d _ Hd Hone) as [Hk _].
    split; [apply one_minus_unit_interval | apply one_minus_zero_or_positive];
      exact Hk.
  - split; [apply one_minus_unit_interval | apply one_minus_zero_or_positive];
      exact Hd.
Qed.

Lemma combined_step_range :
  forall st st',
    mida_invariant self st /\
    opacity_weighted (ms_accumulatedOpacity st) (ms_accumulatedColor st) ->
    loop_step (mida_guard ray) (combined_body self ray sampleStep) st st' ->
    mida_invariant self st' /\
    opacity_weighted (ms_accumulatedOpacity st') (ms_accumulatedColor st').
Proof.
  intros st st' [(HA & Hmn & Hmle) Hw] [_ Hbody].
  destruct (samples_in_range (ms_samplePos st)) as [Hvn Hvle].
  pose proof (mida_delta_unit_interval self maximum_positive _ _
                Hvn Hvle Hmn Hmle) as Hd.
  destruct (combined_beta _ Hd) as [Hb Hbz].
  pose proof (blend_weighted _ _ _ _ Hb Hbz Hw
                (table_in_unit_interval (ms_samplePos st))) as Hup.
  cbv zeta in Hup.
  unfold combined_body, shadedSampleColor, shadedSampleColor_with in Hbody.
  rewrite shading_disabled in Hbody.
  destruct Hbody as [Hbd|Hbd]; [|discriminate].
  injection Hbd as <-.
  cbn [ms_accumulatedOpacity ms_accumulatedColor ms_maxVal].
  split; [|exact Hup].
  split; [apply Hup|].
  unfold F32.std_max.
  match goal with
  | |- context [if ?c then _ else _] => destruct c
  end; split; assumption.
Qed.

Lemma combined_run_range :
  forall (fuel : nat) (st : MidaState),
    run_loop (mida_guard ray) (combined_body self ray sampleStep) fuel
             (mida_init ray) = Some st ->
    mida_invariant self st /\
    opacity_weighted (ms_accumulatedOpacity st) (ms_accumulatedColor st).
Proof.
  intros fuel st Hrun.
  set (Inv := fun s : MidaState =>
                mida_invariant self s /\
                opacity_weighted (ms_accumulatedOpacity s)
                                 (ms_accumulatedColor s)).
  assert (Hinv : forall s,
            loop_reaches (mida_guard ray)
              (combined_body self ray sampleStep) (mida_init ray) s ->
            Inv s).
  { apply (loop_reaches_invariant MidaState _ _ Inv).
    - split; [apply (mida_init_invariant self ray maximum_positive)
             | apply opacity_weighted_init].
    - intros s s' Hs Hstep. apply (combined_step_range s s' Hs Hstep). }
  destruct (run_loop_reaches _ _ _ _ fuel _ _
              (reaches_start _ _ (mida_init ray)) Hrun)
    as [[Hreach _] | (s1 & Hreach & Hg & Hb)].
  - apply (Hinv st Hreach).
  - apply (combined_step_range s1 st (Hinv s1 Hreach)).
    split; [exact Hg | right; exact Hb].
Qed.

Lemma combined_result_range :
  forall st : MidaState,
    mida_invariant self st ->
    opacity_weighted (ms_accumulatedOpacity st) (ms_accumulatedColor st) ->
    colour_in_unit_interval (combined_result self st) = true.
Proof.
  intros st (_ & Hmn & Hmle) Hw.
  destruct (opacity_weighted_colour _ _ Hw) as [HC _].
  unfold combined_result.
  destruct (gamma (m_config self) <=? F32.zero)%f32 eqn:Hg; [exact HC|].
  pose proof (positive_gamma _ gamma_range Hg) as Hgu.
  pose proof (normalized_unit_interval self _ maximum_positive Hmn Hmle)
    as Hy.
  destruct (colour_in_unit_interval_channels _ HC) as (Hx & Hy' & Hz & Hw').
  unfold colour_in_unit_interval, glm.mix4, glm.add4, glm.muls4, glm.vec4_of,
    glm.sdivr3, glm.splat3.
  cbn [x3 y3 z3 x4 y4 z4 w4].
  rewrite !mix_unit_interval; try assumption; reflexivity.
Qed.
End CombinedRange.

(** For every [gamma] from -1 to 1, with volume shading disabled, a
    transfer function whose colours and opacities are in [0, 1] at every
    sample, and samples between 0 and the positive maximum of the volume,
    the four channels of the colour that [traceRayCombined] returns are in
    [0, 1]. *)
Lemma combined_result_in_unit_interval :
  forall `{Platform} (self : Renderer) (ray : Ray) (sampleStep : float),
    in_unit_interval (F32.abs (gamma (m_config self))) = true ->
    volumeShading (m_config self) = false ->
    (forall pos : vec3,
       colour_in_unit_interval
         (getTFValue self (getSampleInterpolate (m_pVolume self) pos))
       = true) ->
    nonneg_finite (maximum (m_pVolume self)) = true /\
    (F32.zero <? maximum (m_pVolume self))%f32 = true ->
    (forall pos : vec3,
       nonneg_finite (getSampleInterpolate (m_pVolume self) pos) = true /\
       (getSampleInterpolate (m_pVolume self) pos
        <=? maximum (m_pVolume self))%f32 = true) ->
    forall (fuel : nat) (c : vec4),
      traceRayCombined self fuel ray sampleStep = Some c ->
      colour_in_unit_interval c = true.
Proof.
  intros P self ray sampleStep Hg Hshading Htable Hmax Hsamples fuel c Hrun.
  unfold traceRayCombined in Hrun.
  destruct (run_loop _ _ fuel (mida_init ray)) as [st|] eqn:Hloop;
    [|discriminate].
  cbn [option_map] in Hrun. injection Hrun as <-.
  destruct (combined_run_range self ray sampleStep Hg Hshading Htable Hmax
              Hsamples fuel st Hloop) as [Hinv Hw].
  apply (combined_result_range self Hg Hmax st Hinv Hw).
Qed.

(** X13: For every [gamma] from -1 to 1, with volume shading disabled, a
    transfer function whose colours and opacities are in [0, 1] at every
    sample, and samples between 0 and the positive maximum of the volume,
    [traceRayCombined] returns a colour for every ray whose sampling ends,
    and the four channels of the colour it returns are in [0, 1]. *)
Theorem traceRayCombined_colour_in_unit_interval :
  forall `{Platform} (self : Renderer) (ray : Ray) (sampleStep : float),
    in_unit_interval (F32.abs (gamma (m_config self))) = true ->
    volumeShading (m_config self) = false ->
    (forall pos : vec3,
       colour_in_unit_interval
         (getTFValue self (getSampleInterpolate (m_pVolume self) pos))
       = true) ->
    nonneg_finite (maximum (m_pVolume self)) = true /\
    (F32.zero <? maximum (m_pVolume self))%f32 = true ->
    (forall pos : vec3,
       nonneg_finite (getSampleInterpolate (m_pVolume self) pos) = true /\
       (getSampleInterpolate (m_pVolume self) pos
        <=? maximum (m_pVolume self))%f32 = true) ->
    (forall n fuel : nat,
       (n <= fuel)%nat -> samples_end_at ray sampleStep n ->
       exists c : vec4,
         traceRayCombined self fuel ray sampleStep = Some c /\
         colour_in_unit_interval c = true) /\
    (forall (fuel : nat) (c : vec4),
       traceRayCombined self fuel ray sampleStep = Some c ->
       colour_in_unit_interval c = true).
Proof.
  intros P self ray sampleStep Hg Hshading Htable Hmax Hsamples.
  pose proof (combined_result_in_unit_interval self ray sampleStep Hg Hshading
                Htable Hmax Hsamples) as Hany.
  split; [|exact Hany].
  intros n fuel Hfuel Hend.
  destruct (traceRayCombined_returns self ray sampleStep n fuel Hfuel Hend)
    as [c Hrun].
  exists c. split; [exact Hrun|]. exact (Hany fuel c Hrun).
Qed.

(** ** Outside the triangle of the 2D transfer function *)

Lemma gtb_nan :
  forall x : float,
    (S754_nan >? x)%f32 = false /\ (x >? S754_nan)%f32 = false.
Proof. intros [s|s| |s m e]; split; reflexivity. Qed.

(** X15: [getTF2DOpacity] is 0 outside the open triangle: for an intensity at or
    beyond an end of the span [apex - radius, apex + radius], for a gradient
    magnitude at or above the base of the triangle, for a point on one of
    the two edge lines, and for a NaN as intensity or as gradient
    magnitude. *)
Theorem getTF2DOpacity_outside_triangle :
  forall (self : Renderer) (intensity gradientMagnitude : float),
    let apexIntensity := TF2DIntensity (m_config self) in
    let radius := TF2DRadius (m_config self) in
    (intensity <=? apexIntensity - radius)%f32 = true \/
    (apexIntensity + radius <=? intensity)%f32 = true \/
    (maxMagnitude (m_pGradientVolume self) <=? gradientMagnitude)%f32 = true \/
    gradientMagnitude = (tf2d_m1 self * intensity + tf2d_q1 self)%f32 \/
    gradientMagnitude = (tf2d_m2 self * intensity + tf2d_q2 self)%f32 \/
    F32.isnan intensity = true \/
    F32.isnan gradientMagnitude = true ->
    getTF2DOpacity self intensity gradientMagnitude = F32.zero.
Proof.
  intros self intensity g apexIntensity radius Hout.
  unfold getTF2DOpacity.
  replace (tf2d_inside self intensity g) with false; [reflexivity|].
  symmetry. unfold tf2d_inside. fold apexIntensity radius.
  destruct Hout as [H1 | [H2 | [H3 | [H4 | [H5 | [H6 | H7]]]]]].
  - rewrite (leb_gtb_false _ _ H1). rewrite andb_false_r. reflexivity.
  - rewrite (leb_ltb_false _ _ H2). apply andb_false_r.
  - rewrite (leb_ltb_false _ _ H3). rewrite !andb_false_r. reflexivity.
  - rewrite <- H4. unfold F32.gtb at 1. fold (F32.ltb g g).
    rewrite ltb_irrefl. reflexivity.
  - rewrite <- H5. unfold F32.gtb at 2. fold (F32.ltb g g).
    rewrite ltb_irrefl. rewrite andb_false_r. reflexivity.
  - apply isnan_nan in H6. rewrite H6.
    rewrite (proj1 (gtb_nan _)). rewrite andb_false_r. reflexivity.
  - apply isnan_nan in H7. rewrite H7.
    rewrite (proj1 (gtb_nan _)). reflexivity.
Qed.

(** ** The orientation of the light vector *)

Lemma binary_round_aux_opp :
  forall (s : bool) (M E : Z) (l : location),
    binary_round_aux 24 128 (negb s) M E l
    = F32.neg (binary_round_aux 24 128 s M E l).
Proof.
  intros s M E l. unfold binary_round_aux.
  destruct (shr_fexp 24 128 M E l) as [mrs e'].
  destruct (shr_fexp 24 128 _ e' loc_Exact) as [mrs' e''].
  destruct (shr_m mrs') as [|m|m]; try reflexivity.
  destruct (e'' <=? 128 - 24); reflexivity.
Qed.

Lemma binary_round_opp :
  forall (s : bool) (m : positive) (e : Z),
    binary_round 24 128 (negb s) m e = F32.neg (binary_round 24 128 s m e).
Proof.
  intros s m e. unfold binary_round.
  destruct (shl_align m e _) as [mz ez]. apply binary_round_aux_opp.
Qed.

Lemma binary_normalize_opp :
  forall (M e : Z),
    opposite (binary_normalize 24 128 M e false)
             (binary_normalize 24 128 (- M) e false).
Proof.
  intros [|m|m] e; cbn [Z.opp binary_normalize].
  - right. split; reflexivity.
  - left. apply (binary_round_opp false).
  - left. rewrite (binary_round_opp false).
    destruct (binary_round 24 128 false m e) as [[|]|[|]| |[|] ? ?];
      reflexivity.
Qed.

Lemma neg_involutive : forall x : float, F32.neg (F32.neg x) = x.
Proof. intros [[|]|[|]| |[|] m e]; reflexivity. Qed.

Lemma mul_neg_l :
  forall x y : float, (F32.neg x * y)%f32 = F32.neg (x * y)%f32.
Proof.
  intros [sx|sx| |sx mx ex] [sy|sy| |sy my ey]; try reflexivity;
    try (destruct sx, sy; reflexivity).
  change (F32.neg (S754_finite sx mx ex)) with (S754_finite (negb sx) mx ex).
  unfold F32.mul, SFmul, F32.prec, F32.emax.
  replace (xorb (negb sx) sy) with (negb (xorb sx sy))
    by (destruct sx, sy; reflexivity).
  apply binary_round_aux_opp.
Qed.

Lemma opposite_refl_zero :
  forall s s' : bool, opposite (S754_zero s) (S754_zero s').
Proof. intros. right. split; reflexivity. Qed.

Lemma opposite_neg : forall x : float, opposite x (F32.neg x).
Proof. intros x. left. reflexivity. Qed.

Lemma is_zero_cases :
  forall x : float, is_zero x = true -> exists s, x = S754_zero s.
Proof. intros [s|s| |s m e] H; try discriminate. exists s. reflexivity. Qed.

(** Products with a common factor. *)
Lemma opposite_mul_l :
  forall a a' b : float, opposite a a' -> opposite (a * b)%f32 (a' * b)%f32.
Proof.
  intros a a' b [-> | [Ha Ha']].
  - left. apply mul_neg_l.
  - destruct (is_zero_cases _ Ha) as [s ->].
    destruct (is_zero_cases _ Ha') as [s' ->].
    destruct b as [sb|sb| |sb mb eb]; try (left; reflexivity);
      right; split; reflexivity.
Qed.

Lemma opposite_mul_r :
  forall a b b' : float, opposite b b' -> opposite (a * b)%f32 (a * b')%f32.
Proof.
  intros a b b' Hb. rewrite (mul_comm a b), (mul_comm a b').
  apply opposite_mul_l. exact Hb.
Qed.

(** The square of opposite values is the same. *)
Lemma opposite_square :
  forall a a' : float, opposite a a' -> (a * a)%f32 = (a' * a')%f32.
Proof.
  intros a a' [-> | [Ha Ha']].
  - rewrite mul_neg_l, (mul_comm a (F32.neg a)), mul_neg_l, neg_involutive.
    reflexivity.
  - destruct (is_zero_cases _ Ha) as [s ->].
    destruct (is_zero_cases _ Ha') as [s' ->].
    destruct s, s'; reflexivity.
Qed.

Lemma add_neg_neg :
  forall x y : float,
    opposite (x + y)%f32 (F32.neg x + F32.neg y)%f32.
Proof.
  intros [sx|sx| |sx mx ex] [sy|sy| |sy my ey];
    try (left; reflexivity);
    try (destruct sx, sy; (left; reflexivity) || (right; split; reflexivity)).
  unfold F32.add, SFadd, F32.neg, SFopp, F32.prec, F32.emax.
  match goal with
  | |- opposite (binary_normalize _ _ ?M ?e _) (binary_normalize _ _ ?M' _ _) =>
      replace M' with (- M)
        by (destruct sx, sy; cbn [cond_Zopp negb]; lia)
  end.
  apply binary_normalize_opp.
Qed.

Lemma sub_neg_neg :
  forall x y : float,
    opposite (x - y)%f32 (F32.neg x - F32.neg y)%f32.
Proof.
  intros [sx|sx| |sx mx ex] [sy|sy| |sy my ey];
    try (left; reflexivity);
    try (destruct sx, sy; (left; reflexivity) || (right; split; reflexivity)).
  unfold F32.sub, SFsub, F32.neg, SFopp, F32.prec, F32.emax.
  match goal with
  | |- opposite (binary_normalize _ _ ?M ?e _) (binary_normalize _ _ ?M' _ _) =>
      replace M' with (- M)
        by (destruct sx, sy; cbn [cond_Zopp negb]; lia)
  end.
  apply binary_normalize_opp.
Qed.

Lemma add_zero_any :
  forall (x : float) (s : bool),
    is_zero x = false -> (x + S754_zero s)%f32 = x /\ (S754_zero s + x)%f32 = x.
Proof.
  intros [sx|sx| |sx mx ex] s Hx; try discriminate; split; reflexivity.
Qed.

Lemma sub_zero_any :
  forall (x : float) (s : bool),
    is_zero x = false ->
    (x - S754_zero s)%f32 = x /\ (S754_zero s - x)%f32 = F32.neg x.
Proof.
  intros [sx|sx| |sx mx ex] s Hx; try discriminate; split; reflexivity.
Qed.

Lemma is_zero_neg : forall x : float, is_zero (F32.neg x) = is_zero x.
Proof. intros [s|s| |s m e]; reflexivity. Qed.

Lemma zero_add_zero :
  forall s s' : bool, is_zero (S754_zero s + S754_zero s')%f32 = true.
Proof. intros [|] [|]; reflexivity. Qed.

Lemma zero_sub_zero :
  forall s s' : bool, is_zero (S754_zero s - S754_zero s')%f32 = true.
Proof. intros [|] [|]; reflexivity. Qed.

Lemma opposite_add :
  forall a a' b b' : float,
    opposite a a' -> opposite b b' -> opposite (a + b)%f32 (a' + b')%f32.
Proof.
  intros a a' b b' [-> | [Ha Ha']] [-> | [Hb Hb']].
  - apply add_neg_neg.
  - destruct (is_zero_cases _ Hb) as [s ->].
    destruct (is_zero_cases _ Hb') as [s' ->].
    destruct (is_zero a) eqn:Hz.
    + destruct (is_zero_cases _ Hz) as [sa ->]. right.
      split; [apply zero_add_zero | apply (zero_add_zero (negb sa))].
    + rewrite (proj1 (add_zero_any a s Hz)).
      rewrite (proj1 (add_zero_any (F32.neg a) s'
                        ltac:(rewrite is_zero_neg; exact Hz))).
      left. reflexivity.
  - destruct (is_zero_cases _ Ha) as [s ->].
    destruct (is_zero_cases _ Ha') as [s' ->].
    destruct (is_zero b) eqn:Hz.
    + destruct (is_zero_cases _ Hz) as [sb ->]. right.
      split; [apply zero_add_zero | apply (zero_add_zero s' (negb sb))].
    + rewrite (proj2 (add_zero_any b s Hz)).
      rewrite (proj2 (add_zero_any (F32.neg b) s'
                        ltac:(rewrite is_zero_neg; exact Hz))).
      left. reflexivity.
  - destruct (is_zero_cases _ Ha) as [sa ->].
    destruct (is_zero_cases _ Ha') as [sa' ->].
    destruct (is_zero_cases _ Hb) as [sb ->].
    destruct (is_zero_cases _ Hb') as [sb' ->].
    right. split; apply zero_add_zero.
Qed.

Lemma opposite_sub :
  forall a a' b b' : float,
    opposite a a' -> opposite b b' -> opposite (a - b)%f32 (a' - b')%f32.
Proof.
  intros a a' b b' [-> | [Ha Ha']] [-> | [Hb Hb']].
  - apply sub_neg_neg.
  - destruct (is_zero_cases _ Hb) as [s ->].
    destruct (is_zero_cases _ Hb') as [s' ->].
    destruct (is_zero a) eqn:Hz.
    + destruct (is_zero_cases _ Hz) as [sa ->]. right.
      split; [apply zero_sub_zero | apply (zero_sub_zero (negb sa))].
    + rewrite (proj1 (sub_zero_any a s Hz)).
      rewrite (proj1 (sub_zero_any (F32.neg a) s'
                        ltac:(rewrite is_zero_neg; exact Hz))).
      left. reflexivity.
  - destruct (is_zero_cases _ Ha) as [s ->].
    destruct (is_zero_cases _ Ha') as [s' ->].
    destruct (is_zero b) eqn:Hz.
    + destruct (is_zero_cases _ Hz) as [sb ->]. right.
      split; [apply zero_sub_zero | apply (zero_sub_zero s' (negb sb))].
    + rewrite (proj2 (sub_zero_any b s Hz)).
      rewrite (proj2 (sub_zero_any (F32.neg b) s'
                        ltac:(rewrite is_zero_neg; exact Hz))).
      left. rewrite neg_involutive.
      destruct b as [sb|sb| |sb mb eb]; try discriminate; reflexivity.
  - destruct (is_zero_cases _ Ha) as [sa ->].
    destruct (is_zero_cases _ Ha') as [sa' ->].
    destruct (is_zero_cases _ Hb) as [sb ->].
    destruct (is_zero_cases _ Hb') as [sb' ->].
    right. split; apply zero_sub_zero.
Qed.

(** Swapping the operands of a difference gives the opposite. *)
Lemma opposite_sub_swap :
  forall x y : float, opposite (x - y)%f32 (y - x)%f32.
Proof.
  intros [sx|sx| |sx mx ex] [sy|sy| |sy my ey];
    try (left; reflexivity);
    try (destruct sx, sy; (left; reflexivity) || (right; split; reflexivity)).
  unfold F32.sub, SFsub, F32.prec, F32.emax.
  rewrite (Z.min_comm ey ex).
  match goal with
  | |- opposite (binary_normalize _ _ ?M ?e _) (binary_normalize _ _ ?M' _ _) =>
      replace M' with (- M) by lia
  end.
  apply binary_normalize_opp.
Qed.

Lemma opposite_abs :
  forall a a' : float, opposite a a' -> F32.abs a = F32.abs a'.
Proof.
  intros a a' [-> | [Ha Ha']].
  - destruct a as [s|s| |s m e]; reflexivity.
  - destruct (is_zero_cases _ Ha) as [s ->].
    destruct (is_zero_cases _ Ha') as [s' ->]. reflexivity.
Qed.

Lemma opposite3_neg3 : forall v : vec3, opposite3 v (neg3 v).
Proof. intros v. repeat split; apply opposite_neg. Qed.

Lemma opposite3_sub3_swap :
  forall u v : vec3, opposite3 (glm.sub3 u v) (glm.sub3 v u).
Proof. intros u v. repeat split; apply opposite_sub_swap. Qed.

Lemma opposite_dot_r :
  forall a b b' : vec3,
    opposite3 b b' -> opposite (glm.dot a b) (glm.dot a b').
Proof.
  intros a b b' (Hx & Hy & Hz). unfold glm.dot.
  repeat apply opposite_add; apply opposite_mul_r; assumption.
Qed.

Lemma opposite_dot_l :
  forall a a' b : vec3,
    opposite3 a a' -> opposite (glm.dot a b) (glm.dot a' b).
Proof.
  intros a a' b (Hx & Hy & Hz). unfold glm.dot.
  repeat apply opposite_add; apply opposite_mul_l; assumption.
Qed.

Lemma dot_self_opposite3 :
  forall v v' : vec3, opposite3 v v' -> glm.dot v v = glm.dot v' v'.
Proof.
  intros v v' (Hx & Hy & Hz). unfold glm.dot.
  rewrite (opposite_square _ _ Hx), (opposite_square _ _ Hy),
    (opposite_square _ _ Hz). reflexivity.
Qed.

Lemma opposite3_normalize :
  forall v v' : vec3,
    opposite3 v v' -> opposite3 (glm.normalize v) (glm.normalize v').
Proof.
  intros v v' Hv. unfold glm.normalize.
  rewrite <- (dot_self_opposite3 v v' Hv).
  destruct Hv as (Hx & Hy & Hz).
  repeat split; cbn [glm.muls3 x3 y3 z3]; apply opposite_mul_l; assumption.
Qed.

Lemma opposite3_reflect :
  forall I I' N : vec3,
    opposite3 I I' -> opposite3 (glm.reflect I N) (glm.reflect I' N).
Proof.
  intros I I' N HI. unfold glm.reflect.
  pose proof (opposite_dot_r N I I' HI) as Hd.
  destruct HI as (Hx & Hy & Hz).
  repeat split; cbn [glm.sub3 glm.muls3 x3 y3 z3];
    apply opposite_sub; try assumption;
    apply opposite_mul_l, opposite_mul_r; exact Hd.
Qed.

(** The shading of opposite light vectors. *)
Lemma computePhongShading_opposite :
  forall `{Platform} (color : vec3) (gradient : GradientVoxel)
         (L L' V : vec3) (ka kd ks alpha : float),
    opposite3 L L' ->
    computePhongShading color gradient L' V ka kd ks alpha
    = computePhongShading color gradient L V ka kd ks alpha.
Proof.
  intros P color gradient L L' V ka kd ks alpha HL.
  unfold computePhongShading.
  rewrite <- (opposite_abs _ _
                (opposite_dot_r (glm.normalize (dir gradient)) L L' HL)).
  rewrite <- (opposite_abs _ _
                (opposite_dot_l _ _ V
                   (opposite3_normalize _ _
                      (opposite3_reflect L L' (dir gradient) HL)))).
  reflexivity.
Qed.

(** X18: The shading does not depend on the orientation of the light vector:
    what [computePhongShading] returns for [-L] is what it returns for [L],
    because the cosines enter through their absolute values.  The light
    vector [normalize(pos - ray.origin)] of the tracers, from the origin to
    the sample, therefore gives the shading that the vector from the sample
    to the origin would give. *)
Theorem computePhongShading_light_orientation :
  forall `{Platform} (color : vec3) (gradient : GradientVoxel) (V : vec3)
         (ka kd ks alpha : float),
    (forall L : vec3,
       computePhongShading color gradient (neg3 L) V ka kd ks alpha
       = computePhongShading color gradient L V ka kd ks alpha) /\
    (forall (ray : Ray) (pos : vec3),
       computePhongShading color gradient
         (glm.normalize (glm.sub3 (origin ray) pos)) V ka kd ks alpha
       = computePhongShading color gradient (lightVector ray pos) V
           ka kd ks alpha).
Proof.
  intros P color gradient V ka kd ks alpha. split.
  - intros L. apply computePhongShading_opposite, opposite3_neg3.
  - intros ray pos. apply computePhongShading_opposite.
    unfold lightVector. apply opposite3_normalize, opposite3_sub3_swap.
Qed.

(** ** Rays with an empty interval *)

Lemma run_loop_guard_false :
  forall (St : Type) (guard : St -> bool) (body : St -> step_result St)
         (fuel : nat) (s : St),
    guard s = false -> run_loop guard body fuel s = Some s.
Proof.
  intros St guard body fuel s Hg.
  destruct fuel; cbn [run_loop]; rewrite Hg; reflexivity.
Qed.

(** X20: A ray whose interval is empty, [tmin <= tmax] being false (as it is
    when [tmin] exceeds [tmax] or one of them is a NaN), is traced without
    taking a sample, whatever the fuel: the Composite, MIDA and Combined
    tracers (the latter for [gamma <= 0]) return transparent black, the 2D
    transfer function tracer returns [TF2DColor * 0], maximum intensity
    projection returns the grey level [0 / maximum], and the isosurface
    tracer returns opaque black with and without shading. *)
Theorem tracers_on_an_empty_interval :
  forall `{Platform} (self : Renderer) (ray : Ray) (sampleStep : float)
         (fuel : nat),
    (tmin ray <=? tmax ray)%f32 = false ->
    traceRayComposite self fuel ray sampleStep = Some (glm.splat4 F32.zero) /\
    traceRayMIDA self fuel ray sampleStep = Some (glm.splat4 F32.zero) /\
    ((gamma (m_config self) <=? F32.zero)%f32 = true ->
     traceRayCombined self fuel ray sampleStep = Some (glm.splat4 F32.zero)) /\
    traceRayTF2D self fuel ray sampleStep
    = Some (glm.muls4 (TF2DColor (m_config self)) F32.zero) /\
    traceRayMIP self fuel ray sampleStep = Some (mip_result self F32.zero) /\
    traceRayISO self fuel ray sampleStep
    = Some (Vec4 F32.zero F32.zero F32.zero F32.one).
Proof.
  intros P self ray sampleStep fuel Hempty.
  split; [|split; [|split; [|split; [|split]]]].
  - unfold traceRayComposite.
    rewrite run_loop_guard_false by exact Hempty. reflexivity.
  - unfold traceRayMIDA.
    rewrite run_loop_guard_false by exact Hempty. reflexivity.
  - intros Hg. unfold traceRayCombined.
    rewrite run_loop_guard_false by exact Hempty.
    cbn [option_map]. unfold combined_result. rewrite Hg. reflexivity.
  - unfold traceRayTF2D.
    rewrite run_loop_guard_false by exact Hempty. reflexivity.
  - unfold traceRayMIP.
    rewrite run_loop_guard_false by exact Hempty. reflexivity.
  - unfold traceRayISO.
    destruct (volumeShading (m_config self)); cbn [negb];
      rewrite run_loop_guard_false by exact Hempty; reflexivity.
Qed.

(** ** The further properties on examples *)

Section MoreOnX86_64.
#[local] Existing Instance Examples.x86_64.

(** A renderer for an image of 2 x 2 pixels: writing pixel (1, 1) is read
    back and leaves pixel (0, 1) as it was. *)
Lemma fillColor_round_trip_witness :
  let this :=
    Renderer_new (Examples.flat_volume 7 100) (Examples.gradients 0 50)
      Examples.camera0
      (Examples.config_for RenderMIP 2 2 false Examples.white_table
         F32.zero) in
  exists this' : RendererObject,
    fillColor this 1 1 (Examples.v4 1 1 1 1) = Some this' /\
    pixel this' 1 1 = Examples.v4 1 1 1 1 /\
    pixel this' 0 1 = pixel this 0 1.
Proof.
  intros this.
  destruct (fillColor_round_trip this 1 1 (Examples.v4 1 1 1 1))
    as (this' & Hfill & _ & _ & Hsame & Hother).
  - cbn. lia.
  - cbn. lia.
  - vm_compute. discriminate.
  - reflexivity.
  - exists this'. split; [exact Hfill|]. split; [exact Hsame|].
    apply Hother; [cbn; lia | cbn; lia | discriminate].
Defined.

(** Resizing the 2 x 2 image to 2 x 3 gives six entries. *)
Lemma resizeImage_keeps_old_colours_witness :
  let this :=
    Renderer_new (Examples.flat_volume 7 100) (Examples.gradients 0 50)
      Examples.camera0
      (Examples.config_for RenderMIP 2 2 false Examples.white_table
         F32.zero) in
  Z.of_nat (length (m_frameBuffer (resizeImage this (2, 3)))) = 2 * 3.
Proof.
  intros this.
  apply (resizeImage_keeps_old_colours this (2, 3)).
  split; cbn; unfold int_max; lia.
Defined.

(** The constructor for an image of 2 x 2 pixels. *)
Lemma frame_buffer_fits_resolution_witness :
  frame_buffer_ok
    (Renderer_new (Examples.flat_volume 7 100) (Examples.gradients 0 50)
       Examples.camera0
       (Examples.config_for RenderMIP 2 2 false Examples.white_table
          F32.zero)).
Proof.
  apply (proj1 frame_buffer_fits_resolution).
  split; cbn; unfold int_max; lia.
Defined.

(** Maximum intensity projection of a volume that is 7 everywhere, seen by
    the camera that looks along z: of the four pixels only (1, 1) has a ray
    through the volume; it gets the grey level [7 / 100], and pixel (0, 0)
    stays transparent black. *)
Lemma render_computes_every_pixel_witness :
  let this :=
    Renderer_new (Examples.flat_volume 7 100) (Examples.gradients 0 50)
      Examples.camera0
      (Examples.config_for RenderMIP 2 2 false Examples.white_table
         F32.zero) in
  let level := (F32.of_Z 7 / F32.of_Z 100)%f32 in
  exists this' : RendererObject,
    render Examples.scene_z 10 this = Some this' /\
    pixel this' 1 1 = Vec4 level level level F32.one /\
    pixel this' 0 0 = glm.splat4 F32.zero.
Proof.
  intros this level.
  destruct (render_computes_every_pixel Examples.scene_z 10
              (mkBounds (glm.splat3 F32.zero) (Examples.v3 1 1 1)) this)
    as (this' & Hrun & _ & _ & Hpix).
  - reflexivity.
  - vm_compute. discriminate.
  - reflexivity.
  - intros x y Hx Hy. cbn in Hx, Hy.
    assert (Hxs : x = 0 \/ x = 1) by lia.
    assert (Hys : y = 0 \/ y = 1) by lia.
    destruct Hxs as [-> | ->], Hys as [-> | ->]; vm_compute; discriminate.
  - exists this'. split; [exact Hrun|]. split.
    + rewrite Hpix by (cbn; lia). reflexivity.
    + rewrite Hpix by (cbn; lia). reflexivity.
Defined.

(** On the ramp volume (scalar = x) the ray sampled at x = 0, 1, 2, 3 has
    the maximum 3. *)
Lemma traceRayMIP_is_the_maximum_witness :
  let self := Examples.renderer_of (Examples.ramp_volume 100)
                (Examples.config_with Examples.white_table 0 255 F32.zero) in
  exists m : float,
    traceRayMIP self 10 Examples.ray_x F32.one = Some (mip_result self m) /\
    (ray_sample self Examples.ray_x F32.one 3 <=? m)%f32 = true.
Proof.
  intros self.
  destruct (traceRayMIP_is_the_maximum self Examples.ray_x F32.one 4 10)
    as (m & Hrun & _ & _ & Hall).
  - lia.
  - split; [|reflexivity].
    intros j Hj. destruct j as [|[|[|[|j]]]]; [reflexivity .. | lia].
  - intros j Hj. destruct j as [|[|[|[|j]]]]; [reflexivity .. | lia].
  - exists m. split; [exact Hrun|]. apply Hall. lia.
Defined.

(** On the volume with the scalars 5, NaN, 1, 1 along the ray, the
    maximum is taken over the samples after the NaN. *)
Lemma traceRayMIP_restarts_after_nan_witness :
  let self := Examples.renderer_of Examples.spike_volume
                (Examples.config_with Examples.white_table 0 255 F32.zero) in
  exists m : float,
    traceRayMIP self 10 Examples.ray_x F32.one = Some (mip_result self m) /\
    exists j, (1 < j < 4)%nat /\ m = ray_sample self Examples.ray_x F32.one j.
Proof.
  intros self.
  destruct (traceRayMIP_restarts_after_nan self Examples.ray_x F32.one 1 4 10)
    as (m & Hrun & _ & Hrest).
  - lia.
  - split; [|reflexivity].
    intros j Hj. destruct j as [|[|[|[|j]]]]; [reflexivity .. | lia].
  - lia.
  - reflexivity.
  - intros j Hj. destruct j as [|[|[|[|j]]]]; try lia; reflexivity.
  - exists m. split; [exact Hrun|]. apply Hrest. lia.
Defined.


(** Shading with the gradient (0, 0, 0). *)
Lemma computePhongShading_zero_gradient_witness :
  F32.isnan
    (glm.dot (glm.normalize (dir Examples.zero_gradient))
       (Examples.v3 1 0 0)) = true.
Proof.
  apply (computePhongShading_zero_gradient (Examples.v3 1 1 1)
           Examples.zero_gradient (Examples.v3 1 0 0) (Examples.v3 0 0 1)
           F32.zero F32.one F32.zero F32.one false false false).
  reflexivity.
Defined.

(** On the ramp volume with isovalue 95 and the ray sampled at x = 94, 95,
    96, ..., the shaded tracer leaves at the second iteration, whose next
    sample is 96. *)
Lemma traceRayISO_shaded_witness :
  let self :=
    Examples.renderer_of (Examples.ramp_volume 100)
      (Examples.config_for RenderIso 2 2 true Examples.white_table
         F32.zero) in
  let t := fst (sample_point Examples.ray_far F32.one 1) in
  let preciseT :=
    bisectionAccuracy self Examples.ray_far t (t + F32.one)%f32
                      (isoValue (m_config self)) in
  traceRayISO self 10 Examples.ray_far F32.one
  = Some
      (glm.vec4_of
         (phongAt self Examples.ray_far
            (glm.add3 (origin Examples.ray_far)
               (glm.smul3 preciseT (direction Examples.ray_far)))
            isoColor)
         F32.one).
Proof.
  intros self t preciseT.
  destruct (traceRayISO_shaded self Examples.ray_far F32.one eq_refl)
    as [Hhit _].
  apply (Hhit 1%nat 10%nat).
  - lia.
  - intros j Hj. destruct j as [|[|j]]; [reflexivity .. | lia].
  - intros j Hj. destruct j as [|j]; [split; reflexivity | lia].
  - reflexivity.
Defined.

(** The ray along z through the middle of the unit box enters at 1 and
    leaves at 2. *)
Lemma instersectRayVolumeBounds_hit_interval_witness :
  fst (instersectRayVolumeBounds Examples.ray_through Examples.unit_box)
  = true /\
  snd (instersectRayVolumeBounds Examples.ray_through Examples.unit_box)
  = mkRay (origin Examples.ray_through)
          (direction Examples.ray_through) F32.one F32.two.
Proof.
  destruct (instersectRayVolumeBounds_hit_interval Examples.ray_through
              Examples.unit_box) as [Hiff Hhit]; try reflexivity.
  split; [apply Hiff; reflexivity|].
  apply (proj1 (Hhit (proj2 Hiff eq_refl))).
Defined.



(** The Combined tracer with [gamma = 1] on the step volume. *)
Lemma traceRayCombined_gamma_one_is_MIP_witness :
  let self := Examples.renderer_of Examples.step_volume
                (Examples.config_with Examples.step_table 0 255 F32.one) in
  traceRayCombined self 10 Examples.ray_x F32.one
  = traceRayMIP self 10 Examples.ray_x F32.one.
Proof.
  intros self.
  apply (traceRayCombined_gamma_one_is_MIP self Examples.ray_x F32.one 10);
    [reflexivity | reflexivity | | split; reflexivity | ].
  - intros pos. cbn [self Examples.renderer_of m_pVolume Examples.step_volume
                     getSampleInterpolate].
    destruct (x3 pos <? Examples.half)%f32; reflexivity.
  - intros pos. cbn [self Examples.renderer_of m_pVolume Examples.step_volume
                     getSampleInterpolate maximum].
    destruct (x3 pos <? Examples.half)%f32; split; reflexivity.
Defined.

(** The Combined tracer with [gamma = -1] on the step volume. *)
Lemma traceRayCombined_gamma_minus_one_is_Composite_witness :
  let self := Examples.renderer_of Examples.step_volume
                (Examples.config_with Examples.step_table 0 255
                   (F32.neg F32.one)) in
  exists c : vec4,
    traceRayCombined self 10 Examples.ray_x F32.one = Some c /\
      traceRayComposite self 10 Examples.ray_x F32.one = Some c.
Proof.
  intros self.
  destruct (traceRayCombined self 10 Examples.ray_x F32.one) as [c|] eqn:Hrun;
    [|vm_compute in Hrun; discriminate Hrun].
  exists c. split; [reflexivity|]. revert c Hrun.
  apply (traceRayCombined_gamma_minus_one_is_Composite self Examples.ray_x
           F32.one);
    [reflexivity | reflexivity | | split; reflexivity | ].
  - intros pos. cbn [self Examples.renderer_of m_pVolume Examples.step_volume
                     getSampleInterpolate].
    destruct (x3 pos <? Examples.half)%f32; reflexivity.
  - intros pos. cbn [self Examples.renderer_of m_pVolume Examples.step_volume
                     getSampleInterpolate maximum].
    destruct (x3 pos <? Examples.half)%f32; split; reflexivity.
Defined.

(** Maximum intensity projection of the ramp volume. *)
Lemma traceRayMIP_normalised_witness :
  let self := Examples.renderer_of Examples.step_volume
                (Examples.config_with Examples.white_table 0 255 F32.zero) in
  exists c : vec4,
    traceRayMIP self 10 Examples.ray_x F32.one = Some c /\
      exists level : float,
        c = Vec4 level level level F32.one /\ in_unit_interval level = true.
Proof.
  intros self.
  destruct (traceRayMIP self 10 Examples.ray_x F32.one) as [c|] eqn:Hrun;
    [|vm_compute in Hrun; discriminate Hrun].
  exists c. split; [reflexivity|]. revert c Hrun.
  apply (traceRayMIP_normalised self Examples.ray_x F32.one);
    [split; reflexivity|].
  intros pos. cbn [self Examples.renderer_of m_pVolume Examples.step_volume
                   getSampleInterpolate maximum].
  destruct (x3 pos <? Examples.half)%f32; split; reflexivity.
Defined.

(** For the triangle with apex intensity 100 and radius 10, the intensity
    90 is at the lower end of the span. *)
Lemma getTF2DOpacity_outside_triangle_witness :
  let self := Examples.renderer_of (Examples.flat_volume 0 100)
                (Examples.config_with Examples.white_table 0 255 F32.zero) in
  getTF2DOpacity self (F32.of_Z 90) (F32.of_Z 25) = F32.zero.
Proof.
  intros self.
  apply (getTF2DOpacity_outside_triangle self (F32.of_Z 90) (F32.of_Z 25)).
  left. reflexivity.
Defined.

(** The ray that [instersectRayVolumeBounds] leaves for the ray in the face
    of the box has a NaN as [tmin]: its interval is empty. *)
Lemma tracers_on_an_empty_interval_witness :
  let self := Examples.renderer_of (Examples.flat_volume 7 100)
                (Examples.config_with Examples.white_table 0 255 F32.zero) in
  let ray :=
    snd (instersectRayVolumeBounds Examples.ray_in_face Examples.unit_box) in
  traceRayComposite self 0 ray F32.one = Some (glm.splat4 F32.zero) /\
  traceRayMIP self 0 ray F32.one = Some (mip_result self F32.zero).
Proof.
  intros self ray.
  destruct (tracers_on_an_empty_interval self ray F32.one 0 eq_refl)
    as (Hc & _ & _ & _ & Hm & _).
  split; [exact Hc | exact Hm].
Defined.
(** The Composite and MIDA tracers on the step volume and the table that
    is opaque white in its first entry and transparent elsewhere; the ray
    is sampled at x = 0, 1, 2, 3. *)
Lemma traceRayComposite_weighted_colour_witness :
  let self := Examples.renderer_of Examples.step_volume
                (Examples.config_with Examples.step_table 0 255 F32.zero) in
  exists c : vec4,
    traceRayComposite self 10 Examples.ray_x F32.one = Some c /\
    colour_in_unit_interval c = true /\
    (x4 c <=? w4 c)%f32 = true /\ (y4 c <=? w4 c)%f32 = true /\
    (z4 c <=? w4 c)%f32 = true.
Proof.
  intros self.
  refine (proj1 (traceRayComposite_weighted_colour self Examples.ray_x F32.one
                   eq_refl _) 4%nat 10%nat _ _).
  - intros pos. cbn [self Examples.renderer_of m_pVolume Examples.step_volume
                     getSampleInterpolate].
    destruct (x3 pos <? Examples.half)%f32; reflexivity.
  - lia.
  - split; [|reflexivity].
    intros j Hj. destruct j as [|[|[|[|j]]]]; [reflexivity .. | lia].
Defined.

Lemma traceRayMIDA_weighted_colour_witness :
  let self := Examples.renderer_of Examples.step_volume
                (Examples.config_with Examples.step_table 0 255 F32.zero) in
  exists c : vec4,
    traceRayMIDA self 10 Examples.ray_x F32.one = Some c /\
    colour_in_unit_interval c = true /\
    (x4 c <=? w4 c)%f32 = true /\ (y4 c <=? w4 c)%f32 = true /\
    (z4 c <=? w4 c)%f32 = true.
Proof.
  intros self.
  refine (proj1 (traceRayMIDA_weighted_colour self Examples.ray_x F32.one
                   eq_refl _ (conj eq_refl eq_refl) _) 4%nat 10%nat _ _).
  - intros pos. cbn [self Examples.renderer_of m_pVolume Examples.step_volume
                     getSampleInterpolate].
    destruct (x3 pos <? Examples.half)%f32; reflexivity.
  - intros pos. cbn [self Examples.renderer_of m_pVolume Examples.step_volume
                     getSampleInterpolate maximum].
    destruct (x3 pos <? Examples.half)%f32; split; reflexivity.
  - lia.
  - split; [|reflexivity].
    intros j Hj. destruct j as [|[|[|[|j]]]]; [reflexivity .. | lia].
Defined.

(** The Combined tracer with [gamma = 1/2] on the step volume. *)
Lemma traceRayCombined_colour_in_unit_interval_witness :
  let self := Examples.renderer_of Examples.step_volume
                (Examples.config_with Examples.step_table 0 255
                   Examples.half) in
  exists c : vec4,
    traceRayCombined self 10 Examples.ray_x F32.one = Some c /\
    colour_in_unit_interval c = true.
Proof.
  intros self.
  refine (proj1 (traceRayCombined_colour_in_unit_interval self Examples.ray_x
                   F32.one eq_refl eq_refl _ (conj eq_refl eq_refl) _)
            4%nat 10%nat _ _).
  - intros pos. cbn [self Examples.renderer_of m_pVolume Examples.step_volume
                     getSampleInterpolate].
    destruct (x3 pos <? Examples.half)%f32; reflexivity.
  - intros pos. cbn [self Examples.renderer_of m_pVolume Examples.step_volume
                     getSampleInterpolate maximum].
    destruct (x3 pos <? Examples.half)%f32; split; reflexivity.
  - lia.
  - split; [|reflexivity].
    intros j Hj. destruct j as [|[|[|[|j]]]]; [reflexivity .. | lia].
Defined.

(** The 2D transfer function on a volume that is 100 everywhere with
    gradient magnitude 25: every sample has opacity 1. *)
Lemma traceRayTF2D_scales_the_colour_witness :
  let self :=
    mkRenderer (Examples.flat_volume 100 100)
      (Examples.gradients_of 25 0 50) Examples.camera0
      (Examples.config_with Examples.white_table 0 255 F32.zero) in
  exists a : float,
    in_unit_interval a = true /\
    traceRayTF2D self 10 Examples.ray_x F32.one
    = Some (glm.muls4 (TF2DColor (m_config self)) a).
Proof.
  intros self.
  refine (proj1 (proj2 (traceRayTF2D_scales_the_colour self Examples.ray_x
                          F32.one eq_refl _)) 4%nat 10%nat _ _).
  - intros pos. reflexivity.
  - lia.
  - split; [|reflexivity].
    intros j Hj. destruct j as [|[|[|[|j]]]]; [reflexivity .. | lia].
Defined.
End MoreOnX86_64.
